(** * decoder-ring: a shallow embedding of [main.go] and of the library
    routines it calls, with the properties stated for the transforms.

    Bytes are [Byte.byte]; a Go [[]byte] or [string] is a [list byte].
    Unsigned fixed-width arithmetic is done in [Z] with the wrap-around
    written out ([u8], [u32]).  A Go function returning [([]byte, error)]
    returns a [result]: the pair it returns, or [Panic] when a slice index
    would be out of range. *)

From Stdlib Require Import ZArith List Lia Bool Strings.Byte Strings.String.
From stdpp Require Import base option list strings gmap sorting.
Import ListNotations.
Local Open Scope Z_scope.

(** ** Bytes and fixed-width integers *)

Definition byte_val (b : byte) : Z := Z.of_N (Byte.to_N b).

(** Go's conversion [byte(x)] of an unsigned integer: the low eight bits. *)
Definition byte_of (z : Z) : byte :=
  match Byte.of_N (Z.to_N (z mod 256)) with
  | Some b => b
  | None => x00
  end.

Definition u8 (z : Z) : Z := z mod 2 ^ 8.
Definition u16 (z : Z) : Z := z mod 2 ^ 16.
Definition u32 (z : Z) : Z := z mod 2 ^ 32.
Definition u64 (z : Z) : Z := z mod 2 ^ 64.

(** A string literal as the byte sequence Go stores for it. *)
Definition bs (s : string) : list byte := list_byte_of_string s.

Definition byte_eqb (a b : byte) : bool := Byte.eqb a b.

#[global] Instance byte_eq_dec : EqDecision byte := Byte.byte_eq_dec.

(** [make([]byte, n)]: [n] zero bytes. *)
Definition make (n : nat) : list byte := replicate n x00.

(** [tbl[i]] for a table given as a byte string; the tables below are
    only indexed inside their length. *)
Definition index_tbl (tbl : list byte) (i : Z) : byte :=
  nth (Z.to_nat i) tbl x00.

(** A library routine that fills [dst] from index 0 with [out]: the
    bytes beyond stay as they were, and writing past the end of [dst] is an
    index-out-of-range panic ([None]). *)
Definition fill (dst out : list byte) : option (list byte) :=
  if (length out <=? length dst)%nat
  then Some (out ++ drop (length out) dst)
  else None.

(** ** Errors and results *)

Inductive num_err := ErrSyntax | ErrRange.

Inductive error :=
| hex_InvalidByteError (b : byte)
| hex_ErrLength
| base32_CorruptInputError (off : Z)
| base64_CorruptInputError (off : Z)
| strconv_ErrSyntax
| strconv_NumError (func : string) (num : list byte) (e : num_err)
| url_EscapeError (s : list byte)
| external_error (pkg : string) (detail : list byte).

Inductive result :=
| Ret (dst : list byte) (err : option error)
| Panic.

(** [type modeFunc = func([]byte) ([]byte, error)] *)
Definition modeFunc := list byte -> result.

(** ** rot13 (main.go, the only transform written out in the program)

    [dst = src[:0]] shares the backing array of [src], so each [append]
    stores into the array the loop is still reading.  [rot13_loop] keeps
    that array as its state: iteration [i] reads [arr[i]] and then stores
    the rotated byte at index [len(dst) = i]. *)

Definition rot13_byte (b : byte) : byte :=
  let v := byte_val b in
  if (65 <=? v) && (v <=? 90) then
    let n := u8 (u8 (v - 65) + 13) mod 26 in
    byte_of (u8 (65 + n))
  else if (97 <=? v) && (v <=? 122) then
    let n := u8 (u8 (v - 97) + 13) mod 26 in
    byte_of (u8 (97 + n))
  else b.

Fixpoint rot13_loop (todo : nat) (i : nat) (arr : list byte) : list byte :=
  match todo with
  | O => arr
  | S todo' =>
      match arr !! i with
      | Some b => rot13_loop todo' (S i) (<[i := rot13_byte b]> arr)
      | None => arr
      end
  end.

Definition rot13 (src : list byte) : result :=
  let arr := rot13_loop (length src) 0 src in
  Ret (take (length src) arr) None.

(** ** Go standard library: bit operators

    Shifts and masks are written as in the Go sources; a shift of a
    [uint8] or [uint32] operand is wrapped with [u8] or [u32] where Go
    discards the high bits. *)

Infix ".<<" := Z.shiftl (at level 40, left associativity).
Infix ".>>" := Z.shiftr (at level 40, left associativity).
Infix ".|" := Z.lor (at level 50, left associativity).
Infix ".&" := Z.land (at level 40, left associativity).

Definition is_newline (c : byte) : bool :=
  byte_eqb c x0a || byte_eqb c x0d.

(** [decodeMap] of the base32 and base64 encodings: 256 entries set to
    0xFF, then [decodeMap[encoder[i]] = uint8(i)] for each [i] in turn. *)
Fixpoint build_decodeMap (encoder : list byte) (i : Z) (m : byte -> Z) : byte -> Z :=
  match encoder with
  | [] => m
  | c :: encoder' =>
      build_decodeMap encoder' (i + 1) (fun x => if byte_eqb x c then u8 i else m x)
  end.

(** ** Go standard library, package encoding/hex *)

Module hex.

Definition hextable : list byte := bs "0123456789abcdef".

(** [reverseHexTable]: the digit value of a hexadecimal character, 0xff
    for every other byte. *)
Definition reverseHexTable (c : byte) : Z :=
  let v := byte_val c in
  if (48 <=? v) && (v <=? 57) then v - 48
  else if (97 <=? v) && (v <=? 102) then v - 97 + 10
  else if (65 <=? v) && (v <=? 70) then v - 65 + 10
  else 255.

Definition EncodedLen (n : nat) : nat := n * 2.
Definition DecodedLen (x : nat) : nat := x / 2.

(** The bytes [Encode] stores: [dst[j] = hextable[v>>4]],
    [dst[j+1] = hextable[v&0x0f]] for each [v] of [src]. *)
Fixpoint encode_bytes (src : list byte) : list byte :=
  match src with
  | [] => []
  | v :: src' =>
      index_tbl hextable (byte_val v .>> 4)
        :: index_tbl hextable (byte_val v .& 15)
        :: encode_bytes src'
  end.

(** [Encode(dst, src) int] *)
Definition Encode (dst src : list byte) : option (list byte * nat) :=
  dst' ← fill dst (encode_bytes src);
  Some (dst', (length src * 2)%nat).

(** The loop of [Decode] over the pairs [src[j-1], src[j]], then the
    check of an odd trailing byte: the bytes stored and the error. *)
Fixpoint decode_bytes (src : list byte) : list byte * option error :=
  match src with
  | [] => ([], None)
  | [p] =>
      if 15 <? reverseHexTable p
      then ([], Some (hex_InvalidByteError p))
      else ([], Some hex_ErrLength)
  | p :: q :: src' =>
      let a := reverseHexTable p in
      let b := reverseHexTable q in
      if 15 <? a then ([], Some (hex_InvalidByteError p))
      else if 15 <? b then ([], Some (hex_InvalidByteError q))
      else
        let '(out, err) := decode_bytes src' in
        (byte_of (u8 (a .<< 4) .| b) :: out, err)
  end.

(** [Decode(dst, src) (int, error)] *)
Definition Decode (dst src : list byte) : option (list byte * nat * option error) :=
  let '(out, err) := decode_bytes src in
  dst' ← fill dst out;
  Some (dst', length out, err).

End hex.

(** ** Go standard library, package encoding/base64 *)

Module base64.

(** [type Encoding]: the 64-character alphabet, the padding character
    ([None] for [NoPadding]) and the strict flag. *)
Record Encoding := {
  encode : list byte;
  padChar : option byte;
  strict : bool
}.

Definition decodeMap (enc : Encoding) : byte -> Z :=
  build_decodeMap (encode enc) 0 (fun _ => 255).

Definition NewEncoding (encoder : list byte) : Encoding :=
  {| encode := encoder; padChar := Some x3d; strict := false |}.

Definition StdEncoding : Encoding :=
  NewEncoding (bs "ABCDEFGHIJKLMNOPQRSTUVWXYZabcdefghijklmnopqrstuvwxyz0123456789+/").
Definition URLEncoding : Encoding :=
  NewEncoding (bs "ABCDEFGHIJKLMNOPQRSTUVWXYZabcdefghijklmnopqrstuvwxyz0123456789-_").

Definition is_pad (enc : Encoding) (c : byte) : bool :=
  match padChar enc with
  | Some p => byte_eqb c p
  | None => false
  end.

(** What [NewEncoding] and [WithPadding] demand of an encoding, else
    they panic: 64 distinct symbols, none of them a newline, and a
    padding character that is neither a symbol nor a newline. *)
Definition valid (enc : Encoding) : bool :=
  (length (encode enc) =? 64)%nat
  && forallb (fun i => decodeMap enc (index_tbl (encode enc) i) =? i)
       (map Z.of_nat (seq 0 64))
  && forallb (fun c => negb (is_newline c)) (encode enc)
  && match padChar enc with
     | Some p => (decodeMap enc p =? 255) && negb (is_newline p)
     | None => true
     end.

Definition pads (enc : Encoding) (n : nat) : list byte :=
  match padChar enc with
  | Some p => replicate n p
  | None => []
  end.

Definition EncodedLen (enc : Encoding) (n : nat) : nat :=
  match padChar enc with
  | None => n / 3 * 4 + (n mod 3 * 8 + 5) / 6
  | Some _ => (n + 2) / 3 * 4
  end.

Definition DecodedLen (enc : Encoding) (n : nat) : nat :=
  match padChar enc with
  | None => n / 4 * 3 + n mod 4 * 6 / 8
  | Some _ => n / 4 * 3
  end.

(** The bytes [Encode] stores: full groups of three source bytes, then
    the remaining one or two bytes with their padding. *)
Fixpoint encode_bytes (enc : Encoding) (src : list byte) : list byte :=
  let e := index_tbl (encode enc) in
  match src with
  | [] => []
  | [s0] =>
      let val := byte_val s0 .<< 16 in
      e (val .>> 18 .& 63) :: e (val .>> 12 .& 63) :: pads enc 2
  | [s0; s1] =>
      let val := byte_val s0 .<< 16 .| byte_val s1 .<< 8 in
      e (val .>> 18 .& 63) :: e (val .>> 12 .& 63) :: e (val .>> 6 .& 63)
        :: pads enc 1
  | s0 :: s1 :: s2 :: src' =>
      let val := byte_val s0 .<< 16 .| byte_val s1 .<< 8 .| byte_val s2 in
      e (val .>> 18 .& 63) :: e (val .>> 12 .& 63) :: e (val .>> 6 .& 63)
        :: e (val .& 63) :: encode_bytes enc src'
  end.

(** [func (enc *Encoding) Encode(dst, src []byte)] *)
Definition Encode (enc : Encoding) (dst src : list byte) : option (list byte) :=
  fill dst (encode_bytes enc src).

(** What the scanning loop of [decodeQuantum] ends with: an early
    [return si, 0, err], or the fall through to the conversion with the
    symbols read so far. *)
Inductive scan :=
| Return (si : Z) (err : option error)
| Convert (si : Z) (dlen : nat) (dbuf : list Z) (err : option error).

Fixpoint skip_newlines (rest : list byte) (si : Z) : list byte * Z :=
  match rest with
  | c :: rest' =>
      if is_newline c then skip_newlines rest' (si + 1) else (rest, si)
  | [] => (rest, si)
  end.

(** The loop [for j := 0; j < len(dbuf); j++] of [decodeQuantum], on
    [rest = src[si:]]; [srclen] is [len(src)].  Every iteration consumes
    one byte of [rest]; a newline keeps [j]. *)
Fixpoint scan_loop (enc : Encoding) (srclen : Z) (rest : list byte) (si : Z)
    (j : nat) (dbuf : list Z) : scan * list byte :=
  match rest with
  | [] =>
      if (j =? 0)%nat then (Return si None, rest)
      else if (j =? 1)%nat || bool_decide (is_Some (padChar enc))
      then (Return si (Some (base64_CorruptInputError (si - Z.of_nat j))), rest)
      else (Convert si j dbuf None, rest)
  | inb :: rest' =>
      let si := si + 1 in
      let out := decodeMap enc inb in
      if negb (out =? 255) then
        let dbuf := <[j := out]> dbuf in
        if (S j =? 4)%nat then (Convert si 4 dbuf None, rest')
        else scan_loop enc srclen rest' si (S j) dbuf
      else if is_newline inb then scan_loop enc srclen rest' si j dbuf
      else if negb (is_pad enc inb)
      then (Return si (Some (base64_CorruptInputError (si - 1))), rest')
      else
        match j with
        | 0%nat | 1%nat =>
            (Return si (Some (base64_CorruptInputError (si - 1))), rest')
        | 2%nat =>
            let '(rest2, si2) := skip_newlines rest' si in
            match rest2 with
            | [] => (Return si2 (Some (base64_CorruptInputError srclen)), rest2)
            | c :: rest3 =>
                if negb (is_pad enc c)
                then (Return si2 (Some (base64_CorruptInputError (si2 - 1))), rest2)
                else
                  let '(rest4, si4) := skip_newlines rest3 (si2 + 1) in
                  (Convert si4 j dbuf
                     (match rest4 with
                      | [] => None
                      | _ :: _ => Some (base64_CorruptInputError si4)
                      end), rest4)
            end
        | _ =>
            let '(rest4, si4) := skip_newlines rest' si in
            (Convert si4 j dbuf
               (match rest4 with
                | [] => None
                | _ :: _ => Some (base64_CorruptInputError si4)
                end), rest4)
        end
  end.

(** The conversion of [decodeQuantum]: four 6-bit symbols into three
    bytes, of which [dlen - 1] are stored; with [strict] the unused low
    bits must be zero. *)
Definition convert (enc : Encoding) (si : Z) (dlen : nat) (dbuf : list Z)
    (err : option error) : Z * list byte * option error :=
  let d k := nth k dbuf 0 in
  let val := d 0%nat .<< 18 .| d 1%nat .<< 12 .| d 2%nat .<< 6 .| d 3%nat in
  let b2 := byte_of (val .>> 0) in
  let b1 := byte_of (val .>> 8) in
  let b0 := byte_of (val .>> 16) in
  match dlen with
  | 4%nat => (si, [b0; b1; b2], err)
  | 3%nat =>
      if strict enc && negb (byte_eqb b2 x00)
      then (si, [], Some (base64_CorruptInputError (si - 1)))
      else (si, [b0; b1], err)
  | 2%nat =>
      if strict enc && (negb (byte_eqb b1 x00) || negb (byte_eqb b2 x00))
      then (si, [], Some (base64_CorruptInputError (si - 2)))
      else (si, [b0], err)
  | _ => (si, [], err)
  end.

(** [decodeQuantum(dst, src, si) (nsi, n int, err error)], with the
    bytes it stores in place of [n], and the unread rest of [src]. *)
Definition decodeQuantum (enc : Encoding) (srclen : Z) (rest : list byte) (si : Z)
    : Z * list byte * option error * list byte :=
  match scan_loop enc srclen rest si 0 [0; 0; 0; 0] with
  | (Return nsi err, rest') => (nsi, [], err, rest')
  | (Convert nsi dlen dbuf err, rest') => (convert enc nsi dlen dbuf err, rest')
  end.

(** The loop [for si < len(src)] of [Decode].  The two loops before it
    in the Go source take eight or four bytes at once when all of them
    are symbols of the alphabet, and call [decodeQuantum] otherwise; they
    store what [decodeQuantum] stores for the same bytes.  A quantum
    consumes at least one byte, so [fuel = len(src)] iterations are
    enough. *)
Fixpoint decode_loop (enc : Encoding) (fuel : nat) (srclen : Z) (rest : list byte)
    (si : Z) : list byte * option error :=
  match fuel with
  | O => ([], None)
  | S fuel' =>
      match rest with
      | [] => ([], None)
      | _ :: _ =>
          let '(nsi, out, err, rest') := decodeQuantum enc srclen rest si in
          match err with
          | Some _ => (out, err)
          | None =>
              let '(out', err') := decode_loop enc fuel' srclen rest' nsi in
              (out ++ out', err')
          end
      end
  end.

(** [func (enc *Encoding) Decode(dst, src []byte) (n int, err error)] *)
Definition Decode (enc : Encoding) (dst src : list byte)
    : option (list byte * nat * option error) :=
  let '(out, err) :=
    decode_loop enc (length src) (Z.of_nat (length src)) src 0 in
  dst' ← fill dst out;
  Some (dst', length out, err).

End base64.

(** ** Go standard library, package encoding/base32 *)

Module base32.

(** [type Encoding]: the 32-character alphabet and the padding
    character ([None] for [NoPadding]). *)
Record Encoding := {
  encode : list byte;
  padChar : option byte
}.

Definition decodeMap (enc : Encoding) : byte -> Z :=
  build_decodeMap (encode enc) 0 (fun _ => 255).

(** [NewEncoding] pads with [StdPadding], the character ['=']. *)
Definition NewEncoding (encoder : list byte) : Encoding :=
  {| encode := encoder; padChar := Some x3d |}.

Definition StdEncoding : Encoding :=
  NewEncoding (bs "ABCDEFGHIJKLMNOPQRSTUVWXYZ234567").
Definition HexEncoding : Encoding :=
  NewEncoding (bs "0123456789ABCDEFGHIJKLMNOPQRSTUV").

Definition is_pad (enc : Encoding) (c : byte) : bool :=
  match padChar enc with
  | Some p => byte_eqb c p
  | None => false
  end.

(** What [NewEncoding] and [WithPadding] demand of an encoding, else
    they panic: 32 distinct symbols, none of them a newline, and a
    padding character that is neither a symbol nor a newline. *)
Definition valid (enc : Encoding) : bool :=
  (length (encode enc) =? 32)%nat
  && forallb (fun i => decodeMap enc (index_tbl (encode enc) i) =? i)
       (map Z.of_nat (seq 0 32))
  && forallb (fun c => negb (is_newline c)) (encode enc)
  && match padChar enc with
     | Some p => (decodeMap enc p =? 255) && negb (is_newline p)
     | None => true
     end.

Definition padded (enc : Encoding) : bool :=
  match padChar enc with
  | Some _ => true
  | None => false
  end.

Definition EncodedLen (enc : Encoding) (n : nat) : nat :=
  match padChar enc with
  | None => n / 5 * 8 + (n mod 5 * 8 + 4) / 5
  | Some _ => (n + 4) / 5 * 8
  end.

Definition DecodedLen (enc : Encoding) (n : nat) : nat :=
  match padChar enc with
  | None => n / 8 * 5 + n mod 8 * 5 / 8
  | Some _ => n / 8 * 5
  end.

(** The final fragment of [Encode]: [remain] source bytes, 1 to 4, are
    gathered into [val] by the [switch] that falls through from
    [case remain] down to [case 1]; the symbols stored are those of the
    cases run, and [nPad = remain*8/5 + 1] symbols precede the padding. *)
Definition encode_tail (enc : Encoding) (src : list byte) : list byte :=
  let e := index_tbl (encode enc) in
  let s k := byte_val (nth k src x00) in
  let remain := length src in
  let val := 0 in
  let val := if (4 <=? remain)%nat then val .| s 3%nat else val in
  let d6 := e (u32 (val .<< 3) .& 31) in
  let d5 := e (val .>> 2 .& 31) in
  let val := if (3 <=? remain)%nat then val .| s 2%nat .<< 8 else val in
  let d4 := e (val .>> 7 .& 31) in
  let val := if (2 <=? remain)%nat then val .| s 1%nat .<< 16 else val in
  let d3 := e (val .>> 12 .& 31) in
  let d2 := e (val .>> 17 .& 31) in
  let val := val .| s 0%nat .<< 24 in
  let d1 := e (val .>> 22 .& 31) in
  let d0 := e (val .>> 27 .& 31) in
  let nPad := (remain * 8 / 5 + 1)%nat in
  let syms := take nPad [d0; d1; d2; d3; d4; d5; d6] in
  match padChar enc with
  | Some p => syms ++ replicate (8 - nPad) p
  | None => syms
  end.

(** The bytes [Encode] stores: eight symbols for each full group of
    five source bytes, then the final fragment. *)
Fixpoint encode_bytes (enc : Encoding) (src : list byte) : list byte :=
  let e := index_tbl (encode enc) in
  match src with
  | [] => []
  | s0 :: s1 :: s2 :: s3 :: s4 :: src' =>
      let hi := byte_val s0 .<< 24 .| byte_val s1 .<< 16
                .| byte_val s2 .<< 8 .| byte_val s3 in
      let lo := u32 (hi .<< 8) .| byte_val s4 in
      e (hi .>> 27 .& 31) :: e (hi .>> 22 .& 31) :: e (hi .>> 17 .& 31)
        :: e (hi .>> 12 .& 31) :: e (hi .>> 7 .& 31) :: e (hi .>> 2 .& 31)
        :: e (lo .>> 5 .& 31) :: e (lo .& 31) :: encode_bytes enc src'
  | _ => encode_tail enc src
  end.

(** [func (enc *Encoding) Encode(dst, src []byte)] *)
Definition Encode (enc : Encoding) (dst src : list byte) : option (list byte) :=
  fill dst (encode_bytes enc src).

(** [stripNewlines(dst, src)]: [src] without its ['\r'] and ['\n']. *)
Definition stripNewlines (src : list byte) : list byte :=
  filter (fun b => is_newline b = false) src.

(** What the loop [for j := 0; j < 8;] of [decode] ends with: a
    [return n, false, err], or a quantum of [dlen] symbols, [end] telling
    whether the input ended in this quantum. *)
Inductive scan :=
| Fail (err : error)
| Quantum (dlen : nat) (dbuf : list Z) (end_ : bool).

(** The check of the padding that follows the first padding
    character: [for k := 0; k < 8-1-j; k++], on the bytes [src[k:]] left. *)
Fixpoint check_padding (enc : Encoding) (olen : Z) (lensrc : Z)
    (count : nat) (k : Z) (src_k : list byte) : option error :=
  match count with
  | O => None
  | S count' =>
      match src_k with
      | c :: src_k' =>
          if negb (is_pad enc c)
          then Some (base32_CorruptInputError (olen - lensrc + k - 1))
          else check_padding enc olen lensrc count' (k + 1) src_k'
      | [] => check_padding enc olen lensrc count' (k + 1) []
      end
  end.

(** The loop [for j := 0; j < 8;] on the rest [src] of the input.
    [olen] is the length of the whole stripped input. *)
Fixpoint scan_loop (enc : Encoding) (olen : Z) (src : list byte)
    (j : nat) (dbuf : list Z) : scan * list byte :=
  match src with
  | [] =>
      if padded enc
      then (Fail (base32_CorruptInputError (olen - 0 - Z.of_nat j)), [])
      else (Quantum j dbuf true, [])
  | inb :: src' =>
      let lensrc := Z.of_nat (length src') in
      if is_pad enc inb && (2 <=? j)%nat && (lensrc <? 8) then
        if lensrc + Z.of_nat j <? 8 - 1
        then (Fail (base32_CorruptInputError olen), src')
        else
          match check_padding enc olen lensrc (8 - 1 - j) 0 src' with
          | Some err => (Fail err, src')
          | None =>
              if (j =? 1)%nat || (j =? 3)%nat || (j =? 6)%nat
              then (Fail (base32_CorruptInputError (olen - lensrc - 1)), src')
              else (Quantum j dbuf true, src')
          end
      else
        let out := decodeMap enc inb in
        if out =? 255
        then (Fail (base32_CorruptInputError (olen - lensrc - 1)), src')
        else
          let dbuf := <[j := out]> dbuf in
          if (S j =? 8)%nat then (Quantum 8 dbuf false, src')
          else scan_loop enc olen src' (S j) dbuf
  end.

(** The [switch dlen] that packs the 5-bit symbols into bytes; the
    cases fall through, so [dlen] symbols give the first bytes of the
    quantum and the stores are of [uint8] values. *)
Definition pack (dlen : nat) (dbuf : list Z) : list byte :=
  let d k := nth k dbuf 0 in
  let b4 := byte_of (u8 (d 6%nat .<< 5) .| d 7%nat) in
  let b3 := byte_of (u8 (d 4%nat .<< 7) .| u8 (d 5%nat .<< 2) .| d 6%nat .>> 3) in
  let b2 := byte_of (u8 (d 3%nat .<< 4) .| d 4%nat .>> 1) in
  let b1 := byte_of (u8 (d 1%nat .<< 6) .| u8 (d 2%nat .<< 1) .| d 3%nat .>> 4) in
  let b0 := byte_of (u8 (d 0%nat .<< 3) .| d 1%nat .>> 2) in
  match dlen with
  | 8%nat => [b0; b1; b2; b3; b4]
  | 7%nat => [b0; b1; b2; b3]
  | 5%nat => [b0; b1; b2]
  | 4%nat => [b0; b1]
  | 2%nat => [b0]
  | _ => []
  end.

(** [func (enc *Encoding) decode(dst, src []byte) (n int, end bool, err error)]:
    the loop [for len(src) > 0 && !end].  A quantum consumes at least
    one byte, so [fuel = len(src)] iterations are enough. *)
Fixpoint decode (enc : Encoding) (fuel : nat) (olen : Z) (src : list byte)
    : list byte * option error :=
  match fuel with
  | O => ([], None)
  | S fuel' =>
      match src with
      | [] => ([], None)
      | _ :: _ =>
          match scan_loop enc olen src 0 [0; 0; 0; 0; 0; 0; 0; 0] with
          | (Fail err, _) => ([], Some err)
          | (Quantum dlen dbuf end_, src') =>
              let out := pack dlen dbuf in
              if end_ then (out, None)
              else
                let '(out', err) := decode enc fuel' olen src' in
                (out ++ out', err)
          end
      end
  end.

(** [func (enc *Encoding) Decode(dst, src []byte) (n int, err error)] *)
Definition Decode (enc : Encoding) (dst src : list byte)
    : option (list byte * nat * option error) :=
  let buf := stripNewlines src in
  let '(out, err) := decode enc (length buf) (Z.of_nat (length buf)) buf in
  dst' ← fill dst out;
  Some (dst', length out, err).

End base32.

(** ** Library routines left abstract

    The Unicode tables, the HTML entity table, the hex dumper, the JSON
    parser, the quoted-printable codec, the half-precision conversions and
    the reading of hexadecimal floating-point literals are outside this
    development: the transforms that use them take them
    from an instance of [Externs].  No property below assumes anything of
    them. *)

Class Externs := {
  (** [unicode.To(unicode.UpperCase, r)], used for [r > unicode.MaxASCII] *)
  unicode_To_UpperCase : Z -> Z;
  (** [unicode.IsPrint] *)
  unicode_IsPrint : Z -> bool;
  (** [runenames.Name] *)
  runenames_Name : Z -> list byte;
  (** [hex.Dump] *)
  hex_Dump : list byte -> list byte;
  (** [html.UnescapeString] *)
  html_UnescapeString : list byte -> list byte;
  (** [json.Unmarshal] of a text into a [*string] *)
  json_Unmarshal_string : list byte -> list byte * option error;
  (** [quotedprintable.Writer]: [Write] then [Close] *)
  quotedprintable_Write_Close : list byte -> list byte * option error;
  (** [io.ReadAll] of a [quotedprintable.Reader] *)
  quotedprintable_ReadAll : list byte -> list byte * option error;
  (** [float16.Frombits(x).Float32()], as the bits of the [float32] *)
  float16_Frombits_Float32 : Z -> Z;
  (** [float16.Fromfloat32(f).Bits()], from the bits of [f] *)
  float16_Fromfloat32_Bits : Z -> Z;
  (** [strconv.ParseFloat(s, 32)] for an [s] with a hexadecimal mantissa
      or with underscores: the bits of the [float32] and the error *)
  strconv_ParseFloat32_other : list byte -> Z * option num_err
}.

(** ** Go standard library, package unicode/utf8 *)

Module utf8.

Definition RuneError : Z := 65533.
Definition RuneSelf : Z := 128.
Definition MaxRune : Z := 1114111.
Definition surrogateMin : Z := 55296.
Definition surrogateMax : Z := 57343.
Definition rune1Max : Z := 127.
Definition rune2Max : Z := 2047.
Definition rune3Max : Z := 65535.

(** [first[b]]: what a first byte announces; [0xF0] is ASCII ([as]),
    [0xF1] an invalid first byte ([xx]), else the low three bits are the
    size and the high four the index into [acceptRanges]. *)
Definition first (b : Z) : Z :=
  if b <? 128 then 240
  else if b <? 194 then 241
  else if b <? 224 then 2
  else if b =? 224 then 19
  else if b <? 237 then 3
  else if b =? 237 then 35
  else if b <? 240 then 3
  else if b =? 240 then 52
  else if b <? 244 then 4
  else if b =? 244 then 68
  else 241.

(** [acceptRanges[i]]: the range of a valid second byte. *)
Definition acceptRanges (i : Z) : Z * Z :=
  if i =? 0 then (128, 191)
  else if i =? 1 then (160, 191)
  else if i =? 2 then (128, 159)
  else if i =? 3 then (144, 191)
  else if i =? 4 then (128, 143)
  else (0, 0).

(** [DecodeRune(p) (r rune, size int)], also [DecodeRuneInString]. *)
Definition DecodeRune (p : list byte) : Z * nat :=
  match p with
  | [] => (RuneError, 0%nat)
  | c0 :: p1 =>
      let p0 := byte_val c0 in
      let x := first p0 in
      if 240 <=? x then
        let mask := if Z.testbit x 0 then (-1) else 0 in
        (Z.ldiff p0 mask .| RuneError .& mask, 1%nat)
      else
        let sz := Z.to_nat (x .& 7) in
        let '(lo, hi) := acceptRanges (x .>> 4) in
        if (length p <? sz)%nat then (RuneError, 1%nat)
        else
          let b1 := byte_val (nth 0 p1 x00) in
          if (b1 <? lo) || (hi <? b1) then (RuneError, 1%nat)
          else if (sz <=? 2)%nat then
            ((p0 .& 31) .<< 6 .| b1 .& 63, 2%nat)
          else
            let b2 := byte_val (nth 1 p1 x00) in
            if (b2 <? 128) || (191 <? b2) then (RuneError, 1%nat)
            else if (sz <=? 3)%nat then
              ((p0 .& 15) .<< 12 .| (b1 .& 63) .<< 6 .| b2 .& 63, 3%nat)
            else
              let b3 := byte_val (nth 2 p1 x00) in
              if (b3 <? 128) || (191 <? b3) then (RuneError, 1%nat)
              else
                ((p0 .& 7) .<< 18 .| (b1 .& 63) .<< 12 .| (b2 .& 63) .<< 6
                 .| b3 .& 63, 4%nat)
  end.

(** [ValidRune(r)] *)
Definition ValidRune (r : Z) : bool :=
  ((0 <=? r) && (r <? surrogateMin)) || ((surrogateMax <? r) && (r <=? MaxRune)).

(** The bytes [AppendRune(p, r)] appends to [p]; [uint32(r)] makes a
    negative [r] larger than [MaxRune]. *)
Definition encode_rune (r : Z) : list byte :=
  let i := u32 r in
  if i <=? rune1Max then [byte_of r]
  else if i <=? rune2Max then
    [byte_of (192 .| u8 (r .>> 6)); byte_of (128 .| u8 r .& 63)]
  else
    let r3 := if (MaxRune <? i) || ((surrogateMin <=? i) && (i <=? surrogateMax))
              then RuneError else r in
    if (MaxRune <? i) || ((surrogateMin <=? i) && (i <=? surrogateMax))
       || (i <=? rune3Max)
    then
      [byte_of (224 .| u8 (r3 .>> 12)); byte_of (128 .| u8 (r3 .>> 6) .& 63);
       byte_of (128 .| u8 r3 .& 63)]
    else
      [byte_of (240 .| u8 (r .>> 18)); byte_of (128 .| u8 (r .>> 12) .& 63);
       byte_of (128 .| u8 (r .>> 6) .& 63); byte_of (128 .| u8 r .& 63)].

Definition AppendRune (p : list byte) (r : Z) : list byte := p ++ encode_rune r.

(** The runes of a string with their encodings, as
    [for i, r := range s] meets them: each step is a [DecodeRune] of the
    rest, and takes at least one byte. *)
Fixpoint runes_fuel (fuel : nat) (s : list byte) : list (Z * list byte) :=
  match fuel with
  | O => []
  | S fuel' =>
      match s with
      | [] => []
      | _ :: _ =>
          let '(r, size) := DecodeRune s in
          (r, take size s) :: runes_fuel fuel' (drop size s)
      end
  end.

Definition runes (s : list byte) : list (Z * list byte) :=
  runes_fuel (length s) s.

(** [ValidString(s)]: no byte of [s] decodes to the error of width 1. *)
Definition ValidString (s : list byte) : bool :=
  forallb (fun '(r, enc) => negb ((r =? RuneError) && (length enc =? 1)%nat))
    (runes s).

(** [RuneCount(p)] *)
Definition RuneCount (p : list byte) : nat := length (runes p).

End utf8.

(** ** Go standard library, package unicode *)

Module unicode.

Definition MaxASCII : Z := 127.

(** [ToUpper(r)] *)
Definition ToUpper `{Externs} (r : Z) : Z :=
  if r <=? MaxASCII then
    if (97 <=? r) && (r <=? 122) then r - (97 - 65) else r
  else unicode_To_UpperCase r.

(** [IsSpace(r)]: the Latin-1 spaces, then the White_Space table. *)
Definition IsSpace (r : Z) : bool :=
  if u32 r <=? 255 then
    (r =? 9) || (r =? 10) || (r =? 11) || (r =? 12) || (r =? 13) || (r =? 32)
    || (r =? 133) || (r =? 160)
  else
    (r =? 5760) || ((8192 <=? r) && (r <=? 8202)) || (r =? 8232) || (r =? 8233)
    || (r =? 8239) || (r =? 8287) || (r =? 12288).

End unicode.

(** ** Go standard library, package bytes *)

Module bytes.

(** [Map(mapping, s)] *)
Definition Map (mapping : Z -> Z) (s : list byte) : list byte :=
  flat_map (fun '(r, _) =>
              let r := mapping r in
              if 0 <=? r then utf8.encode_rune r else [])
    (utf8.runes s).

(** [ToUpper(s)]: the loop that looks for a byte outside ASCII and for
    a lower-case letter, then the ASCII copy or the mapping of runes. *)
Definition ToUpper `{Externs} (s : list byte) : list byte :=
  let isASCII := forallb (fun c => byte_val c <? utf8.RuneSelf) s in
  let hasLower := existsb (fun c => (97 <=? byte_val c) && (byte_val c <=? 122)) s in
  if isASCII then
    if negb hasLower then s
    else map (fun c => if (97 <=? byte_val c) && (byte_val c <=? 122)
                       then byte_of (u8 (byte_val c - (97 - 65))) else c) s
  else Map unicode.ToUpper s.

Fixpoint HasPrefix (s prefix : list byte) {struct prefix} : bool :=
  match prefix, s with
  | [], _ => true
  | p :: prefix', c :: s' => byte_eqb c p && HasPrefix s' prefix'
  | _ :: _, [] => false
  end.

(** [Index(s, sep)]: the first index at which [sep] occurs in [s]. *)
Fixpoint Index (s sep : list byte) : option nat :=
  if HasPrefix s sep then Some 0%nat
  else
    match s with
    | [] => None
    | _ :: s' => S <$> Index s' sep
    end.

(** [Count(s, sep)] for a non-empty [sep]: the occurrences that do not
    overlap, each found by [Index] in what follows the one before. *)
Fixpoint count_fuel (fuel : nat) (s sep : list byte) : nat :=
  match fuel with
  | O => 0
  | S fuel' =>
      match Index s sep with
      | None => 0
      | Some i => S (count_fuel fuel' (drop (i + length sep) s) sep)
      end
  end.

Definition Count (s sep : list byte) : nat :=
  match sep with
  | [] => utf8.RuneCount s + 1
  | _ :: _ => count_fuel (length s) s sep
  end.

(** The loop [for i := 0; i < n; i++] of [Replace] and the final copy,
    on [s[start:]]; [i0] tells whether this is the iteration [i = 0]. *)
Fixpoint replace_loop (n : nat) (i0 : bool) (s old new : list byte) : list byte :=
  match n with
  | O => s
  | S n' =>
      let j :=
        match old with
        | [] => if i0 then 0%nat else snd (utf8.DecodeRune s)
        | _ :: _ => default 0%nat (Index s old)
        end in
      take j s ++ new ++ replace_loop n' false (drop (j + length old) s) old new
  end.

(** [Replace(s, old, new, n)] *)
Definition Replace (s old new : list byte) (n : Z) : list byte :=
  let m := if n =? 0 then 0%nat else Count s old in
  if (m =? 0)%nat then s
  else
    let n := if (n <? 0) || (Z.of_nat m <? n) then m else Z.to_nat n in
    replace_loop n true s old new.

End bytes.

(** ** Go standard library, package strconv: quoting and integers *)

Module strconv.

Definition lowerhex : list byte := bs "0123456789abcdef".

(** [IsPrint(r)]: the Latin-1 range is decided in place, the rest by
    the tables. *)
Definition IsPrint `{Externs} (r : Z) : bool :=
  if r <=? 255 then
    if (32 <=? r) && (r <=? 126) then true
    else if (161 <=? r) && (r <=? 255) then negb (r =? 173)
    else false
  else unicode_IsPrint r.

(** The [\uXXXX] and [\UXXXXXXXX] digits:
    [for s := top; s >= 0; s -= 4 { lowerhex[r>>uint(s)&0xF] }]. *)
Definition hex_digits (r : Z) (shifts : list Z) : list byte :=
  map (fun s => index_tbl lowerhex (r .>> s .& 15)) shifts.

(** The bytes [appendEscapedRune(buf, r, quote, ASCIIonly, graphicOnly)]
    appends, with [graphicOnly = false]. *)
Definition escaped_rune `{Externs} (r : Z) (quote : byte) (ASCIIonly : bool)
    : list byte :=
  if (r =? byte_val quote) || (r =? 92) then [x5c; byte_of r]
  else if ASCIIonly && ((r <? utf8.RuneSelf) && IsPrint r) then [byte_of r]
  else if negb ASCIIonly && IsPrint r then utf8.encode_rune r
  else if r =? 7 then bs "\a"
  else if r =? 8 then bs "\b"
  else if r =? 12 then bs "\f"
  else if r =? 10 then bs "\n"
  else if r =? 13 then bs "\r"
  else if r =? 9 then bs "\t"
  else if r =? 11 then bs "\v"
  else if (r <? 32) || (r =? 127) then
    bs "\x" ++ [index_tbl lowerhex (u8 r .>> 4); index_tbl lowerhex (u8 r .& 15)]
  else
    let r' := if negb (utf8.ValidRune r) then 65533 else r in
    if negb (utf8.ValidRune r) || (r <? 65536)
    then bs "\u" ++ hex_digits r' [12; 8; 4; 0]
    else bs "\U" ++ hex_digits r [28; 24; 20; 16; 12; 8; 4; 0].

(** The loop of [appendQuotedWith] over the runes of [s]: a byte that
    is not the start of a valid encoding is written as [\xNN]. *)
Definition quoted_body `{Externs} (s : list byte) (quote : byte) (ASCIIonly : bool)
    : list byte :=
  flat_map (fun '(r, enc) =>
              if (length enc =? 1)%nat && (r =? utf8.RuneError) then
                let c := byte_val (nth 0 enc x00) in
                bs "\x" ++ [index_tbl lowerhex (c .>> 4); index_tbl lowerhex (c .& 15)]
              else escaped_rune r quote ASCIIonly)
    (utf8.runes s).

(** [QuoteToASCII(s)] *)
Definition QuoteToASCII `{Externs} (s : list byte) : list byte :=
  x22 :: quoted_body s x22 true ++ [x22].

(** [unhex(b)] *)
Definition unhex (b : byte) : option Z :=
  let c := byte_val b in
  if (48 <=? c) && (c <=? 57) then Some (c - 48)
  else if (97 <=? c) && (c <=? 102) then Some (c - 97 + 10)
  else if (65 <=? c) && (c <=? 70) then Some (c - 65 + 10)
  else None.

(** The loop [for j := 0; j < n; j++ { v = v<<4 | x }] of
    [UnquoteChar]. *)
Fixpoint unhex_digits (n : nat) (s : list byte) (v : Z) : option Z :=
  match n with
  | O => Some v
  | S n' =>
      match s with
      | [] => None
      | c :: s' =>
          match unhex c with
          | Some x => unhex_digits n' s' (v .<< 4 .| x)
          | None => None
          end
      end
  end.

(** [UnquoteChar(s, quote) (value rune, multibyte bool, tail string, err error)];
    [None] is [ErrSyntax]. *)
Definition UnquoteChar (s : list byte) (quote : byte) : option (Z * bool * list byte) :=
  match s with
  | [] => None
  | c0 :: s1 =>
      let c := byte_val c0 in
      if byte_eqb c0 quote && (byte_eqb quote x27 || byte_eqb quote x22) then None
      else if utf8.RuneSelf <=? c then
        let '(r, size) := utf8.DecodeRune s in
        Some (r, true, drop size s)
      else if negb (c =? 92) then Some (c, false, s1)
      else
        match s1 with
        | [] => None
        | c1 :: s2 =>
            let c := byte_val c1 in
            if c =? 97 then Some (7, false, s2)
            else if c =? 98 then Some (8, false, s2)
            else if c =? 102 then Some (12, false, s2)
            else if c =? 110 then Some (10, false, s2)
            else if c =? 114 then Some (13, false, s2)
            else if c =? 116 then Some (9, false, s2)
            else if c =? 118 then Some (11, false, s2)
            else if (c =? 120) || (c =? 117) || (c =? 85) then
              let n := if c =? 120 then 2%nat else if c =? 117 then 4%nat else 8%nat in
              if (length s2 <? n)%nat then None
              else
                match unhex_digits n s2 0 with
                | None => None
                | Some v =>
                    if c =? 120 then Some (v, false, drop n s2)
                    else if negb (utf8.ValidRune v) then None
                    else Some (v, true, drop n s2)
                end
            else if (48 <=? c) && (c <=? 55) then
              let v := c - 48 in
              match s2 with
              | d1 :: d2 :: s3 =>
                  let x1 := byte_val d1 - 48 in
                  let x2 := byte_val d2 - 48 in
                  if (x1 <? 0) || (7 <? x1) || (x2 <? 0) || (7 <? x2) then None
                  else
                    let v := (v .<< 3 .| x1) .<< 3 .| x2 in
                    if 255 <? v then None else Some (v, false, s3)
              | _ => None
              end
            else if c =? 92 then Some (92, false, s2)
            else if (c =? 39) || (c =? 34) then
              if negb (byte_eqb c1 quote) then None else Some (c, false, s2)
            else None
        end
  end.

Definition contains (s : list byte) (c : byte) : bool :=
  existsb (fun x => byte_eqb x c) s.

(** The loop [for len(in) > 0 && in[0] != quote] of [unquote]: the
    bytes appended to [buf] and the rest of the input, or [None] for
    [ErrSyntax].  Each [UnquoteChar] takes at least one byte. *)
Fixpoint unquote_loop (fuel : nat) (s : list byte) (quote : byte)
    : option (list byte * list byte) :=
  match fuel with
  | O => Some ([], s)
  | S fuel' =>
      match s with
      | [] => Some ([], s)
      | c :: _ =>
          if byte_eqb c quote then Some ([], s)
          else
            match UnquoteChar s quote with
            | None => None
            | Some (r, multibyte, rem) =>
                if byte_eqb c x0a then None
                else
                  let out := if (r <? utf8.RuneSelf) || negb multibyte
                             then [byte_of r] else utf8.encode_rune r in
                  if byte_eqb quote x27 then Some (out, rem)
                  else
                    match unquote_loop fuel' rem quote with
                    | None => None
                    | Some (out', rem') => Some (out ++ out', rem')
                    end
            end
      end
  end.

(** [unquote(in, unescape) (out, rem string, err error)] with
    [unescape = true]; [None] is [ErrSyntax].  A text with no backslash
    and no newline up to the closing quote is returned as it is when it is
    valid; every other text goes through the loop. *)
Definition unquote (s : list byte) : option (list byte * list byte) :=
  if (length s <? 2)%nat then None
  else
    match s with
    | [] => None
    | quote :: s1 =>
        match bytes.Index s1 [quote] with
        | None => None
        | Some e =>
            let end_ := (e + 2)%nat in
            if byte_eqb quote x60 then
              Some (filter (fun c => c <> x0d) (take e s1), drop end_ s)
            else if byte_eqb quote x22 || byte_eqb quote x27 then
              let inner := take e s1 in
              let valid :=
                if byte_eqb quote x22 then utf8.ValidString inner
                else
                  let '(r, n) := utf8.DecodeRune inner in
                  (1 + n + 1 =? end_)%nat
                  && (negb (r =? utf8.RuneError) || negb (n =? 1)%nat) in
              if negb (contains (take end_ s) x5c) && negb (contains (take end_ s) x0a)
                 && valid
              then Some (inner, drop end_ s)
              else
                match unquote_loop (length s1) s1 quote with
                | None => None
                | Some (buf, rest) =>
                    match rest with
                    | c :: rest' =>
                        if byte_eqb c quote then Some (buf, rest') else None
                    | [] => None
                    end
                end
            else None
        end
    end.

(** [Unquote(s) (string, error)] *)
Definition Unquote (s : list byte) : list byte * option error :=
  match unquote s with
  | None => ([], Some strconv_ErrSyntax)
  | Some (out, rem) =>
      match rem with
      | [] => (out, None)
      | _ :: _ => ([], Some strconv_ErrSyntax)
      end
  end.

(** [lower(c)]: [c | ('x' - 'X')] *)
Definition lower (c : Z) : Z := c .| 32.

(** The loop of [ParseUint] over the bytes of [s], for a base from 2
    to 36 given explicitly (no prefix, no underscore): the value, or the
    kind of error. *)
Fixpoint parse_uint_loop (s : list byte) (base : Z) (cutoff maxVal n : Z)
    : Z * option num_err :=
  match s with
  | [] => (n, None)
  | c0 :: s' =>
      let c := byte_val c0 in
      let d := if (48 <=? c) && (c <=? 57) then Some (u8 (c - 48))
               else if (97 <=? lower c) && (lower c <=? 122)
                    then Some (u8 (u8 (lower c - 97) + 10))
                    else None in
      match d with
      | None => (0, Some ErrSyntax)
      | Some d =>
          if u8 base <=? d then (0, Some ErrSyntax)
          else if cutoff <=? n then (maxVal, Some ErrRange)
          else
            let n := u64 (n * base) in
            let n1 := u64 (n + d) in
            if (n1 <? n) || (maxVal <? n1) then (maxVal, Some ErrRange)
            else parse_uint_loop s' base cutoff maxVal n1
      end
  end.

(** [ParseUint(s, base, bitSize) (uint64, error)], for
    [2 <= base <= 36] and [0 < bitSize <= 64]. *)
Definition ParseUint (s : list byte) (base bitSize : Z) : Z * option error :=
  match s with
  | [] => (0, Some (strconv_NumError "ParseUint" s ErrSyntax))
  | _ :: _ =>
      let maxUint64 := 2 ^ 64 - 1 in
      let cutoff := maxUint64 / base + 1 in
      let maxVal := u64 (u64 (1 .<< bitSize) - 1) in
      match parse_uint_loop s base cutoff maxVal 0 with
      | (n, None) => (n, None)
      | (n, Some e) => (n, Some (strconv_NumError "ParseUint" s e))
      end
  end.

(** *** Floating point: [float32] values are their 32 bits

    A [float32] is kept as its IEEE-754 bit pattern, a [Z] below
    [2^32], so [math.Float32bits] and [math.Float32frombits] are the
    identity.  A finite value is handled exactly, as a quotient of two
    integers; no rounding happens but the one written out in
    [round_float]. *)

(** [type floatInfo] and [float32info] *)
Record floatInfo := { mantbits : Z; expbits : Z; bias : Z }.
Definition float32info : floatInfo :=
  {| mantbits := 23; expbits := 8; bias := -127 |}.

Definition pow10 (k : Z) : Z := 10 ^ k.

(** The position of the leading bit of the positive quotient [n/den]:
    the [e] with [2^e <= n/den < 2^(e+1)] when the quotient is 1 or more,
    a negative number otherwise. *)
Definition floor_log2 (n den : Z) : Z :=
  let e0 := Z.log2 n - Z.log2 den in
  if (0 <=? e0) && (n <? den * 2 ^ e0) then e0 - 1 else e0.

(** The integer nearest to the quotient [n/den], the even one of the
    two when the quotient is halfway. *)
Definition rne (n den : Z) : Z :=
  let q := n / den in
  let r := n mod den in
  if (den <? 2 * r) || ((den =? 2 * r) && Z.odd q) then q + 1 else q.

(** The float nearest to the positive quotient [num/den], ties to the
    even mantissa (IEEE-754 unbiased rounding): its bits without the
    sign, and whether the value is too large for the format, in which
    case the bits are those of the infinity.  The quotient is counted in
    units of the smallest subnormal, [n0/den] of them; [e] is the position
    of its leading bit, so that [2^j] units separate the floats around
    it. *)
Definition round_float (flt : floatInfo) (num den : Z) : Z * bool :=
  let n0 := num * 2 ^ (mantbits flt - (bias flt + 1)) in
  let e := floor_log2 n0 den in
  let j := Z.max (e - mantbits flt) 0 in
  let q := rne n0 (den * 2 ^ j) in
  let carry := q =? 2 ^ (mantbits flt + 1) in
  let q := if carry then 2 ^ mantbits flt else q in
  let j := if carry then j + 1 else j in
  if q <? 2 ^ mantbits flt then (q, false)
  else
    let biased := j + 1 in
    if 2 ^ expbits flt - 1 <=? biased
    then ((2 ^ expbits flt - 1) .<< mantbits flt, true)
    else (biased .<< mantbits flt .| (q - 2 ^ mantbits flt), false).

Definition sign_bit (flt : floatInfo) (neg : bool) : Z :=
  if neg then 1 .<< (expbits flt + mantbits flt) else 0.

(** The bits of the float nearest to [(-1)^neg * mant * 10^exp10]. *)
Definition decimal_to_bits (flt : floatInfo) (neg : bool) (mant exp10 : Z)
    : Z * bool :=
  if mant =? 0 then (sign_bit flt neg, false)
  else
    let '(b, ovf) :=
      if 0 <=? exp10 then round_float flt (mant * pow10 exp10) 1
      else round_float flt mant (pow10 (- exp10)) in
    (sign_bit flt neg .| b, ovf).

Definition is_digit (c : byte) : bool := (48 <=? byte_val c) && (byte_val c <=? 57).

(** [commonPrefixLenIgnoreCase(s, prefix)], [prefix] in lower case. *)
Fixpoint commonPrefixLenIgnoreCase (s prefix : list byte) : nat :=
  match s, prefix with
  | c :: s', p :: prefix' =>
      let c := if (65 <=? byte_val c) && (byte_val c <=? 90)
               then byte_of (byte_val c + 32) else c in
      if byte_eqb c p then S (commonPrefixLenIgnoreCase s' prefix') else 0%nat
  | _, _ => 0%nat
  end.

(** [special(s)] for the format [flt]: the bits of an infinity or of
    the NaN, and the number of bytes read. *)
Definition special (flt : floatInfo) (s : list byte) : option (Z * nat) :=
  let inf := (2 ^ expbits flt - 1) .<< mantbits flt in
  let infinity (neg : bool) (nsign : nat) (s : list byte) :=
    let n := commonPrefixLenIgnoreCase s (bs "infinity") in
    let n := if (3 <? n)%nat && (n <? 8)%nat then 3%nat else n in
    if (n =? 3)%nat || (n =? 8)%nat
    then Some (sign_bit flt neg .| inf, (nsign + n)%nat) else None in
  match s with
  | [] => None
  | c :: s' =>
      if byte_eqb c "+"%byte then infinity false 1%nat s'
      else if byte_eqb c "-"%byte then infinity true 1%nat s'
      else if byte_eqb c "i"%byte || byte_eqb c "I"%byte then infinity false 0%nat s
      else if byte_eqb c "n"%byte || byte_eqb c "N"%byte then
        if (commonPrefixLenIgnoreCase s (bs "nan") =? 3)%nat
        then Some (inf .| 1 .<< (mantbits flt - 1), 3%nat) else None
      else None
  end.

(** The digits and the point of a decimal mantissa, as the loop of
    [readFloat] reads them: the digits as one integer, how many of them
    follow the point, whether a point and a digit were seen, and the rest
    of the input. *)
Fixpoint read_mantissa (s : list byte) (mant fracdigits : Z) (sawdot sawdigits : bool)
    : Z * Z * bool * list byte :=
  match s with
  | c :: s' =>
      if byte_eqb c "."%byte then
        if sawdot then (mant, fracdigits, sawdigits, s)
        else read_mantissa s' mant fracdigits true sawdigits
      else if is_digit c then
        read_mantissa s' (mant * 10 + (byte_val c - 48))
          (if sawdot then fracdigits + 1 else fracdigits) sawdot true
      else (mant, fracdigits, sawdigits, s)
  | [] => (mant, fracdigits, sawdigits, s)
  end.

(** The digits of the exponent: [if e < 10000 { e = e*10 + int(s[i]) - '0' }]. *)
Fixpoint read_exponent (s : list byte) (e : Z) : Z * list byte :=
  match s with
  | c :: s' =>
      if is_digit c
      then read_exponent s' (if e <? 10000 then e * 10 + (byte_val c - 48) else e)
      else (e, s)
  | [] => (e, s)
  end.

(** [readFloat(s)] for a decimal mantissa without underscores: the
    sign, the digits as an integer and the power of ten, when the whole of
    [s] is such a literal. *)
Definition readFloat (s : list byte) : option (bool * Z * Z) :=
  let '(neg, s1) :=
    match s with
    | c :: s' =>
        if byte_eqb c "+"%byte then (false, s')
        else if byte_eqb c "-"%byte then (true, s')
        else (false, s)
    | [] => (false, s)
    end in
  let '(mant, fracdigits, sawdigits, s2) := read_mantissa s1 0 0 false false in
  if negb sawdigits then None
  else
    match s2 with
    | [] => Some (neg, mant, - fracdigits)
    | c :: s3 =>
        if negb (lower (byte_val c) =? 101) then None
        else
          let '(esign, s4) :=
            match s3 with
            | c :: s' =>
                if byte_eqb c "+"%byte then (1, s')
                else if byte_eqb c "-"%byte then (-1, s')
                else (1, s3)
            | [] => (1, s3)
            end in
          match s4 with
          | d :: _ =>
              if negb (is_digit d) then None
              else
                match read_exponent s4 0 with
                | (e, []) => Some (neg, mant, e * esign - fracdigits)
                | (_, _ :: _) => None
                end
          | [] => None
          end
    end.

(** Whether [readFloat] would read a hexadecimal mantissa, or meet an
    underscore: those literals are left to [strconv_ParseFloat32_other]. *)
Definition hex_or_underscore (s : list byte) : bool :=
  let s1 :=
    match s with
    | c :: s' => if byte_eqb c "+"%byte || byte_eqb c "-"%byte then s' else s
    | [] => s
    end in
  match s1 with
  | c0 :: c1 :: _ :: _ =>
      (byte_eqb c0 "0"%byte && (lower (byte_val c1) =? 120)) || contains s "_"%byte
  | _ => contains s "_"%byte
  end.

(** [ParseFloat(s, 32)], as the bits of the [float32] that the
    [float64] it returns holds, and the error. *)
Definition ParseFloat32 `{Externs} (s : list byte) : Z * option error :=
  let err e := Some (strconv_NumError "ParseFloat" s e) in
  match special float32info s with
  | Some (b, n) => if (n =? length s)%nat then (b, None) else (0, err ErrSyntax)
  | None =>
      if hex_or_underscore s then
        match strconv_ParseFloat32_other s with
        | (b, None) => (b, None)
        | (b, Some e) => (b, err e)
        end
      else
        match readFloat s with
        | None => (0, err ErrSyntax)
        | Some (neg, mant, exp10) =>
            match decimal_to_bits float32info neg mant exp10 with
            | (b, true) => (b, err ErrRange)
            | (b, false) => (b, None)
            end
        end
  end.

(** The decimal digits of a positive integer, the most significant
    first. *)
Fixpoint digits_fuel (fuel : nat) (n : Z) (acc : list Z) : list Z :=
  match fuel with
  | O => acc
  | S fuel' => if n <=? 0 then acc else digits_fuel fuel' (n / 10) (n mod 10 :: acc)
  end.

Definition digits (n : Z) : list Z := digits_fuel (S (Z.to_nat (Z.log2 n))) n [].

Fixpoint strip_zeros (rev_digits : list Z) : list Z :=
  match rev_digits with
  | 0 :: l => strip_zeros l
  | _ => rev_digits
  end.

(** [type decimalSlice]: the digits [d], and the position [dp] of the
    decimal point; the value is [0.d1d2... * 10^dp]. *)
Record decimalSlice := { d : list Z; dp : Z }.
Definition nd (ds : decimalSlice) : Z := Z.of_nat (length (d ds)).

(** The number of zeros between the point and the first digit of a
    quotient below 1. *)
Fixpoint leading_zeros (fuel : nat) (num den : Z) : Z :=
  match fuel with
  | O => 0
  | S fuel' => if den <=? 10 * num then 0 else 1 + leading_zeros fuel' (10 * num) den
  end.

(** The position of the decimal point of the positive quotient
    [num/den]: the [k] with [10^(k-1) <= num/den < 10^k]. *)
Definition point_of (num den : Z) : Z :=
  if den <=? num then Z.of_nat (length (digits (num / den)))
  else - leading_zeros (S (Z.to_nat (Z.log2 den))) num den.

(** [t * 10^p * den] compared with [y]. *)
Definition cmp_scaled (t p den y : Z) : comparison :=
  if 0 <=? p then t * pow10 p * den ?= y else t * den ?= y * pow10 (- p).

(** The shortest decimal that reads back as the float, as
    [roundShortest] finds it.  [x/den] is the float, [lo/den] and [up/den]
    are the halfway points to its neighbours, which belong to the float
    when [inclusive].  Position after position, from the first digit of
    [up], the float is cut to [t * 10^p]: the cut is taken if it is not
    below the lower halfway point, the cut plus one unit if that is not
    above the upper one, the nearer of the two (on a tie the even one) if
    both are. *)
Fixpoint shortest_loop (fuel : nat) (x lo up den : Z) (inclusive : bool) (p : Z)
    : Z * Z :=
  let t := if 0 <=? p then x / (den * pow10 p) else x * pow10 (- p) / den in
  let okdown :=
    match cmp_scaled t p den lo with
    | Gt => true
    | Eq => inclusive
    | Lt => false
    end in
  let okup :=
    match cmp_scaled (t + 1) p den up with
    | Lt => true
    | Eq => inclusive
    | Gt => false
    end in
  let nearest :=
    match cmp_scaled (2 * t + 1) p den (2 * x) with
    | Lt => t + 1
    | Eq => if Z.odd t then t + 1 else t
    | Gt => t
    end in
  if okdown && okup then (nearest, p)
  else if okdown then (t, p)
  else if okup then (t + 1, p)
  else
    match fuel with
    | O => (t, p)
    | S fuel' => shortest_loop fuel' x lo up den inclusive (p - 1)
    end.

(** [roundShortest(d, mant, exp, flt)], from the mantissa with its
    implicit bit and the unbiased exponent, so that the float is
    [mant * 2^(exp - mantbits)].  The float and the halfway points are
    counted in quarters of the smallest subnormal, [2^k2] of which make 1. *)
Definition roundShortest (mant exp : Z) (flt : floatInfo) : decimalSlice :=
  if mant =? 0 then {| d := []; dp := 0 |}
  else
    let minexp := bias flt + 1 in
    let k2 := mantbits flt - minexp + 2 in
    let den := 2 ^ k2 in
    let scale := 2 ^ (exp - minexp) in
    let x := 4 * mant * scale in
    let up := (4 * mant + 2) * scale in
    let lo := if (2 ^ mantbits flt <? mant) || (exp =? minexp)
              then (4 * mant - 2) * scale else (4 * mant - 1) * scale in
    let inclusive := Z.even mant in
    let k := point_of up den in
    let fuel := Z.to_nat (Z.max k 0 + k2) in
    let '(t, p) := shortest_loop fuel x lo up den inclusive (k - 1) in
    let ds := digits t in
    {| d := rev (strip_zeros (rev ds)); dp := Z.of_nat (length ds) + p |}.

Definition digit_char (v : Z) : byte := byte_of (v + 48).

(** [fmtE(dst, neg, d, prec, 'e')] *)
Definition fmtE (neg : bool) (ds : decimalSlice) (prec : Z) : list byte :=
  let sign := if neg then ["-"%byte] else [] in
  let first := match d ds with [] => "0"%byte | c :: _ => digit_char c end in
  let more :=
    if 0 <? prec then
      let m := Z.min (nd ds) (prec + 1) in
      "."%byte :: map digit_char (drop 1 (take (Z.to_nat m) (d ds)))
        ++ replicate (Z.to_nat (prec + 1 - Z.max m 1)) "0"%byte
    else [] in
  let exp := if nd ds =? 0 then 0 else dp ds - 1 in
  let esign := if exp <? 0 then "-"%byte else "+"%byte in
  let exp := Z.abs exp in
  let edigits :=
    if exp <? 10 then ["0"%byte; digit_char exp]
    else if exp <? 100 then [digit_char (exp / 10); digit_char (exp mod 10)]
    else [digit_char (exp / 100); digit_char (u8 (exp / 10) mod 10);
          digit_char (exp mod 10)] in
  sign ++ [first] ++ more ++ ["e"%byte; esign] ++ edigits.

(** [fmtF(dst, neg, d, prec)] *)
Definition fmtF (neg : bool) (ds : decimalSlice) (prec : Z) : list byte :=
  let sign := if neg then ["-"%byte] else [] in
  let int_part :=
    if 0 <? dp ds then
      let m := Z.min (nd ds) (dp ds) in
      map digit_char (take (Z.to_nat m) (d ds))
        ++ replicate (Z.to_nat (dp ds - m)) "0"%byte
    else ["0"%byte] in
  let frac :=
    if 0 <? prec then
      "."%byte ::
        map (fun i => let j := dp ds + Z.of_nat i in
                      if (0 <=? j) && (j <? nd ds)
                      then digit_char (nth (Z.to_nat j) (d ds) 0) else "0"%byte)
          (seq 0 (Z.to_nat prec))
    else [] in
  sign ++ int_part ++ frac.

(** [FormatFloat(f, 'g', -1, 32)] from the bits of [f]: the shortest
    digits that read back as [f], in [%e] form when the decimal exponent is
    below -4 or at least 6, in [%f] form otherwise. *)
Definition FormatFloat_g32 (bits : Z) : list byte :=
  let flt := float32info in
  let neg := negb (bits .>> (expbits flt + mantbits flt) =? 0) in
  let exp := bits .>> mantbits flt .& (1 .<< expbits flt - 1) in
  let mant := bits .& (1 .<< mantbits flt - 1) in
  if exp =? 1 .<< expbits flt - 1 then
    if negb (mant =? 0) then bs "NaN"
    else if neg then bs "-Inf" else bs "+Inf"
  else
    let '(exp, mant) :=
      if exp =? 0 then (exp + 1, mant) else (exp, mant .| 1 .<< mantbits flt) in
    let exp := exp + bias flt in
    let digs := roundShortest mant exp flt in
    let prec := nd digs in
    let eprec := 6 in
    let x := dp digs - 1 in
    if (x <? -4) || (eprec <=? x) then fmtE neg digs (prec - 1)
    else fmtF neg digs (Z.max (nd digs - dp digs) 0).

End strconv.

(** ** Go standard library, package net/url: escaping *)

Module url.

(** The two of the escaping modes that the program reaches:
    [PathEscape] and [PathUnescape] use [encodePathSegment],
    [QueryEscape] and [QueryUnescape] use [encodeQueryComponent]. *)
Inductive encoding := encodePathSegment | encodeQueryComponent.

Definition upperhex : list byte := bs "0123456789ABCDEF".

Definition ishex (c : byte) : bool :=
  let v := byte_val c in
  ((48 <=? v) && (v <=? 57)) || ((97 <=? v) && (v <=? 102))
  || ((65 <=? v) && (v <=? 70)).

Definition unhex (c : byte) : Z :=
  let v := byte_val c in
  if (48 <=? v) && (v <=? 57) then v - 48
  else if (97 <=? v) && (v <=? 102) then v - 97 + 10
  else if (65 <=? v) && (v <=? 70) then v - 65 + 10
  else 0.

(** [shouldEscape(c, mode)] *)
Definition shouldEscape (c : byte) (mode : encoding) : bool :=
  let v := byte_val c in
  if ((97 <=? v) && (v <=? 122)) || ((65 <=? v) && (v <=? 90))
     || ((48 <=? v) && (v <=? 57))
  then false
  else if existsb (byte_eqb c) (bs "-_.~") then false
  else if existsb (byte_eqb c) (bs "$&+,/:;=?@") then
    match mode with
    | encodePathSegment =>
        byte_eqb c "/"%byte || byte_eqb c ";"%byte || byte_eqb c ","%byte
        || byte_eqb c "?"%byte
    | encodeQueryComponent => true
    end
  else true.

(** [escape(s, mode)] *)
Definition escape (s : list byte) (mode : encoding) : list byte :=
  flat_map (fun c =>
              match mode with
              | encodeQueryComponent =>
                  if byte_eqb c " "%byte then ["+"%byte]
                  else if shouldEscape c mode
                  then ["%"%byte; index_tbl upperhex (byte_val c .>> 4);
                        index_tbl upperhex (byte_val c .& 15)]
                  else [c]
              | encodePathSegment =>
                  if shouldEscape c mode
                  then ["%"%byte; index_tbl upperhex (byte_val c .>> 4);
                        index_tbl upperhex (byte_val c .& 15)]
                  else [c]
              end) s.

Definition PathEscape (s : list byte) : list byte := escape s encodePathSegment.
Definition QueryEscape (s : list byte) : list byte := escape s encodeQueryComponent.

(** The first loop of [unescape]: every ['%'] must be followed by two
    hexadecimal digits; the error carries the offending bytes, at most
    three of them. *)
Fixpoint check (s : list byte) : option error :=
  match s with
  | [] => None
  | c :: s' =>
      if byte_eqb c "%"%byte then
        match s' with
        | h1 :: h2 :: s'' =>
            if ishex h1 && ishex h2 then check s''
            else Some (url_EscapeError (take 3 s))
        | _ => Some (url_EscapeError (take 3 s))
        end
      else check s'
  end.

(** The second loop of [unescape], run once the first found the
    input well formed. *)
Fixpoint decode (s : list byte) (mode : encoding) : list byte :=
  match s with
  | [] => []
  | c :: s' =>
      if byte_eqb c "%"%byte then
        match s' with
        | h1 :: h2 :: s'' =>
            byte_of (u8 (unhex h1 .<< 4) .| unhex h2) :: decode s'' mode
        | _ => []
        end
      else if byte_eqb c "+"%byte then
        match mode with
        | encodeQueryComponent => " "%byte :: decode s' mode
        | encodePathSegment => "+"%byte :: decode s' mode
        end
      else c :: decode s' mode
  end.

(** [unescape(s, mode) (string, error)] *)
Definition unescape (s : list byte) (mode : encoding) : list byte * option error :=
  match check s with
  | Some err => ([], Some err)
  | None => (decode s mode, None)
  end.

Definition PathUnescape (s : list byte) := unescape s encodePathSegment.
Definition QueryUnescape (s : list byte) := unescape s encodeQueryComponent.

End url.

(** ** Go standard library, package html: escaping *)

Module html.

(** [EscapeString(s)]: the replacer of the five characters. *)
Definition EscapeString (s : list byte) : list byte :=
  flat_map (fun c =>
              if byte_eqb c "&"%byte then bs "&amp;"
              else if byte_eqb c "'"%byte then bs "&#39;"
              else if byte_eqb c "<"%byte then bs "&lt;"
              else if byte_eqb c ">"%byte then bs "&gt;"
              else if byte_eqb c x22 then bs "&#34;"
              else [c]) s.

End html.

(** ** Go standard library, package encoding/json: a string value *)

Module json.

Definition hex : list byte := bs "0123456789abcdef".

(** [htmlSafeSet[b]] for an ASCII byte. *)
Definition htmlSafeSet (b : Z) : bool :=
  (32 <=? b) && negb ((b =? 34) || (b =? 38) || (b =? 60) || (b =? 62) || (b =? 92)).

(** The bytes [appendString(dst, src, escapeHTML = true)] puts between
    the quotes. *)
Definition string_body (src : list byte) : list byte :=
  flat_map (fun '(r, enc) =>
              match enc with
              | [c] =>
                  let b := byte_val c in
                  if b <? utf8.RuneSelf then
                    if htmlSafeSet b then [c]
                    else if (b =? 92) || (b =? 34) then [x5c; c]
                    else if b =? 8 then bs "\b"
                    else if b =? 12 then bs "\f"
                    else if b =? 10 then bs "\n"
                    else if b =? 13 then bs "\r"
                    else if b =? 9 then bs "\t"
                    else bs "\u00" ++ [index_tbl hex (b .>> 4); index_tbl hex (b .& 15)]
                  else bs "\ufffd"
              | _ =>
                  if (r =? 8232) || (r =? 8233)
                  then bs "\u202" ++ [index_tbl hex (r .& 15)]
                  else enc
              end)
    (utf8.runes src).

(** [Marshal(&s)] for a [string]: a string is always encoded, the
    error is [nil]. *)
Definition Marshal_string (s : list byte) : list byte * option error :=
  (x22 :: string_body s ++ [x22], None).

End json.

(** ** Go standard library, package strings: Fields *)

Module strings.

(** [asciiSpace[c]] *)
Definition asciiSpace (c : byte) : bool :=
  existsb (byte_eqb c) [x09; x0a; x0b; x0c; x0d; x20].

(** The fields of a sequence of units, each a separator or not: the
    spans of units between separators. *)
Fixpoint split_units (units : list (bool * list byte)) (cur : option (list byte))
    : list (list byte) :=
  match units with
  | [] => match cur with Some f => [f] | None => [] end
  | (true, _) :: units' =>
      match cur with
      | Some f => f :: split_units units' None
      | None => split_units units' None
      end
  | (false, enc) :: units' =>
      split_units units' (Some (default [] cur ++ enc))
  end.

(** [FieldsFunc(s, f)]: the separators are the runes for which [f]
    holds. *)
Definition FieldsFunc (s : list byte) (f : Z -> bool) : list (list byte) :=
  split_units (map (fun '(r, enc) => (f r, enc)) (utf8.runes s)) None.

(** [Fields(s)]: the separators are the ASCII spaces when [s] is
    ASCII, the runes of [unicode.IsSpace] otherwise. *)
Definition Fields (s : list byte) : list (list byte) :=
  if forallb (fun c => byte_val c <? utf8.RuneSelf) s
  then split_units (map (fun c => (asciiSpace c, [c])) s) None
  else FieldsFunc s unicode.IsSpace.

End strings.

(** ** Go standard library, package fmt: the verbs used *)

Module fmt.

Definition udigits : list byte := bs "0123456789ABCDEF".

(** The hexadecimal digits of [u], least significant first:
    [for u >= 16 { buf[i] = digits[u&0xF]; u >>= 4 }; buf[i] = digits[u]]. *)
Fixpoint hex_rev (fuel : nat) (u : Z) : list byte :=
  match fuel with
  | O => [index_tbl udigits (u .& 15)]
  | S fuel' =>
      if 16 <=? u then index_tbl udigits (u .& 15) :: hex_rev fuel' (u .>> 4)
      else [index_tbl udigits u]
  end.

(** [%.<prec>X] of an unsigned integer below [2^64]: upper-case
    hexadecimal, with zeros in front up to [prec] digits. *)
Definition fmt_X (prec : nat) (u : Z) : list byte :=
  let ds := hex_rev 16 u in
  replicate (prec - length ds) "0"%byte ++ rev ds.

(** [%U] of a rune: [U+] and at least four hexadecimal digits. *)
Definition fmt_U (r : Z) : list byte := bs "U+" ++ fmt_X 4 r.

(** [%g] of a [float32], from its bits: [fmtFloat] keeps the sign of
    an infinity and drops the one it reserved before [NaN] and before a
    positive number. *)
Definition fmt_g32 (bits : Z) : list byte := strconv.FormatFloat_g32 bits.

End fmt.

(** ** main.go: the transforms built on encoding/hex, base64 and base32 *)

Definition hexEnc (src : list byte) : result :=
  let dst := make (hex.EncodedLen (length src)) in
  match hex.Encode dst src with
  | Some (dst, _) => Ret dst None
  | None => Panic
  end.

Definition hexDec (src : list byte) : result :=
  let dst := make (hex.DecodedLen (length src)) in
  match hex.Decode dst src with
  | Some (dst, n, err) => Ret (take n dst) err
  | None => Panic
  end.

Definition base64Enc (src : list byte) : result :=
  let dst := make (base64.EncodedLen base64.StdEncoding (length src)) in
  match base64.Encode base64.StdEncoding dst src with
  | Some dst => Ret dst None
  | None => Panic
  end.

Definition base64Dec (src : list byte) : result :=
  let dst := make (base64.DecodedLen base64.StdEncoding (length src)) in
  match base64.Decode base64.StdEncoding dst src with
  | Some (dst, n, err) => Ret (take n dst) err
  | None => Panic
  end.

Definition base64URLEnc (src : list byte) : result :=
  let dst := make (base64.EncodedLen base64.URLEncoding (length src)) in
  match base64.Encode base64.URLEncoding dst src with
  | Some dst => Ret dst None
  | None => Panic
  end.

Definition base64URLDec (src : list byte) : result :=
  let dst := make (base64.DecodedLen base64.URLEncoding (length src)) in
  match base64.Decode base64.URLEncoding dst src with
  | Some (dst, n, err) => Ret (take n dst) err
  | None => Panic
  end.

Definition base32Enc (src : list byte) : result :=
  let dst := make (base32.EncodedLen base32.StdEncoding (length src)) in
  match base32.Encode base32.StdEncoding dst src with
  | Some dst => Ret dst None
  | None => Panic
  end.

Definition base32Dec (src : list byte) : result :=
  let dst := make (base32.DecodedLen base32.StdEncoding (length src)) in
  match base32.Decode base32.StdEncoding dst src with
  | Some (dst, n, err) => Ret (take n dst) err
  | None => Panic
  end.

Definition base32HexEnc (src : list byte) : result :=
  let dst := make (base32.EncodedLen base32.HexEncoding (length src)) in
  match base32.Encode base32.HexEncoding dst src with
  | Some dst => Ret dst None
  | None => Panic
  end.

Definition base32HexDec (src : list byte) : result :=
  let dst := make (base32.DecodedLen base32.HexEncoding (length src)) in
  match base32.Decode base32.HexEncoding dst src with
  | Some (dst, n, err) => Ret (take n dst) err
  | None => Panic
  end.

(** [var crockfordEnc = base32.NewEncoding("0123456789ABCDEFGHJKMNPQRSTVWXYZ")] *)
Definition crockfordEnc : base32.Encoding :=
  base32.NewEncoding (bs "0123456789ABCDEFGHJKMNPQRSTVWXYZ").

Definition base32CrockfordEnc (src : list byte) : result :=
  let dst := make (base32.EncodedLen crockfordEnc (length src)) in
  match base32.Encode crockfordEnc dst src with
  | Some dst => Ret dst None
  | None => Panic
  end.

Definition base32CrockfordDec `{Externs} (src : list byte) : result :=
  let src := bytes.ToUpper src in
  let src := bytes.Replace src (bs "I") (bs "1") (-1) in
  let src := bytes.Replace src (bs "L") (bs "1") (-1) in
  let src := bytes.Replace src (bs "O") (bs "0") (-1) in
  let src := bytes.Replace src (bs "-") [] (-1) in
  let dst := make (base32.DecodedLen crockfordEnc (length src)) in
  match base32.Decode crockfordEnc dst src with
  | Some (dst, n, err) => Ret (take n dst) err
  | None => Panic
  end.

(** ** main.go: the quoting transforms *)

Definition goEnc `{Externs} (src : list byte) : result :=
  Ret (strconv.QuoteToASCII src) None.

Definition goDec (src : list byte) : result :=
  let s := src in
  let s :=
    match src with
    | c :: _ =>
        if negb (byte_eqb c x22) && negb (byte_eqb c x60) && negb (byte_eqb c x27)
        then [x22] ++ s ++ [x22] else s
    | [] => s
    end in
  let '(s, err) := strconv.Unquote s in
  Ret s err.

Definition jsonEnc (src : list byte) : result :=
  let s := src in
  let '(b, err) := json.Marshal_string s in
  Ret b err.

Definition jsonDec `{Externs} (src : list byte) : result :=
  let src :=
    match src with
    | c :: _ =>
        if negb (byte_eqb c x22) then [x22] ++ src ++ [x22] else src
    | [] => src
    end in
  let '(s, err) := json_Unmarshal_string src in
  Ret s err.

Definition htmlEnc (src : list byte) : result :=
  Ret (html.EscapeString src) None.

Definition htmlDec `{Externs} (src : list byte) : result :=
  Ret (html_UnescapeString src) None.

Definition urlPathEnc (src : list byte) : result :=
  Ret (url.PathEscape src) None.

Definition urlPathDec (src : list byte) : result :=
  let '(s, err) := url.PathUnescape src in
  Ret s err.

Definition urlQueryEnc (src : list byte) : result :=
  Ret (url.QueryEscape src) None.

Definition urlQueryDec (src : list byte) : result :=
  let '(s, err) := url.QueryUnescape src in
  Ret s err.

Definition hexExtEnc `{Externs} (src : list byte) : result :=
  Ret (hex_Dump src) None.

Definition quotedPrintableEnc `{Externs} (src : list byte) : result :=
  match quotedprintable_Write_Close src with
  | (_, Some err) => Ret [] (Some err)
  | (buf, None) => Ret buf None
  end.

Definition quotedPrintableDec `{Externs} (src : list byte) : result :=
  let '(b, err) := quotedprintable_ReadAll src in
  Ret b err.

(** ** main.go: the numeric transforms

    The loop [for _, word := range words] writes into the
    [strings.Builder] [dst] and returns [nil, err] at the first word that
    does not parse. *)

Fixpoint float32hexDec_loop (words : list (list byte)) (dst : list byte) : result :=
  match words with
  | [] => Ret dst None
  | word :: words' =>
      match strconv.ParseUint word 16 32 with
      | (_, Some err) => Ret [] (Some err)
      | (s, None) =>
          let f := u32 s in
          float32hexDec_loop words' (dst ++ fmt.fmt_g32 f ++ bs " ")
      end
  end.

Definition float32hexDec (src : list byte) : result :=
  let words := strings.Fields src in
  float32hexDec_loop words [].

Fixpoint float32hexEnc_loop `{Externs} (words : list (list byte)) (dst : list byte)
    : result :=
  match words with
  | [] => Ret dst None
  | word :: words' =>
      match strconv.ParseFloat32 word with
      | (_, Some err) => Ret [] (Some err)
      | (x, None) =>
          float32hexEnc_loop words' (dst ++ fmt.fmt_X 8 x ++ bs " ")
      end
  end.

Definition float32hexEnc `{Externs} (src : list byte) : result :=
  let words := strings.Fields src in
  float32hexEnc_loop words [].

Fixpoint float16hexDec_loop `{Externs} (words : list (list byte)) (dst : list byte)
    : result :=
  match words with
  | [] => Ret dst None
  | word :: words' =>
      match strconv.ParseUint word 16 16 with
      | (_, Some err) => Ret [] (Some err)
      | (s, None) =>
          let f := float16_Frombits_Float32 (u16 s) in
          float16hexDec_loop words' (dst ++ fmt.fmt_g32 f ++ bs " ")
      end
  end.

Definition float16hexDec `{Externs} (src : list byte) : result :=
  let words := strings.Fields src in
  float16hexDec_loop words [].

Fixpoint float16hexEnc_loop `{Externs} (words : list (list byte)) (dst : list byte)
    : result :=
  match words with
  | [] => Ret dst None
  | word :: words' =>
      match strconv.ParseFloat32 word with
      | (_, Some err) => Ret [] (Some err)
      | (f_32, None) =>
          let x := float16_Fromfloat32_Bits f_32 in
          float16hexEnc_loop words' (dst ++ fmt.fmt_X 4 x ++ bs " ")
      end
  end.

Definition float16hexEnc `{Externs} (src : list byte) : result :=
  let words := strings.Fields src in
  float16hexEnc_loop words [].

(** ** main.go: the code-point dump *)

Definition codepointEnc `{Externs} (src : list byte) : result :=
  let runes := map fst (utf8.runes src) in
  let line (r : Z) : list byte :=
    let s := if unicode_IsPrint r then utf8.encode_rune r else utf8.encode_rune 65533 in
    fmt.fmt_U r ++ [x09] ++ s ++ [x09] ++ runenames_Name r in
  let buf :=
    match runes with
    | [] => []
    | r :: rs => line r ++ flat_map (fun r => [x0a] ++ line r) rs
    end in
  Ret buf None.

(** ** main.go: the registry and the wrapper *)

(** An entry of [modes]: [struct{ decoder, encoder modeFunc }], [None]
    for a [nil] function. *)
Record mode := { decoder : option modeFunc; encoder : option modeFunc }.

Definition modes `{Externs} : gmap string mode :=
  list_to_map [
    ("base32", {| decoder := Some base32Dec; encoder := Some base32Enc |});
    ("base32-crockford",
      {| decoder := Some base32CrockfordDec; encoder := Some base32CrockfordEnc |});
    ("base32-hex", {| decoder := Some base32HexDec; encoder := Some base32HexEnc |});
    ("base64", {| decoder := Some base64Dec; encoder := Some base64Enc |});
    ("base64-url", {| decoder := Some base64URLDec; encoder := Some base64URLEnc |});
    ("codepoint", {| decoder := None; encoder := Some codepointEnc |});
    ("go", {| decoder := Some goDec; encoder := Some goEnc |});
    ("hex", {| decoder := Some hexDec; encoder := Some hexEnc |});
    ("hex-extended", {| decoder := None; encoder := Some hexExtEnc |});
    ("html", {| decoder := Some htmlDec; encoder := Some htmlEnc |});
    ("json", {| decoder := Some jsonDec; encoder := Some jsonEnc |});
    ("qp", {| decoder := Some quotedPrintableDec; encoder := Some quotedPrintableEnc |});
    ("rot13", {| decoder := Some rot13; encoder := Some rot13 |});
    ("url-path", {| decoder := Some urlPathDec; encoder := Some urlPathEnc |});
    ("url-query", {| decoder := Some urlQueryDec; encoder := Some urlQueryEnc |});
    ("float32-hex", {| decoder := Some float32hexDec; encoder := Some float32hexEnc |});
    ("float16-hex", {| decoder := Some float16hexDec; encoder := Some float16hexEnc |})
  ].

(** [modes[modeStr]]: the zero value for a name that is not a key. *)
Definition modes_at `{Externs} (modeStr : string) : mode :=
  default {| decoder := None; encoder := None |} (modes !! modeStr).

(** [exec(f, stripNewline, emitNewline)] on the bytes read from the
    standard input: what is written to the standard output, and the error.
    Nothing is written when [f] fails. *)
Definition exec (f : modeFunc) (stripNewline emitNewline : bool) (stdin : list byte)
    : result :=
  let b := stdin in
  let b :=
    if stripNewline then
      match last b with
      | Some c => if byte_eqb c x0a then take (length b - 1) b else b
      | None => b
      end
    else b in
  match f b with
  | Panic => Panic
  | Ret _ (Some err) => Ret [] (Some err)
  | Ret b None => Ret (b ++ (if emitNewline then [x0a] else [])) None
  end.

(** ** Notions used to state the properties *)

(** An encoder followed by a decoder gives the input back, with no
    error on either side. *)
Definition round_trips (enc dec : modeFunc) (x : list byte) : Prop :=
  exists y, enc x = Ret y None /\ dec y = Ret x None.

Definition is_ascii (c : byte) : Prop := byte_val c < 128.

Definition is_upper (c : byte) : bool := (65 <=? byte_val c) && (byte_val c <=? 90).
Definition is_lower (c : byte) : bool := (97 <=? byte_val c) && (byte_val c <=? 122).

(** The other case of an ASCII letter; any other byte is kept. *)
Definition swap_case (c : byte) : byte :=
  if is_lower c then byte_of (byte_val c - 32)
  else if is_upper c then byte_of (byte_val c + 32)
  else c.

(** One edit of a Crockford text that its reader is meant to see
    through: a letter changes case, an I or an L is written for a 1, an O
    for a 0, or a hyphen is inserted. *)
Inductive crockford_edit : list byte -> list byte -> Prop :=
| edit_case (t1 : list byte) (c : byte) (t2 : list byte) :
    crockford_edit (t1 ++ c :: t2) (t1 ++ swap_case c :: t2)
| edit_one (t1 : list byte) (c : byte) (t2 : list byte) :
    c = "I"%byte \/ c = "L"%byte ->
    crockford_edit (t1 ++ c :: t2) (t1 ++ "1"%byte :: t2)
| edit_zero (t1 t2 : list byte) :
    crockford_edit (t1 ++ "O"%byte :: t2) (t1 ++ "0"%byte :: t2)
| edit_hyphen (t1 t2 : list byte) :
    crockford_edit (t1 ++ t2) (t1 ++ "-"%byte :: t2).

(** Any number of such edits, done or undone. *)
Definition crockford_variant : list byte -> list byte -> Prop :=
  rtsc crockford_edit.

(** An instance of the abstract routines for evaluating the transforms
    on inputs that do not reach them. *)
Definition plain_externs : Externs :=
  {| unicode_To_UpperCase r := r;
     unicode_IsPrint _ := false;
     runenames_Name _ := [];
     hex_Dump s := s;
     html_UnescapeString s := s;
     json_Unmarshal_string s := (s, None);
     quotedprintable_Write_Close s := (s, None);
     quotedprintable_ReadAll s := (s, None);
     float16_Frombits_Float32 z := z;
     float16_Fromfloat32_Bits z := z;
     strconv_ParseFloat32_other _ := (0, Some ErrSyntax) |}.

(** Rotation by 13 within the 26 letters that start at [base]. *)
Definition rotate13 (base : Z) (b : byte) : byte :=
  byte_of (base + (byte_val b - base + 13) mod 26).

(** The rot13 of the specification: a Caesar rotation by 13 of the
    ASCII letters within their case, every other byte unchanged. *)
Definition caesar13 (b : byte) : byte :=
  if is_upper b then rotate13 65 b
  else if is_lower b then rotate13 97 b
  else b.

(** A transform that fails and hands back no byte. *)
Definition fails_with_no_output (r : result) : Prop :=
  exists err, r = Ret [] (Some err).

(** ['+'] read as a space. *)
Definition plus_to_space (c : byte) : byte :=
  if byte_eqb c "+"%byte then " "%byte else c.

Definition is_error (err : option error) : bool :=
  match err with Some _ => true | None => false end.

(** ** Notions used in the proofs *)

Definition upper_byte (c : byte) : byte :=
  if is_lower c then byte_of (u8 (byte_val c - (97 - 65))) else c.

Definition subst_byte (o : byte) (new : list byte) (c : byte) : list byte :=
  if byte_eqb c o then new else [c].

Definition occurrences (o : byte) (s : list byte) : nat :=
  length (filter (fun c => c = o) s).

(** What the normalisation of [base32CrockfordDec] does to one ASCII
    byte: upper case, then I and L to 1, O to 0, and the hyphen dropped. *)
Definition crockford_norm_byte (c : byte) : list byte :=
  flat_map (subst_byte "-"%byte [])
    (flat_map (subst_byte "O"%byte (bs "0"))
       (flat_map (subst_byte "L"%byte (bs "1"))
          (flat_map (subst_byte "I"%byte (bs "1")) [upper_byte c]))).

Definition crockford_norm (s : list byte) : list byte :=
  flat_map crockford_norm_byte s.

(** The decoding that follows the normalisation. *)
Definition crockford_decode (src : list byte) : result :=
  let dst := make (base32.DecodedLen crockfordEnc (length src)) in
  match base32.Decode crockfordEnc dst src with
  | Some (dst, n, err) => Ret (take n dst) err
  | None => Panic
  end.

(** What [utf8.DecodeRune] makes of a non-empty [s]: an ASCII byte, an
    invalid byte taken alone, or a rune of two to four bytes that
    [utf8.AppendRune] writes back as those bytes. *)
Inductive decoded (s : list byte) : Z -> nat -> Prop :=
| dec_ascii c rest : s = c :: rest -> byte_val c < 128 -> decoded s (byte_val c) 1
| dec_invalid c rest : s = c :: rest -> 128 <= byte_val c -> decoded s utf8.RuneError 1
| dec_multi r n : (2 <= n <= 4)%nat -> (n <= length s)%nat -> 128 <= r ->
    utf8.ValidRune r = true -> utf8.encode_rune r = take n s -> decoded s r n.

(** A rune of a string with its encoding, as [utf8.runes] lists them. *)
Definition rune_of (re : Z * list byte) : Prop :=
  re.2 <> [] /\ exists rest, decoded (re.2 ++ rest) re.1 (length re.2).

(** One round of the loop of [unquote] that reads [e] and appends [enc]. *)
Definition unquotes_to (e enc : list byte) : Prop :=
  forall rest fuel,
    strconv.unquote_loop (S fuel) (e ++ rest) x22
    = match strconv.unquote_loop fuel rest x22 with
      | None => None
      | Some (out', rem') => Some (enc ++ out', rem')
      end.

(** What [strconv.QuoteToASCII] writes for one rune of the string. *)
Definition quote_rune `{Externs} (re : Z * list byte) : list byte :=
  let '(r, enc) := re in
  if (length enc =? 1)%nat && (r =? utf8.RuneError) then
    let c := byte_val (nth 0 enc x00) in
    bs "\x" ++ [index_tbl strconv.lowerhex (c .>> 4); index_tbl strconv.lowerhex (c .& 15)]
  else strconv.escaped_rune r x22 true.

(** A printable ASCII character. *)
Definition printable (c : byte) : Prop := 32 <= byte_val c <= 126.


(** ** The binary32 format, for the statements about float32-hex

    A finite [float32] without its sign is [m * 2^j] units of the
    smallest subnormal [2^-149]: [j = 0] and [m < 2^23] for a subnormal (or
    zero), [2^23 <= m < 2^24] and the exponent field [j + 1] for a normal
    number. *)

Definition is_float (m j : Z) : Prop :=
  (j = 0 /\ 0 <= m < 2 ^ 24) \/ (1 <= j <= 253 /\ 2 ^ 23 <= m < 2 ^ 24).

(** The bits of the float [m * 2^j], without the sign. *)
Definition float_bits (m j : Z) : Z :=
  if m <? 2 ^ 23 then m else ((j + 1) .<< 23) .| (m - 2 ^ 23).

(** [n/den] units are nearer to the float [m * 2^j] than to the float
    below it and to the float above it, or halfway to one of them with [m]
    even.  The float below [2^23 * 2^j] is half as far as the float above
    it (for [1 <= j]), and [2^23] is even. *)
Definition nearest_to (n den m j : Z) : Prop :=
  (2 * n < (2 * m + 1) * (den * 2 ^ j)
   \/ (Z.even m = true /\ 2 * n = (2 * m + 1) * (den * 2 ^ j)))
  /\ (if (m =? 2 ^ 23) && (1 <=? j) then (4 * m - 1) * (den * 2 ^ j) <= 4 * n
      else (2 * m - 1) * (den * 2 ^ j) < 2 * n
           \/ (Z.even m = true /\ 2 * n = (2 * m - 1) * (den * 2 ^ j))).

(** The same of the decimal [mant * 10^exp10]. *)
Definition decimal_nearest (mant exp10 m j : Z) : Prop :=
  if 0 <=? exp10 then nearest_to (mant * strconv.pow10 exp10 * 2 ^ 149) 1 m j
  else nearest_to (mant * 2 ^ 149) (strconv.pow10 (- exp10)) m j.

(** The number that a list of decimal digits writes, after [a]. *)
Definition digits_from (a : Z) (ds : list Z) : Z :=
  fold_left (fun a d => a * 10 + d) ds a.
Definition digits_value (ds : list Z) : Z := digits_from 0 ds.

Definition is_digit_value (d : Z) : Prop := 0 <= d <= 9.

(** [t * 10^p] lies between [lo/den] and [up/den], the ends included
    when [inclusive]. *)
Definition within (lo up den : Z) (inclusive : bool) (t p : Z) : Prop :=
  match strconv.cmp_scaled t p den lo with
  | Gt => True
  | Eq => inclusive = true
  | Lt => False
  end
  /\ match strconv.cmp_scaled t p den up with
     | Lt => True
     | Eq => inclusive = true
     | Gt => False
     end.

(** The quotient [x/den] cut at the decimal position [p], as
    [strconv.shortest_loop] computes it, and the two factors that bring the
    comparisons of [strconv.cmp_scaled] to integers. *)
Definition cut (x den p : Z) : Z :=
  if 0 <=? p then x / (den * strconv.pow10 p) else x * strconv.pow10 (- p) / den.
Definition scale_l (den p : Z) : Z := if 0 <=? p then strconv.pow10 p * den else den.
Definition scale_r (p : Z) : Z := if 0 <=? p then 1 else strconv.pow10 (- p).

(** The parts of the literals that [%g] writes: the sign, and the
    exponent of [%e] when it has two digits. *)
Definition sign_part (neg : bool) : list byte := if neg then ["-"%byte] else [].
Definition exp_part (e : Z) : list byte :=
  ["e"%byte; if e <? 0 then "-"%byte else "+"%byte;
   strconv.digit_char (Z.abs e / 10); strconv.digit_char (Z.abs e mod 10)].

(** A decimal literal: sign, digits, a point and more digits if
    [hasdot], and what follows. *)
Definition literal (neg : bool) (A : list Z) (hasdot : bool) (B : list Z)
    (epart : list byte) : list byte :=
  sign_part neg ++ map strconv.digit_char A
    ++ (if hasdot then "."%byte :: map strconv.digit_char B else []) ++ epart.

(** The characters of a literal. *)
Definition literal_char (c : byte) : Prop :=
  strconv.is_digit c = true \/ c = "."%byte \/ c = "e"%byte \/ c = "+"%byte \/ c = "-"%byte.

(** The bits of a NaN: all the bits of the exponent field, and a bit
    of the mantissa. *)
Definition is_nan (b : Z) : bool :=
  ((b .>> 23) .& 255 =? 255) && negb (b .& (2 ^ 23 - 1) =? 0).

(** The [k] hexadecimal digits of [u], upper case, the most
    significant first. *)
Definition hex_digits_of (k : nat) (u : Z) : list byte :=
  map (fun i : nat => index_tbl fmt.udigits ((u / 16 ^ Z.of_nat i) mod 16)) (rev (seq 0 k)).

(** An upper-case hexadecimal digit. *)
Definition is_upper_hex (c : byte) : Prop :=
  48 <= byte_val c <= 57 \/ 65 <= byte_val c <= 70.

(** A character of a token: ASCII, and no space. *)
Definition token_char (c : byte) : Prop :=
  byte_val c < utf8.RuneSelf /\ strings.asciiSpace c = false.
Definition is_token (w : list byte) : Prop := w <> [] /\ Forall token_char w.

(** An ASCII white space. *)
Definition is_space (c : byte) : Prop := strings.asciiSpace c = true.

(** The input as [strings.Fields] sees it: spaces, then tokens each
    followed by one space or more, then possibly a last token. *)
Definition spaced (lead : list byte) (l : list (list byte * list byte)) (last : list byte)
    : list byte :=
  lead ++ flat_map (fun '(w, sep) => w ++ sep) l ++ last.

(** The word that comes back for a token of value [b]: a NaN is
    written as [NaN] whatever its sign and payload, and read as the quiet
    NaN 7FC00000. *)
Definition canonical_nan (b : Z) : Z := if is_nan b then 2143289344 else b.

(** ** Words and white space, for the fields of every text *)

(** The code points with the Unicode property White_Space. *)
Definition white_space : list Z :=
  [9; 10; 11; 12; 13; 32; 133; 160; 5760; 8192; 8193; 8194; 8195; 8196; 8197; 8198;
   8199; 8200; 8201; 8202; 8232; 8233; 8239; 8287; 12288].

(** A run of white space, possibly empty: the UTF-8 encodings of
    white-space characters, one after the other. *)
Definition is_blank (sep : list byte) : Prop :=
  exists rs, Forall (fun r => In r white_space) rs /\ sep = flat_map utf8.encode_rune rs.

(** A word: some bytes, valid UTF-8 or not, none of whose characters
    is a white space. *)
Definition is_word (w : list byte) : Prop :=
  w <> [] /\ Forall (fun re : Z * list byte => ~ In re.1 white_space) (utf8.runes w).

(** A byte that is not a continuation byte of UTF-8. *)
Definition start_byte (c : byte) : bool :=
  (byte_val c <? 128) || (192 <=? byte_val c).

(** A text that is empty or begins with such a byte. *)
Definition starts (s : list byte) : Prop :=
  match s with
  | [] => True
  | c :: _ => start_byte c = true
  end.

(** The units that [strings.Fields] splits, for every text: its
    characters, each a separator when it is a white space. *)
Definition field_units (s : list byte) : list (bool * list byte) :=
  map (fun '(r, enc) => (unicode.IsSpace r, enc)) (utf8.runes s).

(** ** Notions used to state further properties of the transforms *)

(** What [url.escape] writes for one byte. *)
Definition url_escape_byte (mode : url.encoding) (c : byte) : list byte :=
  url.escape [c] mode.

(** The bytes that the escaped text of a mode is made of: letters,
    digits, the marks [-_.~], the percent sign of the escapes, and for a
    path segment the sub-delimiters that [shouldEscape] lets through, for
    a query component the plus sign that stands for a space. *)
Definition url_safe (mode : url.encoding) (c : byte) : bool :=
  let v := byte_val c in
  ((97 <=? v) && (v <=? 122)) || ((65 <=? v) && (v <=? 90)) || ((48 <=? v) && (v <=? 57))
  || existsb (byte_eqb c) (bs "-_.~%")
  || match mode with
     | url.encodePathSegment => existsb (byte_eqb c) (bs "$&+:=@")
     | url.encodeQueryComponent => byte_eqb c "+"%byte
     end.

(** A hexadecimal digit, of either case, and its lower-case form. *)
Definition hex_digit (c : byte) : bool := hex.reverseHexTable c <=? 15.
Definition hex_lower (c : byte) : byte :=
  if (65 <=? byte_val c) && (byte_val c <=? 70) then byte_of (byte_val c + 32) else c.

(** The five characters that [html.EscapeString] replaces. *)
Definition html_special (c : byte) : bool :=
  existsb (byte_eqb c) [x26; x27; x3c; x3e; x22].

(** What [html.EscapeString] writes for one byte. *)
Definition html_escape_byte (c : byte) : list byte := html.EscapeString [c].

(** The text of an entity: an ampersand, a name or a number, a
    semicolon. *)
Definition html_entities : list (list byte) :=
  [bs "&amp;"; bs "&#39;"; bs "&lt;"; bs "&gt;"; bs "&#34;"].

(** The keys of [modes]. *)
Definition mode_names : list string :=
  ["base32"; "base32-crockford"; "base32-hex"; "base64"; "base64-url"; "codepoint";
   "go"; "hex"; "hex-extended"; "html"; "json"; "qp"; "rot13"; "url-path"; "url-query";
   "float32-hex"; "float16-hex"]%string.

(** Halfway between the largest finite [float32] and [2^128]: the
    quotients from there on round to the infinity. *)
Definition float32_overflow : Z := 2 ^ 128 - 2 ^ 103.

(** The decimal [mant * 10^exp10] is [k] or more. *)
Definition decimal_ge (mant exp10 k : Z) : Prop :=
  if 0 <=? exp10 then k <= mant * strconv.pow10 exp10
  else k * strconv.pow10 (- exp10) <= mant.

(** ** main.go: [main] and [getModes] *)

(** What [ianaindex.IANA.Encoding(modeStr)] returns: an error; a nil
    encoding with a nil error, for a name of the registry that the package
    does not implement; or an encoding, given by the [Bytes] methods of its
    [NewEncoder()] and of its [NewDecoder()]. *)
Inductive iana_result :=
| iana_err
| iana_nil
| iana_enc (encoder_bytes decoder_bytes : modeFunc).

(** How a run of [main] ends: with the usage and [os.Exit(2)], with
    the error and [os.Exit(1)], by returning after the bytes were written
    to the standard output, or in a run-time panic.  Nothing is written to
    the standard output in the first two cases. *)
Inductive outcome :=
| Usage
| Failed (err : error)
| Done (stdout : list byte)
| Crashed.

(** [flag.Arg(0)]: the first argument, the empty string when there is
    none. *)
Definition flag_Arg0 (args : list string) : string :=
  match args with a :: _ => a | [] => ""%string end.

(** [main] once [flag.Parse()] has returned: [encode], [strip] and
    [emit] are the values of the flags, [args] the arguments that are left,
    [iana] the index of the IANA names.  The method call on a nil encoding
    panics.  Reading the standard input and writing the standard output are
    taken not to fail, as in [exec]. *)
Definition main_run `{Externs} (iana : string -> iana_result)
    (encode strip emit : bool) (args : list string) (stdin : list byte) : outcome :=
  let modeStr := flag_Arg0 args in
  let mode := decoder (modes_at modeStr) in
  let mode := if encode then encoder (modes_at modeStr) else mode in
  let looked_up : option (option modeFunc) :=
    match mode with
    | Some f => Some (Some f)
    | None =>
        match iana modeStr with
        | iana_err => Some None
        | iana_nil => None
        | iana_enc e d => Some (Some (if encode then e else d))
        end
    end in
  match looked_up with
  | None => Crashed
  | Some mode =>
      match mode with
      | Some f =>
          if negb (length args =? 1)%nat then Usage
          else
            let emit := if String.eqb modeStr "hex-extended" then false else emit in
            match exec f strip emit stdin with
            | Panic => Crashed
            | Ret _ (Some err) => Failed err
            | Ret out None => Done out
            end
      | None => Usage
      end
  end.

(** The modes whose decoder undoes their encoder. *)
Definition reversible_modes : list string :=
  ["base32"; "base32-crockford"; "base32-hex"; "base64"; "base64-url"; "go"; "hex";
   "rot13"; "url-path"; "url-query"]%string.

(** The order [<=] of Go strings: that of their bytes. *)
Definition string_le (a b : string) : Prop := String.leb a b = true.

#[global] Instance string_le_dec (a b : string) : Decision (string_le a b) :=
  decide (String.leb a b = true).

(** [sort.Strings]: the strings in increasing order.  The order is
    total, so every sorting routine returns this list. *)
Definition sort_Strings (l : list string) : list string := merge_sort string_le l.

(** [getModes()], for the order [order] in which [range modes] hands
    out the entries of the map, which Go leaves open. *)
Definition getModes_from (order : list (string * mode)) : string :=
  let modesStr :=
    map (fun '(mode, mf) =>
           match decoder mf with
           | None => (mode ++ "*")%string
           | Some _ => mode
           end) order in
  String.concat ", " (sort_Strings modesStr).

(** ** The alphabets of the encoded texts *)

(** A character of the URL-safe base64 text: a letter, a digit, the
    minus sign, the underscore, or the padding. *)
Definition base64url_char (c : byte) : bool :=
  let v := byte_val c in
  ((97 <=? v) && (v <=? 122)) || ((65 <=? v) && (v <=? 90)) || ((48 <=? v) && (v <=? 57))
  || existsb (byte_eqb c) (bs "-_=").

(** A character of the standard base64 text. *)
Definition base64std_char (c : byte) : bool :=
  let v := byte_val c in
  ((97 <=? v) && (v <=? 122)) || ((65 <=? v) && (v <=? 90)) || ((48 <=? v) && (v <=? 57))
  || existsb (byte_eqb c) (bs "+/=").

(** A character of the base32 text of the standard alphabet: an
    upper-case letter, a digit from 2 to 7, or the padding. *)
Definition base32std_char (c : byte) : bool :=
  let v := byte_val c in
  ((65 <=? v) && (v <=? 90)) || ((50 <=? v) && (v <=? 55)) || byte_eqb c "="%byte.

(** A character of the base32 text of the extended hexadecimal
    alphabet: a digit, a letter from A to V, or the padding. *)
Definition base32hex_char (c : byte) : bool :=
  let v := byte_val c in
  ((48 <=? v) && (v <=? 57)) || ((65 <=? v) && (v <=? 86)) || byte_eqb c "="%byte.

(** A byte that the JSON text of a string may hold between its
    quotes: no control character, and none of the three characters that
    HTML gives a meaning to. *)
Definition json_safe (c : byte) : bool :=
  (32 <=? byte_val c) && negb (existsb (byte_eqb c) (bs "<>&")).

(** A character of the Crockford text: a digit, an upper-case letter
    other than I, L, O and U, or the padding. *)
Definition crockford_char (c : byte) : bool :=
  let v := byte_val c in
  ((48 <=? v) && (v <=? 57))
  || ((65 <=? v) && (v <=? 90) && negb (existsb (byte_eqb c) (bs "ILOU")))
  || byte_eqb c "="%byte.

(** A character of the hex text: a digit or a letter from a to f. *)
Definition hex_lower_char (c : byte) : bool :=
  let v := byte_val c in
  ((48 <=? v) && (v <=? 57)) || ((97 <=? v) && (v <=? 102)).
(** ** Bytes *)

Lemma byte_val_range (b : byte) : 0 <= byte_val b < 256.
Proof.
  unfold byte_val. pose proof (Byte.to_N_bounded b). lia.
Qed.

Lemma byte_of_val (b : byte) : byte_of (byte_val b) = b.
Proof.
  unfold byte_of. rewrite Z.mod_small by apply byte_val_range.
  unfold byte_val. rewrite N2Z.id, Byte.of_to_N. reflexivity.
Qed.

Lemma byte_val_of (z : Z) : byte_val (byte_of z) = z mod 256.
Proof.
  unfold byte_of, byte_val.
  assert (Hr : 0 <= z mod 256 < 256) by (apply Z.mod_pos_bound; lia).
  destruct (Byte.of_N (Z.to_N (z mod 256))) as [b|] eqn:E.
  - apply Byte.to_of_N in E. rewrite E. rewrite Z2N.id; lia.
  - apply Byte.of_N_None_iff in E. lia.
Qed.

Lemma byte_val_inj (a b : byte) : byte_val a = byte_val b -> a = b.
Proof.
  intros H. rewrite <- (byte_of_val a), <- (byte_of_val b). congruence.
Qed.

Lemma byte_eqb_refl (a : byte) : byte_eqb a a = true.
Proof. apply Byte.byte_dec_lb. reflexivity. Qed.

Lemma byte_eqb_eq (a b : byte) : byte_eqb a b = true <-> a = b.
Proof. split; [apply Byte.byte_dec_bl | apply Byte.byte_dec_lb]. Qed.

Lemma byte_eqb_neq (a b : byte) : byte_eqb a b = false <-> a <> b.
Proof.
  split.
  - apply Byte.eqb_false.
  - intros H. destruct (byte_eqb a b) eqn:E; [|reflexivity].
    apply byte_eqb_eq in E. contradiction.
Qed.

(** ** rot13 *)

Lemma rot13_byte_involutive (b : byte) : rot13_byte (rot13_byte b) = b.
Proof. destruct b; reflexivity. Qed.

Lemma rot13_loop_spec (todo : nat) :
  forall (done rest tail : list byte),
    length rest = todo ->
    rot13_loop todo (length done) (done ++ rest ++ tail)
    = done ++ map rot13_byte rest ++ tail.
Proof.
  induction todo as [|todo IH]; intros done rest tail Hlen.
  - destruct rest; [reflexivity | discriminate].
  - destruct rest as [|b rest]; [discriminate|].
    simpl in Hlen. injection Hlen as Hlen.
    cbn [rot13_loop].
    rewrite lookup_app_r by lia. rewrite Nat.sub_diag. cbn [app lookup list_lookup].
    replace (<[length done:=rot13_byte b]> (done ++ b :: rest ++ tail))
      with ((done ++ [rot13_byte b]) ++ rest ++ tail).
    + replace (S (length done)) with (length (done ++ [rot13_byte b]))
        by (rewrite length_app; simpl; lia).
      rewrite IH by exact Hlen.
      rewrite <- app_assoc. reflexivity.
    + rewrite insert_app_r_alt by lia. rewrite Nat.sub_diag.
      rewrite <- app_assoc. reflexivity.
Qed.

Lemma rot13_map (src : list byte) : rot13 src = Ret (map rot13_byte src) None.
Proof.
  unfold rot13.
  pose proof (rot13_loop_spec (length src) [] src [] eq_refl) as H.
  simpl in H. rewrite app_nil_r in H. rewrite H, app_nil_r.
  rewrite <- (length_map rot13_byte src) at 1.
  rewrite firstn_all. reflexivity.
Qed.

(** ** Buffers *)

Lemma length_make (n : nat) : length (make n) = n.
Proof. apply length_replicate. Qed.

Lemma fill_make (out : list byte) (n : nat) :
  (length out <= n)%nat ->
  exists dst, fill (make n) out = Some dst /\ take (length out) dst = out
              /\ (length out = n -> dst = out).
Proof.
  intros Hle. unfold fill. rewrite length_make.
  destruct (Nat.leb_spec (length out) n) as [_|Hgt]; [|lia].
  eexists; split; [reflexivity|]. split.
  - rewrite take_app_length. reflexivity.
  - intros Heq. rewrite drop_ge by (rewrite length_make; lia).
    apply app_nil_r.
Qed.

Lemma list_length_ind {A : Type} (P : list A -> Prop) :
  (forall l, (forall l', (length l' < length l)%nat -> P l') -> P l) ->
  forall l, P l.
Proof.
  intros IH l.
  assert (H : forall n l', (length l' < n)%nat -> P l').
  { induction n as [|n IHn]; intros l' Hl'; [lia|].
    apply IH. intros l'' Hl''. apply IHn. lia. }
  apply (H (S (length l))). lia.
Qed.

(** ** Shifts and masks as arithmetic

    A disjunction of two values with no common bit is their sum; with the
    shifts and masks turned into multiplications, divisions and remainders
    by constants, the equations between packed words are linear. *)

Lemma land_disjoint (x y n : Z) :
  0 <= n -> x mod 2 ^ n = 0 -> 0 <= y < 2 ^ n -> x .& y = 0.
Proof.
  intros Hn Hx Hy. apply Z.bits_inj'. intros i Hi.
  rewrite Z.land_spec, Z.bits_0.
  destruct (Z.lt_ge_cases i n) as [Hlt|Hge].
  - rewrite <- (Z.mod_pow2_bits_low x n i Hlt), Hx, Z.bits_0. reflexivity.
  - rewrite <- (Z.mod_small y (2 ^ n)) by lia.
    rewrite Z.mod_pow2_bits_high by lia. apply andb_false_r.
Qed.

Lemma lor_add (n x y : Z) :
  0 <= n -> x mod 2 ^ n = 0 -> 0 <= y < 2 ^ n -> x .| y = x + y.
Proof.
  intros Hn Hx Hy. pose proof (Z.add_lor_land x y) as H.
  rewrite (land_disjoint x y n Hn Hx Hy) in H. lia.
Qed.

Ltac pow2_consts :=
  repeat match goal with
         | |- context [2 ^ Zpos ?p] =>
             let v := eval vm_compute in (2 ^ Zpos p) in
             change (2 ^ Zpos p) with v
         end.

Ltac shifts_to_arith :=
  unfold u8, u16, u32, u64;
  repeat rewrite Z.shiftl_mul_pow2 by lia;
  repeat rewrite Z.shiftr_div_pow2 by lia;
  change 63 with (Z.ones 6); change 31 with (Z.ones 5); change 15 with (Z.ones 4);
  repeat rewrite Z.land_ones by lia;
  pow2_consts.

Ltac solve_arith := pow2_consts; Z.div_mod_to_equations; lia.

(** Turn one disjunction whose right operand is below [2^n] and whose
    left operand is a multiple of [2^n] into a sum. *)
Ltac lor_add_with n :=
  match goal with
  | |- context [?x .| ?y] =>
      rewrite (lor_add n x y) by (first [lia | solve_arith])
  end.

(** ** encoding/hex *)

Lemma hex_encode_bytes_length (src : list byte) :
  length (hex.encode_bytes src) = (length src * 2)%nat.
Proof. induction src as [|v src IH]; simpl; [reflexivity | rewrite IH; lia]. Qed.

Lemma hex_digits_of_byte (v : byte) :
  let p := index_tbl hex.hextable (byte_val v .>> 4) in
  let q := index_tbl hex.hextable (byte_val v .& 15) in
  (15 <? hex.reverseHexTable p) = false
  /\ (15 <? hex.reverseHexTable q) = false
  /\ byte_of (u8 (hex.reverseHexTable p .<< 4) .| hex.reverseHexTable q) = v.
Proof. destruct v; vm_compute; auto. Qed.

Lemma hex_decode_encode (src : list byte) :
  hex.decode_bytes (hex.encode_bytes src) = (src, None).
Proof.
  induction src as [|v src IH]; [reflexivity|].
  cbn [hex.encode_bytes hex.decode_bytes].
  destruct (hex_digits_of_byte v) as (Hp & Hq & Hv).
  cbv zeta in Hp, Hq, Hv. rewrite Hp, Hq, IH, Hv. reflexivity.
Qed.

Lemma hexEnc_spec (src : list byte) :
  hexEnc src = Ret (hex.encode_bytes src) None.
Proof.
  unfold hexEnc, hex.Encode, hex.EncodedLen.
  destruct (fill_make (hex.encode_bytes src) (length src * 2)) as (dst & Hf & _ & Heq).
  { rewrite hex_encode_bytes_length. lia. }
  rewrite Hf. cbn. rewrite Heq by apply hex_encode_bytes_length. reflexivity.
Qed.

Lemma hexDec_hexEnc (src : list byte) :
  hexDec (hex.encode_bytes src) = Ret src None.
Proof.
  unfold hexDec, hex.Decode, hex.DecodedLen.
  rewrite hex_decode_encode, hex_encode_bytes_length.
  rewrite Nat.div_mul by lia.
  destruct (fill_make src (length src)) as (dst & Hf & Ht & _); [lia|].
  rewrite Hf. cbn. rewrite Ht. reflexivity.
Qed.

(** ** encoding/base64 *)

Lemma forallb_seq_Z (f : Z -> bool) (n : nat) :
  forallb f (map Z.of_nat (seq 0 n)) = true ->
  forall i, 0 <= i < Z.of_nat n -> f i = true.
Proof.
  intros H i Hi. rewrite forallb_forall in H. apply H.
  apply in_map_iff. exists (Z.to_nat i). split; [lia|].
  apply in_seq. lia.
Qed.

Lemma base64_valid_inv (enc : base64.Encoding) :
  base64.valid enc = true ->
  (forall i, 0 <= i < 64 ->
     base64.decodeMap enc (index_tbl (base64.encode enc) i) = i)
  /\ (forall p, base64.padChar enc = Some p ->
        base64.decodeMap enc p = 255 /\ is_newline p = false).
Proof.
  unfold base64.valid. intros H.
  apply andb_prop in H as [H Hpad]. apply andb_prop in H as [H _].
  apply andb_prop in H as [_ Hsym]. split.
  - intros i Hi. apply Z.eqb_eq.
    apply (forallb_seq_Z _ 64 Hsym i). lia.
  - intros p Hp. rewrite Hp in Hpad. apply andb_prop in Hpad as [H1 H2].
    split; [apply Z.eqb_eq; exact H1 | apply negb_true_iff; exact H2].
Qed.

Lemma base64_scan_symbol (enc : base64.Encoding) (srclen : Z) (c : byte)
    (rest : list byte) (si : Z) (j : nat) (dbuf : list Z) (v : Z) :
  base64.decodeMap enc c = v -> v <> 255 ->
  base64.scan_loop enc srclen (c :: rest) si j dbuf
  = if (S j =? 4)%nat then (base64.Convert (si + 1) 4 (<[j := v]> dbuf) None, rest)
    else base64.scan_loop enc srclen rest (si + 1) (S j) (<[j := v]> dbuf).
Proof.
  intros Hv Hne. cbn [base64.scan_loop]. rewrite Hv.
  destruct (Z.eqb_spec v 255) as [E|_]; [contradiction|]. reflexivity.
Qed.

Lemma sextet_range (x : Z) : 0 <= x .& 63 < 64.
Proof. change 63 with (Z.ones 6). rewrite Z.land_ones by lia. apply Z.mod_pos_bound. lia. Qed.

Lemma sextet_ne (x : Z) : x .& 63 <> 255.
Proof. pose proof (sextet_range x). lia. Qed.

(** Three bytes split into four 6-bit symbols and put together again. *)
Lemma base64_quantum_bits (s0 s1 s2 : Z) :
  0 <= s0 < 256 -> 0 <= s1 < 256 -> 0 <= s2 < 256 ->
  let val := s0 .<< 16 .| s1 .<< 8 .| s2 in
  let val' := (val .>> 18 .& 63) .<< 18 .| (val .>> 12 .& 63) .<< 12
              .| (val .>> 6 .& 63) .<< 6 .| (val .& 63) in
  (val' .>> 16) mod 256 = s0 /\ (val' .>> 8) mod 256 = s1
  /\ (val' .>> 0) mod 256 = s2.
Proof.
  intros H0 H1 H2. cbv zeta. shifts_to_arith.
  lor_add_with 16. lor_add_with 8. lor_add_with 18. lor_add_with 12. lor_add_with 6.
  repeat split; solve_arith.
Qed.

Lemma base64_tail2_bits (s0 s1 : Z) :
  0 <= s0 < 256 -> 0 <= s1 < 256 ->
  let val := s0 .<< 16 .| s1 .<< 8 in
  let val' := (val .>> 18 .& 63) .<< 18 .| (val .>> 12 .& 63) .<< 12
              .| (val .>> 6 .& 63) .<< 6 .| 0 in
  (val' .>> 16) mod 256 = s0 /\ (val' .>> 8) mod 256 = s1.
Proof.
  intros H0 H1. cbv zeta. rewrite Z.lor_0_r. shifts_to_arith.
  lor_add_with 16. lor_add_with 18. lor_add_with 12.
  repeat split; solve_arith.
Qed.

Lemma base64_tail1_bits (s0 : Z) :
  0 <= s0 < 256 ->
  let val := s0 .<< 16 in
  let val' := (val .>> 18 .& 63) .<< 18 .| (val .>> 12 .& 63) .<< 12
              .| 0 .<< 6 .| 0 in
  (val' .>> 16) mod 256 = s0.
Proof.
  intros H0. cbv zeta. rewrite Z.shiftl_0_l, !Z.lor_0_r. shifts_to_arith.
  lor_add_with 18. solve_arith.
Qed.

Lemma byte_of_mod (z : Z) (b : byte) : z mod 256 = byte_val b -> byte_of z = b.
Proof.
  intros H. apply byte_val_inj. rewrite byte_val_of. exact H.
Qed.

Lemma base64_encode_bytes_length (enc : base64.Encoding) (p : byte) :
  base64.padChar enc = Some p ->
  forall src, length (base64.encode_bytes enc src) = ((length src + 2) / 3 * 4)%nat.
Proof.
  intros Hp. induction src as [src IH] using list_length_ind.
  destruct src as [|s0 [|s1 [|s2 src]]]; cbn [base64.encode_bytes]; unfold base64.pads;
    rewrite ?Hp; try reflexivity.
  cbn [length]. rewrite IH by (simpl; lia).
  replace (S (S (S (length src))) + 2)%nat with (1 * 3 + (length src + 2))%nat by lia.
  rewrite Nat.div_add_l by lia. lia.
Qed.

Section Base64RoundTrip.
Variable enc : base64.Encoding.
Variable p : byte.
Hypothesis Hvalid : base64.valid enc = true.
Hypothesis Hpad : base64.padChar enc = Some p.
Hypothesis Hstrict : base64.strict enc = false.

Let e := index_tbl (base64.encode enc).

Lemma base64_symbol (x : Z) : base64.decodeMap enc (e (x .& 63)) = x .& 63.
Proof. apply (proj1 (base64_valid_inv enc Hvalid)). apply sextet_range. Qed.

Lemma base64_scan_pad (srclen : Z) (rest : list byte) (si : Z) (j : nat)
    (dbuf : list Z) :
  base64.scan_loop enc srclen (p :: rest) si j dbuf
  = match j with
    | 0%nat | 1%nat =>
        (base64.Return (si + 1) (Some (base64_CorruptInputError (si + 1 - 1))), rest)
    | 2%nat =>
        let '(rest2, si2) := base64.skip_newlines rest (si + 1) in
        match rest2 with
        | [] => (base64.Return si2 (Some (base64_CorruptInputError srclen)), rest2)
        | c :: rest3 =>
            if negb (base64.is_pad enc c)
            then (base64.Return si2 (Some (base64_CorruptInputError (si2 - 1))), rest2)
            else
              let '(rest4, si4) := base64.skip_newlines rest3 (si2 + 1) in
              (base64.Convert si4 j dbuf
                 (match rest4 with
                  | [] => None
                  | _ :: _ => Some (base64_CorruptInputError si4)
                  end), rest4)
        end
    | _ =>
        let '(rest4, si4) := base64.skip_newlines rest (si + 1) in
        (base64.Convert si4 j dbuf
           (match rest4 with
            | [] => None
            | _ :: _ => Some (base64_CorruptInputError si4)
            end), rest4)
    end.
Proof.
  destruct (proj2 (base64_valid_inv enc Hvalid) p Hpad) as [Hd Hn].
  cbn [base64.scan_loop]. rewrite Hd, Hn. cbn [Z.eqb negb].
  unfold base64.is_pad. rewrite Hpad.
  rewrite byte_eqb_refl. reflexivity.
Qed.

Lemma base64_is_pad_p : base64.is_pad enc p = true.
Proof. unfold base64.is_pad. rewrite Hpad. apply byte_eqb_refl. Qed.

Lemma base64_skip_pad (rest : list byte) (si : Z) :
  base64.skip_newlines (p :: rest) si = (p :: rest, si).
Proof.
  destruct (proj2 (base64_valid_inv enc Hvalid) p Hpad) as [_ Hn].
  cbn [base64.skip_newlines]. rewrite Hn. reflexivity.
Qed.

Lemma base64_decode_encode (src : list byte) :
  forall fuel si srclen,
    (length (base64.encode_bytes enc src) <= fuel)%nat ->
    base64.decode_loop enc fuel srclen (base64.encode_bytes enc src) si
    = (src, None).
Proof.
  induction src as [src IH] using list_length_ind.
  intros fuel si srclen Hfuel.
  destruct src as [|s0 [|s1 [|s2 src]]].
  - destruct fuel; reflexivity.
  - (* one byte left: two symbols and two padding characters *)
    cbn [base64.encode_bytes] in *. unfold base64.pads in *. rewrite Hpad in *.
    cbn [replicate length] in *.
    destruct fuel as [|fuel]; [lia|].
    cbn [base64.decode_loop]. unfold base64.decodeQuantum.
    rewrite (base64_scan_symbol _ _ _ _ _ _ _ _ (base64_symbol _) (sextet_ne _)).
    cbn [Nat.eqb].
    rewrite (base64_scan_symbol _ _ _ _ _ _ _ _ (base64_symbol _) (sextet_ne _)).
    cbn [Nat.eqb].
    rewrite base64_scan_pad. rewrite base64_skip_pad.
    rewrite base64_is_pad_p. cbn [negb base64.skip_newlines].
    unfold base64.convert. rewrite Hstrict. cbn [andb nth list_insert insert].
    destruct fuel; cbn [base64.decode_loop];
      (rewrite (byte_of_mod _ s0);
       [reflexivity | apply (base64_tail1_bits (byte_val s0)), byte_val_range]).
  - (* two bytes left: three symbols and one padding character *)
    cbn [base64.encode_bytes] in *. unfold base64.pads in *. rewrite Hpad in *.
    cbn [replicate length] in *.
    destruct fuel as [|fuel]; [lia|].
    cbn [base64.decode_loop]. unfold base64.decodeQuantum.
    do 3 (rewrite (base64_scan_symbol _ _ _ _ _ _ _ _ (base64_symbol _) (sextet_ne _));
          cbn [Nat.eqb]).
    rewrite base64_scan_pad. cbn [base64.skip_newlines].
    unfold base64.convert. rewrite Hstrict. cbn [andb nth list_insert insert].
    destruct (base64_tail2_bits (byte_val s0) (byte_val s1)
                (byte_val_range _) (byte_val_range _)) as [E0 E1].
    destruct fuel; cbn [base64.decode_loop];
      rewrite (byte_of_mod _ s0 E0), (byte_of_mod _ s1 E1); reflexivity.
  - (* a full group of three bytes *)
    cbn [base64.encode_bytes] in *. cbn [length] in Hfuel.
    destruct fuel as [|fuel]; [lia|].
    cbn [base64.decode_loop]. unfold base64.decodeQuantum.
    do 4 (rewrite (base64_scan_symbol _ _ _ _ _ _ _ _ (base64_symbol _) (sextet_ne _));
          cbn [Nat.eqb]).
    unfold base64.convert. cbn [nth list_insert insert].
    destruct (base64_quantum_bits (byte_val s0) (byte_val s1) (byte_val s2)
                (byte_val_range _) (byte_val_range _) (byte_val_range _))
      as (E0 & E1 & E2).
    rewrite (byte_of_mod _ s0 E0), (byte_of_mod _ s1 E1), (byte_of_mod _ s2 E2).
    rewrite IH by (simpl; lia). reflexivity.
Qed.

Lemma base64_Encode_make (src : list byte) :
  base64.Encode enc (make (base64.EncodedLen enc (length src))) src
  = Some (base64.encode_bytes enc src).
Proof.
  unfold base64.Encode, base64.EncodedLen. rewrite Hpad.
  destruct (fill_make (base64.encode_bytes enc src) ((length src + 2) / 3 * 4))
    as (dst & Hf & _ & Heq).
  { rewrite (base64_encode_bytes_length enc p Hpad). lia. }
  rewrite Hf, Heq by apply (base64_encode_bytes_length enc p Hpad). reflexivity.
Qed.

Lemma base64_Decode_make (src : list byte) :
  let y := base64.encode_bytes enc src in
  exists dst,
    base64.Decode enc (make (base64.DecodedLen enc (length y))) y
    = Some (dst, length src, None)
    /\ take (length src) dst = src.
Proof.
  intros y. unfold base64.Decode, base64.DecodedLen. rewrite Hpad.
  subst y. rewrite base64_decode_encode by lia.
  rewrite (base64_encode_bytes_length enc p Hpad).
  destruct (fill_make src ((length src + 2) / 3 * 4 / 4 * 3)) as (dst & Hf & Ht & _).
  { rewrite Nat.div_mul by lia.
    pose proof (Nat.div_mod_eq (length src + 2) 3).
    pose proof (Nat.mod_upper_bound (length src + 2) 3). lia. }
  exists dst. rewrite Hf. split; [reflexivity | exact Ht].
Qed.
End Base64RoundTrip.

Lemma base64Dec_base64Enc (src : list byte) :
  exists y, base64Enc src = Ret y None /\ base64Dec y = Ret src None.
Proof.
  exists (base64.encode_bytes base64.StdEncoding src).
  unfold base64Enc, base64Dec.
  rewrite (base64_Encode_make base64.StdEncoding x3d) by reflexivity.
  split; [reflexivity|].
  destruct (base64_Decode_make base64.StdEncoding x3d eq_refl eq_refl eq_refl src)
    as (dst & Hd & Ht).
  cbv zeta in Hd. rewrite Hd, Ht. reflexivity.
Qed.

Lemma base64URLDec_base64URLEnc (src : list byte) :
  exists y, base64URLEnc src = Ret y None /\ base64URLDec y = Ret src None.
Proof.
  exists (base64.encode_bytes base64.URLEncoding src).
  unfold base64URLEnc, base64URLDec.
  rewrite (base64_Encode_make base64.URLEncoding x3d) by reflexivity.
  split; [reflexivity|].
  destruct (base64_Decode_make base64.URLEncoding x3d eq_refl eq_refl eq_refl src)
    as (dst & Hd & Ht).
  cbv zeta in Hd. rewrite Hd, Ht. reflexivity.
Qed.

(** ** encoding/base32 *)

Lemma lor_add_r (n x y : Z) :
  0 <= n -> y mod 2 ^ n = 0 -> 0 <= x < 2 ^ n -> x .| y = x + y.
Proof. intros. rewrite Z.lor_comm, (lor_add n) by assumption. lia. Qed.

Ltac lor_add_with_r n :=
  match goal with
  | |- context [?x .| ?y] =>
      rewrite (lor_add_r n x y) by (first [lia | solve_arith])
  end.

(** Five bytes split into eight 5-bit symbols and packed again. *)
Lemma base32_group_bits (s0 s1 s2 s3 s4 : Z) :
  0 <= s0 < 256 -> 0 <= s1 < 256 -> 0 <= s2 < 256 -> 0 <= s3 < 256 -> 0 <= s4 < 256 ->
  let hi := s0 .<< 24 .| s1 .<< 16 .| s2 .<< 8 .| s3 in
  let lo := u32 (hi .<< 8) .| s4 in
  let d0 := hi .>> 27 .& 31 in
  let d1 := hi .>> 22 .& 31 in
  let d2 := hi .>> 17 .& 31 in
  let d3 := hi .>> 12 .& 31 in
  let d4 := hi .>> 7 .& 31 in
  let d5 := hi .>> 2 .& 31 in
  let d6 := lo .>> 5 .& 31 in
  let d7 := lo .& 31 in
  (u8 (d0 .<< 3) .| d1 .>> 2) mod 256 = s0
  /\ (u8 (d1 .<< 6) .| u8 (d2 .<< 1) .| d3 .>> 4) mod 256 = s1
  /\ (u8 (d3 .<< 4) .| d4 .>> 1) mod 256 = s2
  /\ (u8 (d4 .<< 7) .| u8 (d5 .<< 2) .| d6 .>> 3) mod 256 = s3
  /\ (u8 (d6 .<< 5) .| d7) mod 256 = s4.
Proof.
  intros H0 H1 H2 H3 H4. cbv zeta. shifts_to_arith.
  lor_add_with 24. lor_add_with 16. lor_add_with 8. lor_add_with 8.
  repeat split.
  - lor_add_with 3. solve_arith.
  - lor_add_with 6. lor_add_with 1. solve_arith.
  - lor_add_with 4. solve_arith.
  - lor_add_with 7. lor_add_with 2. solve_arith.
  - lor_add_with 5. solve_arith.
Qed.

(** The final fragment: the symbols of one to four bytes, of which the
    last symbol carries zero bits, packed again. *)
Lemma base32_tail1_bits (s0 : Z) :
  0 <= s0 < 256 ->
  let v := s0 .<< 24 in
  (u8 ((v .>> 27 .& 31) .<< 3) .| (v .>> 22 .& 31) .>> 2) mod 256 = s0.
Proof.
  intros H0. cbv zeta. shifts_to_arith. lor_add_with 3. solve_arith.
Qed.

Lemma base32_tail2_bits (s0 s1 : Z) :
  0 <= s0 < 256 -> 0 <= s1 < 256 ->
  let v2 := s1 .<< 16 in
  let v1 := v2 .| s0 .<< 24 in
  let d0 := v1 .>> 27 .& 31 in
  let d1 := v1 .>> 22 .& 31 in
  let d2 := v2 .>> 17 .& 31 in
  let d3 := v2 .>> 12 .& 31 in
  (u8 (d0 .<< 3) .| d1 .>> 2) mod 256 = s0
  /\ (u8 (d1 .<< 6) .| u8 (d2 .<< 1) .| d3 .>> 4) mod 256 = s1.
Proof.
  intros H0 H1. cbv zeta. shifts_to_arith. lor_add_with_r 24.
  split.
  - lor_add_with 3. solve_arith.
  - lor_add_with 6. lor_add_with 1. solve_arith.
Qed.

Lemma base32_tail3_bits (s0 s1 s2 : Z) :
  0 <= s0 < 256 -> 0 <= s1 < 256 -> 0 <= s2 < 256 ->
  let v3 := s2 .<< 8 in
  let v2 := v3 .| s1 .<< 16 in
  let v1 := v2 .| s0 .<< 24 in
  let d0 := v1 .>> 27 .& 31 in
  let d1 := v1 .>> 22 .& 31 in
  let d2 := v2 .>> 17 .& 31 in
  let d3 := v2 .>> 12 .& 31 in
  let d4 := v3 .>> 7 .& 31 in
  (u8 (d0 .<< 3) .| d1 .>> 2) mod 256 = s0
  /\ (u8 (d1 .<< 6) .| u8 (d2 .<< 1) .| d3 .>> 4) mod 256 = s1
  /\ (u8 (d3 .<< 4) .| d4 .>> 1) mod 256 = s2.
Proof.
  intros H0 H1 H2. cbv zeta. shifts_to_arith.
  lor_add_with_r 16. lor_add_with_r 24.
  repeat split.
  - lor_add_with 3. solve_arith.
  - lor_add_with 6. lor_add_with 1. solve_arith.
  - lor_add_with 4. solve_arith.
Qed.

Lemma base32_tail4_bits (s0 s1 s2 s3 : Z) :
  0 <= s0 < 256 -> 0 <= s1 < 256 -> 0 <= s2 < 256 -> 0 <= s3 < 256 ->
  let v4 := s3 in
  let v3 := v4 .| s2 .<< 8 in
  let v2 := v3 .| s1 .<< 16 in
  let v1 := v2 .| s0 .<< 24 in
  let d0 := v1 .>> 27 .& 31 in
  let d1 := v1 .>> 22 .& 31 in
  let d2 := v2 .>> 17 .& 31 in
  let d3 := v2 .>> 12 .& 31 in
  let d4 := v3 .>> 7 .& 31 in
  let d5 := v4 .>> 2 .& 31 in
  let d6 := u32 (v4 .<< 3) .& 31 in
  (u8 (d0 .<< 3) .| d1 .>> 2) mod 256 = s0
  /\ (u8 (d1 .<< 6) .| u8 (d2 .<< 1) .| d3 .>> 4) mod 256 = s1
  /\ (u8 (d3 .<< 4) .| d4 .>> 1) mod 256 = s2
  /\ (u8 (d4 .<< 7) .| u8 (d5 .<< 2) .| d6 .>> 3) mod 256 = s3.
Proof.
  intros H0 H1 H2 H3. cbv zeta. shifts_to_arith.
  lor_add_with_r 8. lor_add_with_r 16. lor_add_with_r 24.
  repeat split.
  - lor_add_with 3. solve_arith.
  - lor_add_with 6. lor_add_with 1. solve_arith.
  - lor_add_with 4. solve_arith.
  - lor_add_with 7. lor_add_with 2. solve_arith.
Qed.

Lemma quintet_range (x : Z) : 0 <= x .& 31 < 32.
Proof. change 31 with (Z.ones 5). rewrite Z.land_ones by lia. apply Z.mod_pos_bound. lia. Qed.

Lemma base32_valid_inv (enc : base32.Encoding) :
  base32.valid enc = true ->
  (forall i, 0 <= i < 32 ->
     base32.decodeMap enc (index_tbl (base32.encode enc) i) = i
     /\ is_newline (index_tbl (base32.encode enc) i) = false)
  /\ (forall p, base32.padChar enc = Some p ->
        base32.decodeMap enc p = 255 /\ is_newline p = false).
Proof.
  unfold base32.valid. intros H.
  apply andb_prop in H as [H Hpad]. apply andb_prop in H as [H Hnl].
  apply andb_prop in H as [Hlen Hsym]. apply Nat.eqb_eq in Hlen. split.
  - intros i Hi. split.
    + apply Z.eqb_eq. apply (forallb_seq_Z _ 32 Hsym i). lia.
    + rewrite forallb_forall in Hnl. apply negb_true_iff, Hnl.
      unfold index_tbl. apply nth_In. lia.
  - intros p Hp. rewrite Hp in Hpad. apply andb_prop in Hpad as [H1 H2].
    split; [apply Z.eqb_eq; exact H1 | apply negb_true_iff; exact H2].
Qed.

Section Base32RoundTrip.
Variable enc : base32.Encoding.
Variable p : byte.
Hypothesis Hvalid : base32.valid enc = true.
Hypothesis Hpad : base32.padChar enc = Some p.

Let e := index_tbl (base32.encode enc).

Lemma base32_is_pad_p : base32.is_pad enc p = true.
Proof. unfold base32.is_pad. rewrite Hpad. apply byte_eqb_refl. Qed.

Lemma base32_padded : base32.padded enc = true.
Proof. unfold base32.padded. rewrite Hpad. reflexivity. Qed.

Lemma base32_symbol (x : Z) :
  base32.decodeMap enc (e (x .& 31)) = x .& 31
  /\ base32.is_pad enc (e (x .& 31)) = false
  /\ is_newline (e (x .& 31)) = false.
Proof.
  destruct (base32_valid_inv enc Hvalid) as [Hs Hp].
  destruct (Hs (x .& 31) (quintet_range x)) as [Hd Hn].
  destruct (Hp p Hpad) as [Hdp _].
  split; [exact Hd|]. split; [|exact Hn].
  unfold base32.is_pad. rewrite Hpad. apply byte_eqb_neq.
  intros E. fold e in Hd. rewrite E, Hdp in Hd.
  pose proof (quintet_range x). lia.
Qed.

Lemma base32_scan_symbol (olen : Z) (x : Z) (src : list byte) (j : nat)
    (dbuf : list Z) :
  base32.scan_loop enc olen (e (x .& 31) :: src) j dbuf
  = if (S j =? 8)%nat then (base32.Quantum 8 (<[j := x .& 31]> dbuf) false, src)
    else base32.scan_loop enc olen src (S j) (<[j := x .& 31]> dbuf).
Proof.
  destruct (base32_symbol x) as (Hd & Hp & _).
  cbn [base32.scan_loop]. rewrite Hp, Hd. cbn [andb].
  pose proof (quintet_range x).
  destruct (Z.eqb_spec (x .& 31) 255); [lia | reflexivity].
Qed.

(** The padding that closes a final quantum of [j] symbols. *)
Lemma base32_scan_padding (olen : Z) (j : nat) (dbuf : list Z) :
  j = 2%nat \/ j = 4%nat \/ j = 5%nat \/ j = 7%nat ->
  fst (base32.scan_loop enc olen (replicate (8 - j) p) j dbuf)
  = base32.Quantum j dbuf true.
Proof.
  intros [-> | [-> | [-> | ->]]];
    cbn [replicate Nat.sub base32.scan_loop length Z.of_nat Pos.of_succ_nat Pos.succ];
    rewrite base32_is_pad_p;
    cbn [andb Nat.leb Z.ltb Z.compare Pos.compare Pos.compare_cont Z.add Pos.add
           Z.sub Z.opp Z.pos_sub Pos.succ Pos.pred_double Z.succ_double Z.pred_double
           Z.double Nat.sub base32.check_padding];
    rewrite ?base32_is_pad_p; reflexivity.
Qed.

Lemma base32_decode_padding (olen : Z) (j : nat) (dbuf : list Z) (fuel : nat) :
  j = 2%nat \/ j = 4%nat \/ j = 5%nat \/ j = 7%nat ->
  match base32.scan_loop enc olen (replicate (8 - j) p) j dbuf with
  | (base32.Fail err, _) => ([], Some err)
  | (base32.Quantum dlen dbuf end_, src') =>
      let out := base32.pack dlen dbuf in
      if end_ then (out, None)
      else
        let '(out', err) := base32.decode enc fuel olen src' in
        (out ++ out', err)
  end = (base32.pack j dbuf, None).
Proof.
  intros Hj. pose proof (base32_scan_padding olen j dbuf Hj) as H.
  destruct (base32.scan_loop enc olen (replicate (8 - j) p) j dbuf) as [sc rest].
  cbn [fst] in H. subst sc. reflexivity.
Qed.

Lemma base32_encode_tail1 (s0 : byte) :
  base32.encode_tail enc [s0]
  = let v := byte_val s0 .<< 24 in
    [e (v .>> 27 .& 31); e (v .>> 22 .& 31)] ++ replicate 6 p.
Proof. unfold base32.encode_tail. rewrite Hpad. reflexivity. Qed.

Lemma base32_encode_tail2 (s0 s1 : byte) :
  base32.encode_tail enc [s0; s1]
  = let v2 := byte_val s1 .<< 16 in
    let v1 := v2 .| byte_val s0 .<< 24 in
    [e (v1 .>> 27 .& 31); e (v1 .>> 22 .& 31); e (v2 .>> 17 .& 31);
     e (v2 .>> 12 .& 31)] ++ replicate 4 p.
Proof. unfold base32.encode_tail. rewrite Hpad. reflexivity. Qed.

Lemma base32_encode_tail3 (s0 s1 s2 : byte) :
  base32.encode_tail enc [s0; s1; s2]
  = let v3 := byte_val s2 .<< 8 in
    let v2 := v3 .| byte_val s1 .<< 16 in
    let v1 := v2 .| byte_val s0 .<< 24 in
    [e (v1 .>> 27 .& 31); e (v1 .>> 22 .& 31); e (v2 .>> 17 .& 31);
     e (v2 .>> 12 .& 31); e (v3 .>> 7 .& 31)] ++ replicate 3 p.
Proof. unfold base32.encode_tail. rewrite Hpad. reflexivity. Qed.

Lemma base32_encode_tail4 (s0 s1 s2 s3 : byte) :
  base32.encode_tail enc [s0; s1; s2; s3]
  = let v4 := byte_val s3 in
    let v3 := v4 .| byte_val s2 .<< 8 in
    let v2 := v3 .| byte_val s1 .<< 16 in
    let v1 := v2 .| byte_val s0 .<< 24 in
    [e (v1 .>> 27 .& 31); e (v1 .>> 22 .& 31); e (v2 .>> 17 .& 31);
     e (v2 .>> 12 .& 31); e (v3 .>> 7 .& 31); e (v4 .>> 2 .& 31);
     e (u32 (v4 .<< 3) .& 31)] ++ replicate 1 p.
Proof. unfold base32.encode_tail. rewrite Hpad. reflexivity. Qed.

Ltac scan_symbol := rewrite base32_scan_symbol; cbn [Nat.eqb list_insert insert].

Lemma base32_decode_encode (src : list byte) :
  forall fuel olen,
    (length (base32.encode_bytes enc src) <= fuel)%nat ->
    base32.decode enc fuel olen (base32.encode_bytes enc src) = (src, None).
Proof.
  induction src as [src IH] using list_length_ind.
  intros fuel olen Hfuel.
  destruct src as [|s0 [|s1 [|s2 [|s3 [|s4 src]]]]].
  - destruct fuel; reflexivity.
  - cbn [base32.encode_bytes] in *. rewrite base32_encode_tail1 in *. cbv zeta in *.
    destruct fuel as [|fuel]; [simpl in Hfuel; lia|].
    cbn [app base32.decode]. do 2 scan_symbol.
    rewrite (base32_decode_padding olen 2) by tauto.
    unfold base32.pack. cbn [nth].
    rewrite (byte_of_mod _ s0); [reflexivity|].
    apply (base32_tail1_bits (byte_val s0)), byte_val_range.
  - cbn [base32.encode_bytes] in *. rewrite base32_encode_tail2 in *. cbv zeta in *.
    destruct fuel as [|fuel]; [simpl in Hfuel; lia|].
    cbn [app base32.decode]. do 4 scan_symbol.
    rewrite (base32_decode_padding olen 4) by tauto.
    unfold base32.pack. cbn [nth].
    destruct (base32_tail2_bits (byte_val s0) (byte_val s1)
                (byte_val_range _) (byte_val_range _)) as (E0 & E1).
    rewrite (byte_of_mod _ s0 E0), (byte_of_mod _ s1 E1). reflexivity.
  - cbn [base32.encode_bytes] in *. rewrite base32_encode_tail3 in *. cbv zeta in *.
    destruct fuel as [|fuel]; [simpl in Hfuel; lia|].
    cbn [app base32.decode]. do 5 scan_symbol.
    rewrite (base32_decode_padding olen 5) by tauto.
    unfold base32.pack. cbn [nth].
    destruct (base32_tail3_bits (byte_val s0) (byte_val s1) (byte_val s2)
                (byte_val_range _) (byte_val_range _) (byte_val_range _))
      as (E0 & E1 & E2).
    rewrite (byte_of_mod _ s0 E0), (byte_of_mod _ s1 E1), (byte_of_mod _ s2 E2).
    reflexivity.
  - cbn [base32.encode_bytes] in *. rewrite base32_encode_tail4 in *. cbv zeta in *.
    destruct fuel as [|fuel]; [simpl in Hfuel; lia|].
    cbn [app base32.decode]. do 7 scan_symbol.
    rewrite (base32_decode_padding olen 7) by tauto.
    unfold base32.pack. cbn [nth].
    destruct (base32_tail4_bits (byte_val s0) (byte_val s1) (byte_val s2) (byte_val s3)
                (byte_val_range _) (byte_val_range _) (byte_val_range _)
                (byte_val_range _)) as (E0 & E1 & E2 & E3).
    rewrite (byte_of_mod _ s0 E0), (byte_of_mod _ s1 E1), (byte_of_mod _ s2 E2),
      (byte_of_mod _ s3 E3).
    reflexivity.
  - cbn [base32.encode_bytes] in *. cbn [length] in Hfuel.
    destruct fuel as [|fuel]; [lia|].
    cbn [base32.decode]. do 8 scan_symbol.
    unfold base32.pack. cbn [nth].
    destruct (base32_group_bits (byte_val s0) (byte_val s1) (byte_val s2) (byte_val s3)
                (byte_val s4) (byte_val_range _) (byte_val_range _) (byte_val_range _)
                (byte_val_range _) (byte_val_range _)) as (E0 & E1 & E2 & E3 & E4).
    rewrite (byte_of_mod _ s0 E0), (byte_of_mod _ s1 E1), (byte_of_mod _ s2 E2),
      (byte_of_mod _ s3 E3), (byte_of_mod _ s4 E4).
    rewrite IH by (simpl; lia). reflexivity.
Qed.
End Base32RoundTrip.

Section Base32Buffers.
Variable enc : base32.Encoding.
Variable p : byte.
Hypothesis Hvalid : base32.valid enc = true.
Hypothesis Hpad : base32.padChar enc = Some p.

Let e := index_tbl (base32.encode enc).

(** Every byte the encoder stores is a symbol of the alphabet or the
    padding character. *)
Lemma base32_encode_bytes_chars (src : list byte) :
  Forall (fun c => (exists x, c = e (x .& 31)) \/ c = p) (base32.encode_bytes enc src).
Proof.
  induction src as [src IH] using list_length_ind.
  destruct src as [|s0 [|s1 [|s2 [|s3 [|s4 src]]]]]; cbn [base32.encode_bytes].
  - constructor.
  - rewrite (base32_encode_tail1 enc p Hpad). cbv zeta. cbn [app replicate].
    repeat (constructor; [first [right; reflexivity | left; eexists; reflexivity]|]).
    constructor.
  - rewrite (base32_encode_tail2 enc p Hpad). cbv zeta. cbn [app replicate].
    repeat (constructor; [first [right; reflexivity | left; eexists; reflexivity]|]).
    constructor.
  - rewrite (base32_encode_tail3 enc p Hpad). cbv zeta. cbn [app replicate].
    repeat (constructor; [first [right; reflexivity | left; eexists; reflexivity]|]).
    constructor.
  - rewrite (base32_encode_tail4 enc p Hpad). cbv zeta. cbn [app replicate].
    repeat (constructor; [first [right; reflexivity | left; eexists; reflexivity]|]).
    constructor.
  - repeat (constructor; [left; eexists; reflexivity|]).
    apply IH. simpl. lia.
Qed.

Lemma base32_encode_bytes_length (src : list byte) :
  length (base32.encode_bytes enc src) = ((length src + 4) / 5 * 8)%nat.
Proof.
  induction src as [src IH] using list_length_ind.
  destruct src as [|s0 [|s1 [|s2 [|s3 [|s4 src]]]]]; cbn [base32.encode_bytes].
  - reflexivity.
  - rewrite (base32_encode_tail1 enc p Hpad). reflexivity.
  - rewrite (base32_encode_tail2 enc p Hpad). reflexivity.
  - rewrite (base32_encode_tail3 enc p Hpad). reflexivity.
  - rewrite (base32_encode_tail4 enc p Hpad). reflexivity.
  - cbn [length]. rewrite IH by (simpl; lia).
    replace (S (S (S (S (S (length src))))) + 4)%nat
      with (1 * 5 + (length src + 4))%nat by lia.
    rewrite Nat.div_add_l by lia. lia.
Qed.

Lemma base32_strip_encode (src : list byte) :
  base32.stripNewlines (base32.encode_bytes enc src) = base32.encode_bytes enc src.
Proof.
  unfold base32.stripNewlines.
  pose proof (base32_encode_bytes_chars src) as H.
  induction H as [|c l Hc _ IH]; [reflexivity|].
  rewrite filter_cons, IH.
  assert (Hn : is_newline c = false).
  { destruct Hc as [[x ->] | ->].
    - apply (base32_symbol enc p Hvalid Hpad x).
    - apply (proj2 (base32_valid_inv enc Hvalid) p Hpad). }
  rewrite decide_True by exact Hn. reflexivity.
Qed.

Lemma base32_Encode_make (src : list byte) :
  base32.Encode enc (make (base32.EncodedLen enc (length src))) src
  = Some (base32.encode_bytes enc src).
Proof.
  unfold base32.Encode, base32.EncodedLen. rewrite Hpad.
  destruct (fill_make (base32.encode_bytes enc src) ((length src + 4) / 5 * 8))
    as (dst & Hf & _ & Heq).
  { rewrite base32_encode_bytes_length. lia. }
  rewrite Hf, Heq by apply base32_encode_bytes_length. reflexivity.
Qed.

Lemma base32_Decode_make (src : list byte) :
  let y := base32.encode_bytes enc src in
  exists dst,
    base32.Decode enc (make (base32.DecodedLen enc (length y))) y
    = Some (dst, length src, None)
    /\ take (length src) dst = src.
Proof.
  intros y. unfold base32.Decode, base32.DecodedLen. rewrite Hpad.
  subst y. rewrite base32_strip_encode.
  rewrite (base32_decode_encode enc p Hvalid Hpad) by lia.
  rewrite base32_encode_bytes_length.
  destruct (fill_make src ((length src + 4) / 5 * 8 / 8 * 5)) as (dst & Hf & Ht & _).
  { rewrite Nat.div_mul by lia.
    pose proof (Nat.div_mod_eq (length src + 4) 5).
    pose proof (Nat.mod_upper_bound (length src + 4) 5). lia. }
  exists dst. rewrite Hf. split; [reflexivity | exact Ht].
Qed.
End Base32Buffers.

Lemma base32Dec_base32Enc (src : list byte) :
  exists y, base32Enc src = Ret y None /\ base32Dec y = Ret src None.
Proof.
  exists (base32.encode_bytes base32.StdEncoding src).
  unfold base32Enc, base32Dec.
  rewrite (base32_Encode_make base32.StdEncoding x3d) by reflexivity.
  split; [reflexivity|].
  destruct (base32_Decode_make base32.StdEncoding x3d eq_refl eq_refl src)
    as (dst & Hd & Ht).
  cbv zeta in Hd. rewrite Hd, Ht. reflexivity.
Qed.

Lemma base32HexDec_base32HexEnc (src : list byte) :
  exists y, base32HexEnc src = Ret y None /\ base32HexDec y = Ret src None.
Proof.
  exists (base32.encode_bytes base32.HexEncoding src).
  unfold base32HexEnc, base32HexDec.
  rewrite (base32_Encode_make base32.HexEncoding x3d) by reflexivity.
  split; [reflexivity|].
  destruct (base32_Decode_make base32.HexEncoding x3d eq_refl eq_refl src)
    as (dst & Hd & Ht).
  cbv zeta in Hd. rewrite Hd, Ht. reflexivity.
Qed.

(** ** bytes.ToUpper and bytes.Replace on the texts met here *)

Lemma ToUpper_ascii `{Externs} (s : list byte) :
  Forall is_ascii s -> bytes.ToUpper s = map upper_byte s.
Proof.
  intros Ha. unfold bytes.ToUpper.
  replace (forallb (fun c => byte_val c <? utf8.RuneSelf) s) with true.
  2:{ symmetry. apply forallb_forall. intros c Hc.
      rewrite Forall_forall in Ha. apply Z.ltb_lt. apply Ha.
      apply list_elem_of_In. exact Hc. }
  destruct (existsb _ s) eqn:E; cbn [negb]; [reflexivity|].
  clear Ha. induction s as [|c s IH]; [reflexivity|].
  cbn [existsb] in E. apply orb_false_elim in E as [Ec Es].
  cbn [map]. rewrite <- IH by exact Es.
  unfold upper_byte, is_lower. rewrite Ec. reflexivity.
Qed.

Lemma subst_byte_absent (o : byte) (new s : list byte) :
  ~ In o s -> flat_map (subst_byte o new) s = s.
Proof.
  induction s as [|c s IH]; intros Hn; [reflexivity|].
  cbn [flat_map]. unfold subst_byte at 1.
  destruct (byte_eqb c o) eqn:E.
  - apply byte_eqb_eq in E. subst. exfalso. apply Hn. left. reflexivity.
  - rewrite IH; [reflexivity|]. intros Hi. apply Hn. right. exact Hi.
Qed.

Lemma Index_byte_spec (o : byte) (s : list byte) :
  match bytes.Index s [o] with
  | Some i => exists pre post, s = pre ++ o :: post /\ length pre = i /\ ~ In o pre
  | None => ~ In o s
  end.
Proof.
  induction s as [|c s IH].
  - cbn. intros [].
  - cbn [bytes.Index bytes.HasPrefix]. destruct (byte_eqb c o) eqn:E.
    + apply byte_eqb_eq in E. subst c. cbn [andb].
      exists [], s. split; [reflexivity|]. split; [reflexivity|]. intros [].
    + cbn [andb]. apply byte_eqb_neq in E.
      destruct (bytes.Index s [o]) as [i|]; cbn [fmap option_fmap option_map].
      * destruct IH as (pre & post & -> & Hl & Hn).
        exists (c :: pre), post. split; [reflexivity|]. split; [simpl; lia|].
        intros [Hc|Hi]; [congruence | contradiction].
      * intros [Hc|Hi]; [congruence | contradiction].
Qed.

Lemma occurrences_app (o : byte) (s1 s2 : list byte) :
  occurrences o (s1 ++ s2) = (occurrences o s1 + occurrences o s2)%nat.
Proof. unfold occurrences. rewrite filter_app, length_app. reflexivity. Qed.

Lemma occurrences_absent (o : byte) (s : list byte) :
  ~ In o s -> occurrences o s = 0%nat.
Proof.
  unfold occurrences. induction s as [|c s IH]; intros Hn; [reflexivity|].
  rewrite filter_cons. destruct (decide (c = o)) as [->|Hne].
  - exfalso. apply Hn. left. reflexivity.
  - apply IH. intros Hi. apply Hn. right. exact Hi.
Qed.

Lemma occurrences_split (o : byte) (pre post : list byte) :
  ~ In o pre -> occurrences o (pre ++ o :: post) = S (occurrences o post).
Proof.
  intros Hn. rewrite occurrences_app, (occurrences_absent o pre Hn).
  unfold occurrences. rewrite filter_cons, decide_True by reflexivity. reflexivity.
Qed.

Lemma count_fuel_byte (o : byte) (s : list byte) :
  forall fuel, (length s <= fuel)%nat ->
    bytes.count_fuel fuel s [o] = occurrences o s.
Proof.
  induction s as [s IH] using list_length_ind. intros fuel Hf.
  pose proof (Index_byte_spec o s) as Hi.
  destruct fuel as [|fuel].
  - destruct s; [reflexivity | simpl in Hf; lia].
  - cbn [bytes.count_fuel]. destruct (bytes.Index s [o]) as [i|].
    + destruct Hi as (pre & post & -> & Hl & Hn).
      rewrite occurrences_split by exact Hn. f_equal.
      replace (drop (i + length [o]) (pre ++ o :: post)) with post.
      2:{ cbn [length]. rewrite <- Hl. rewrite drop_app_ge by lia.
          replace (length pre + 1 - length pre)%nat with 1%nat by lia. reflexivity. }
      apply IH; rewrite length_app in *; simpl in *; lia.
    + symmetry. apply occurrences_absent. exact Hi.
Qed.

Lemma replace_loop_byte (o : byte) (new : list byte) (n : nat) :
  forall (i0 : bool) (s : list byte),
    occurrences o s = n ->
    bytes.replace_loop n i0 s [o] new = flat_map (subst_byte o new) s.
Proof.
  induction n as [|n IH]; intros i0 s Hc.
  - cbn [bytes.replace_loop]. symmetry. apply subst_byte_absent.
    intros Hi. apply list_elem_of_In in Hi.
    unfold occurrences in Hc. apply length_zero_iff_nil in Hc.
    assert (Hf : o ∈ filter (fun c => c = o) s) by (apply list_elem_of_filter; auto).
    rewrite Hc in Hf. inversion Hf.
  - cbn [bytes.replace_loop]. pose proof (Index_byte_spec o s) as Hi.
    destruct (bytes.Index s [o]) as [i|].
    + destruct Hi as (pre & post & -> & Hl & Hn). cbn [default length].
      rewrite occurrences_split in Hc by exact Hn. injection Hc as Hc.
      rewrite <- Hl. unfold id. rewrite take_app_length.
      rewrite drop_app_ge by lia.
      replace (length pre + 1 - length pre)%nat with 1%nat by lia.
      change (drop 1 (o :: post)) with post.
      rewrite (IH false post Hc).
      rewrite flat_map_app. cbn [flat_map]. unfold subst_byte at 3.
      rewrite byte_eqb_refl, (subst_byte_absent o new pre Hn). reflexivity.
    + rewrite (occurrences_absent o s Hi) in Hc. discriminate.
Qed.

Lemma Replace_byte (s : list byte) (o : byte) (new : list byte) :
  bytes.Replace s [o] new (-1) = flat_map (subst_byte o new) s.
Proof.
  unfold bytes.Replace, bytes.Count. cbn [Z.eqb Z.ltb Z.compare orb].
  rewrite count_fuel_byte by lia.
  destruct (Nat.eqb_spec (occurrences o s) 0) as [E|_].
  - symmetry. apply subst_byte_absent. intros Hi. apply list_elem_of_In in Hi.
    unfold occurrences in E. apply length_zero_iff_nil in E.
    assert (Hf : o ∈ filter (fun c => c = o) s) by (apply list_elem_of_filter; auto).
    rewrite E in Hf. inversion Hf.
  - apply replace_loop_byte. reflexivity.
Qed.

(** ** base32-crockford *)

Lemma flat_map_flat_map {A B C : Type} (f : A -> list B) (g : B -> list C) (l : list A) :
  flat_map g (flat_map f l) = flat_map (fun a => flat_map g (f a)) l.
Proof.
  induction l as [|a l IH]; [reflexivity|].
  cbn [flat_map]. rewrite flat_map_app, IH. reflexivity.
Qed.

Lemma flat_map_map {A B C : Type} (f : A -> B) (g : B -> list C) (l : list A) :
  flat_map g (map f l) = flat_map (fun a => g (f a)) l.
Proof. induction l as [|a l IH]; [reflexivity|]. cbn. rewrite IH. reflexivity. Qed.

Lemma base32CrockfordDec_ascii `{Externs} (src : list byte) :
  Forall is_ascii src ->
  base32CrockfordDec src = crockford_decode (crockford_norm src).
Proof.
  intros Ha. unfold base32CrockfordDec. rewrite (ToUpper_ascii src Ha).
  change (bs "I") with ["I"%byte]. change (bs "L") with ["L"%byte].
  change (bs "O") with ["O"%byte]. change (bs "-") with ["-"%byte].
  rewrite !Replace_byte.
  rewrite !flat_map_flat_map, flat_map_map.
  unfold crockford_decode, crockford_norm.
  replace (flat_map _ src) with (flat_map crockford_norm_byte src); [reflexivity|].
  apply flat_map_ext. intros c. destruct c; reflexivity.
Qed.

Lemma swap_case_ascii (c : byte) : is_ascii c <-> is_ascii (swap_case c).
Proof. unfold is_ascii. destruct c; vm_compute; split; intros; congruence. Qed.

Lemma crockford_norm_swap_case (c : byte) :
  crockford_norm_byte (swap_case c) = crockford_norm_byte c.
Proof. destruct c; reflexivity. Qed.

Lemma crockford_norm_app (s1 s2 : list byte) :
  crockford_norm (s1 ++ s2) = crockford_norm s1 ++ crockford_norm s2.
Proof. apply flat_map_app. Qed.

Lemma crockford_edit_norm (t t' : list byte) :
  crockford_edit t t' ->
  crockford_norm t = crockford_norm t' /\ (Forall is_ascii t <-> Forall is_ascii t').
Proof.
  intros He. destruct He as [t1 c t2 | t1 c t2 Hc | t1 t2 | t1 t2];
    rewrite !crockford_norm_app, !Forall_app.
  - unfold crockford_norm. cbn [flat_map]. rewrite crockford_norm_swap_case.
    split; [reflexivity|]. rewrite !Forall_cons. rewrite <- swap_case_ascii. tauto.
  - split.
    + destruct Hc as [-> | ->]; reflexivity.
    + rewrite !Forall_cons.
      assert (is_ascii c) by (destruct Hc as [-> | ->]; reflexivity).
      assert (is_ascii "1"%byte) by reflexivity. tauto.
  - split; [reflexivity|]. rewrite !Forall_cons.
    assert (is_ascii "O"%byte) by reflexivity.
    assert (is_ascii "0"%byte) by reflexivity. tauto.
  - split; [reflexivity|]. rewrite !Forall_cons.
    assert (is_ascii "-"%byte) by reflexivity. tauto.
Qed.

Lemma crockford_variant_norm (t t' : list byte) :
  crockford_variant t t' ->
  crockford_norm t = crockford_norm t' /\ (Forall is_ascii t <-> Forall is_ascii t').
Proof.
  intros Hv. induction Hv as [t | t u v Hs _ IH].
  - tauto.
  - assert (crockford_norm t = crockford_norm u
            /\ (Forall is_ascii t <-> Forall is_ascii u)) as [E1 E2].
    { destruct Hs as [Hs | Hs]; apply crockford_edit_norm in Hs; destruct Hs; split;
        [assumption | assumption | symmetry; assumption | symmetry; assumption]. }
    destruct IH as [E3 E4]. split; [congruence | tauto].
Qed.

Lemma crockford_variant_decode `{Externs} (t t' : list byte) :
  Forall is_ascii t -> crockford_variant t t' ->
  base32CrockfordDec t' = base32CrockfordDec t.
Proof.
  intros Ha Hv. destruct (crockford_variant_norm t t' Hv) as [En Ea].
  rewrite (base32CrockfordDec_ascii t Ha).
  rewrite (base32CrockfordDec_ascii t') by (apply Ea; exact Ha).
  rewrite En. reflexivity.
Qed.

(** The characters of an encoded text are left alone by the
    normalisation. *)
Lemma crockford_chars_fixed :
  Forall (fun c => is_ascii c /\ crockford_norm_byte c = [c])
    (base32.encode crockfordEnc ++ ["="%byte]).
Proof.
  repeat (constructor; [split; reflexivity|]). constructor.
Qed.

Lemma crockford_encode_fixed (src : list byte) :
  let y := base32.encode_bytes crockfordEnc src in
  Forall is_ascii y /\ crockford_norm y = y.
Proof.
  intros y.
  pose proof (base32_encode_bytes_chars crockfordEnc x3d eq_refl src) as Hc.
  fold y in Hc. clearbody y.
  pose proof crockford_chars_fixed as Hfix. rewrite Forall_forall in Hfix.
  assert (Hall : Forall (fun c => is_ascii c /\ crockford_norm_byte c = [c]) y).
  { eapply Forall_impl; [exact Hc|]. intros c [[x ->] | ->]; apply Hfix.
    - apply list_elem_of_In, in_or_app. left. unfold index_tbl. apply nth_In.
      pose proof (quintet_range x). change (length (base32.encode crockfordEnc)) with 32%nat.
      lia.
    - apply list_elem_of_In, in_or_app. right. left. reflexivity. }
  clear Hc. induction Hall as [|c l [Ha Hn] _ [IH1 IH2]].
  - split; [constructor | reflexivity].
  - split; [constructor; assumption|].
    unfold crockford_norm in *. cbn [flat_map]. rewrite Hn, IH2. reflexivity.
Qed.

Lemma base32CrockfordEnc_spec (src : list byte) :
  base32CrockfordEnc src = Ret (base32.encode_bytes crockfordEnc src) None.
Proof.
  unfold base32CrockfordEnc.
  rewrite (base32_Encode_make crockfordEnc x3d) by reflexivity. reflexivity.
Qed.

Lemma base32CrockfordDec_encoded `{Externs} (src : list byte) :
  base32CrockfordDec (base32.encode_bytes crockfordEnc src) = Ret src None.
Proof.
  destruct (crockford_encode_fixed src) as [Ha Hn]. cbv zeta in Ha, Hn.
  rewrite (base32CrockfordDec_ascii _ Ha), Hn. unfold crockford_decode.
  destruct (base32_Decode_make crockfordEnc x3d eq_refl eq_refl src) as (dst & Hd & Ht).
  cbv zeta in Hd. rewrite Hd, Ht. reflexivity.
Qed.

(** ** net/url *)

Lemma url_check_plus_to_space (s : list byte) :
  is_error (url.check (map plus_to_space s)) = is_error (url.check s).
Proof.
  induction s as [s IH] using list_length_ind.
  destruct s as [|c s]; [reflexivity|].
  cbn [map url.check].
  destruct (byte_eqb c "%"%byte) eqn:Ec.
  - apply byte_eqb_eq in Ec. subst c.
    change (byte_eqb (plus_to_space "%"%byte) "%"%byte) with true. cbv iota.
    destruct s as [|h1 [|h2 s]]; try reflexivity.
    cbn [map].
    assert (Hh : forall h, url.ishex (plus_to_space h) = url.ishex h)
      by (intros h; destruct h; reflexivity).
    rewrite !Hh. destruct (url.ishex h1 && url.ishex h2); [|reflexivity].
    apply IH. simpl. lia.
  - assert (Hc : byte_eqb (plus_to_space c) "%"%byte = false)
      by (destruct c; try reflexivity; discriminate Ec).
    rewrite Hc. apply IH. simpl. lia.
Qed.

Lemma url_decode_plus_to_space (s : list byte) :
  url.decode (map plus_to_space s) url.encodePathSegment
  = url.decode s url.encodeQueryComponent.
Proof.
  induction s as [s IH] using list_length_ind.
  destruct s as [|c s]; [reflexivity|].
  cbn [map url.decode].
  destruct (byte_eqb c "%"%byte) eqn:Ec.
  - apply byte_eqb_eq in Ec. subst c.
    change (byte_eqb (plus_to_space "%"%byte) "%"%byte) with true. cbv iota.
    destruct s as [|h1 [|h2 s]]; try reflexivity.
    cbn [map].
    assert (Hh : forall h1 h2,
               u8 (url.unhex (plus_to_space h1) .<< 4) .| url.unhex (plus_to_space h2)
               = u8 (url.unhex h1 .<< 4) .| url.unhex h2).
    { intros a b.
      assert (Hu : forall h, url.unhex (plus_to_space h) = url.unhex h)
        by (intros h; destruct h; reflexivity).
      rewrite !Hu. reflexivity. }
    rewrite Hh. f_equal. apply IH. simpl. lia.
  - assert (Hc : byte_eqb (plus_to_space c) "%"%byte = false)
      by (destruct c; try reflexivity; discriminate Ec).
    rewrite Hc.
    destruct (byte_eqb c "+"%byte) eqn:Ep.
    + apply byte_eqb_eq in Ep. subst c.
      change (plus_to_space "+"%byte) with " "%byte.
      change (byte_eqb " "%byte "+"%byte) with false. cbv iota.
      f_equal. apply IH. simpl. lia.
    + unfold plus_to_space at 1 3. rewrite Ep. rewrite Ep.
      f_equal. apply IH. simpl. lia.
Qed.

Lemma url_plain_check (s : list byte) :
  url.check (filter (fun c => c <> "%"%byte) s) = None.
Proof.
  induction s as [|c s IH]; [reflexivity|].
  rewrite filter_cons. destruct (decide (c <> "%"%byte)) as [Hne|_]; [|exact IH].
  cbn [url.check]. apply byte_eqb_neq in Hne. rewrite Hne. exact IH.
Qed.

Lemma url_plain_decode_path (s : list byte) :
  let plain := filter (fun c => c <> "%"%byte) s in
  url.decode plain url.encodePathSegment = plain.
Proof.
  cbv zeta. induction s as [|c s IH]; [reflexivity|].
  rewrite filter_cons. destruct (decide (c <> "%"%byte)) as [Hne|_]; [|exact IH].
  cbn [url.decode]. apply byte_eqb_neq in Hne. rewrite Hne.
  destruct (byte_eqb c "+"%byte) eqn:Ep.
  - apply byte_eqb_eq in Ep. subst c. rewrite IH. reflexivity.
  - rewrite IH. reflexivity.
Qed.

Lemma url_plain_decode_query (s : list byte) :
  let plain := filter (fun c => c <> "%"%byte) s in
  url.decode plain url.encodeQueryComponent = map plus_to_space plain.
Proof.
  cbv zeta. induction s as [|c s IH]; [reflexivity|].
  rewrite filter_cons. destruct (decide (c <> "%"%byte)) as [Hne|_]; [|exact IH].
  cbn [url.decode map]. apply byte_eqb_neq in Hne. rewrite Hne.
  unfold plus_to_space at 1.
  destruct (byte_eqb c "+"%byte) eqn:Ep; rewrite IH; reflexivity.
Qed.

(** ** The numeric transforms stop at the first word that does not parse *)

Lemma float32hexDec_loop_abort (words : list (list byte)) :
  forall dst,
    existsb (fun w => is_error (snd (strconv.ParseUint w 16 32))) words = true ->
    fails_with_no_output (float32hexDec_loop words dst).
Proof.
  induction words as [|w words IH]; intros dst Hex; [discriminate|].
  cbn [existsb] in Hex. cbn [float32hexDec_loop].
  destruct (strconv.ParseUint w 16 32) as [s [err|]].
  - exists err. reflexivity.
  - cbn [snd is_error orb] in Hex. apply IH. exact Hex.
Qed.

Lemma float16hexDec_loop_abort `{Externs} (words : list (list byte)) :
  forall dst,
    existsb (fun w => is_error (snd (strconv.ParseUint w 16 16))) words = true ->
    fails_with_no_output (float16hexDec_loop words dst).
Proof.
  induction words as [|w words IH]; intros dst Hex; [discriminate|].
  cbn [existsb] in Hex. cbn [float16hexDec_loop].
  destruct (strconv.ParseUint w 16 16) as [s [err|]].
  - exists err. reflexivity.
  - cbn [snd is_error orb] in Hex. apply IH. exact Hex.
Qed.

Lemma float32hexEnc_loop_abort `{Externs} (words : list (list byte)) :
  forall dst,
    existsb (fun w => is_error (snd (strconv.ParseFloat32 w))) words = true ->
    fails_with_no_output (float32hexEnc_loop words dst).
Proof.
  induction words as [|w words IH]; intros dst Hex; [discriminate|].
  cbn [existsb] in Hex. cbn [float32hexEnc_loop].
  destruct (strconv.ParseFloat32 w) as [s [err|]].
  - exists err. reflexivity.
  - cbn [snd is_error orb] in Hex. apply IH. exact Hex.
Qed.

Lemma float16hexEnc_loop_abort `{Externs} (words : list (list byte)) :
  forall dst,
    existsb (fun w => is_error (snd (strconv.ParseFloat32 w))) words = true ->
    fails_with_no_output (float16hexEnc_loop words dst).
Proof.
  induction words as [|w words IH]; intros dst Hex; [discriminate|].
  cbn [existsb] in Hex. cbn [float16hexEnc_loop].
  destruct (strconv.ParseFloat32 w) as [s [err|]].
  - exists err. reflexivity.
  - cbn [snd is_error orb] in Hex. apply IH. exact Hex.
Qed.

(** [exec] writes nothing when the transform fails on the input it is
    given, which is the standard input less one final newline when
    stripping is on. *)
Lemma exec_abort (f : modeFunc) (stripNewline emitNewline : bool) (stdin : list byte) :
  exists b,
    (b = stdin \/ stdin = b ++ [x0a])
    /\ (fails_with_no_output (f b) ->
        fails_with_no_output (exec f stripNewline emitNewline stdin)).
Proof.
  unfold exec.
  set (b := if stripNewline then _ else stdin).
  exists b. split.
  - subst b. destruct stripNewline; [|left; reflexivity].
    destruct (last stdin) as [c|] eqn:El; [|left; reflexivity].
    destruct (byte_eqb c x0a) eqn:Ec; [|left; reflexivity].
    right. apply byte_eqb_eq in Ec. subst c.
    apply last_Some in El as [l' ->].
    rewrite length_app. cbn [length].
    replace (length l' + 1 - 1)%nat with (length l') by lia.
    rewrite take_app_length. reflexivity.
  - intros [err Hf]. rewrite Hf. exists err. reflexivity.
Qed.

(** ** unicode/utf8: decoding and encoding again *)

Lemma land_ones_lit (x k m : Z) : 0 <= k -> m = Z.ones k -> x .& m = x mod 2 ^ k.
Proof. intros Hk ->. apply Z.land_ones. exact Hk. Qed.

Ltac masks_to_mod :=
  repeat match goal with
         | |- context [?x .& 63] => rewrite (land_ones_lit x 6 63) by (lia || reflexivity)
         | |- context [?x .& 31] => rewrite (land_ones_lit x 5 31) by (lia || reflexivity)
         | |- context [?x .& 15] => rewrite (land_ones_lit x 4 15) by (lia || reflexivity)
         | |- context [?x .& 7] => rewrite (land_ones_lit x 3 7) by (lia || reflexivity)
         end.

Ltac bits_arith :=
  unfold u8, u16, u32, u64;
  repeat rewrite Z.shiftl_mul_pow2 by lia;
  repeat rewrite Z.shiftr_div_pow2 by lia;
  masks_to_mod; pow2_consts.

Lemma byte_of_eq (z : Z) (b : byte) : z = byte_val b -> byte_of z = b.
Proof. intros ->. apply byte_of_val. Qed.

Lemma ldiff_m1 (a : Z) : Z.ldiff a (-1) = 0.
Proof.
  apply Z.bits_inj'. intros n Hn.
  rewrite Z.ldiff_spec, Z.bits_m1, Z.bits_0 by lia. apply andb_false_r.
Qed.

Lemma ValidRune_low (r : Z) : 0 <= r < 55296 -> utf8.ValidRune r = true.
Proof.
  intros H. unfold utf8.ValidRune, utf8.surrogateMin.
  apply orb_true_iff. left. apply andb_true_iff. split; lia.
Qed.

Lemma ValidRune_high (r : Z) : 57343 < r <= 1114111 -> utf8.ValidRune r = true.
Proof.
  intros H. unfold utf8.ValidRune, utf8.surrogateMax, utf8.MaxRune.
  apply orb_true_iff. right. apply andb_true_iff. split; lia.
Qed.

(** The encodings of two, three and four bytes, put together from the
    bits the decoder takes out. *)
Lemma encode_rune_2 (c0 c1 : byte) :
  194 <= byte_val c0 < 224 -> 128 <= byte_val c1 <= 191 ->
  let r := (byte_val c0 .& 31) .<< 6 .| byte_val c1 .& 63 in
  128 <= r < 2048 /\ utf8.encode_rune r = [c0; c1].
Proof.
  intros H0 H1. cbv zeta.
  assert (Hr : (byte_val c0 .& 31) .<< 6 .| byte_val c1 .& 63
               = (byte_val c0 - 192) * 64 + (byte_val c1 - 128)).
  { bits_arith. lor_add_with 6. solve_arith. }
  rewrite Hr. split; [lia|].
  unfold utf8.encode_rune, utf8.rune1Max, utf8.rune2Max.
  unfold u32. rewrite !(Z.mod_small _ (2 ^ 32)) by lia.
  destruct (Z.leb_spec ((byte_val c0 - 192) * 64 + (byte_val c1 - 128)) 127); [lia|].
  destruct (Z.leb_spec ((byte_val c0 - 192) * 64 + (byte_val c1 - 128)) 2047); [|lia].
  f_equal; [|f_equal]; apply byte_of_eq.
  - bits_arith. lor_add_with 6. solve_arith.
  - bits_arith. lor_add_with 6. solve_arith.
Qed.

Lemma encode_rune_3 (c0 c1 c2 : byte) :
  224 <= byte_val c0 < 240 -> 128 <= byte_val c1 <= 191 -> 128 <= byte_val c2 <= 191 ->
  (byte_val c0 = 224 -> 160 <= byte_val c1) ->
  (byte_val c0 = 237 -> byte_val c1 <= 159) ->
  let r := (byte_val c0 .& 15) .<< 12 .| (byte_val c1 .& 63) .<< 6 .| byte_val c2 .& 63 in
  2048 <= r < 65536 /\ utf8.ValidRune r = true /\ utf8.encode_rune r = [c0; c1; c2].
Proof.
  intros H0 H1 H2 Hlo Hhi. cbv zeta.
  assert (Hr : (byte_val c0 .& 15) .<< 12 .| (byte_val c1 .& 63) .<< 6 .| byte_val c2 .& 63
               = (byte_val c0 - 224) * 4096 + (byte_val c1 - 128) * 64
                 + (byte_val c2 - 128)).
  { bits_arith. lor_add_with 12. lor_add_with 6. solve_arith. }
  rewrite Hr.
  set (r := (byte_val c0 - 224) * 4096 + (byte_val c1 - 128) * 64 + (byte_val c2 - 128)).
  assert (Hrange : 2048 <= r < 65536) by (subst r; lia).
  assert (Hsur : r < 55296 \/ 57343 < r) by (subst r; lia).
  split; [exact Hrange|]. split.
  { destruct Hsur; [apply ValidRune_low | apply ValidRune_high]; lia. }
  unfold utf8.encode_rune, utf8.rune1Max, utf8.rune2Max, utf8.rune3Max, utf8.MaxRune,
    utf8.surrogateMin, utf8.surrogateMax.
  unfold u32. rewrite !(Z.mod_small _ (2 ^ 32)) by lia.
  destruct (Z.leb_spec r 127); [lia|].
  destruct (Z.leb_spec r 2047); [lia|].
  replace ((1114111 <? r) || (55296 <=? r) && (r <=? 57343)) with false.
  2:{ symmetry. apply orb_false_iff. split; [lia|].
      apply andb_false_iff. destruct Hsur; [left | right]; lia. }
  cbn [orb]. destruct (Z.leb_spec r 65535); [|lia].
  f_equal; [|f_equal; [|f_equal]]; apply byte_of_eq; subst r.
  - bits_arith. lor_add_with 4. solve_arith.
  - bits_arith. lor_add_with 6. solve_arith.
  - bits_arith. lor_add_with 6. solve_arith.
Qed.

Lemma encode_rune_4 (c0 c1 c2 c3 : byte) :
  240 <= byte_val c0 <= 244 -> 128 <= byte_val c1 <= 191 -> 128 <= byte_val c2 <= 191 ->
  128 <= byte_val c3 <= 191 ->
  (byte_val c0 = 240 -> 144 <= byte_val c1) ->
  (byte_val c0 = 244 -> byte_val c1 <= 143) ->
  let r := (byte_val c0 .& 7) .<< 18 .| (byte_val c1 .& 63) .<< 12
           .| (byte_val c2 .& 63) .<< 6 .| byte_val c3 .& 63 in
  65536 <= r <= 1114111 /\ utf8.encode_rune r = [c0; c1; c2; c3].
Proof.
  intros H0 H1 H2 H3 Hlo Hhi. cbv zeta.
  assert (Hr : (byte_val c0 .& 7) .<< 18 .| (byte_val c1 .& 63) .<< 12
               .| (byte_val c2 .& 63) .<< 6 .| byte_val c3 .& 63
               = (byte_val c0 - 240) * 262144 + (byte_val c1 - 128) * 4096
                 + (byte_val c2 - 128) * 64 + (byte_val c3 - 128)).
  { bits_arith. lor_add_with 18. lor_add_with 12. lor_add_with 6. solve_arith. }
  rewrite Hr.
  set (r := (byte_val c0 - 240) * 262144 + (byte_val c1 - 128) * 4096
            + (byte_val c2 - 128) * 64 + (byte_val c3 - 128)).
  assert (Hrange : 65536 <= r <= 1114111) by (subst r; lia).
  split; [exact Hrange|].
  unfold utf8.encode_rune, utf8.rune1Max, utf8.rune2Max, utf8.rune3Max, utf8.MaxRune,
    utf8.surrogateMin, utf8.surrogateMax.
  unfold u32. rewrite !(Z.mod_small _ (2 ^ 32)) by lia.
  destruct (Z.leb_spec r 127); [lia|].
  destruct (Z.leb_spec r 2047); [lia|].
  replace ((1114111 <? r) || (55296 <=? r) && (r <=? 57343) || (r <=? 65535)) with false.
  2:{ symmetry. lia. }
  f_equal; [|f_equal; [|f_equal; [|f_equal]]]; apply byte_of_eq; subst r.
  - bits_arith. lor_add_with 3. solve_arith.
  - bits_arith. lor_add_with 6. solve_arith.
  - bits_arith. lor_add_with 6. solve_arith.
  - bits_arith. lor_add_with 6. solve_arith.
Qed.

Ltac decode_three x lo hi c0 s1 Hinv :=
  change (240 <=? x) with false; cbv iota;
  change (Z.to_nat (x .& 7)) with 3%nat;
  change (utf8.acceptRanges (x .>> 4)) with (lo, hi);
  destruct s1 as [|c1 [|c2 s3]]; [cbn; auto | cbn; auto |];
  cbn [length Nat.ltb Nat.leb nth];
  (   pose proof (byte_val_range c1); pose proof (byte_val_range c2);
      destruct (Z.ltb_spec (byte_val c1) lo); [cbn; auto|];
      destruct (Z.ltb_spec hi (byte_val c1)); [cbn; auto|];
      cbn [orb Nat.leb];
      destruct (Z.ltb_spec (byte_val c2) 128); [cbn; auto|];
      destruct (Z.ltb_spec 191 (byte_val c2)); [cbn; auto|];
      cbn [orb Nat.leb fst snd];
      let Hr := fresh "Hr" in let Hv := fresh "Hv" in let He := fresh "He" in
      destruct (encode_rune_3 c0 c1 c2) as (Hr & Hv & He); try lia;
      cbv zeta in Hr, Hv, He;
      apply dec_multi; [lia | simpl; lia | lia | exact Hv | exact He]).

Ltac decode_four x lo hi c0 s1 Hinv :=
  change (240 <=? x) with false; cbv iota;
  change (Z.to_nat (x .& 7)) with 4%nat;
  change (utf8.acceptRanges (x .>> 4)) with (lo, hi);
  destruct s1 as [|c1 [|c2 [|c3 s4]]]; [cbn; auto | cbn; auto | cbn; auto |];
  cbn [length Nat.ltb Nat.leb nth];
  (   pose proof (byte_val_range c1); pose proof (byte_val_range c2);
      pose proof (byte_val_range c3);
      destruct (Z.ltb_spec (byte_val c1) lo); [cbn; auto|];
      destruct (Z.ltb_spec hi (byte_val c1)); [cbn; auto|];
      cbn [orb Nat.leb];
      destruct (Z.ltb_spec (byte_val c2) 128); [cbn; auto|];
      destruct (Z.ltb_spec 191 (byte_val c2)); [cbn; auto|];
      cbn [orb Nat.leb];
      destruct (Z.ltb_spec (byte_val c3) 128); [cbn; auto|];
      destruct (Z.ltb_spec 191 (byte_val c3)); [cbn; auto|];
      cbn [orb Nat.leb fst snd];
      let Hr := fresh "Hr" in let He := fresh "He" in
      destruct (encode_rune_4 c0 c1 c2 c3) as (Hr & He); try lia;
      cbv zeta in Hr, He;
      apply dec_multi; [lia | simpl; lia | lia | apply ValidRune_high; lia | exact He]).

Lemma DecodeRune_decoded (s : list byte) :
  s <> [] -> decoded s (utf8.DecodeRune s).1 (utf8.DecodeRune s).2.
Proof.
  destruct s as [|c0 s1]; [congruence|]. intros _.
  pose proof (byte_val_range c0) as R0.
  assert (Hinv : forall s, 128 <= byte_val c0 -> decoded (c0 :: s) utf8.RuneError 1)
    by (intros; eapply dec_invalid; eauto).
  unfold utf8.DecodeRune, utf8.first.
  destruct (Z.ltb_spec (byte_val c0) 128) as [A1|A1].
  { cbn. rewrite Z.ldiff_0_r, Z.lor_0_r. eapply dec_ascii; eauto. }
  destruct (Z.ltb_spec (byte_val c0) 194) as [A2|A2].
  { cbn. rewrite ldiff_m1. auto. }
  destruct (Z.ltb_spec (byte_val c0) 224) as [A3|A3].
  { change (240 <=? 2) with false. cbv iota.
    change (Z.to_nat (2 .& 7)) with 2%nat.
    change (utf8.acceptRanges (2 .>> 4)) with (128, 191).
    destruct s1 as [|c1 s2]; [cbn; auto|].
    pose proof (byte_val_range c1) as R1. cbn [length Nat.ltb Nat.leb nth].
    destruct (Z.ltb_spec (byte_val c1) 128) as [B1|B1]; [cbn; auto|].
    destruct (Z.ltb_spec 191 (byte_val c1)) as [B2|B2]; [cbn; auto|].
    cbn [orb Nat.leb fst snd].
    destruct (encode_rune_2 c0 c1) as [Hr He]; [lia | lia |]. cbv zeta in Hr, He.
    apply dec_multi; [lia | simpl; lia | lia | apply ValidRune_low; lia | exact He]. }
  destruct (Z.eqb_spec (byte_val c0) 224) as [A4|A4].
  { decode_three 19 160 191 c0 s1 Hinv. }
  destruct (Z.ltb_spec (byte_val c0) 237) as [A5|A5].
  { decode_three 3 128 191 c0 s1 Hinv. }
  destruct (Z.eqb_spec (byte_val c0) 237) as [A6|A6].
  { decode_three 35 128 159 c0 s1 Hinv. }
  destruct (Z.ltb_spec (byte_val c0) 240) as [A7|A7].
  { decode_three 3 128 191 c0 s1 Hinv. }
  destruct (Z.eqb_spec (byte_val c0) 240) as [A8|A8].
  { decode_four 52 144 191 c0 s1 Hinv. }
  destruct (Z.ltb_spec (byte_val c0) 244) as [A9|A9].
  { decode_four 4 128 191 c0 s1 Hinv. }
  destruct (Z.eqb_spec (byte_val c0) 244) as [A10|A10].
  { decode_four 68 128 143 c0 s1 Hinv. }
  cbn. rewrite ldiff_m1. auto.
Qed.

(** ** strconv: quoting and unquoting *)

Lemma decoded_size (s : list byte) (r : Z) (n : nat) :
  decoded s r n -> (1 <= n <= length s)%nat.
Proof.
  intros [c rest -> _ | c rest -> _ | r' n' Hn Hl _ _ _]; simpl; lia.
Qed.

Lemma runes_fuel_spec (fuel : nat) :
  forall s, (length s <= fuel)%nat ->
    concat (map snd (utf8.runes_fuel fuel s)) = s
    /\ Forall rune_of (utf8.runes_fuel fuel s).
Proof.
  induction fuel as [|fuel IH]; intros s Hlen.
  - destruct s; [split; [reflexivity | constructor] | simpl in Hlen; lia].
  - destruct s as [|c s']; [split; [reflexivity | constructor]|].
    cbn [utf8.runes_fuel].
    pose proof (DecodeRune_decoded (c :: s') ltac:(discriminate)) as Hd.
    destruct (utf8.DecodeRune (c :: s')) as [r n]. cbn [fst snd] in Hd.
    pose proof (decoded_size _ _ _ Hd) as Hn.
    destruct (IH (drop n (c :: s'))) as [Hc Hf].
    { rewrite length_drop. simpl in *. lia. }
    cbn [map concat snd]. rewrite Hc, take_drop. split; [reflexivity|].
    constructor; [|exact Hf].
    split; cbn [fst snd].
    + destruct n; [lia|]. discriminate.
    + exists (drop n (c :: s')). rewrite take_drop, length_take.
      replace (n `min` length (c :: s'))%nat with n by lia. exact Hd.
Qed.

Lemma runes_spec (s : list byte) :
  concat (map snd (utf8.runes s)) = s /\ Forall rune_of (utf8.runes s).
Proof. apply runes_fuel_spec. lia. Qed.

Lemma unquotes_ascii `{Externs} (c : byte) :
  byte_val c < 128 -> unquotes_to (strconv.escaped_rune (byte_val c) x22 true) [c].
Proof.
  intros Hc. destruct c; try (exfalso; vm_compute in Hc; discriminate Hc);
    intros rest fuel; reflexivity.
Qed.

Lemma unquotes_invalid (c : byte) :
  unquotes_to (bs "\x" ++ [index_tbl strconv.lowerhex (byte_val c .>> 4);
                           index_tbl strconv.lowerhex (byte_val c .& 15)]) [c].
Proof. destruct c; intros rest fuel; reflexivity. Qed.

Lemma unhex_lowerhex_nat (n : nat) :
  (n < 16)%nat ->
  strconv.unhex (index_tbl strconv.lowerhex (Z.of_nat n)) = Some (Z.of_nat n).
Proof. intros Hn. do 16 (destruct n as [|n]; [reflexivity|]). lia. Qed.

Lemma nibble_range (x : Z) : 0 <= x .& 15 < 16.
Proof.
  rewrite (land_ones_lit x 4 15) by (lia || reflexivity). apply Z.mod_pos_bound. lia.
Qed.

Lemma unhex_lowerhex (x : Z) :
  strconv.unhex (index_tbl strconv.lowerhex (x .& 15)) = Some (x .& 15).
Proof.
  pose proof (nibble_range x) as Hr.
  rewrite <- (Z2Nat.id (x .& 15)) by lia. apply unhex_lowerhex_nat. lia.
Qed.

Lemma unhex_digits_4 (r : Z) (rest : list byte) :
  0 <= r < 65536 ->
  strconv.unhex_digits 4 (strconv.hex_digits r [12; 8; 4; 0] ++ rest) 0 = Some r.
Proof.
  intros Hr. cbn [strconv.hex_digits map app strconv.unhex_digits].
  rewrite !unhex_lowerhex. f_equal.
  rewrite Z.shiftl_0_l, Z.lor_0_l.
  bits_arith. lor_add_with 4. lor_add_with 4. lor_add_with 4. solve_arith.
Qed.

Lemma unhex_digits_8 (r : Z) (rest : list byte) :
  0 <= r < 4294967296 ->
  strconv.unhex_digits 8 (strconv.hex_digits r [28; 24; 20; 16; 12; 8; 4; 0] ++ rest) 0
  = Some r.
Proof.
  intros Hr. cbn [strconv.hex_digits map app strconv.unhex_digits].
  rewrite !unhex_lowerhex. f_equal.
  rewrite Z.shiftl_0_l, Z.lor_0_l.
  bits_arith. do 7 lor_add_with 4. solve_arith.
Qed.

Lemma escaped_rune_multi `{Externs} (r : Z) :
  128 <= r -> utf8.ValidRune r = true ->
  strconv.escaped_rune r x22 true
  = if r <? 65536 then bs "\u" ++ strconv.hex_digits r [12; 8; 4; 0]
    else bs "\U" ++ strconv.hex_digits r [28; 24; 20; 16; 12; 8; 4; 0].
Proof.
  intros Hr Hv. unfold strconv.escaped_rune. rewrite Hv.
  change (byte_val x22) with 34. unfold utf8.RuneSelf.
  repeat match goal with
         | |- context [r =? ?k] => destruct (Z.eqb_spec r k); [lia|]
         end.
  destruct (Z.ltb_spec r 128); [lia|].
  destruct (Z.ltb_spec r 32); [lia|].
  reflexivity.
Qed.

Lemma UnquoteChar_u (r : Z) (rest : list byte) :
  0 <= r < 65536 -> utf8.ValidRune r = true ->
  strconv.UnquoteChar (x5c :: x75 :: strconv.hex_digits r [12; 8; 4; 0] ++ rest) x22
  = Some (r, true, rest).
Proof.
  intros Hr Hv. unfold strconv.UnquoteChar.
  change (byte_eqb x5c x22) with false. cbn [andb].
  change (byte_val x5c) with 92. change (byte_val x75) with 117.
  change (utf8.RuneSelf <=? 92) with false. cbv iota.
  change (negb (92 =? 92)) with false. cbv iota.
  change (117 =? 97) with false. change (117 =? 98) with false.
  change (117 =? 102) with false. change (117 =? 110) with false.
  change (117 =? 114) with false. change (117 =? 116) with false.
  change (117 =? 118) with false. change (117 =? 120) with false.
  change (117 =? 117) with true. cbn [orb]. cbv iota.
  rewrite unhex_digits_4 by lia.
  replace (length _ <? 4)%nat with false
    by (symmetry; apply Nat.ltb_ge; rewrite length_app; simpl; lia).
  rewrite Hv. reflexivity.
Qed.

Lemma UnquoteChar_U (r : Z) (rest : list byte) :
  0 <= r < 4294967296 -> utf8.ValidRune r = true ->
  strconv.UnquoteChar
    (x5c :: x55 :: strconv.hex_digits r [28; 24; 20; 16; 12; 8; 4; 0] ++ rest) x22
  = Some (r, true, rest).
Proof.
  intros Hr Hv. unfold strconv.UnquoteChar.
  change (byte_eqb x5c x22) with false. cbn [andb].
  change (byte_val x5c) with 92. change (byte_val x55) with 85.
  change (utf8.RuneSelf <=? 92) with false. cbv iota.
  change (negb (92 =? 92)) with false. cbv iota.
  change (85 =? 97) with false. change (85 =? 98) with false.
  change (85 =? 102) with false. change (85 =? 110) with false.
  change (85 =? 114) with false. change (85 =? 116) with false.
  change (85 =? 118) with false. change (85 =? 120) with false.
  change (85 =? 117) with false. change (85 =? 85) with true. cbn [orb]. cbv iota.
  rewrite unhex_digits_8 by lia.
  replace (length _ <? 8)%nat with false
    by (symmetry; apply Nat.ltb_ge; rewrite length_app; simpl; lia).
  rewrite Hv. reflexivity.
Qed.

Lemma unquotes_multi `{Externs} (r : Z) (enc : list byte) :
  128 <= r <= 1114111 -> utf8.ValidRune r = true -> utf8.encode_rune r = enc ->
  unquotes_to (strconv.escaped_rune r x22 true) enc.
Proof.
  intros Hr Hv He rest fuel. rewrite (escaped_rune_multi r) by (lia || exact Hv).
  assert (Hout : (if (r <? utf8.RuneSelf) || negb true then [byte_of r]
                  else utf8.encode_rune r) = enc).
  { unfold utf8.RuneSelf. destruct (Z.ltb_spec r 128); [lia | exact He]. }
  destruct (Z.ltb_spec r 65536) as [Hlt|Hge].
  - change (bs "\u" ++ strconv.hex_digits r [12; 8; 4; 0])
      with (x5c :: x75 :: strconv.hex_digits r [12; 8; 4; 0]).
    rewrite <- !app_comm_cons. cbn [strconv.unquote_loop].
    rewrite UnquoteChar_u by (lia || exact Hv).
    change (byte_eqb x5c x22) with false. change (byte_eqb x5c x0a) with false.
    change (byte_eqb x22 x27) with false. cbv iota. rewrite Hout. reflexivity.
  - change (bs "\U" ++ strconv.hex_digits r [28; 24; 20; 16; 12; 8; 4; 0])
      with (x5c :: x55 :: strconv.hex_digits r [28; 24; 20; 16; 12; 8; 4; 0]).
    rewrite <- !app_comm_cons. cbn [strconv.unquote_loop].
    rewrite UnquoteChar_U by (lia || exact Hv).
    change (byte_eqb x5c x22) with false. change (byte_eqb x5c x0a) with false.
    change (byte_eqb x22 x27) with false. cbv iota. rewrite Hout. reflexivity.
Qed.

Lemma quoted_body_runes `{Externs} (s : list byte) :
  strconv.quoted_body s x22 true = flat_map quote_rune (utf8.runes s).
Proof.
  unfold strconv.quoted_body. apply flat_map_ext. intros [r enc]. reflexivity.
Qed.

Lemma escaped_ascii_shape `{Externs} (c : byte) :
  byte_val c < 128 ->
  (strconv.escaped_rune (byte_val c) x22 true = [c] /\ c <> x22 /\ c <> x5c)
  \/ exists t, strconv.escaped_rune (byte_val c) x22 true = x5c :: t.
Proof.
  intros Hc. destruct c; try (exfalso; vm_compute in Hc; discriminate Hc);
    first [ left; split; [reflexivity | split; discriminate]
          | right; eexists; reflexivity ].
Qed.

(** What the quoting of one rune looks like, and that one round of the
    unquoting loop reads it back. *)
Lemma quote_rune_spec `{Externs} (re : Z * list byte) :
  rune_of re ->
  unquotes_to (quote_rune re) re.2
  /\ ((exists c, re = (byte_val c, [c]) /\ byte_val c < 128 /\ quote_rune re = [c]
                 /\ c <> x22 /\ c <> x5c)
      \/ exists t, quote_rune re = x5c :: t).
Proof.
  destruct re as [r enc]. intros [Hne (rest & Hd)]. cbn [fst snd] in *.
  inversion Hd as [c rest' Hs Hc Hr Hn | c rest' Hs Hc Hr Hn | r' n' Hn Hl Hr Hv He Hr' Hn'].
  - (* an ASCII byte *)
    destruct enc as [|c' [|? ?]]; try discriminate Hn; [].
    injection Hs as -> _. unfold quote_rune. cbn [length Nat.eqb andb].
    pose proof (byte_val_range c).
    replace (byte_val c =? utf8.RuneError) with false
      by (symmetry; apply Z.eqb_neq; unfold utf8.RuneError; lia).
    split; [apply unquotes_ascii; exact Hc|].
    destruct (escaped_ascii_shape c Hc) as [(E & N1 & N2) | [t E]].
    + left. exists c. rewrite E. auto.
    + right. exists t. exact E.
  - (* an invalid byte *)
    destruct enc as [|c' [|? ?]]; try discriminate Hn; [].
    injection Hs as -> _. unfold quote_rune. cbn [length Nat.eqb andb nth].
    rewrite Z.eqb_refl. cbv iota zeta.
    split; [apply unquotes_invalid|]. right. eexists. reflexivity.
  - (* a rune of several bytes *)
    subst r' n'. unfold quote_rune.
    replace (length enc =? 1)%nat with false by (symmetry; apply Nat.eqb_neq; lia).
    cbn [andb].
    assert (Henc : utf8.encode_rune r = enc)
      by (rewrite He, take_app_length; reflexivity).
    assert (Hmax : r <= 1114111).
    { unfold utf8.ValidRune, utf8.MaxRune, utf8.surrogateMin in Hv. lia. }
    split; [apply unquotes_multi; [lia | exact Hv | exact Henc]|].
    right. rewrite (escaped_rune_multi r) by (lia || exact Hv).
    destruct (r <? 65536); eexists; reflexivity.
Qed.

Lemma unquote_loop_body `{Externs} (rs : list (Z * list byte)) :
  Forall rune_of rs ->
  forall fuel tail, (length rs <= fuel)%nat ->
    strconv.unquote_loop fuel (flat_map quote_rune rs ++ x22 :: tail) x22
    = Some (concat (map snd rs), x22 :: tail).
Proof.
  induction 1 as [|re rs Hre _ IH]; intros fuel tail Hf.
  - destruct fuel; reflexivity.
  - destruct fuel as [|fuel]; [simpl in Hf; lia|].
    cbn [flat_map map concat]. rewrite <- app_assoc.
    rewrite (proj1 (quote_rune_spec re Hre)).
    rewrite IH by (simpl in Hf; lia). reflexivity.
Qed.

Lemma contains_false (s : list byte) (c : byte) :
  strconv.contains s c = false <-> ~ In c s.
Proof.
  unfold strconv.contains. induction s as [|x s IH]; cbn [existsb In].
  - tauto.
  - rewrite orb_false_iff, IH, byte_eqb_neq. split.
    + intros [Hx Hs] [E|Hi]; [congruence | contradiction].
    + intros Hn. split; [intros E; apply Hn; left; exact E | intros Hi; apply Hn; right; exact Hi].
Qed.

(** A quoted body with no backslash before its closing quote is the
    string itself, all of it ASCII. *)
Lemma quoted_plain `{Externs} (rs : list (Z * list byte)) :
  Forall rune_of rs ->
  forall pre post,
    flat_map quote_rune rs ++ [x22] = pre ++ x22 :: post ->
    ~ In x22 pre -> ~ In x5c pre ->
    post = [] /\ pre = concat (map snd rs)
    /\ forallb (fun '(r, enc) => negb ((r =? utf8.RuneError) && (length enc =? 1)%nat)) rs
       = true.
Proof.
  induction 1 as [|re rs Hre _ IH]; intros pre post Heq Hq Hb.
  - cbn [flat_map app] in Heq. destruct pre as [|c pre].
    + injection Heq as <-. auto.
    + injection Heq as <- _. exfalso. apply Hq. left. reflexivity.
  - cbn [flat_map map concat forallb] in *. rewrite <- app_assoc in Heq.
    destruct (proj2 (quote_rune_spec re Hre)) as [(c & -> & Hc & E & N1 & N2) | [t E]];
      rewrite E in Heq.
    + destruct pre as [|c' pre]; [injection Heq as -> _; congruence|].
      injection Heq as <- Heq.
      destruct (IH pre post Heq) as (-> & -> & Hv).
      { intros Hi. apply Hq. right. exact Hi. }
      { intros Hi. apply Hb. right. exact Hi. }
      split; [reflexivity|]. split; [reflexivity|].
      rewrite Hv. pose proof (byte_val_range c).
      replace (byte_val c =? utf8.RuneError) with false
        by (symmetry; apply Z.eqb_neq; unfold utf8.RuneError; lia).
      reflexivity.
    + exfalso. destruct pre as [|c' pre]; [discriminate Heq|].
      injection Heq as <- _. apply Hb. left. reflexivity.
Qed.

Lemma quoted_length `{Externs} (rs : list (Z * list byte)) :
  Forall rune_of rs -> (length rs <= length (flat_map quote_rune rs))%nat.
Proof.
  induction 1 as [|re rs Hre _ IH]; [reflexivity|].
  cbn [flat_map length]. rewrite length_app.
  destruct (proj2 (quote_rune_spec re Hre)) as [(c & _ & _ & E & _) | [t E]];
    rewrite E; simpl; lia.
Qed.

Lemma Unquote_QuoteToASCII `{Externs} (s : list byte) :
  strconv.Unquote (strconv.QuoteToASCII s) = (s, None).
Proof.
  destruct (runes_spec s) as [Hcat Hall].
  unfold strconv.Unquote, strconv.QuoteToASCII, strconv.unquote.
  rewrite quoted_body_runes. set (body := flat_map quote_rune (utf8.runes s)).
  replace (length (x22 :: body ++ [x22]) <? 2)%nat with false
    by (symmetry; apply Nat.ltb_ge; rewrite length_cons, length_app; simpl; lia).
  pose proof (Index_byte_spec x22 (body ++ [x22])) as Hi.
  destruct (bytes.Index (body ++ [x22]) [x22]) as [e|].
  2:{ exfalso. apply Hi. apply in_or_app. right. left. reflexivity. }
  destruct Hi as (pre & post & Hsplit & Hlen & Hq).
  change (byte_eqb x22 x60) with false. change (byte_eqb x22 x22) with true.
  cbn [orb]. cbv iota.
  destruct (negb (strconv.contains (take (e + 2) (x22 :: body ++ [x22])) x5c)
            && negb (strconv.contains (take (e + 2) (x22 :: body ++ [x22])) x0a)) eqn:Hfast.
  - (* no backslash before the first quote *)
    apply andb_prop in Hfast as [Hb _]. apply negb_true_iff in Hb.
    rewrite contains_false in Hb.
    assert (Hb' : ~ In x5c pre).
    { intros Hin. apply Hb. replace (e + 2)%nat with (S (S e)) by lia.
      rewrite firstn_cons. right. rewrite Hsplit, <- Hlen.
      replace (S (length pre)) with (length pre + 1)%nat by lia.
      rewrite take_app_add'; [|reflexivity]. apply in_or_app. left. exact Hin. }
    destruct (quoted_plain (utf8.runes s) Hall pre post Hsplit Hq Hb') as (-> & Hpre & Hv).
    rewrite Hcat in Hpre. subst pre.
    assert (Hbody : body = s).
    { apply (app_inj_tail body s x22 x22) in Hsplit. tauto. }
    rewrite Hbody, <- Hlen. rewrite take_app_length.
    unfold utf8.ValidString. rewrite Hv.
    replace (drop (length s + 2) (x22 :: s ++ [x22])) with (@nil byte).
    2:{ symmetry. apply drop_ge. rewrite length_cons, length_app. simpl. lia. }
    reflexivity.
  - (* the loop over the escapes *)
    rewrite length_app. cbn [length].
    subst body. pose proof (quoted_length (utf8.runes s) Hall) as Hl.
    rewrite (unquote_loop_body (utf8.runes s) Hall) by lia.
    rewrite byte_eqb_refl, Hcat. reflexivity.
Qed.

Lemma goDec_goEnc `{Externs} (s : list byte) : round_trips goEnc goDec s.
Proof.
  exists (strconv.QuoteToASCII s). split; [reflexivity|].
  unfold goDec.
  change (match strconv.QuoteToASCII s with
          | [] => strconv.QuoteToASCII s
          | c :: _ =>
              if negb (byte_eqb c x22) && negb (byte_eqb c x60) && negb (byte_eqb c x27)
              then [x22] ++ strconv.QuoteToASCII s ++ [x22]
              else strconv.QuoteToASCII s
          end) with (strconv.QuoteToASCII s).
  rewrite Unquote_QuoteToASCII. reflexivity.
Qed.


Lemma lowerhex_printable (x : Z) : printable (index_tbl strconv.lowerhex (x .& 15)).
Proof.
  pose proof (nibble_range x) as Hr.
  rewrite <- (Z2Nat.id (x .& 15)) by lia.
  assert (Hn : (Z.to_nat (x .& 15) < 16)%nat) by lia.
  revert Hn. generalize (Z.to_nat (x .& 15)). intros n Hn.
  do 16 (destruct n as [|n]; [vm_compute; split; discriminate|]). lia.
Qed.

Lemma quote_rune_printable `{Externs} (re : Z * list byte) :
  rune_of re -> Forall printable (quote_rune re).
Proof.
  destruct re as [r enc]. intros [Hne (rest & Hd)]. cbn [fst snd] in *.
  inversion Hd as [c rest' Hs Hc Hr Hn | c rest' Hs Hc Hr Hn | r' n' Hn Hl Hr Hv He Hr' Hn'].
  - destruct enc as [|c' [|? ?]]; try discriminate Hn; [].
    injection Hs as -> _. unfold quote_rune. cbn [length Nat.eqb andb].
    pose proof (byte_val_range c).
    replace (byte_val c =? utf8.RuneError) with false
      by (symmetry; apply Z.eqb_neq; unfold utf8.RuneError; lia).
    clear -Hc. destruct c; try (exfalso; vm_compute in Hc; discriminate Hc);
      repeat (constructor; [vm_compute; split; discriminate|]); constructor.
  - destruct enc as [|c' [|? ?]]; try discriminate Hn; [].
    unfold quote_rune. cbn [length Nat.eqb andb nth].
    rewrite Z.eqb_refl. cbv iota zeta.
    change (bs "\x") with [x5c; x78]. cbn [app].
    clear. destruct c'; repeat (constructor; [vm_compute; split; discriminate|]);
      constructor.
  - subst r' n'. unfold quote_rune.
    replace (length enc =? 1)%nat with false by (symmetry; apply Nat.eqb_neq; lia).
    cbn [andb]. rewrite (escaped_rune_multi r) by (lia || exact Hv).
    change (bs "\u") with [x5c; x75]. change (bs "\U") with [x5c; x55].
    destruct (r <? 65536); cbn [app strconv.hex_digits map];
      repeat (constructor; [first [apply lowerhex_printable | vm_compute; split; discriminate]|]);
      constructor.
Qed.

Lemma QuoteToASCII_printable `{Externs} (s : list byte) :
  Forall printable (strconv.QuoteToASCII s).
Proof.
  unfold strconv.QuoteToASCII. rewrite quoted_body_runes.
  destruct (runes_spec s) as [_ Hall].
  constructor; [vm_compute; split; discriminate|].
  apply Forall_app. split; [|repeat constructor; vm_compute; discriminate].
  induction Hall as [|re rs Hre _ IH]; [constructor|].
  cbn [flat_map]. apply Forall_app. split; [apply quote_rune_printable; exact Hre | exact IH].
Qed.

(** ** Rounding a quotient to the nearest float *)


Lemma rne_spec (N D M : Z) :
  0 < D -> 0 <= N ->
  (2 * N < (2 * M + 1) * D \/ (Z.even M = true /\ 2 * N = (2 * M + 1) * D)) ->
  ((2 * M - 1) * D < 2 * N \/ (Z.even M = true /\ 2 * N = (2 * M - 1) * D)) ->
  strconv.rne N D = M.
Proof.
  intros HD HN Hup Hlo. unfold strconv.rne.
  pose proof (Z.div_mod N D ltac:(lia)) as Hdiv.
  pose proof (Z.mod_pos_bound N D HD) as Hr.
  set (q := N / D) in *. set (r := N mod D) in *.
  assert (Hq : q = M \/ q = M - 1) by nia.
  destruct Hq as [-> | ->].
  - (* the quotient is M: the remainder is at most half *)
    destruct (Z.ltb_spec D (2 * r)) as [H1|H1]; [exfalso; nia|].
    destruct (Z.eqb_spec D (2 * r)) as [H2|H2]; [|reflexivity].
    destruct Hup as [Hup | [He Hup]]; [exfalso; nia|].
    rewrite <- Z.negb_even, He. reflexivity.
  - (* the quotient is M - 1: the remainder is at least half *)
    destruct (Z.ltb_spec D (2 * r)) as [H1|H1]; [cbn [orb]; lia|].
    destruct (Z.eqb_spec D (2 * r)) as [H2|H2]; [|exfalso; nia].
    destruct Hlo as [Hlo | [He Hlo]]; [exfalso; nia|].
    cbn [orb andb]. replace (M - 1) with (Z.pred M) by lia.
    rewrite Z.odd_pred, He. lia.
Qed.

Lemma floor_log2_spec (n0 den : Z) :
  0 < n0 -> 0 < den ->
  let e := strconv.floor_log2 n0 den in
  (0 <= e -> den * 2 ^ e <= n0 < den * 2 ^ (e + 1)) /\ (e < 0 -> n0 < den).
Proof.
  intros Hn Hd. unfold strconv.floor_log2.
  destruct (Z.log2_spec n0 Hn) as [Ha1 Ha2].
  destruct (Z.log2_spec den Hd) as [Hb1 Hb2].
  pose proof (Z.log2_nonneg n0) as Ha0. pose proof (Z.log2_nonneg den) as Hb0.
  set (a := Z.log2 n0) in *. set (b := Z.log2 den) in *.
  rewrite Z.pow_succ_r in Ha2, Hb2 by lia.
  destruct (Z.leb_spec 0 (a - b)) as [Hab|Hab]; cbn [andb].
  - assert (Ea : 2 ^ a = 2 ^ (a - b) * 2 ^ b)
      by (rewrite <- Z.pow_add_r by lia; f_equal; lia).
    assert (Hp : 0 < 2 ^ (a - b)) by (apply Z.pow_pos_nonneg; lia).
    assert (Hpb : 0 < 2 ^ b) by (apply Z.pow_pos_nonneg; lia).
    destruct (Z.ltb_spec n0 (den * 2 ^ (a - b))) as [Hlt|Hge].
    + split.
      * intros He. replace (a - b - 1 + 1) with (a - b) by lia.
        split; [|exact Hlt].
        assert (E2 : 2 ^ (a - b) = 2 * 2 ^ (a - b - 1)).
        { rewrite <- Z.pow_succ_r by lia. f_equal. lia. }
        nia.
      * intros He. assert (a - b = 0) as E0 by lia. rewrite E0 in Hlt.
        change (2 ^ 0) with 1 in Hlt. lia.
    + split; [|lia]. intros _. split; [lia|].
      rewrite Z.pow_add_r by lia. change (2 ^ 1) with 2. nia.
  - split; [lia|]. intros _.
    assert (Eb : 2 ^ b = 2 ^ (b - a - 1) * (2 * 2 ^ a)).
    { rewrite <- Z.pow_succ_r by lia. rewrite <- Z.pow_add_r by lia. f_equal. lia. }
    assert (Hp : 0 < 2 ^ (b - a - 1)) by (apply Z.pow_pos_nonneg; lia).
    nia.
Qed.

Lemma pow2_bracket_unique (n0 den e e1 : Z) :
  0 < den -> 0 <= e -> 0 <= e1 ->
  den * 2 ^ e <= n0 < den * 2 ^ (e + 1) ->
  den * 2 ^ e1 <= n0 < den * 2 ^ (e1 + 1) ->
  e = e1.
Proof.
  intros Hd He He1 [H1 H2] [H3 H4].
  destruct (Z.lt_trichotomy e e1) as [Hlt | [Heq | Hgt]]; [exfalso | exact Heq | exfalso].
  - assert (2 ^ (e + 1) <= 2 ^ e1) by (apply Z.pow_le_mono_r; lia). nia.
  - assert (2 ^ (e1 + 1) <= 2 ^ e) by (apply Z.pow_le_mono_r; lia). nia.
Qed.

Lemma floor_log2_eq (n0 den e : Z) :
  0 < den -> 0 <= e ->
  den * 2 ^ e <= n0 < den * 2 ^ (e + 1) ->
  strconv.floor_log2 n0 den = e.
Proof.
  intros Hd He Hb.
  assert (Hn : 0 < n0).
  { assert (0 < 2 ^ e) by (apply Z.pow_pos_nonneg; lia). nia. }
  destruct (floor_log2_spec n0 den Hn Hd) as [H1 H2].
  set (e1 := strconv.floor_log2 n0 den) in *.
  destruct (Z.lt_ge_cases e1 0) as [Hneg|Hpos].
  - specialize (H2 Hneg).
    assert (0 < 2 ^ e) by (apply Z.pow_pos_nonneg; lia). nia.
  - symmetry. apply (pow2_bracket_unique n0 den e e1 Hd He Hpos Hb). apply H1. exact Hpos.
Qed.

Lemma floor_log2_below (n0 den k : Z) :
  0 < n0 -> 0 < den -> 0 <= k ->
  n0 < den * 2 ^ k ->
  strconv.floor_log2 n0 den < k.
Proof.
  intros Hn Hd Hk Hlt.
  destruct (floor_log2_spec n0 den Hn Hd) as [H1 _].
  set (e1 := strconv.floor_log2 n0 den) in *.
  destruct (Z.lt_ge_cases e1 k) as [|Hge]; [assumption|exfalso].
  specialize (H1 ltac:(lia)).
  assert (2 ^ k <= 2 ^ e1) by (apply Z.pow_le_mono_r; lia). nia.
Qed.




Lemma round_float_nearest (num den m j : Z) :
  0 < num -> 0 < den -> is_float m j ->
  nearest_to (num * 2 ^ 149) den m j ->
  strconv.round_float strconv.float32info num den = (float_bits m j, false).
Proof.
  intros Hnum Hden Hfl [Hup Hlo].
  unfold strconv.round_float.
  cbn [strconv.mantbits strconv.bias strconv.expbits strconv.float32info].
  change (23 - (-127 + 1)) with 149.
  set (n0 := num * 2 ^ 149) in *.
  assert (Hn0 : 0 < n0) by (unfold n0; lia).
  assert (HP : 0 < 2 ^ j) by (apply Z.pow_pos_nonneg; destruct Hfl; lia).
  change (2 ^ (23 + 1)) with 16777216. change (2 ^ 23) with 8388608 in *.
  change (2 ^ 24) with 16777216 in *. change (2 ^ 8 - 1) with 255.
  destruct Hfl as [[-> Hm] | [Hj Hm]].
  - (* spacing of one unit: subnormals and the first binade *)
    change (2 ^ 0) with 1 in *. rewrite Z.mul_1_r in *.
    change (8388608 =? _) with false in Hlo.
    replace ((m =? 8388608) && (1 <=? 0)) with false in Hlo
      by (rewrite andb_false_r; reflexivity).
    assert (He : strconv.floor_log2 n0 den < 24).
    { apply floor_log2_below; try lia. change (2 ^ 24) with 16777216. nia. }
    rewrite Z.max_r by lia. change (2 ^ 0) with 1. rewrite Z.mul_1_r.
    rewrite (rne_spec n0 den m) by (try lia; assumption).
    replace (m =? 16777216) with false by lia.
    unfold float_bits. change (2 ^ 23) with 8388608.
    destruct (Z.ltb_spec m 8388608); [reflexivity|].
    change (255 <=? 0 + 1) with false. reflexivity.
  - replace ((m =? 8388608) && (1 <=? j)) with (m =? 8388608) in Hlo
      by (replace (1 <=? j) with true by lia; rewrite andb_true_r; reflexivity).
    unfold float_bits. change (2 ^ 23) with 8388608.
    replace (m <? 8388608) with false by lia.
    destruct (Z_lt_ge_dec n0 (8388608 * (den * 2 ^ j))) as [Hbelow | Habove].
    + (* below the power of two: the float is the first of its binade *)
      assert (Em : m = 8388608).
      { destruct (Z.eqb_spec m 8388608); [assumption|exfalso]. nia. }
      subst m. change (8388608 =? 8388608) with true in Hlo.
      assert (Ej : 2 ^ j = 2 * 2 ^ (j - 1)).
      { rewrite <- Z.pow_succ_r by lia. f_equal. lia. }
      assert (HP' : 0 < 2 ^ (j - 1)) by (apply Z.pow_pos_nonneg; lia).
      assert (ED : den * 2 ^ j = 2 * (den * 2 ^ (j - 1))) by (rewrite Ej; ring).
      assert (HD' : 0 < den * 2 ^ (j - 1)) by lia.
      rewrite ED in *. clear ED Ej HP. set (D' := den * 2 ^ (j - 1)) in *.
      assert (He : strconv.floor_log2 n0 den = 22 + j).
      { apply floor_log2_eq; try lia.
        replace (22 + j + 1) with (24 + (j - 1)) by lia.
        replace (22 + j) with (23 + (j - 1)) by lia.
        rewrite !Z.pow_add_r by lia. change (2 ^ 23) with 8388608.
        change (2 ^ 24) with 16777216.
        rewrite !(Z.mul_comm _ (2 ^ (j - 1))), !Z.mul_assoc. fold D'. lia. }
      rewrite He. replace (22 + j - 23) with (j - 1) by lia.
      rewrite Z.max_l by lia.
      fold D'. rewrite (rne_spec n0 D' 16777216); try lia.
      * change (16777216 =? 16777216) with true. cbn match.
        change (8388608 <? 8388608) with false. cbn match.
        replace (j - 1 + 1) with j by lia.
        replace (255 <=? j + 1) with false by lia. reflexivity.
      * destruct (Z.eq_dec (2 * n0) ((2 * 16777216 - 1) * D')) as [Heq|Hne];
          [right; split; [reflexivity | exact Heq] | left; lia].
    + assert (He : strconv.floor_log2 n0 den = 23 + j).
      { apply floor_log2_eq; try lia.
        rewrite !Z.pow_add_r by lia. change (2 ^ 23) with 8388608.
        change (2 ^ 1) with 2. nia. }
      rewrite He. replace (23 + j - 23) with j by lia.
      rewrite Z.max_l by lia.
      rewrite (rne_spec n0 (den * 2 ^ j) m); try lia; try assumption.
      * replace (m =? 16777216) with false by lia.
        replace (m <? 8388608) with false by lia.
        replace (255 <=? j + 1) with false by lia. reflexivity.
      * destruct (Z.eqb_spec m 8388608); [left; nia | assumption].
Qed.

(** ** The shortest decimal of a float lies within its rounding interval *)



Lemma pow10_pos (k : Z) : 0 <= k -> 0 < strconv.pow10 k.
Proof. intros Hk. unfold strconv.pow10. apply Z.pow_pos_nonneg; lia. Qed.

(** The cut of [x/den] at the position [p] and the next decimal enclose
    the quotient. *)
Lemma cut_encloses (x den p : Z) :
  0 < den -> 0 <= x ->
  let t := if 0 <=? p then x / (den * strconv.pow10 p)
           else x * strconv.pow10 (- p) / den in
  0 <= t
  /\ (if 0 <=? p
      then t * strconv.pow10 p * den <= x < (t + 1) * strconv.pow10 p * den
      else t * den <= x * strconv.pow10 (- p) < (t + 1) * den).
Proof.
  intros Hden Hx. cbv zeta.
  destruct (Z.leb_spec 0 p) as [Hp|Hp].
  - pose proof (pow10_pos p Hp) as H10.
    assert (HD : 0 < den * strconv.pow10 p) by (apply Z.mul_pos_pos; assumption).
    pose proof (Z.div_mod x (den * strconv.pow10 p) ltac:(lia)) as Hdm.
    pose proof (Z.mod_pos_bound x _ HD) as Hr.
    pose proof (Z.div_pos x _ Hx HD) as Hq.
    set (q := x / (den * strconv.pow10 p)) in *.
    set (P := strconv.pow10 p) in *.
    split; [lia|]. nia.
  - pose proof (pow10_pos (- p) ltac:(lia)) as H10.
    assert (HX : 0 <= x * strconv.pow10 (- p)) by (apply Z.mul_nonneg_nonneg; lia).
    pose proof (Z.div_mod (x * strconv.pow10 (- p)) den ltac:(lia)) as Hdm.
    pose proof (Z.mod_pos_bound (x * strconv.pow10 (- p)) den Hden) as Hr.
    pose proof (Z.div_pos _ _ HX Hden) as Hq.
    set (q := x * strconv.pow10 (- p) / den) in *.
    split; [lia|]. nia.
Qed.




Lemma scale_l_pos (den p : Z) : 0 < den -> 0 < scale_l den p.
Proof.
  intros Hd. unfold scale_l. destruct (Z.leb_spec 0 p); [|assumption].
  apply Z.mul_pos_pos; [apply pow10_pos|]; assumption.
Qed.

Lemma scale_r_pos (p : Z) : 0 < scale_r p.
Proof.
  unfold scale_r. destruct (Z.leb_spec 0 p); [lia|]. apply pow10_pos. lia.
Qed.

Lemma cmp_scaled_scale (t p den y : Z) :
  strconv.cmp_scaled t p den y = (t * scale_l den p ?= y * scale_r p).
Proof.
  unfold strconv.cmp_scaled, scale_l, scale_r.
  destruct (0 <=? p); f_equal; ring.
Qed.

Lemma cut_scale (x den p : Z) :
  0 < den -> 0 <= x ->
  0 <= cut x den p
  /\ cut x den p * scale_l den p <= x * scale_r p < (cut x den p + 1) * scale_l den p.
Proof.
  intros Hden Hx. pose proof (cut_encloses x den p Hden Hx) as H.
  cbv zeta in H. fold (cut x den p) in H. destruct H as [H0 H].
  split; [exact H0|]. unfold scale_l, scale_r.
  destruct (0 <=? p); lia.
Qed.

Lemma cut_exact (x den p K : Z) :
  0 < den -> 0 < K -> (den | x * strconv.pow10 K) -> p <= - K ->
  cut x den p * scale_l den p = x * scale_r p.
Proof.
  intros Hden HK [c Hc] Hp. unfold cut, scale_l, scale_r.
  replace (0 <=? p) with false by lia.
  assert (E : strconv.pow10 (- p) = strconv.pow10 K * strconv.pow10 (- p - K)).
  { unfold strconv.pow10. rewrite <- Z.pow_add_r by lia. f_equal. lia. }
  rewrite E, Z.mul_assoc, Hc.
  replace (c * den * strconv.pow10 (- p - K)) with (c * strconv.pow10 (- p - K) * den) by ring.
  rewrite Z.div_mul by lia. reflexivity.
Qed.

Lemma shortest_loop_within (x lo up den : Z) (inclusive : bool) (K : Z) :
  0 < den -> 0 < lo -> lo < x -> x < up -> 0 < K ->
  (den | x * strconv.pow10 K) ->
  forall (fuel : nat) (p : Z),
    p - Z.of_nat fuel <= - K ->
    let '(t, q) := strconv.shortest_loop fuel x lo up den inclusive p in
    0 < t /\ within lo up den inclusive t q.
Proof.
  intros Hden Hlo Hlx Hxu HK Hdiv.
  induction fuel as [|fuel IH]; intros p Hp.
  all: destruct (cut_scale x den p Hden ltac:(lia)) as [Ht Hcut].
  all: pose proof (scale_l_pos den p Hden) as Hc.
  all: pose proof (scale_r_pos p) as Hc'.
  all: cbn [strconv.shortest_loop]; fold (cut x den p).
  all: unfold within; rewrite !cmp_scaled_scale.
  all: set (t := cut x den p) in *.
  all: set (c := scale_l den p) in *; set (c' := scale_r p) in *.
  all: assert (Hlo' : lo * c' < x * c') by nia.
  all: assert (Hup' : x * c' < up * c') by nia.
  all: assert (Hlo0 : 0 < lo * c') by nia.
  all: assert (Hx2 : 2 * x * c' = 2 * (x * c')) by ring.
  all: assert (Ht1 : (t + 1) * c = t * c + c) by ring.
  all: assert (Ht2 : (2 * t + 1) * c = 2 * (t * c) + c) by ring.
  all: assert (Hex : Z.of_nat 0 = 0 -> p <= - K -> t * c = x * c')
         by (intros _ Hle; apply (cut_exact x den p K); assumption).
  all: assert (Htpos : 0 < t * c -> 0 < t) by nia.
  all: destruct (Z.compare_spec (t * c) (lo * c')) as [Hd|Hd|Hd].
  all: destruct (Z.compare_spec ((t + 1) * c) (up * c')) as [Hu|Hu|Hu].
  all: destruct inclusive; cbn [andb].
  all: try destruct (Z.compare_spec ((2 * t + 1) * c) (2 * x * c')) as [Hn|Hn|Hn].
  all: try destruct (Z.odd t).
  all: rewrite ?cmp_scaled_scale; fold c c'.
  all: try (apply IH; lia).
  all: try (exfalso; lia).
  all: (split; [lia|]).
  all: split.
  all: match goal with
       | |- match ?a ?= ?b with _ => _ end =>
           destruct (Z.compare_spec a b); try exact I; try reflexivity; try lia
       end.
Qed.

(** ** Decimal digits and their value *)


Lemma digits_from_app (a : Z) (l1 l2 : list Z) :
  digits_from a (l1 ++ l2) = digits_from (digits_from a l1) l2.
Proof. apply fold_left_app. Qed.

Lemma digits_from_shift (ds : list Z) :
  forall a, digits_from a ds = a * 10 ^ Z.of_nat (length ds) + digits_value ds.
Proof.
  unfold digits_value.
  induction ds as [|d ds IH]; intros a; cbn [digits_from fold_left length].
  - change (Z.of_nat 0) with 0. change (10 ^ 0) with 1. lia.
  - fold (digits_from (a * 10 + d) ds). fold (digits_from (0 * 10 + d) ds).
    rewrite (IH (a * 10 + d)), (IH (0 * 10 + d)).
    rewrite Nat2Z.inj_succ, Z.pow_succ_r by lia. ring.
Qed.

Lemma digits_value_cons (d : Z) (ds : list Z) :
  digits_value (d :: ds) = d * 10 ^ Z.of_nat (length ds) + digits_value ds.
Proof.
  unfold digits_value at 1. cbn [digits_from fold_left].
  fold (digits_from (0 * 10 + d) ds). rewrite digits_from_shift. lia.
Qed.

Lemma digits_value_app (l1 l2 : list Z) :
  digits_value (l1 ++ l2) = digits_value l1 * 10 ^ Z.of_nat (length l2) + digits_value l2.
Proof.
  unfold digits_value at 1. rewrite digits_from_app, digits_from_shift. reflexivity.
Qed.

Lemma digits_value_bound (ds : list Z) :
  Forall is_digit_value ds -> 0 <= digits_value ds < 10 ^ Z.of_nat (length ds).
Proof.
  induction 1 as [|d ds Hd _ IH].
  - cbn. lia.
  - rewrite digits_value_cons. cbn [length].
    rewrite Nat2Z.inj_succ, Z.pow_succ_r by lia.
    unfold is_digit_value in Hd.
    assert (0 < 10 ^ Z.of_nat (length ds)) by (apply Z.pow_pos_nonneg; lia).
    nia.
Qed.

Lemma digits_value_lead (d : Z) (ds : list Z) :
  1 <= d -> Forall is_digit_value ds ->
  10 ^ Z.of_nat (length ds) <= digits_value (d :: ds).
Proof.
  intros Hd Hds. rewrite digits_value_cons.
  pose proof (digits_value_bound ds Hds). nia.
Qed.

Lemma digits_value_zeros (z : nat) : digits_value (replicate z 0) = 0.
Proof.
  induction z as [|z IH]; [reflexivity|].
  cbn [replicate]. rewrite digits_value_cons, IH. lia.
Qed.

Lemma digits_value_app_zeros (ds : list Z) (z : nat) :
  digits_value (ds ++ replicate z 0) = digits_value ds * 10 ^ Z.of_nat z.
Proof.
  rewrite digits_value_app, digits_value_zeros, length_replicate. lia.
Qed.

Lemma digits_fuel_spec (fuel : nat) :
  forall n acc, 0 < n < 10 ^ Z.of_nat fuel ->
  exists d1 pre,
    strconv.digits_fuel fuel n acc = d1 :: pre ++ acc
    /\ 1 <= d1 /\ Forall is_digit_value (d1 :: pre)
    /\ digits_value (d1 :: pre) = n.
Proof.
  induction fuel as [|fuel IH]; intros n acc Hn.
  - change (10 ^ Z.of_nat 0) with 1 in Hn. lia.
  - cbn [strconv.digits_fuel]. replace (n <=? 0) with false by lia.
    rewrite Nat2Z.inj_succ, Z.pow_succ_r in Hn by lia.
    pose proof (Z.div_mod n 10 ltac:(lia)) as Hdm.
    pose proof (Z.mod_pos_bound n 10 ltac:(lia)) as Hr.
    destruct (Z.eq_dec (n / 10) 0) as [E0|E0].
    + rewrite E0. exists (n mod 10), [].
      destruct fuel; cbn [strconv.digits_fuel]; change (0 <=? 0) with true; cbn match.
      all: split; [reflexivity|].
      all: split; [lia|].
      all: split; [constructor; [unfold is_digit_value; lia|constructor]|].
      all: unfold digits_value; cbn; lia.
    + destruct (IH (n / 10) (n mod 10 :: acc)) as (d1 & pre & E & H1 & Hf & Hv).
      { pose proof (Z.div_pos n 10 ltac:(lia) ltac:(lia)). lia. }
      exists d1, (pre ++ [n mod 10]).
      rewrite E. split; [rewrite <- app_assoc; reflexivity|].
      split; [exact H1|].
      split.
      * rewrite app_comm_cons. apply Forall_app. split; [exact Hf|].
        constructor; [unfold is_digit_value; lia|constructor].
      * rewrite app_comm_cons, digits_value_app, Hv.
        unfold digits_value. cbn. lia.
Qed.

Lemma digits_spec (n : Z) :
  0 < n ->
  exists d1 pre,
    strconv.digits n = d1 :: pre
    /\ 1 <= d1 /\ Forall is_digit_value (d1 :: pre)
    /\ digits_value (d1 :: pre) = n.
Proof.
  intros Hn. unfold strconv.digits.
  destruct (digits_fuel_spec (S (Z.to_nat (Z.log2 n))) n []) as (d1 & pre & E & H).
  - split; [exact Hn|].
    destruct (Z.log2_spec n Hn) as [_ Hlt].
    pose proof (Z.log2_nonneg n) as H0.
    rewrite Nat2Z.inj_succ, Z2Nat.id by lia.
    assert (2 ^ Z.succ (Z.log2 n) <= 10 ^ Z.succ (Z.log2 n))
      by (apply Z.pow_le_mono_l; lia).
    lia.
  - exists d1, pre. rewrite E, app_nil_r. split; [reflexivity | exact H].
Qed.

Lemma strip_zeros_spec (l : list Z) :
  exists z, l = replicate z 0 ++ strconv.strip_zeros l.
Proof.
  induction l as [|d l [z IH]].
  - exists 0%nat. reflexivity.
  - destruct (Z.eq_dec d 0) as [->|Hd].
    + exists (S z). cbn [strconv.strip_zeros replicate]. cbn [app]. f_equal. exact IH.
    + exists 0%nat. destruct d; [lia| |]; reflexivity.
Qed.

(** The digits without their last zeros. *)
Lemma strip_trailing_zeros (d1 : Z) (pre : list Z) :
  1 <= d1 ->
  exists pre' z,
    rev (strconv.strip_zeros (rev (d1 :: pre))) = d1 :: pre'
    /\ d1 :: pre = (d1 :: pre') ++ replicate z 0.
Proof.
  intros Hd.
  destruct (strip_zeros_spec (rev (d1 :: pre))) as [z Hz].
  set (s := strconv.strip_zeros (rev (d1 :: pre))) in *.
  assert (E : d1 :: pre = rev s ++ replicate z 0).
  { rewrite <- (rev_involutive (d1 :: pre)), Hz, rev_app_distr.
    f_equal. clear. induction z as [|z IH]; [reflexivity|].
    cbn [replicate rev]. rewrite IH. clear.
    induction z as [|z IH]; [reflexivity|]. cbn [replicate app]. f_equal. exact IH. }
  destruct (rev s) as [|c pre'] eqn:Es.
  - cbn [app] in E. destruct z; [discriminate|]. cbn [replicate] in E.
    injection E as E _. lia.
  - cbn [app] in E. injection E as <- E. exists pre', z.
    split; [reflexivity|]. cbn [app]. f_equal. exact E.
Qed.

Lemma nearest_to_scale (c n den m j : Z) :
  0 < c -> nearest_to n den m j <-> nearest_to (c * n) (c * den) m j.
Proof.
  intros Hc. unfold nearest_to.
  set (D := den * 2 ^ j). replace (c * den * 2 ^ j) with (c * D) by (unfold D; ring).
  replace (2 * (c * n)) with (c * (2 * n)) by ring.
  replace (4 * (c * n)) with (c * (4 * n)) by ring.
  replace ((2 * m + 1) * (c * D)) with (c * ((2 * m + 1) * D)) by ring.
  replace ((2 * m - 1) * (c * D)) with (c * ((2 * m - 1) * D)) by ring.
  replace ((4 * m - 1) * (c * D)) with (c * ((4 * m - 1) * D)) by ring.
  destruct ((m =? 2 ^ 23) && (1 <=? j)).
  all: rewrite <- ?(Z.mul_lt_mono_pos_l c) by exact Hc.
  all: rewrite <- ?(Z.mul_le_mono_pos_l _ _ c) by exact Hc.
  all: rewrite ?(Z.mul_cancel_l _ _ c) by lia.
  all: reflexivity.
Qed.

Lemma pow10_add (a b : Z) :
  0 <= a -> 0 <= b -> strconv.pow10 (a + b) = strconv.pow10 a * strconv.pow10 b.
Proof. intros. unfold strconv.pow10. apply Z.pow_add_r; assumption. Qed.

(** Zeros at the end of the digits count as a power of ten. *)
Lemma decimal_nearest_scale (a k e m j : Z) :
  0 <= k ->
  decimal_nearest (a * strconv.pow10 k) e m j <-> decimal_nearest a (e + k) m j.
Proof.
  intros Hk. unfold decimal_nearest.
  destruct (Z.leb_spec 0 e) as [He|He].
  - replace (0 <=? e + k) with true by lia.
    rewrite (Z.add_comm e k), pow10_add by lia.
    replace (a * strconv.pow10 k * strconv.pow10 e * 2 ^ 149)
      with (a * (strconv.pow10 k * strconv.pow10 e) * 2 ^ 149) by ring.
    reflexivity.
  - destruct (Z.leb_spec 0 (e + k)) as [Hek|Hek].
    + rewrite (nearest_to_scale (strconv.pow10 (- e)) (a * strconv.pow10 (e + k) * 2 ^ 149) 1)
        by (apply pow10_pos; lia).
      replace k with ((e + k) + - e) at 1 by lia.
      rewrite pow10_add by lia. rewrite Z.mul_1_r.
      replace (strconv.pow10 (- e) * (a * strconv.pow10 (e + k) * 2 ^ 149))
        with (a * (strconv.pow10 (e + k) * strconv.pow10 (- e)) * 2 ^ 149) by ring.
      reflexivity.
    + rewrite (nearest_to_scale (strconv.pow10 k) (a * 2 ^ 149) (strconv.pow10 (- (e + k))))
        by (apply pow10_pos; lia).
      rewrite <- pow10_add by lia.
      replace (k + - (e + k)) with (- e) by lia.
      replace (strconv.pow10 k * (a * 2 ^ 149)) with (a * strconv.pow10 k * 2 ^ 149) by ring.
      reflexivity.
Qed.

(** The interval that [strconv.roundShortest] searches is the one of
    the decimals that round to the float. *)
Lemma within_decimal_nearest (m j t p : Z) :
  is_float m j -> 0 < m ->
  within (if (2 ^ 23 <? m) || (j =? 0) then (4 * m - 2) * 2 ^ j else (4 * m - 1) * 2 ^ j)
         ((4 * m + 2) * 2 ^ j) (2 ^ 151) (Z.even m) t p ->
  decimal_nearest t p m j.
Proof.
  intros Hfl Hm [Hlo Hup].
  unfold decimal_nearest, nearest_to. unfold strconv.cmp_scaled in Hlo, Hup.
  change (2 ^ 151) with (4 * 2 ^ 149) in *.
  set (Q := 2 ^ 149) in *. set (S := 2 ^ j) in *.
  assert (Hb : (m =? 2 ^ 23) && (1 <=? j) = negb ((2 ^ 23 <? m) || (j =? 0))).
  { change (2 ^ 23) with 8388608 in *. change (2 ^ 24) with 16777216 in *.
    destruct Hfl as [[-> Hr] | [Hj Hr]].
    - rewrite andb_false_r, orb_true_r. reflexivity.
    - replace (1 <=? j) with true by lia. replace (j =? 0) with false by lia.
      rewrite andb_true_r, orb_false_r. lia. }
  rewrite Hb. clear Hb.
  destruct (Z.leb_spec 0 p) as [Hp|Hp].
  - set (P := strconv.pow10 p) in *.
    replace (t * P * (4 * Q)) with (4 * (t * P * Q)) in * by ring.
    set (X := t * P * Q) in *. rewrite !Z.mul_1_l.
    split.
    + destruct (Z.compare_spec (4 * X) ((4 * m + 2) * S)) as [E|E|E];
        [right; split; [exact Hup | lia] | left; lia | contradiction].
    + destruct ((2 ^ 23 <? m) || (j =? 0)); cbn [negb].
      * destruct (Z.compare_spec (4 * X) ((4 * m - 2) * S)) as [E|E|E];
          [right; split; [exact Hlo | lia] | contradiction | left; lia].
      * destruct (Z.compare_spec (4 * X) ((4 * m - 1) * S)) as [E|E|E];
          [lia | contradiction | lia].
  - set (P := strconv.pow10 (- p)) in *.
    replace (t * (4 * Q)) with (4 * (t * Q)) in * by ring.
    set (X := t * Q) in *.
    replace ((4 * m + 2) * S * P) with ((4 * m + 2) * (P * S)) in * by ring.
    split.
    + destruct (Z.compare_spec (4 * X) ((4 * m + 2) * (P * S))) as [E|E|E];
        [right; split; [exact Hup | lia] | left; lia | contradiction].
    + destruct ((2 ^ 23 <? m) || (j =? 0)); cbn [negb].
      * replace ((4 * m - 2) * S * P) with ((4 * m - 2) * (P * S)) in * by ring.
        destruct (Z.compare_spec (4 * X) ((4 * m - 2) * (P * S))) as [E|E|E];
          [right; split; [exact Hlo | lia] | contradiction | left; lia].
      * replace ((4 * m - 1) * S * P) with ((4 * m - 1) * (P * S)) in * by ring.
        destruct (Z.compare_spec (4 * X) ((4 * m - 1) * (P * S))) as [E|E|E];
          [lia | contradiction | lia].
Qed.

(** ** The digits of [roundShortest] *)


Lemma within_weak (lo up den : Z) (inclusive : bool) (t p : Z) :
  within lo up den inclusive t p ->
  lo * scale_r p <= t * scale_l den p <= up * scale_r p.
Proof.
  intros [Hlo Hup]. rewrite cmp_scaled_scale in Hlo, Hup.
  destruct (Z.compare_spec (t * scale_l den p) (lo * scale_r p));
    destruct (Z.compare_spec (t * scale_l den p) (up * scale_r p)); try contradiction; lia.
Qed.

(** The decimal point of a decimal within the range of the finite
    floats. *)
Lemma within_point_bounds (lo up : Z) (inclusive : bool) (t p L : Z) :
  2 <= lo -> up < 2 ^ 279 -> 1 <= L ->
  10 ^ (L - 1) <= t < 10 ^ L ->
  within lo up (2 ^ 151) inclusive t p ->
  -46 < L + p <= 39.
Proof.
  intros Hlo Hup HL [Ht1 Ht2] Hw. apply within_weak in Hw.
  unfold scale_l, scale_r, strconv.pow10 in Hw.
  destruct (Z.leb_spec 0 p) as [Hp|Hp].
  - split; [lia|].
    assert (H1 : 10 ^ (L - 1 + p) < 10 ^ 39).
    { rewrite Z.pow_add_r by lia.
      assert (0 < 10 ^ p) by (apply Z.pow_pos_nonneg; lia).
      assert (t * 10 ^ p * 2 ^ 151 < 2 ^ 128 * 2 ^ 151) by (change (2 ^ 128 * 2 ^ 151) with (2 ^ 279); lia).
      assert (t * 10 ^ p < 2 ^ 128) by (apply (Z.mul_lt_mono_pos_r (2 ^ 151)); lia).
      assert (10 ^ (L - 1) * 10 ^ p <= t * 10 ^ p) by (apply Z.mul_le_mono_nonneg_r; lia).
      assert (2 ^ 128 < 10 ^ 39) by reflexivity. lia. }
    apply Z.pow_lt_mono_r_iff in H1; lia.
  - assert (HP : 0 < 10 ^ (- p)) by (apply Z.pow_pos_nonneg; lia).
    split.
    + assert (H1 : 10 ^ (- p) < 10 ^ (L + 46)).
      { rewrite Z.pow_add_r by lia.
        assert (2 * 10 ^ (- p) <= lo * 10 ^ (- p)) by (apply Z.mul_le_mono_nonneg_r; lia).
        assert (t * 2 ^ 151 < 10 ^ L * 2 ^ 151) by (apply Z.mul_lt_mono_pos_r; lia).
        assert (10 ^ L * (2 * 2 ^ 150) < 10 ^ L * (2 * 10 ^ 46)).
        { apply Z.mul_lt_mono_pos_l; [apply Z.pow_pos_nonneg; lia | reflexivity]. }
        change (2 ^ 151) with (2 * 2 ^ 150) in *. lia. }
      apply Z.pow_lt_mono_r_iff in H1; lia.
    + assert (H1 : 10 ^ (L - 1) < 10 ^ (39 - p)).
      { replace (39 - p) with (39 + - p) by lia. rewrite Z.pow_add_r by lia.
        assert (up * 10 ^ (- p) < 2 ^ 279 * 10 ^ (- p)) by (apply Z.mul_lt_mono_pos_r; lia).
        assert (2 ^ 128 * 2 ^ 151 * 10 ^ (- p) < 10 ^ 39 * 2 ^ 151 * 10 ^ (- p)).
        { apply Z.mul_lt_mono_pos_r; [lia | reflexivity]. }
        change (2 ^ 279) with (2 ^ 128 * 2 ^ 151) in *.
        assert (t * 2 ^ 151 < 10 ^ 39 * 10 ^ (- p) * 2 ^ 151) by lia.
        assert (t < 10 ^ 39 * 10 ^ (- p)) by (apply (Z.mul_lt_mono_pos_r (2 ^ 151)); lia).
        lia. }
      apply Z.pow_lt_mono_r_iff in H1; lia.
Qed.

(** The digits that [roundShortest] gives for the float [m * 2^j]:
    the first is not zero, they round to the float, and the decimal point
    is within the range of the format. *)
Lemma roundShortest_spec (m j : Z) :
  is_float m j -> 0 < m ->
  let ds := strconv.roundShortest m (j - 126) strconv.float32info in
  exists d1 pre,
    strconv.d ds = d1 :: pre
    /\ 1 <= d1 /\ Forall is_digit_value (d1 :: pre)
    /\ decimal_nearest (digits_value (d1 :: pre)) (strconv.dp ds - strconv.nd ds) m j
    /\ -46 < strconv.dp ds <= 39.
Proof.
  intros Hfl Hm. cbv zeta. unfold strconv.roundShortest.
  replace (m =? 0) with false by lia.
  cbn [strconv.mantbits strconv.bias strconv.expbits strconv.float32info].
  change (-127 + 1) with (-126). change (23 - -126 + 2) with 151.
  replace (j - 126 - -126) with j by lia.
  replace (j - 126 =? -126) with (j =? 0) by lia.
  set (lo := if (2 ^ 23 <? m) || (j =? 0) then (4 * m - 2) * 2 ^ j else (4 * m - 1) * 2 ^ j).
  set (up := (4 * m + 2) * 2 ^ j).
  set (k := strconv.point_of up (2 ^ 151)).
  assert (HS : 0 < 2 ^ j) by (apply Z.pow_pos_nonneg; destruct Hfl; lia).
  assert (Hlo : 2 <= lo /\ lo < 4 * m * 2 ^ j).
  { unfold lo. destruct ((2 ^ 23 <? m) || (j =? 0)); nia. }
  assert (Hup : 4 * m * 2 ^ j < up /\ up < 2 ^ 279).
  { unfold up. split; [nia|].
    assert (2 ^ j <= 2 ^ 253) by (apply Z.pow_le_mono_r; destruct Hfl; lia).
    change (2 ^ 24) with 16777216 in Hfl.
    assert (4 * m + 2 < 2 ^ 26) by (change (2 ^ 26) with 67108864; destruct Hfl; lia).
    change (2 ^ 279) with (2 ^ 26 * 2 ^ 253). nia. }
  pose proof (shortest_loop_within (4 * m * 2 ^ j) lo up (2 ^ 151) (Z.even m) 151
                ltac:(lia) ltac:(lia) ltac:(lia) ltac:(lia) ltac:(lia)) as Hloop.
  specialize (Hloop ltac:(exists (4 * m * 2 ^ j * 5 ^ 151); unfold strconv.pow10;
                          change (10 ^ 151) with (5 ^ 151 * 2 ^ 151); ring)).
  specialize (Hloop (Z.to_nat (Z.max k 0 + 151)) (k - 1) ltac:(lia)).
  destruct (strconv.shortest_loop _ _ _ _ _ _ _) as [t p].
  destruct Hloop as [Ht Hw].
  destruct (digits_spec t Ht) as (d1 & pre0 & Ed & Hd1 & Hds & Hv).
  destruct (strip_trailing_zeros d1 pre0 Hd1) as (pre & z & Es & Ez).
  rewrite Ed. unfold strconv.nd. cbn [strconv.d strconv.dp]. rewrite Es.
  exists d1, pre. split; [reflexivity|]. split; [exact Hd1|].
  assert (Hlen : Z.of_nat (length (d1 :: pre0)) = Z.of_nat (length (d1 :: pre)) + Z.of_nat z).
  { rewrite Ez at 1. rewrite length_app, length_replicate. lia. }
  split; [|split].
  - rewrite Ez in Hds. apply Forall_app in Hds. apply Hds.
  - replace (Z.of_nat (length (d1 :: pre0)) + p - Z.of_nat (length (d1 :: pre)))
      with (p + Z.of_nat z) by lia.
    apply decimal_nearest_scale; [lia|].
    unfold strconv.pow10. rewrite <- digits_value_app_zeros, <- Ez, Hv.
    apply within_decimal_nearest; assumption.
  - apply (within_point_bounds lo up (Z.even m) t p); try lia; try assumption.
    + cbn [length]. lia.
    + rewrite <- Hv. split.
      * replace (Z.of_nat (length (d1 :: pre0)) - 1) with (Z.of_nat (length pre0))
          by (cbn [length]; lia).
        apply digits_value_lead; [exact Hd1|]. inversion Hds; assumption.
      * apply digits_value_bound. exact Hds.
Qed.

(** ** Reading a decimal literal *)


Lemma digit_value_cases (a : Z) :
  is_digit_value a ->
  a = 0 \/ a = 1 \/ a = 2 \/ a = 3 \/ a = 4 \/ a = 5 \/ a = 6 \/ a = 7 \/ a = 8 \/ a = 9.
Proof. unfold is_digit_value. lia. Qed.

Ltac each_digit a H :=
  destruct (digit_value_cases a H) as [->|[->|[->|[->|[->|[->|[->|[->|[->| ->]]]]]]]]].

(** A digit character is read as a digit, and is no sign, no point and
    no exponent mark. *)
Lemma digit_char_spec (a : Z) :
  is_digit_value a ->
  strconv.is_digit (strconv.digit_char a) = true
  /\ byte_val (strconv.digit_char a) - 48 = a
  /\ byte_eqb (strconv.digit_char a) "."%byte = false
  /\ byte_eqb (strconv.digit_char a) "+"%byte = false
  /\ byte_eqb (strconv.digit_char a) "-"%byte = false.
Proof. intros H. each_digit a H; repeat split; reflexivity. Qed.

Lemma read_mantissa_digits (ds : list Z) (rest : list byte) :
  Forall is_digit_value ds ->
  forall mant frac sawdot sawdigits,
    strconv.read_mantissa (map strconv.digit_char ds ++ rest) mant frac sawdot sawdigits
    = strconv.read_mantissa rest (digits_from mant ds)
        (if sawdot then frac + Z.of_nat (length ds) else frac) sawdot
        (match ds with [] => sawdigits | _ => true end).
Proof.
  induction 1 as [|a ds Ha Hds IH]; intros mant frac sawdot sawdigits.
  - cbn [map app length digits_from fold_left]. destruct sawdot; f_equal; lia.
  - cbn [map app strconv.read_mantissa].
    destruct (digit_char_spec a Ha) as (Hd & Hv & Hdot & _).
    rewrite Hdot, Hd, Hv, IH. cbn [digits_from fold_left length].
    f_equal; [|destruct ds; reflexivity].
    destruct sawdot; lia.
Qed.



Lemma read_mantissa_end (rest : list byte) (mant frac : Z) (sawdot sawdigits : bool) :
  match rest with
  | [] => True
  | c :: _ => c = "e"%byte
  end ->
  strconv.read_mantissa rest mant frac sawdot sawdigits = (mant, frac, sawdigits, rest).
Proof.
  destruct rest as [|c rest]; [reflexivity|]. intros ->. reflexivity.
Qed.

(** [readFloat] reads a decimal literal: digits, a point and more
    digits if any, an exponent if any. *)
Lemma readFloat_decimal (neg : bool) (a : Z) (A B : list Z) (hasdot : bool)
    (epart : list byte) (e : Z) :
  Forall is_digit_value (a :: A) -> Forall is_digit_value B ->
  (hasdot = false -> B = []) ->
  (epart = [] /\ e = 0) \/ (epart = exp_part e /\ -100 < e < 100) ->
  strconv.readFloat
    (sign_part neg ++ map strconv.digit_char (a :: A)
       ++ (if hasdot then "."%byte :: map strconv.digit_char B else []) ++ epart)
  = Some (neg, digits_value ((a :: A) ++ B), e - Z.of_nat (length B)).
Proof.
  intros HA HB Hdot He.
  assert (Ha : is_digit_value a) by (inversion HA; assumption).
  destruct (digit_char_spec a Ha) as (_ & _ & _ & Hplus & Hminus).
  unfold strconv.readFloat.
  assert (Esign :
    match sign_part neg ++ map strconv.digit_char (a :: A)
            ++ (if hasdot then "."%byte :: map strconv.digit_char B else []) ++ epart with
    | c :: s' =>
        if byte_eqb c "+"%byte then (false, s')
        else if byte_eqb c "-"%byte then (true, s')
        else (false, sign_part neg ++ map strconv.digit_char (a :: A)
            ++ (if hasdot then "."%byte :: map strconv.digit_char B else []) ++ epart)
    | [] => (false, sign_part neg ++ map strconv.digit_char (a :: A)
            ++ (if hasdot then "."%byte :: map strconv.digit_char B else []) ++ epart)
    end = (neg, map strconv.digit_char (a :: A)
            ++ (if hasdot then "."%byte :: map strconv.digit_char B else []) ++ epart)).
  { destruct neg; cbn [sign_part app map]; [reflexivity|]. rewrite Hplus, Hminus. reflexivity. }
  rewrite Esign. clear Esign.
  rewrite read_mantissa_digits by exact HA.
  change (digits_from 0 (a :: A)) with (digits_value (a :: A)).
  assert (Erest :
    strconv.read_mantissa ((if hasdot then "."%byte :: map strconv.digit_char B else []) ++ epart)
      (digits_value (a :: A)) 0 false true
    = (digits_value ((a :: A) ++ B), Z.of_nat (length B), true, epart)).
  { assert (Hend : forall mant frac sawdot,
              strconv.read_mantissa epart mant frac sawdot true = (mant, frac, true, epart)).
    { intros. apply read_mantissa_end. destruct He as [[-> _] | [-> _]]; [exact I | reflexivity]. }
    destruct hasdot.
    - cbn [app strconv.read_mantissa]. change (byte_eqb "." ".") with true. cbn match.
      rewrite read_mantissa_digits by exact HB.
      replace (match B with [] => true | _ :: _ => true end) with true
        by (destruct B; reflexivity).
      rewrite Hend. change (a :: A ++ B) with ((a :: A) ++ B).
      unfold digits_value. rewrite digits_from_app. reflexivity.
    - rewrite (Hdot eq_refl). cbn [app]. rewrite Hend, app_nil_r. reflexivity. }
  rewrite Erest. cbn [negb].
  destruct He as [[-> ->] | [-> He]].
  - f_equal.
  - unfold exp_part.
    change (negb (strconv.lower (byte_val "e") =? 101)) with false. cbn match.
    assert (Hq : is_digit_value (Z.abs e / 10))
      by (unfold is_digit_value; Z.div_mod_to_equations; lia).
    assert (Hr : is_digit_value (Z.abs e mod 10))
      by (unfold is_digit_value; Z.div_mod_to_equations; lia).
    destruct (digit_char_spec _ Hq) as (Hq1 & Hq2 & _).
    destruct (digit_char_spec _ Hr) as (Hr1 & Hr2 & _).
    destruct (Z.ltb_spec e 0) as [Hneg|Hpos].
    all: change (byte_eqb "-" "+") with false; change (byte_eqb "-" "-") with true.
    all: change (byte_eqb "+" "+") with true; cbn match.
    all: rewrite Hq1; cbn [negb strconv.read_exponent].
    all: rewrite Hq1, Hr1, Hq2, Hr2.
    all: change (0 <? 10000) with true; cbn match.
    all: replace (0 * 10 + Z.abs e / 10 <? 10000) with true
           by (symmetry; apply Z.ltb_lt; Z.div_mod_to_equations; lia).
    all: do 3 f_equal.
    all: Z.div_mod_to_equations; lia.
Qed.

(** ** Parsing a decimal literal to the nearest float *)


Lemma decimal_to_bits_nearest (neg : bool) (mant exp10 m j : Z) :
  0 < mant -> is_float m j -> decimal_nearest mant exp10 m j ->
  strconv.decimal_to_bits strconv.float32info neg mant exp10
  = (strconv.sign_bit strconv.float32info neg .| float_bits m j, false).
Proof.
  intros Hmant Hfl Hn. unfold strconv.decimal_to_bits, decimal_nearest in *.
  replace (mant =? 0) with false by lia.
  destruct (Z.leb_spec 0 exp10) as [He|He].
  - rewrite (round_float_nearest _ 1 m j); try assumption; try lia.
    + reflexivity.
    + pose proof (pow10_pos exp10 He). nia.
  - rewrite (round_float_nearest _ _ m j); try assumption.
    + reflexivity.
    + apply pow10_pos. lia.
Qed.


Lemma literal_chars (neg : bool) (A : list Z) (hasdot : bool) (B : list Z)
    (epart : list byte) (e : Z) :
  Forall is_digit_value A -> Forall is_digit_value B ->
  (epart = [] /\ e = 0) \/ (epart = exp_part e /\ -100 < e < 100) ->
  Forall literal_char (literal neg A hasdot B epart).
Proof.
  intros HA HB He. unfold literal.
  assert (Hmap : forall l, Forall is_digit_value l ->
                           Forall literal_char (map strconv.digit_char l)).
  { intros l Hl. apply Forall_map. eapply Forall_impl; [exact Hl|].
    intros x Hx. left. apply digit_char_spec. exact Hx. }
  repeat apply Forall_app_2.
  - destruct neg; [|apply Forall_nil_2].
    apply Forall_cons_2; [right; tauto | apply Forall_nil_2].
  - apply Hmap, HA.
  - destruct hasdot; [|apply Forall_nil_2].
    apply Forall_cons_2; [right; tauto | apply Hmap, HB].
  - destruct He as [[-> _] | [-> He]]; [apply Forall_nil_2|].
    unfold exp_part.
    assert (Hq : is_digit_value (Z.abs e / 10))
      by (unfold is_digit_value; Z.div_mod_to_equations; lia).
    assert (Hr : is_digit_value (Z.abs e mod 10))
      by (unfold is_digit_value; Z.div_mod_to_equations; lia).
    repeat apply Forall_cons_2; [| | | |apply Forall_nil_2].
    + right. tauto.
    + right. destruct (e <? 0); tauto.
    + left. apply digit_char_spec, Hq.
    + left. apply digit_char_spec, Hr.
Qed.

Lemma literal_char_plain (c : byte) :
  literal_char c ->
  c <> "_"%byte /\ (strconv.lower (byte_val c) =? 120) = false.
Proof.
  intros [Hd | [-> | [-> | [-> | ->]]]]; try (split; [discriminate | reflexivity]).
  revert Hd. destruct c; try discriminate; intros _; split; (discriminate || reflexivity).
Qed.

Lemma hex_or_underscore_literal (s : list byte) :
  Forall literal_char s -> strconv.hex_or_underscore s = false.
Proof.
  intros Hs. unfold strconv.hex_or_underscore.
  assert (Hc : strconv.contains s "_"%byte = false).
  { apply contains_false. intros Hin. rewrite Forall_forall in Hs.
    apply list_elem_of_In, Hs, literal_char_plain in Hin. destruct Hin as [Hne _]. congruence. }
  rewrite Hc.
  set (s1 := match s with
             | c :: s' => if byte_eqb c "+"%byte || byte_eqb c "-"%byte then s' else s
             | [] => s
             end).
  assert (H1 : Forall literal_char s1).
  { unfold s1. destruct s as [|c s']; [constructor|].
    destruct (byte_eqb c "+"%byte || byte_eqb c "-"%byte); [inversion Hs; assumption | exact Hs]. }
  destruct s1 as [|c0 [|c1 [|c2 s2]]]; try reflexivity.
  inversion H1 as [|? ? _ H2]; subst. inversion H2 as [|? ? Hc1 _]; subst.
  apply literal_char_plain in Hc1. destruct Hc1 as [_ ->].
  rewrite andb_false_r. reflexivity.
Qed.

Lemma special_literal (flt : strconv.floatInfo) (neg : bool) (a : Z) (rest : list byte) :
  is_digit_value a ->
  strconv.special flt (sign_part neg ++ strconv.digit_char a :: rest) = None.
Proof.
  intros Ha. destruct neg; cbn [sign_part app].
  - unfold strconv.special. change (byte_eqb "-" "+") with false.
    change (byte_eqb "-" "-") with true. cbn match.
    each_digit a Ha; reflexivity.
  - each_digit a Ha; reflexivity.
Qed.

(** [ParseFloat] of a literal whose value rounds to the float
    [m * 2^j]. *)
Lemma ParseFloat32_literal `{Externs} (neg : bool) (a : Z) (A B : list Z) (hasdot : bool)
    (epart : list byte) (e m j : Z) :
  Forall is_digit_value (a :: A) -> Forall is_digit_value B ->
  (hasdot = false -> B = []) ->
  (epart = [] /\ e = 0) \/ (epart = exp_part e /\ -100 < e < 100) ->
  0 < digits_value ((a :: A) ++ B) ->
  is_float m j ->
  decimal_nearest (digits_value ((a :: A) ++ B)) (e - Z.of_nat (length B)) m j ->
  strconv.ParseFloat32 (literal neg (a :: A) hasdot B epart)
  = (strconv.sign_bit strconv.float32info neg .| float_bits m j, None).
Proof.
  intros HA HB Hdot He Hpos Hfl Hn. unfold strconv.ParseFloat32.
  assert (Ha : is_digit_value a) by (inversion HA; assumption).
  rewrite (hex_or_underscore_literal _ (literal_chars neg _ hasdot B epart e HA HB He)).
  unfold literal at 1. cbn [map app].
  rewrite (special_literal _ neg a _ Ha).
  unfold literal. rewrite (readFloat_decimal neg a A B hasdot epart e HA HB Hdot He).
  rewrite (decimal_to_bits_nearest neg _ _ m j Hpos Hfl Hn). reflexivity.
Qed.

(** ** The literals that [%g] writes *)


Lemma map_seq_nth {B : Type} (g : Z -> B) (l : list Z) :
  forall start : nat,
    map (fun i => g (nth (i - start) l 0)) (seq start (length l)) = map g l.
Proof.
  induction l as [|x l IH]; intros start; [reflexivity|].
  cbn [length seq map]. rewrite Nat.sub_diag. cbn [nth]. f_equal.
  rewrite <- (IH (S start)). apply map_ext_in. intros i Hi.
  apply in_seq in Hi. replace (i - start)%nat with (S (i - S start)) by lia.
  reflexivity.
Qed.

Lemma map_replicate_digit (z : nat) :
  map strconv.digit_char (replicate z 0) = replicate z "0"%byte.
Proof. induction z as [|z IH]; [reflexivity|]. cbn [replicate map]. f_equal. exact IH. Qed.

(** The digits after the point that [fmtF] writes. *)
Lemma fmtF_frac_inside (l : list Z) (k : nat) :
  (k <= length l)%nat ->
  map (fun i : nat =>
         let j := Z.of_nat k + Z.of_nat i in
         if (0 <=? j) && (j <? Z.of_nat (length l))
         then strconv.digit_char (nth (Z.to_nat j) l 0) else "0"%byte)
      (seq 0 (length l - k))
  = map strconv.digit_char (drop k l).
Proof.
  intros Hk. rewrite <- (map_seq_nth strconv.digit_char (drop k l) 0).
  rewrite length_drop. apply map_ext_in. intros i Hi. apply in_seq in Hi.
  cbv zeta. replace (0 <=? Z.of_nat k + Z.of_nat i) with true by lia.
  replace (Z.of_nat k + Z.of_nat i <? Z.of_nat (length l)) with true by lia.
  cbn [andb]. rewrite nth_skipn, Nat.sub_0_r. do 2 f_equal. lia.
Qed.

Lemma fmtF_frac_before (l : list Z) (z : nat) :
  map (fun i : nat =>
         let j := - Z.of_nat z + Z.of_nat i in
         if (0 <=? j) && (j <? Z.of_nat (length l))
         then strconv.digit_char (nth (Z.to_nat j) l 0) else "0"%byte)
      (seq 0 (z + length l))
  = map strconv.digit_char (replicate z 0 ++ l).
Proof.
  rewrite seq_app, !map_app, map_replicate_digit. f_equal.
  - clear.
    assert (H : forall n, (n <= z)%nat ->
              map (fun i : nat =>
                     let j := - Z.of_nat z + Z.of_nat i in
                     if (0 <=? j) && (j <? Z.of_nat (length l))
                     then strconv.digit_char (nth (Z.to_nat j) l 0) else "0"%byte)
                  (seq (z - n) n) = replicate n "0"%byte).
    { induction n as [|n IH]; intros Hn; [reflexivity|].
      cbn [seq map replicate]. f_equal.
      - cbv zeta. replace (0 <=? - Z.of_nat z + Z.of_nat (z - S n)) with false
          by (symmetry; apply Z.leb_gt; clear IH; lia).
        reflexivity.
      - replace (S (z - S n)) with (z - n)%nat by lia. apply IH. lia. }
    specialize (H z (Nat.le_refl z)). rewrite Nat.sub_diag in H. exact H.
  - cbn [Nat.add]. rewrite <- (map_seq_nth strconv.digit_char l z).
    apply map_ext_in. intros i Hi. apply in_seq in Hi. cbv zeta.
    replace (0 <=? - Z.of_nat z + Z.of_nat i) with true by lia.
    replace (- Z.of_nat z + Z.of_nat i <? Z.of_nat (length l)) with true by lia.
    cbn [andb]. do 2 f_equal. lia.
Qed.

Ltac bool_lia :=
  symmetry;
  first [apply Z.eqb_neq | apply Z.eqb_eq | apply Z.ltb_lt | apply Z.ltb_ge
        | apply Z.leb_le | apply Z.leb_gt];
  lia.

Lemma fmtE_literal (neg : bool) (d1 : Z) (pre : list Z) (dp : Z) :
  -100 < dp - 1 < 100 ->
  strconv.fmtE neg {| strconv.d := d1 :: pre; strconv.dp := dp |}
    (strconv.nd {| strconv.d := d1 :: pre; strconv.dp := dp |} - 1)
  = literal neg [d1] (negb (bool_decide (pre = []))) pre (exp_part (dp - 1)).
Proof.
  intros Hdp. unfold strconv.fmtE, literal, strconv.nd. cbn [strconv.d strconv.dp length].
  fold (sign_part neg). f_equal. cbn [map app]. f_equal.
  rewrite Nat2Z.inj_succ.
  replace (Z.succ (Z.of_nat (length pre)) =? 0) with false by bool_lia.
  replace (Z.succ (Z.of_nat (length pre)) - 1 + 1) with (Z.succ (Z.of_nat (length pre))) by lia.
  rewrite Z.min_id, Z.max_l by lia. rewrite Z.sub_diag.
  rewrite <- Nat2Z.inj_succ, Nat2Z.id. change (S (length pre)) with (length (d1 :: pre)).
  rewrite firstn_all. cbn [drop replicate Z.to_nat]. rewrite app_nil_r.
  f_equal.
  - destruct pre as [|d2 pre]; [reflexivity|].
    cbn [length]. rewrite bool_decide_eq_false_2 by discriminate.
    replace (0 <? Z.of_nat (S (S (length pre))) - 1) with true by bool_lia. reflexivity.
  - unfold exp_part. cbn [app]. do 2 f_equal.
    destruct (Z.ltb_spec (Z.abs (dp - 1)) 10) as [H10|H10].
    + rewrite Z.div_small, Z.mod_small by lia. reflexivity.
    + replace (Z.abs (dp - 1) <? 100) with true by bool_lia. reflexivity.
Qed.

Lemma fmtF_literal_whole (neg : bool) (d1 : Z) (pre : list Z) (dp : Z) :
  Z.of_nat (length (d1 :: pre)) <= dp ->
  strconv.fmtF neg {| strconv.d := d1 :: pre; strconv.dp := dp |}
    (Z.max (strconv.nd {| strconv.d := d1 :: pre; strconv.dp := dp |} - dp) 0)
  = literal neg (d1 :: pre ++ replicate (Z.to_nat (dp - Z.of_nat (length (d1 :: pre)))) 0)
      false [] [].
Proof.
  intros Hdp. unfold strconv.fmtF, literal, strconv.nd. cbn [strconv.d strconv.dp].
  fold (sign_part neg). f_equal. rewrite Z.max_r by lia.
  change (0 <? 0) with false. cbn match.
  assert (Hpos : 0 < Z.of_nat (length (d1 :: pre))) by (cbn [length]; lia).
  replace (0 <? dp) with true by bool_lia.
  rewrite Z.min_l by lia. rewrite Nat2Z.id, firstn_all.
  rewrite !app_nil_r. rewrite app_comm_cons, map_app, map_replicate_digit. reflexivity.
Qed.

Lemma fmtF_literal_point (neg : bool) (d1 : Z) (pre : list Z) (dp : Z) :
  0 < dp < Z.of_nat (length (d1 :: pre)) ->
  strconv.fmtF neg {| strconv.d := d1 :: pre; strconv.dp := dp |}
    (Z.max (strconv.nd {| strconv.d := d1 :: pre; strconv.dp := dp |} - dp) 0)
  = literal neg (d1 :: take (Z.to_nat dp - 1) pre) true (drop (Z.to_nat dp - 1) pre) [].
Proof.
  intros Hdp. remember (Z.to_nat dp - 1)%nat as k eqn:Ek.
  assert (Edp : dp = Z.of_nat (S k)) by lia. clear Ek. subst dp.
  unfold strconv.fmtF, literal, strconv.nd. cbn [strconv.d strconv.dp].
  fold (sign_part neg). f_equal. rewrite Z.max_l by lia.
  replace (0 <? Z.of_nat (S k)) with true by bool_lia.
  replace (0 <? Z.of_nat (length (d1 :: pre)) - Z.of_nat (S k)) with true by bool_lia.
  rewrite Z.min_r by lia. rewrite Z.sub_diag.
  change (Z.to_nat 0) with 0%nat. cbn [replicate].
  rewrite !app_nil_r. rewrite Nat2Z.id.
  cbn [take]. f_equal. f_equal.
  replace (Z.to_nat (Z.of_nat (length (d1 :: pre)) - Z.of_nat (S k)))
    with (length (d1 :: pre) - S k)%nat by lia.
  apply (fmtF_frac_inside (d1 :: pre) (S k)). lia.
Qed.

Lemma fmtF_literal_small (neg : bool) (d1 : Z) (pre : list Z) (dp : Z) :
  dp <= 0 ->
  strconv.fmtF neg {| strconv.d := d1 :: pre; strconv.dp := dp |}
    (Z.max (strconv.nd {| strconv.d := d1 :: pre; strconv.dp := dp |} - dp) 0)
  = literal neg [0] true (replicate (Z.to_nat (- dp)) 0 ++ d1 :: pre) [].
Proof.
  intros Hdp. remember (Z.to_nat (- dp)) as z eqn:Ez.
  assert (Edp : dp = - Z.of_nat z) by lia. clear Ez. subst dp.
  unfold strconv.fmtF, literal, strconv.nd. cbn [strconv.d strconv.dp].
  fold (sign_part neg). f_equal.
  assert (Hpos : 0 < Z.of_nat (length (d1 :: pre))) by (cbn [length]; lia).
  rewrite Z.max_l by lia.
  replace (0 <? - Z.of_nat z) with false by bool_lia.
  replace (0 <? Z.of_nat (length (d1 :: pre)) - - Z.of_nat z) with true by bool_lia.
  rewrite !app_nil_r.
  change (map strconv.digit_char [0]) with ["0"%byte]. cbn [app]. f_equal. f_equal.
  replace (Z.to_nat (Z.of_nat (length (d1 :: pre)) - - Z.of_nat z))
    with (z + length (d1 :: pre))%nat by lia.
  apply fmtF_frac_before.
Qed.

(** ** Formatting a float and reading it back *)


(** What [%g] writes for a finite float that is not zero is a literal
    whose value rounds to the float. *)
Lemma format_finite_literal (neg : bool) (m j : Z) :
  is_float m j -> 0 < m ->
  let digs := strconv.roundShortest m (j - 126) strconv.float32info in
  exists a A hasdot B epart e,
    (if (strconv.dp digs - 1 <? -4) || (6 <=? strconv.dp digs - 1)
     then strconv.fmtE neg digs (strconv.nd digs - 1)
     else strconv.fmtF neg digs (Z.max (strconv.nd digs - strconv.dp digs) 0))
    = literal neg (a :: A) hasdot B epart
    /\ Forall is_digit_value (a :: A) /\ Forall is_digit_value B
    /\ (hasdot = false -> B = [])
    /\ ((epart = [] /\ e = 0) \/ (epart = exp_part e /\ -100 < e < 100))
    /\ 0 < digits_value ((a :: A) ++ B)
    /\ decimal_nearest (digits_value ((a :: A) ++ B)) (e - Z.of_nat (length B)) m j.
Proof.
  intros Hfl Hm. cbv zeta.
  destruct (roundShortest_spec m j Hfl Hm) as (d1 & pre & Ed & Hd1 & Hds & Hn & Hdp).
  cbv zeta in *.
  destruct (strconv.roundShortest m (j - 126) strconv.float32info) as [dd dp].
  cbn [strconv.d strconv.dp] in *. subst dd.
  unfold strconv.nd in Hn. cbn [strconv.d] in Hn.
  assert (Hpre : Forall is_digit_value pre) by (inversion Hds; assumption).
  assert (Hval : 0 < digits_value (d1 :: pre)).
  { pose proof (digits_value_lead d1 pre Hd1 Hpre).
    assert (0 < 10 ^ Z.of_nat (length pre)) by (apply Z.pow_pos_nonneg; lia). lia. }
  destruct ((dp - 1 <? -4) || (6 <=? dp - 1)).
  - (* %e *)
    rewrite fmtE_literal by lia.
    exists d1, [], (negb (bool_decide (pre = []))), pre, (exp_part (dp - 1)), (dp - 1).
    split; [reflexivity|].
    split; [constructor; [inversion Hds; assumption | constructor]|].
    split; [exact Hpre|].
    split; [intros Hnd; apply negb_false_iff, bool_decide_eq_true in Hnd; exact Hnd|].
    split; [right; split; [reflexivity | lia]|].
    split; [exact Hval|].
    replace (dp - 1 - Z.of_nat (length pre)) with (dp - Z.of_nat (length (d1 :: pre)))
      by (cbn [length]; lia).
    exact Hn.
  - (* %f *)
    destruct (Z_le_gt_dec dp 0) as [Hsmall|Hbig].
    + rewrite fmtF_literal_small by exact Hsmall.
      assert (Hz : Forall is_digit_value (replicate (Z.to_nat (- dp)) 0 ++ d1 :: pre)).
      { apply Forall_app_2; [|exact Hds]. apply Forall_replicate. unfold is_digit_value. lia. }
      assert (Ev : digits_value ([0] ++ replicate (Z.to_nat (- dp)) 0 ++ d1 :: pre)
                   = digits_value (d1 :: pre)).
      { rewrite app_assoc, digits_value_app.
        change ([0] ++ replicate (Z.to_nat (- dp)) 0) with (replicate (S (Z.to_nat (- dp))) 0).
        rewrite digits_value_zeros. lia. }
      exists 0, [], true, (replicate (Z.to_nat (- dp)) 0 ++ d1 :: pre), [], 0.
      split; [reflexivity|].
      split; [repeat constructor; unfold is_digit_value; lia|].
      split; [exact Hz|].
      split; [discriminate|].
      split; [left; split; reflexivity|].
      rewrite Ev. split; [exact Hval|].
      rewrite length_app, length_replicate.
      replace (0 - Z.of_nat (Z.to_nat (- dp) + length (d1 :: pre)))
        with (dp - Z.of_nat (length (d1 :: pre))) by lia.
      exact Hn.
    + destruct (Z_lt_ge_dec dp (Z.of_nat (length (d1 :: pre)))) as [Hin|Hout].
      * rewrite fmtF_literal_point by lia.
        set (k := (Z.to_nat dp - 1)%nat).
        assert (Ek : (d1 :: take k pre) ++ drop k pre = d1 :: pre)
          by (cbn [app]; rewrite take_drop; reflexivity).
        exists d1, (take k pre), true, (drop k pre), [], 0.
        split; [reflexivity|].
        split; [constructor; [inversion Hds; assumption | apply Forall_take, Hpre]|].
        split; [apply Forall_drop, Hpre|].
        split; [discriminate|].
        split; [left; split; reflexivity|].
        rewrite Ek. split; [exact Hval|].
        rewrite length_drop.
        replace (0 - Z.of_nat (length pre - k)) with (dp - Z.of_nat (length (d1 :: pre)))
          by (cbn [length] in *; lia).
        exact Hn.
      * rewrite fmtF_literal_whole by lia.
        set (z := Z.to_nat (dp - Z.of_nat (length (d1 :: pre)))).
        assert (Ev : digits_value ((d1 :: pre ++ replicate z 0) ++ [])
                     = digits_value (d1 :: pre) * strconv.pow10 (Z.of_nat z)).
        { rewrite app_nil_r, app_comm_cons. apply digits_value_app_zeros. }
        exists d1, (pre ++ replicate z 0), false, [], [], 0.
        split; [reflexivity|].
        split; [rewrite app_comm_cons; apply Forall_app_2; [exact Hds|];
                apply Forall_replicate; unfold is_digit_value; lia|].
        split; [constructor|].
        split; [reflexivity|].
        split; [left; split; reflexivity|].
        rewrite Ev.
        split; [pose proof (pow10_pos (Z.of_nat z) ltac:(lia)); nia|].
        apply decimal_nearest_scale; [lia|].
        cbn [length] in *.
        replace (0 - Z.of_nat 0 + Z.of_nat z) with (dp - Z.of_nat (S (length pre)))
          by (unfold z; lia).
        exact Hn.
Qed.

(** Reading back the digits of a finite float that is not zero. *)
Lemma finite_round_trip `{Externs} (neg : bool) (m j : Z) :
  is_float m j -> 0 < m ->
  let digs := strconv.roundShortest m (j - 126) strconv.float32info in
  strconv.ParseFloat32
    (if (strconv.dp digs - 1 <? -4) || (6 <=? strconv.dp digs - 1)
     then strconv.fmtE neg digs (strconv.nd digs - 1)
     else strconv.fmtF neg digs (Z.max (strconv.nd digs - strconv.dp digs) 0))
  = (strconv.sign_bit strconv.float32info neg .| float_bits m j, None).
Proof.
  intros Hfl Hm.
  destruct (format_finite_literal neg m j Hfl Hm)
    as (a & A & hasdot & B & epart & e & E & HA & HB & Hdot & He & Hpos & Hn).
  cbv zeta in *. rewrite E.
  apply (ParseFloat32_literal neg a A B hasdot epart e m j); assumption.
Qed.



Lemma float32_fields (b : Z) :
  0 <= b < 2 ^ 32 ->
  exists s e f,
    b = s * 2 ^ 31 + e * 2 ^ 23 + f
    /\ 0 <= s < 2 /\ 0 <= e < 256 /\ 0 <= f < 2 ^ 23
    /\ b .>> 31 = s /\ (b .>> 23) .& 255 = e /\ b .& (2 ^ 23 - 1) = f.
Proof.
  intros Hb. exists (b / 2 ^ 31), ((b / 2 ^ 23) mod 256), (b mod 2 ^ 23).
  rewrite !Z.shiftr_div_pow2 by lia.
  rewrite (land_ones_lit _ 8 255) by (lia || reflexivity).
  rewrite (land_ones_lit _ 23 (2 ^ 23 - 1)) by (lia || reflexivity).
  change (2 ^ 8) with 256. change (2 ^ 23) with 8388608.
  change (2 ^ 31) with 2147483648. change (2 ^ 32) with 4294967296 in Hb.
  repeat split; try reflexivity; Z.div_mod_to_equations; lia.
Qed.

Lemma float_bits_fields (neg : bool) (e f : Z) :
  0 <= e < 255 -> 0 <= f < 2 ^ 23 ->
  strconv.sign_bit strconv.float32info neg
    .| float_bits (if e =? 0 then f else f .| 1 .<< 23) (if e =? 0 then 0 else e - 1)
  = (if neg then 2 ^ 31 else 0) + e * 2 ^ 23 + f.
Proof.
  intros He Hf. unfold float_bits, strconv.sign_bit.
  cbn [strconv.expbits strconv.mantbits strconv.float32info].
  change (1 .<< (8 + 23)) with (2 ^ 31). change (1 .<< 23) with (2 ^ 23).
  change (2 ^ 23) with 8388608 in *. change (2 ^ 31) with 2147483648.
  assert (Hbits : (if (if e =? 0 then f else f .| 8388608) <? 8388608
                   then if e =? 0 then f else f .| 8388608
                   else (((if e =? 0 then 0 else e - 1) + 1) .<< 23)
                        .| ((if e =? 0 then f else f .| 8388608) - 8388608))
                  = e * 8388608 + f).
  { destruct (Z.eqb_spec e 0) as [->|Hne].
    - replace (f <? 8388608) with true by lia. lia.
    - assert (Hor : f .| 8388608 = f + 8388608).
      { rewrite Z.lor_comm. rewrite (lor_add 23 8388608 f) by (lia || reflexivity). lia. }
      rewrite Hor. replace (f + 8388608 <? 8388608) with false by lia.
      replace (e - 1 + 1) with e by lia.
      replace (f + 8388608 - 8388608) with f by lia.
      rewrite Z.shiftl_mul_pow2 by lia. change (2 ^ 23) with 8388608.
      rewrite (lor_add 23) by (change (2 ^ 23) with 8388608; try lia; apply Z_mod_mult).
      reflexivity. }
  rewrite Hbits.
  destruct neg; [|rewrite Z.lor_0_l; lia].
  rewrite (lor_add 31) by (change (2 ^ 31) with 2147483648; try lia; reflexivity).
  lia.
Qed.


(** What [%g] writes, by the kind of the float. *)
Lemma fmt_g32_cases (b : Z) :
  0 <= b < 2 ^ 32 ->
  (is_nan b = true /\ fmt.fmt_g32 b = bs "NaN")
  \/ (is_nan b = false
      /\ ((b = 2139095040 /\ fmt.fmt_g32 b = bs "+Inf")
          \/ (b = 4286578688 /\ fmt.fmt_g32 b = bs "-Inf")
          \/ (b = 0 /\ fmt.fmt_g32 b = bs "0")
          \/ (b = 2147483648 /\ fmt.fmt_g32 b = bs "-0")
          \/ exists neg m j,
               is_float m j /\ 0 < m
               /\ b = strconv.sign_bit strconv.float32info neg .| float_bits m j
               /\ fmt.fmt_g32 b
                  = let digs := strconv.roundShortest m (j - 126) strconv.float32info in
                    if (strconv.dp digs - 1 <? -4) || (6 <=? strconv.dp digs - 1)
                    then strconv.fmtE neg digs (strconv.nd digs - 1)
                    else strconv.fmtF neg digs
                           (Z.max (strconv.nd digs - strconv.dp digs) 0))).
Proof.
  intros Hb.
  destruct (float32_fields b Hb) as (s & e & f & Eb & Hs & He & Hf & Es & Ee & Ef).
  unfold is_nan. rewrite Ee, Ef.
  unfold fmt.fmt_g32, strconv.FormatFloat_g32.
  cbn [strconv.expbits strconv.mantbits strconv.bias strconv.float32info].
  change (8 + 23) with 31. change (1 .<< 8 - 1) with 255.
  change (1 .<< 23 - 1) with (2 ^ 23 - 1). change (1 .<< 23) with (2 ^ 23).
  replace (b .>> 23 .& 255) with e by (rewrite <- Ee; reflexivity).
  rewrite Es, Ef. clear Es Ee Ef. subst b. clear Hb.
  assert (Hsign : (if negb (s =? 0) then 2 ^ 31 else 0) = s * 2 ^ 31).
  { destruct (Z.eqb_spec s 0); cbn [negb]; lia. }
  assert (Hs' : s = 0 \/ s = 1) by lia.
  destruct (Z.eqb_spec e 255) as [E255|N255]; cbn [andb].
  - destruct (Z.eqb_spec f 0) as [F0|NF0]; cbn [negb].
    + right. split; [reflexivity|]. subst e f.
      destruct Hs' as [-> | ->]; [left | right; left]; split; reflexivity.
    + left. split; reflexivity.
  - right. split; [reflexivity|]. do 2 right.
    destruct (Z.eq_dec e 0) as [E0|N0]; [destruct (Z.eq_dec f 0) as [F0|NF0]|].
    + subst e f.
      destruct Hs' as [-> | ->]; [left | right; left]; split; reflexivity.
    + do 2 right. subst e. change (0 =? 0) with true. cbv iota.
      change (0 + 1 + -127) with (0 - 126).
      exists (negb (s =? 0)), f, 0.
      split; [left; split; lia|]. split; [lia|]. split; [|reflexivity].
      pose proof (float_bits_fields (negb (s =? 0)) 0 f ltac:(lia) Hf) as Hfb.
      change (0 =? 0) with true in Hfb. cbv iota in Hfb.
      rewrite Hfb, Hsign. lia.
    + do 2 right. replace (e =? 0) with false by lia. cbv iota.
      replace (e + -127) with ((e - 1) - 126) by lia.
      assert (Hor : f .| 2 ^ 23 = f + 2 ^ 23).
      { rewrite Z.lor_comm. rewrite (lor_add 23 (2 ^ 23) f) by (lia || reflexivity). lia. }
      exists (negb (s =? 0)), (f .| 2 ^ 23), (e - 1).
      split; [unfold is_float; rewrite Hor; change (2 ^ 24) with (2 ^ 23 + 2 ^ 23); lia|].
      split; [rewrite Hor; lia|]. split; [|reflexivity].
      pose proof (float_bits_fields (negb (s =? 0)) e f ltac:(lia) Hf) as Hfb.
      replace (e =? 0) with false in Hfb by lia.
      change (1 .<< 23) with (2 ^ 23) in Hfb. rewrite Hfb, Hsign. lia.
Qed.

(** [%g] of a [float32] read by [ParseFloat]: the bits of the float
    again, but for a NaN, which is written without its sign and payload
    and read as the quiet NaN 7FC00000. *)
Lemma ParseFloat32_fmt_g32_any `{Externs} (b : Z) :
  0 <= b < 2 ^ 32 ->
  strconv.ParseFloat32 (fmt.fmt_g32 b) = (if is_nan b then 2143289344 else b, None).
Proof.
  intros Hb.
  destruct (fmt_g32_cases b Hb)
    as [[-> ->] | [-> [[-> ->] | [[-> ->] | [[-> ->] | [[-> ->] | Hfin]]]]]];
    try reflexivity.
  destruct Hfin as (neg & m & j & Hfl & Hm & Eb & ->).
  rewrite Eb. apply finite_round_trip; assumption.
Qed.

(** ** [%.8X] and [ParseUint] *)



Lemma hex_digits_of_S (k : nat) (u : Z) :
  hex_digits_of (S k) u
  = index_tbl fmt.udigits ((u / 16 ^ Z.of_nat k) mod 16) :: hex_digits_of k u.
Proof.
  unfold hex_digits_of. rewrite seq_S, rev_app_distr. reflexivity.
Qed.

Lemma hex_digits_of_shift (k : nat) (u : Z) :
  0 <= u ->
  hex_digits_of (S k) u = hex_digits_of k (u / 16) ++ [index_tbl fmt.udigits (u mod 16)].
Proof.
  intros Hu. unfold hex_digits_of.
  change (seq 0 (S k)) with (0%nat :: seq 1 k). cbn [rev]. rewrite map_app. cbn [map].
  change (16 ^ Z.of_nat 0) with 1. rewrite Z.div_1_r. f_equal.
  rewrite <- seq_shift, <- map_rev, map_map. apply map_ext. intros i.
  rewrite Nat2Z.inj_succ, Z.pow_succ_r by lia.
  rewrite Z.div_div by (try lia; apply Z.pow_pos_nonneg; lia). reflexivity.
Qed.

Lemma hex_digits_of_small (k : nat) (u : Z) :
  0 <= u < 16 ->
  hex_digits_of (S k) u = replicate k "0"%byte ++ [index_tbl fmt.udigits u].
Proof.
  intros Hu. induction k as [|k IH].
  - unfold hex_digits_of. cbn [seq rev app map]. change (16 ^ Z.of_nat 0) with 1.
    rewrite Z.div_1_r, Z.mod_small by lia. reflexivity.
  - rewrite hex_digits_of_S, IH. cbn [replicate app]. f_equal.
    rewrite Z.div_small; [reflexivity|].
    assert (16 ^ 1 <= 16 ^ Z.of_nat (S k)) by (apply Z.pow_le_mono_r; lia).
    change (16 ^ 1) with 16 in *. lia.
Qed.

Lemma length_hex_digits_of (k : nat) (u : Z) : length (hex_digits_of k u) = k.
Proof. unfold hex_digits_of. rewrite length_map, length_rev, length_seq. reflexivity. Qed.

(** [hex_rev] writes the digits of [u], at most one more than the
    fuel. *)
Lemma hex_rev_spec (fuel : nat) :
  forall (k : nat) (u : Z),
    0 <= u < 16 ^ Z.of_nat (S k) -> (k <= fuel)%nat ->
    exists len, (len <= k)%nat
      /\ length (fmt.hex_rev fuel u) = S len
      /\ replicate (k - len) "0"%byte ++ rev (fmt.hex_rev fuel u) = hex_digits_of (S k) u.
Proof.
  induction fuel as [|fuel IH]; intros k u Hu Hk.
  - assert (k = 0%nat) by lia. subst k. change (16 ^ Z.of_nat 1) with 16 in Hu.
    exists 0%nat. cbn [fmt.hex_rev length rev app replicate Nat.sub].
    split; [lia|]. split; [reflexivity|].
    rewrite (land_ones_lit _ 4 15) by (lia || reflexivity).
    rewrite hex_digits_of_small by lia. change (2 ^ 4) with 16.
    rewrite Z.mod_small by lia. reflexivity.
  - cbn [fmt.hex_rev]. destruct (Z.leb_spec 16 u) as [Hge|Hlt].
    + destruct k as [|k].
      { change (16 ^ Z.of_nat 1) with 16 in Hu. lia. }
      destruct (IH k (u / 16)) as (len & Hlen & El & Ed).
      { rewrite Nat2Z.inj_succ, Z.pow_succ_r in Hu by lia.
        split; [apply Z.div_pos; lia | apply Z.div_lt_upper_bound; lia]. }
      { lia. }
      rewrite Z.shiftr_div_pow2 by lia. change (2 ^ 4) with 16.
      rewrite (land_ones_lit _ 4 15) by (lia || reflexivity). change (2 ^ 4) with 16.
      exists (S len). split; [lia|]. cbn [length rev]. rewrite El.
      split; [reflexivity|].
      rewrite hex_digits_of_shift by lia. rewrite <- Ed, app_assoc. reflexivity.
    + exists 0%nat. cbn [length rev app]. split; [lia|]. split; [reflexivity|].
      rewrite Nat.sub_0_r. rewrite hex_digits_of_small by lia. reflexivity.
Qed.

(** [%.8X] of a 32-bit word is its eight hexadecimal digits. *)
Lemma fmt_X_8 (u : Z) :
  0 <= u < 2 ^ 32 -> fmt.fmt_X 8 u = hex_digits_of 8 u.
Proof.
  intros Hu. unfold fmt.fmt_X.
  destruct (hex_rev_spec 16 7 u) as (len & Hlen & El & Ed).
  - change (16 ^ Z.of_nat 8) with (2 ^ 32). exact Hu.
  - lia.
  - rewrite El. replace (8 - S len)%nat with (7 - len)%nat by lia. exact Ed.
Qed.

Lemma nibble_cases (v : Z) :
  0 <= v < 16 ->
  v = 0 \/ v = 1 \/ v = 2 \/ v = 3 \/ v = 4 \/ v = 5 \/ v = 6 \/ v = 7
  \/ v = 8 \/ v = 9 \/ v = 10 \/ v = 11 \/ v = 12 \/ v = 13 \/ v = 14 \/ v = 15.
Proof. lia. Qed.

Ltac each_nibble v H :=
  destruct (nibble_cases v H)
    as [->|[->|[->|[->|[->|[->|[->|[->|[->|[->|[->|[->|[->|[->|[->| ->]]]]]]]]]]]]]]].


Lemma udigit_spec (v : Z) :
  0 <= v < 16 ->
  is_upper_hex (index_tbl fmt.udigits v)
  /\ (let c := byte_val (index_tbl fmt.udigits v) in
      if (48 <=? c) && (c <=? 57) then Some (u8 (c - 48))
      else if (97 <=? strconv.lower c) && (strconv.lower c <=? 122)
           then Some (u8 (u8 (strconv.lower c - 97) + 10))
           else None) = Some v.
Proof.
  intros Hv. each_nibble v Hv; (split; [|reflexivity]).
  all: unfold is_upper_hex.
  all: first [left; split; intros Habs; vm_compute in Habs; discriminate
             | right; split; intros Habs; vm_compute in Habs; discriminate].
Qed.

Lemma mod_pow16_S (u : Z) (k : nat) :
  0 <= u ->
  u mod 16 ^ Z.of_nat (S k)
  = (u / 16 ^ Z.of_nat k) mod 16 * 16 ^ Z.of_nat k + u mod 16 ^ Z.of_nat k.
Proof.
  intros Hu. rewrite Nat2Z.inj_succ, Z.pow_succ_r by lia.
  rewrite (Z.mul_comm 16).
  rewrite Z.rem_mul_r by (try lia; apply Z.pow_nonzero; lia). lia.
Qed.

Lemma parse_uint_hex_digits (k : nat) (u : Z) :
  0 <= u ->
  forall n, 0 <= n -> n * 16 ^ Z.of_nat k + u mod 16 ^ Z.of_nat k < 2 ^ 32 ->
  strconv.parse_uint_loop (hex_digits_of k u) 16 (2 ^ 60) (2 ^ 32 - 1) n
  = (n * 16 ^ Z.of_nat k + u mod 16 ^ Z.of_nat k, None).
Proof.
  intros Hu. induction k as [|k IH]; intros n Hn Hlt.
  - change (hex_digits_of 0 u) with (@nil byte). cbn [strconv.parse_uint_loop].
    change (16 ^ Z.of_nat 0) with 1. rewrite Z.mod_1_r. f_equal. lia.
  - rewrite hex_digits_of_S. cbn [strconv.parse_uint_loop].
    assert (HP : 0 < 16 ^ Z.of_nat k) by (apply Z.pow_pos_nonneg; lia).
    pose proof (Z.mod_pos_bound (u / 16 ^ Z.of_nat k) 16 ltac:(lia)) as Hv.
    pose proof (Z.mod_pos_bound u (16 ^ Z.of_nat k) HP) as Hr.
    set (v := (u / 16 ^ Z.of_nat k) mod 16) in *.
    destruct (udigit_spec v Hv) as [_ Ed]. cbv zeta in Ed. rewrite Ed.
    rewrite mod_pow16_S in Hlt by exact Hu. fold v in Hlt.
    rewrite Nat2Z.inj_succ, Z.pow_succ_r in Hlt by lia.
    assert (Hn16 : n * 16 + v < 2 ^ 32) by nia.
    change (u8 16) with 16. replace (16 <=? v) with false by lia.
    change (2 ^ 60) with 1152921504606846976. change (2 ^ 32) with 4294967296 in *.
    replace (1152921504606846976 <=? n) with false by lia.
    unfold u64. change (2 ^ 64) with 18446744073709551616.
    rewrite (Z.mod_small (n * 16)) by lia.
    rewrite (Z.mod_small (n * 16 + v)) by lia.
    replace (n * 16 + v <? n * 16) with false by lia.
    replace (4294967296 - 1 <? n * 16 + v) with false by lia.
    cbn [orb].
    change 1152921504606846976 with (2 ^ 60). change 4294967296 with (2 ^ 32).
    rewrite IH by (change (2 ^ 32) with 4294967296; nia).
    rewrite mod_pow16_S by exact Hu. fold v.
    rewrite Nat2Z.inj_succ, Z.pow_succ_r by lia. f_equal. ring.
Qed.

(** The eight digits are upper-case hexadecimal digits, and
    [ParseUint] reads the word back from them. *)
Lemma ParseUint_fmt_X_8 (u : Z) :
  0 <= u < 2 ^ 32 ->
  length (fmt.fmt_X 8 u) = 8%nat
  /\ Forall is_upper_hex (fmt.fmt_X 8 u)
  /\ strconv.ParseUint (fmt.fmt_X 8 u) 16 32 = (u, None).
Proof.
  intros Hu. rewrite fmt_X_8 by exact Hu.
  split; [apply length_hex_digits_of|]. split.
  - unfold hex_digits_of. apply Forall_map, Forall_forall. intros i _.
    apply udigit_spec, Z.mod_pos_bound. lia.
  - unfold strconv.ParseUint.
    destruct (hex_digits_of 8 u) as [|c s] eqn:E.
    { apply (f_equal (@length byte)) in E. rewrite length_hex_digits_of in E. discriminate. }
    rewrite <- E.
    change (u64 (u64 (1 .<< 32) - 1)) with (2 ^ 32 - 1).
    change ((2 ^ 64 - 1) / 16 + 1) with (2 ^ 60).
    rewrite (parse_uint_hex_digits 8 u) by (change (16 ^ Z.of_nat 8) with (2 ^ 32);
                                            try rewrite Z.mod_small; lia).
    change (16 ^ Z.of_nat 8) with (2 ^ 32). rewrite Z.mod_small by lia.
    f_equal.
Qed.


Lemma parse_uint_loop_range (base cutoff maxVal : Z) (s : list byte) :
  forall n r, 0 <= n <= maxVal ->
    strconv.parse_uint_loop s base cutoff maxVal n = (r, None) ->
    0 <= r <= maxVal.
Proof.
  induction s as [|c s IH]; intros n r Hn E; cbn [strconv.parse_uint_loop] in E.
  - injection E as <-. exact Hn.
  - cbv zeta in E.
    destruct (if (48 <=? byte_val c) && (byte_val c <=? 57) then _ else _) as [d|];
      [|discriminate].
    destruct (u8 base <=? d); [discriminate|].
    destruct (cutoff <=? n); [discriminate|].
    destruct ((u64 (u64 (n * base) + d) <? u64 (n * base))
              || (maxVal <? u64 (u64 (n * base) + d))) eqn:Hc; [discriminate|].
    apply orb_false_iff in Hc. destruct Hc as [_ Hc]. apply Z.ltb_ge in Hc.
    apply (IH _ _ (conj (proj1 (Z.mod_pos_bound _ (2 ^ 64) eq_refl)) Hc) E).
Qed.

Lemma ParseUint_32_range (w : list byte) (s : Z) :
  strconv.ParseUint w 16 32 = (s, None) -> 0 <= s < 2 ^ 32.
Proof.
  unfold strconv.ParseUint. destruct w as [|c w]; [discriminate|].
  change (u64 (u64 (1 .<< 32) - 1)) with (2 ^ 32 - 1).
  destruct (strconv.parse_uint_loop _ _ _ _ _) as [n [e|]] eqn:E; [discriminate|].
  intros [= <-]. apply parse_uint_loop_range in E; lia.
Qed.

(** ** [strings.Fields] *)




Lemma split_units_word (w : list byte) :
  Forall token_char w ->
  forall rest cur,
    strings.split_units (map (fun c => (strings.asciiSpace c, [c])) (w ++ rest)) cur
    = strings.split_units (map (fun c => (strings.asciiSpace c, [c])) rest)
        (match w with [] => cur | _ => Some (default [] cur ++ w) end).
Proof.
  induction 1 as [|c w [_ Hc] _ IH]; intros rest cur; [reflexivity|].
  cbn [app map strings.split_units]. rewrite Hc, IH.
  f_equal. destruct w as [|c' w']; [reflexivity|].
  unfold default at 1. cbn [from_option]. unfold id.
  rewrite <- app_assoc. reflexivity.
Qed.

(** [strings.Fields] of tokens each followed by a space gives the
    tokens. *)
Lemma Fields_tokens (ws : list (list byte)) :
  Forall is_token ws ->
  strings.Fields (flat_map (fun w => w ++ bs " ") ws) = ws.
Proof.
  intros Hws. unfold strings.Fields.
  assert (Hascii : forallb (fun c => byte_val c <? utf8.RuneSelf)
                     (flat_map (fun w => w ++ bs " ") ws) = true).
  { induction Hws as [|w ws [_ Hw] _ IH]; [reflexivity|].
    cbn [flat_map]. rewrite !forallb_app, IH, andb_true_r.
    change (forallb _ (bs " ")) with true. rewrite andb_true_r.
    apply forallb_forall. intros c Hc. rewrite Forall_forall in Hw.
    apply list_elem_of_In, Hw in Hc. destruct Hc as [Hc _]. lia. }
  rewrite Hascii. clear Hascii.
  induction Hws as [|w ws [Hne Hw] _ IH]; [reflexivity|].
  cbn [flat_map]. rewrite <- app_assoc, (split_units_word w Hw).
  destruct w as [|c w]; [contradiction|].
  change (bs " ") with [" "%byte]. cbn [app map strings.split_units].
  change (strings.asciiSpace " ") with true. cbv iota. f_equal. exact IH.
Qed.



Lemma is_space_ascii (c : byte) : is_space c -> (byte_val c <? utf8.RuneSelf) = true.
Proof. unfold is_space. destruct c; try discriminate; reflexivity. Qed.

Lemma split_units_spaces (sep : list byte) :
  Forall is_space sep ->
  forall rest cur,
    strings.split_units (map (fun c => (strings.asciiSpace c, [c])) (sep ++ rest)) cur
    = match sep, cur with
      | _ :: _, Some f =>
          f :: strings.split_units (map (fun c => (strings.asciiSpace c, [c])) rest) None
      | _, _ => strings.split_units (map (fun c => (strings.asciiSpace c, [c])) rest) cur
      end.
Proof.
  induction 1 as [|c sep Hc _ IH]; intros rest cur.
  - destruct cur; reflexivity.
  - cbn [app map strings.split_units]. rewrite Hc.
    destruct cur as [f|]; rewrite IH; destruct sep; reflexivity.
Qed.


Lemma Fields_spaced (lead : list byte) (l : list (list byte * list byte)) (last : list byte) :
  Forall is_space lead ->
  Forall (fun '(w, sep) => is_token w /\ sep <> [] /\ Forall is_space sep) l ->
  last = [] \/ is_token last ->
  strings.Fields (spaced lead l last)
  = map fst l ++ (match last with [] => [] | _ => [last] end).
Proof.
  intros Hlead Hl Hlast. unfold strings.Fields, spaced.
  assert (Hspace : forall s, Forall is_space s ->
                             forallb (fun c => byte_val c <? utf8.RuneSelf) s = true).
  { intros s Hs. apply forallb_forall. intros c Hc. rewrite Forall_forall in Hs.
    apply is_space_ascii, Hs, list_elem_of_In, Hc. }
  assert (Htok : forall s, Forall token_char s ->
                           forallb (fun c => byte_val c <? utf8.RuneSelf) s = true).
  { intros s Hs. apply forallb_forall. intros c Hc. rewrite Forall_forall in Hs.
    apply list_elem_of_In, Hs in Hc. destruct Hc as [Hc _]. lia. }
  assert (Hascii : forallb (fun c => byte_val c <? utf8.RuneSelf)
                     (lead ++ flat_map (fun '(w, sep) => w ++ sep) l ++ last) = true).
  { rewrite !forallb_app, (Hspace lead Hlead). cbn [andb].
    apply andb_true_iff. split.
    - induction Hl as [|[w sep] l (Hw & _ & Hsep) _ IH]; [reflexivity|].
      cbn [flat_map]. rewrite !forallb_app, IH, (Htok w (proj2 Hw)), (Hspace sep Hsep).
      reflexivity.
    - destruct Hlast as [-> | [_ Hw]]; [reflexivity | apply Htok, Hw]. }
  rewrite Hascii. clear Hascii Hspace Htok.
  rewrite (split_units_spaces lead Hlead).
  replace (match lead with
           | [] | _ => strings.split_units
                         (map (fun c => (strings.asciiSpace c, [c]))
                            (flat_map (fun '(w, sep) => w ++ sep) l ++ last)) None
           end)
    with (strings.split_units
            (map (fun c => (strings.asciiSpace c, [c]))
               (flat_map (fun '(w, sep) => w ++ sep) l ++ last)) None)
    by (destruct lead; reflexivity).
  clear lead Hlead.
  induction Hl as [|[w sep] l ((Hne & Hw) & Hsne & Hsep) _ IH].
  - cbn [flat_map app map].
    destruct Hlast as [-> | [Hne Hw]]; [reflexivity|].
    rewrite <- (app_nil_r last) at 1. rewrite (split_units_word last Hw).
    destruct last; [contradiction | reflexivity].
  - cbn [flat_map map fst]. rewrite <- !app_assoc.
    rewrite (split_units_word w Hw), (split_units_spaces sep Hsep).
    destruct w as [|c w]; [contradiction|]. destruct sep as [|s sep]; [contradiction|].
    cbn [app default]. f_equal. exact IH.
Qed.

(** ** The loops of float32-hex *)


Lemma literal_char_token (c : byte) : literal_char c -> token_char c.
Proof.
  intros [Hd | [-> | [-> | [-> | ->]]]]; try (split; reflexivity).
  revert Hd. destruct c; try discriminate; intros _; split; reflexivity.
Qed.

(** What [%g] writes is a token. *)
Lemma fmt_g32_token (b : Z) : 0 <= b < 2 ^ 32 -> is_token (fmt.fmt_g32 b).
Proof.
  intros Hb.
  assert (Hconst : forall s, In s [bs "NaN"; bs "+Inf"; bs "-Inf"; bs "0"; bs "-0"] ->
                             is_token s).
  { intros s Hs. cbn [In] in Hs.
    decompose [or] Hs; try contradiction; subst s; (split; [discriminate|]).
    all: repeat (apply Forall_cons_2; [split; reflexivity|]); apply Forall_nil_2. }
  destruct (fmt_g32_cases b Hb)
    as [[_ ->] | [_ [[_ ->] | [[_ ->] | [[_ ->] | [[_ ->] | Hfin]]]]]];
    try (apply Hconst; cbn [In]; tauto).
  destruct Hfin as (neg & m & j & Hfl & Hm & _ & ->).
  destruct (format_finite_literal neg m j Hfl Hm)
    as (a & A & hasdot & B & epart & e & E & HA & HB & _ & He & _).
  cbv zeta in *. rewrite E. split.
  - unfold literal. destruct neg; discriminate.
  - eapply Forall_impl; [apply (literal_chars neg (a :: A) hasdot B epart e HA HB He)|].
    exact literal_char_token.
Qed.

Lemma float32hexDec_loop_ok (words : list (list byte)) :
  Forall (fun w => snd (strconv.ParseUint w 16 32) = None) words ->
  forall dst,
    float32hexDec_loop words dst
    = Ret (dst ++ flat_map (fun w => fmt.fmt_g32 (fst (strconv.ParseUint w 16 32)) ++ bs " ")
                    words) None.
Proof.
  induction 1 as [|w words Hw _ IH]; intros dst; cbn [float32hexDec_loop flat_map].
  - rewrite app_nil_r. reflexivity.
  - destruct (strconv.ParseUint w 16 32) as [s err] eqn:E. cbn [fst snd] in *. subst err.
    apply ParseUint_32_range in E. unfold u32. rewrite Z.mod_small by exact E.
    rewrite IH, <- !app_assoc. reflexivity.
Qed.

Lemma float32hexEnc_loop_ok `{Externs} (words : list (list byte)) :
  Forall (fun w => snd (strconv.ParseFloat32 w) = None) words ->
  forall dst,
    float32hexEnc_loop words dst
    = Ret (dst ++ flat_map (fun w => fmt.fmt_X 8 (fst (strconv.ParseFloat32 w)) ++ bs " ")
                    words) None.
Proof.
  induction 1 as [|w words Hw _ IH]; intros dst; cbn [float32hexEnc_loop flat_map].
  - rewrite app_nil_r. reflexivity.
  - destruct (strconv.ParseFloat32 w) as [s err] eqn:E. cbn [fst snd] in *. subst err.
    rewrite IH, <- !app_assoc. reflexivity.
Qed.


(** Decoding, then encoding what was written. *)
Lemma float32hex_decode_encode `{Externs} (src : list byte) :
  Forall (fun w => snd (strconv.ParseUint w 16 32) = None) (strings.Fields src) ->
  exists out,
    float32hexDec src = Ret out None
    /\ float32hexEnc out
       = Ret (flat_map (fun w => fmt.fmt_X 8 (canonical_nan (fst (strconv.ParseUint w 16 32)))
                                  ++ bs " ")
                (strings.Fields src)) None.
Proof.
  intros Hws. unfold float32hexDec, float32hexEnc. cbv zeta.
  rewrite (float32hexDec_loop_ok _ Hws). cbn [app].
  eexists. split; [reflexivity|].
  set (ws := strings.Fields src) in *.
  assert (Hrange : Forall (fun w => 0 <= fst (strconv.ParseUint w 16 32) < 2 ^ 32) ws).
  { eapply Forall_impl; [exact Hws|]. intros w Hw. cbn beta in Hw |- *.
    destruct (strconv.ParseUint w 16 32) as [s err] eqn:E. cbn [fst snd] in *. subst err.
    apply ParseUint_32_range in E. exact E. }
  assert (Eout : flat_map (fun w => fmt.fmt_g32 (fst (strconv.ParseUint w 16 32)) ++ bs " ") ws
                 = flat_map (fun t => t ++ bs " ")
                     (map (fun w => fmt.fmt_g32 (fst (strconv.ParseUint w 16 32))) ws)).
  { clear. induction ws as [|w ws IH]; [reflexivity|]. cbn [flat_map map]. rewrite IH.
    reflexivity. }
  rewrite Eout, Fields_tokens.
  - rewrite float32hexEnc_loop_ok.
    + cbn [app]. f_equal. clear Eout Hws.
      induction Hrange as [|w ws Hw _ IH]; [reflexivity|].
      cbn [map flat_map]. rewrite IH, (ParseFloat32_fmt_g32_any _ Hw). reflexivity.
    + apply Forall_map. eapply Forall_impl; [exact Hrange|]. intros w Hw. cbn beta.
      rewrite (ParseFloat32_fmt_g32_any _ Hw). reflexivity.
  - apply Forall_map. eapply Forall_impl; [exact Hrange|]. intros w Hw.
    apply fmt_g32_token, Hw.
Qed.


Lemma float_bits_range (neg : bool) (m j : Z) :
  is_float m j ->
  0 <= strconv.sign_bit strconv.float32info neg .| float_bits m j < 2 ^ 32.
Proof.
  intros Hfl. unfold float_bits, strconv.sign_bit.
  cbn [strconv.expbits strconv.mantbits strconv.float32info].
  change (1 .<< (8 + 23)) with (2 ^ 31).
  change (2 ^ 23) with 8388608 in *. change (2 ^ 24) with 16777216 in *.
  assert (Hb : 0 <= (if m <? 8388608 then m else ((j + 1) .<< 23) .| (m - 8388608)) < 2 ^ 31).
  { change (2 ^ 31) with 2147483648.
    destruct (Z.ltb_spec m 8388608) as [Hlt|Hge]; [destruct Hfl; lia|].
    rewrite Z.shiftl_mul_pow2 by lia. change (2 ^ 23) with 8388608.
    rewrite (lor_add 23) by (change (2 ^ 23) with 8388608; try apply Z_mod_mult;
                             destruct Hfl; lia).
    destruct Hfl; lia. }
  set (x := if m <? 8388608 then m else _) in *.
  destruct neg; [|rewrite Z.lor_0_l; change (2 ^ 32) with (2 * 2 ^ 31); lia].
  rewrite (lor_add 31) by (try lia; reflexivity).
  change (2 ^ 32) with (2 ^ 31 + 2 ^ 31). lia.
Qed.

Lemma forallb_no_error {A : Type} (f : A -> Z * option error) (l : list A) :
  forallb (fun w => negb (is_error (snd (f w)))) l = true ->
  Forall (fun w => snd (f w) = None) l.
Proof.
  intros H. apply Forall_forall. intros w Hw. rewrite forallb_forall in H.
  apply list_elem_of_In, H in Hw. destruct (snd (f w)); [discriminate | reflexivity].
Qed.

Lemma ParseFloat32_decimal `{Externs} (w : list byte) (neg : bool) (mant exp10 m j : Z) :
  strconv.special strconv.float32info w = None ->
  strconv.hex_or_underscore w = false ->
  strconv.readFloat w = Some (neg, mant, exp10) ->
  0 < mant -> is_float m j -> decimal_nearest mant exp10 m j ->
  strconv.ParseFloat32 w = (strconv.sign_bit strconv.float32info neg .| float_bits m j, None).
Proof.
  intros Hs Hh Hr Hmant Hfl Hn. unfold strconv.ParseFloat32.
  rewrite Hs, Hh, Hr, (decimal_to_bits_nearest neg _ _ m j Hmant Hfl Hn). reflexivity.
Qed.

(** ** What [ParseFloat] returns is a nearest float *)


(** [rne] gives an integer within half a unit of the quotient, an
    even one when the quotient is halfway. *)
Lemma rne_sound (N D : Z) :
  0 < D -> 0 <= N ->
  let q := strconv.rne N D in
  0 <= q
  /\ (2 * N < (2 * q + 1) * D \/ (Z.even q = true /\ 2 * N = (2 * q + 1) * D))
  /\ ((2 * q - 1) * D < 2 * N \/ (Z.even q = true /\ 2 * N = (2 * q - 1) * D)).
Proof.
  intros HD HN. cbv zeta. unfold strconv.rne.
  pose proof (Z.div_mod N D ltac:(lia)) as Hdiv.
  pose proof (Z.mod_pos_bound N D HD) as Hr.
  pose proof (Z.div_pos N D HN HD) as Hq.
  set (q := N / D) in *. set (r := N mod D) in *.
  destruct (Z.ltb_spec D (2 * r)) as [H1|H1]; cbn [orb].
  - split; [lia|]. split; left; nia.
  - destruct (Z.eqb_spec D (2 * r)) as [H2|H2]; cbn [andb].
    + destruct (Z.odd q) eqn:Ho.
      * split; [lia|]. split; [left; nia|]. right. split; [|nia].
        replace (q + 1) with (Z.succ q) by lia. rewrite Z.even_succ. exact Ho.
      * split; [lia|]. split; [|left; nia]. right. split; [|nia].
        rewrite <- Z.negb_odd, Ho. reflexivity.
    + split; [lia|]. split; left; nia.
Qed.

(** What [round_float] returns without overflow is a float nearest to
    the quotient. *)
Lemma round_float_sound (num den b : Z) :
  0 < num -> 0 < den ->
  strconv.round_float strconv.float32info num den = (b, false) ->
  exists m j, is_float m j /\ b = float_bits m j /\ nearest_to (num * 2 ^ 149) den m j.
Proof.
  intros Hnum Hden. unfold strconv.round_float.
  cbn [strconv.mantbits strconv.bias strconv.expbits strconv.float32info].
  change (23 - (-127 + 1)) with 149.
  set (n0 := num * 2 ^ 149).
  assert (Hn0 : 0 < n0) by (unfold n0; lia).
  destruct (floor_log2_spec n0 den Hn0 Hden) as [Hpos Hneg].
  set (e := strconv.floor_log2 n0 den) in *.
  set (j0 := Z.max (e - 23) 0).
  assert (Hj0 : 0 <= j0) by (unfold j0; lia).
  assert (HP : 0 < 2 ^ j0) by (apply Z.pow_pos_nonneg; lia).
  assert (HD : 0 < den * 2 ^ j0) by (apply Z.mul_pos_pos; assumption).
  destruct (rne_sound n0 (den * 2 ^ j0) HD ltac:(lia)) as (Hq0 & Hup & Hlo).
  cbv zeta in Hq0, Hup, Hlo.
  set (q := strconv.rne n0 (den * 2 ^ j0)) in *.
  change (2 ^ (23 + 1)) with 16777216. change (2 ^ 23) with 8388608.
  change (2 ^ 8 - 1) with 255.
  (* the quotient in units of [2^j0] is below [2^24], and not below
     [2^23] when [j0] is not zero *)
  assert (Hbelow : n0 < 16777216 * (den * 2 ^ j0)).
  { destruct (Z_lt_ge_dec e 0) as [He|He].
    - specialize (Hneg He). unfold j0 in *. rewrite Z.max_r in * by lia.
      change (2 ^ 0) with 1. lia.
    - specialize (Hpos ltac:(lia)). destruct Hpos as [_ Hpos].
      destruct (Z_le_gt_dec e 23) as [Hle|Hgt].
      + unfold j0 in *. rewrite Z.max_r in * by lia. change (2 ^ 0) with 1.
        assert (2 ^ (e + 1) <= 2 ^ 24) by (apply Z.pow_le_mono_r; lia).
        change (2 ^ 24) with 16777216 in *. nia.
      + assert (Ee : 2 ^ (e + 1) = 16777216 * 2 ^ j0).
        { unfold j0. rewrite Z.max_l by lia. change 16777216 with (2 ^ 24).
          rewrite <- Z.pow_add_r by lia. f_equal. lia. }
        rewrite Ee in Hpos. lia. }
  assert (Habove : 1 <= j0 -> 8388608 * (den * 2 ^ j0) <= n0).
  { intros H1. assert (He : 24 <= e) by (unfold j0 in H1; lia).
    destruct (Hpos ltac:(lia)) as [Hge _].
    assert (Ee : 2 ^ e = 8388608 * 2 ^ j0).
    { unfold j0. rewrite Z.max_l by lia. change 8388608 with (2 ^ 23).
      rewrite <- Z.pow_add_r by lia. f_equal. lia. }
    rewrite Ee in Hge. lia. }
  assert (Hq24 : q <= 16777216) by nia.
  assert (Hq23 : 1 <= j0 -> 8388608 <= q) by (intros H1; specialize (Habove H1); nia).
  set (D := den * 2 ^ j0) in *.
  destruct (Z.eqb_spec q 16777216) as [Hc|Hnc].
  - (* the mantissa rounds up to the next power of two *)
    change (8388608 <? 8388608) with false. cbv iota.
    destruct (Z.leb_spec 255 (j0 + 1 + 1)) as [Hov|Hok]; [discriminate|].
    intros [= <-]. exists 8388608, (j0 + 1).
    split; [right; change (2 ^ 23) with 8388608; change (2 ^ 24) with 16777216; lia|].
    split.
    { unfold float_bits. change (2 ^ 23) with 8388608.
      change (8388608 <? 8388608) with false. reflexivity. }
    unfold nearest_to. change (2 ^ 23) with 8388608.
    change (8388608 =? 8388608) with true. replace (1 <=? j0 + 1) with true by lia.
    cbn [andb]. rewrite Z.pow_add_r by lia. change (2 ^ 1) with 2.
    replace (den * (2 ^ j0 * 2)) with (2 * D) by (unfold D; ring).
    split; [left; lia|]. rewrite Hc in Hlo. destruct Hlo as [Hlo | [_ Hlo]]; lia.
  - destruct (Z.ltb_spec q 8388608) as [Hsub|Hnorm].
    + (* subnormal *)
      intros [= <-]. assert (Ej : j0 = 0) by (destruct (Z.eq_dec j0 0); [assumption | lia]).
      exists q, 0. split; [left; change (2 ^ 24) with 16777216; lia|].
      split.
      { unfold float_bits. change (2 ^ 23) with 8388608.
        replace (q <? 8388608) with true by lia. reflexivity. }
      unfold nearest_to. rewrite andb_false_r. unfold D in *. rewrite Ej in *.
      split; assumption.
    + destruct (Z.leb_spec 255 (j0 + 1)) as [Hov|Hok]; [discriminate|].
      intros [= <-]. exists q, j0.
      split.
      { unfold is_float. change (2 ^ 23) with 8388608. change (2 ^ 24) with 16777216. lia. }
      split.
      { unfold float_bits. change (2 ^ 23) with 8388608.
        replace (q <? 8388608) with false by lia. reflexivity. }
      unfold nearest_to. fold D. split; [exact Hup|].
      change (2 ^ 23) with 8388608.
      destruct (Z.eqb_spec q 8388608) as [E23|N23]; [|exact Hlo].
      destruct (Z.leb_spec 1 j0) as [H1|H0]; [|exact Hlo].
      cbn [andb]. specialize (Habove H1). lia.
Qed.

(** The bits that [ParseFloat] returns for a decimal literal that is
    not zero are those of a float nearest to its value. *)
Lemma ParseFloat32_decimal_sound `{Externs} (w : list byte) (neg : bool)
    (mant exp10 b : Z) :
  strconv.special strconv.float32info w = None ->
  strconv.hex_or_underscore w = false ->
  strconv.readFloat w = Some (neg, mant, exp10) ->
  0 < mant ->
  strconv.ParseFloat32 w = (b, None) ->
  exists m j,
    is_float m j
    /\ b = strconv.sign_bit strconv.float32info neg .| float_bits m j
    /\ decimal_nearest mant exp10 m j.
Proof.
  intros Hs Hh Hr Hmant. unfold strconv.ParseFloat32. rewrite Hs, Hh, Hr.
  unfold strconv.decimal_to_bits, decimal_nearest.
  replace (mant =? 0) with false by lia.
  destruct (Z.leb_spec 0 exp10) as [He|He].
  - destruct (strconv.round_float _ _ _) as [b0 [|]] eqn:E; [discriminate|].
    intros [= <-]. apply round_float_sound in E; [|pose proof (pow10_pos exp10 He); nia | lia].
    destruct E as (m & j & Hfl & -> & Hn). exists m, j. auto.
  - destruct (strconv.round_float _ _ _) as [b0 [|]] eqn:E; [discriminate|].
    intros [= <-]. apply round_float_sound in E; [|lia | apply pow10_pos; lia].
    destruct E as (m & j & Hfl & -> & Hn). exists m, j. auto.
Qed.

(** ** [strings.Fields] on every text *)

Ltac bool_hyps :=
  repeat match goal with
         | H : _ || _ = false |- _ => apply orb_false_iff in H; destruct H
         | H : _ || _ = true |- _ => apply orb_true_iff in H; destruct H
         | H : _ && _ = true |- _ => apply andb_true_iff in H; destruct H
         | H : (_ <? _) = true |- _ => apply Z.ltb_lt in H
         | H : (_ <? _) = false |- _ => apply Z.ltb_ge in H
         | H : (_ <=? _) = true |- _ => apply Z.leb_le in H
         | H : (_ <=? _) = false |- _ => apply Z.leb_gt in H
         end.

Ltac decode_cases :=
  repeat match goal with
         | |- context [if ?b then _ else _] =>
             let E := fresh "E" in destruct b eqn:E
         end;
  try reflexivity; exfalso; bool_hyps; lia.

(** The constants that [first] gives way to, once its value is known. *)
Ltac first_is x :=
  let b := eval vm_compute in (240 <=? x) in
  change (240 <=? x) with b;
  let n := eval vm_compute in (Z.to_nat (x .& 7)) in
  change (Z.to_nat (x .& 7)) with n;
  let r := eval vm_compute in (utf8.acceptRanges (x .>> 4)) in
  change (utf8.acceptRanges (x .>> 4)) with r;
  cbv beta iota zeta.

Lemma first_cases (b : Z) :
  In (utf8.first b) [240; 241; 2; 19; 3; 35; 52; 4; 68].
Proof.
  unfold utf8.first.
  repeat match goal with
         | |- context [if ?c then _ else _] => destruct c
         end; cbn; tauto.
Qed.

(** [DecodeRune] does not look past a byte that cannot continue a
    sequence. *)
Lemma DecodeRune_app (p s : list byte) :
  p <> [] -> starts s -> utf8.DecodeRune (p ++ s) = utf8.DecodeRune p.
Proof.
  destruct p as [|c0 p1]; [congruence|]. intros _ Hs.
  destruct s as [|d s']; [rewrite app_nil_r; reflexivity|].
  assert (Hd : byte_val d < 128 \/ 192 <= byte_val d).
  { cbn in Hs. unfold start_byte in Hs.
    apply orb_true_iff in Hs. destruct Hs as [Hs | Hs]; lia. }
  clear Hs. cbn [app]. unfold utf8.DecodeRune.
  pose proof (first_cases (byte_val c0)) as Hx.
  generalize dependent (utf8.first (byte_val c0)). intros x Hx.
  cbn [In] in Hx.
  repeat (destruct Hx as [<- | Hx]); [..|contradiction];
    match goal with
    | |- context [240 <=? ?x] => first_is x
    end;
    try reflexivity;
    destruct p1 as [|c1 [|c2 [|c3 p4]]];
    cbn [app length Nat.ltb Nat.leb nth];
    decode_cases.
Qed.

Lemma runes_fuel_any (k1 : nat) :
  forall k2 s, (length s <= k1)%nat -> (length s <= k2)%nat ->
    utf8.runes_fuel k1 s = utf8.runes_fuel k2 s.
Proof.
  induction k1 as [|k1 IH]; intros k2 s H1 H2.
  - destruct s; [destruct k2; reflexivity | simpl in H1; lia].
  - destruct s as [|c s']; [destruct k2; reflexivity|].
    destruct k2 as [|k2]; [simpl in H2; lia|].
    cbn [utf8.runes_fuel].
    pose proof (DecodeRune_decoded (c :: s') ltac:(discriminate)) as Hd.
    destruct (utf8.DecodeRune (c :: s')) as [r n]. cbn [fst snd] in Hd.
    pose proof (decoded_size _ _ _ Hd) as Hn.
    f_equal. apply IH; rewrite length_drop; simpl in *; lia.
Qed.

Lemma runes_fuel_enough (fuel : nat) (s : list byte) :
  (length s <= fuel)%nat -> utf8.runes_fuel fuel s = utf8.runes s.
Proof. intros H. apply runes_fuel_any; [exact H | lia]. Qed.

(** One step of [utf8.runes]. *)
Lemma runes_step (s : list byte) :
  s <> [] ->
  utf8.runes s
  = ((utf8.DecodeRune s).1, take (utf8.DecodeRune s).2 s)
      :: utf8.runes (drop (utf8.DecodeRune s).2 s).
Proof.
  destruct s as [|c s']; [congruence|]. intros _.
  unfold utf8.runes at 1. cbn [length utf8.runes_fuel].
  pose proof (DecodeRune_decoded (c :: s') ltac:(discriminate)) as Hd.
  destruct (utf8.DecodeRune (c :: s')) as [r n]. cbn [fst snd] in *.
  pose proof (decoded_size _ _ _ Hd) as Hn.
  f_equal. apply runes_fuel_enough. rewrite length_drop. simpl in *. lia.
Qed.

(** The characters of a text followed by another are those of the
    one and those of the other, when the other cannot continue a sequence
    of the first. *)
Lemma runes_app (p s : list byte) :
  starts s -> utf8.runes (p ++ s) = utf8.runes p ++ utf8.runes s.
Proof.
  intros Hs. induction p as [p IH] using list_length_ind.
  destruct p as [|c p']; [reflexivity|].
  rewrite (runes_step ((c :: p') ++ s)) by discriminate.
  rewrite (runes_step (c :: p')) by discriminate.
  rewrite (DecodeRune_app (c :: p') s ltac:(discriminate) Hs).
  pose proof (DecodeRune_decoded (c :: p') ltac:(discriminate)) as Hd.
  destruct (utf8.DecodeRune (c :: p')) as [r n]. cbn [fst snd] in *.
  pose proof (decoded_size _ _ _ Hd) as Hn.
  rewrite take_app_le, drop_app_le by lia.
  rewrite IH by (rewrite length_drop; simpl in *; lia).
  reflexivity.
Qed.

Lemma white_space_decode (r : Z) (rest : list byte) :
  In r white_space ->
  utf8.encode_rune r <> []
  /\ starts (utf8.encode_rune r ++ rest)
  /\ utf8.DecodeRune (utf8.encode_rune r ++ rest) = (r, length (utf8.encode_rune r)).
Proof.
  intros Hr. unfold white_space in Hr. cbn [In] in Hr.
  repeat (destruct Hr as [<- | Hr]); [..|contradiction];
    (split; [discriminate | split; reflexivity]).
Qed.

Lemma runes_white_space (rs : list Z) (rest : list byte) :
  Forall (fun r => In r white_space) rs ->
  utf8.runes (flat_map utf8.encode_rune rs ++ rest)
  = map (fun r => (r, utf8.encode_rune r)) rs ++ utf8.runes rest.
Proof.
  induction 1 as [|r rs Hr _ IH]; [reflexivity|].
  cbn [flat_map map app]. rewrite <- app_assoc.
  destruct (white_space_decode r (flat_map utf8.encode_rune rs ++ rest) Hr)
    as (Hne & _ & Hd).
  rewrite runes_step by (destruct (utf8.encode_rune r); [congruence | discriminate]).
  rewrite Hd. cbn [fst snd]. rewrite take_app_length, drop_app_length, IH. reflexivity.
Qed.

Lemma blank_starts (sep rest : list byte) :
  is_blank sep -> sep <> [] -> starts (sep ++ rest).
Proof.
  intros (rs & Hrs & ->) Hne. destruct Hrs as [|r rs Hr _]; [contradiction|].
  cbn [flat_map]. rewrite <- app_assoc.
  apply (white_space_decode r _ Hr).
Qed.

Lemma IsSpace_white_space (r : Z) : unicode.IsSpace r = true <-> In r white_space.
Proof.
  split.
  - unfold unicode.IsSpace, white_space. cbn [In].
    destruct (u32 r <=? 255); intros H; bool_hyps;
      repeat match goal with
             | H : (_ =? _) = true |- _ => apply Z.eqb_eq in H
             end; lia.
  - intros Hr. unfold white_space in Hr. cbn [In] in Hr.
    repeat (destruct Hr as [<- | Hr]); [..|contradiction]; reflexivity.
Qed.

Lemma asciiSpace_IsSpace (c : byte) :
  byte_val c < 128 -> unicode.IsSpace (byte_val c) = strings.asciiSpace c.
Proof. destruct c; intros Hc; try reflexivity; vm_compute in Hc; discriminate Hc. Qed.

Lemma runes_ascii (s : list byte) :
  forallb (fun c => byte_val c <? utf8.RuneSelf) s = true ->
  utf8.runes s = map (fun c => (byte_val c, [c])) s.
Proof.
  induction s as [|c s IH]; [reflexivity|].
  cbn [forallb]. intros H. apply andb_true_iff in H. destruct H as [Hc Hs].
  unfold utf8.RuneSelf in Hc. apply Z.ltb_lt in Hc.
  rewrite runes_step by discriminate.
  assert (Hd : utf8.DecodeRune (c :: s) = (byte_val c, 1%nat)).
  { unfold utf8.DecodeRune, utf8.first.
    destruct (Z.ltb_spec (byte_val c) 128) as [_|?]; [|lia].
    cbn. rewrite Z.ldiff_0_r, Z.lor_0_r. reflexivity. }
  rewrite Hd. cbn [fst snd take drop map]. rewrite take_0, drop_0, (IH Hs). reflexivity.
Qed.

(** [strings.Fields] splits every text, ASCII or not, at its
    white-space characters. *)
Lemma Fields_units (s : list byte) :
  strings.Fields s = strings.split_units (field_units s) None.
Proof.
  unfold strings.Fields, field_units.
  destruct (forallb _ s) eqn:Ha; [|reflexivity].
  rewrite (runes_ascii s Ha), map_map. f_equal.
  apply map_ext_in. intros c Hc. rewrite forallb_forall in Ha.
  specialize (Ha c Hc). unfold utf8.RuneSelf in Ha. apply Z.ltb_lt in Ha.
  rewrite (asciiSpace_IsSpace c Ha). reflexivity.
Qed.

Lemma split_units_blank (rs : list Z) (units : list (bool * list byte))
    (cur : option (list byte)) :
  Forall (fun r => In r white_space) rs ->
  strings.split_units
    (map (fun '(r, enc) => (unicode.IsSpace r, enc))
       (map (fun r => (r, utf8.encode_rune r)) rs) ++ units) cur
  = match rs, cur with
    | _ :: _, Some f => f :: strings.split_units units None
    | _, _ => strings.split_units units cur
    end.
Proof.
  intros Hrs. revert cur. induction Hrs as [|r rs Hr _ IH]; intros cur.
  - destruct cur; reflexivity.
  - cbn [map app strings.split_units].
    rewrite (proj2 (IsSpace_white_space r) Hr).
    destruct cur as [f|]; rewrite IH; destruct rs; reflexivity.
Qed.

Lemma split_units_nonspace (us : list (Z * list byte)) (units : list (bool * list byte)) :
  Forall (fun re : Z * list byte => ~ In re.1 white_space) us ->
  forall cur,
    strings.split_units (map (fun '(r, enc) => (unicode.IsSpace r, enc)) us ++ units) cur
    = strings.split_units units
        (match us with
         | [] => cur
         | _ => Some (default [] cur ++ concat (map snd us))
         end).
Proof.
  induction 1 as [|[r enc] us Hr _ IH]; intros cur; [reflexivity|].
  cbn [map app strings.split_units fst snd concat] in *.
  assert (Hs : unicode.IsSpace r = false).
  { destruct (unicode.IsSpace r) eqn:E; [|reflexivity].
    apply IsSpace_white_space in E. contradiction. }
  rewrite Hs, IH. f_equal. destruct us as [|u us']; cbn [map concat].
  - rewrite app_nil_r. reflexivity.
  - unfold default at 1. cbn [from_option]. unfold id.
    rewrite <- app_assoc. reflexivity.
Qed.

Lemma split_units_word_units (w : list byte) (units : list (bool * list byte))
    (cur : option (list byte)) :
  is_word w ->
  strings.split_units (field_units w ++ units) cur
  = strings.split_units units (Some (default [] cur ++ w)).
Proof.
  intros [Hne Hw]. unfold field_units.
  rewrite (split_units_nonspace _ units Hw cur).
  pose proof (proj1 (runes_spec w)) as Hc.
  destruct (utf8.runes w) as [|u us] eqn:E.
  - cbn in Hc. congruence.
  - rewrite Hc. reflexivity.
Qed.

Lemma field_units_app (p s : list byte) :
  starts s -> field_units (p ++ s) = field_units p ++ field_units s.
Proof. intros Hs. unfold field_units. rewrite (runes_app p s Hs), map_app. reflexivity. Qed.

Lemma field_units_blank (sep rest : list byte) (cur : option (list byte)) :
  is_blank sep ->
  strings.split_units (field_units (sep ++ rest)) cur
  = match sep, cur with
    | _ :: _, Some f => f :: strings.split_units (field_units rest) None
    | _, _ => strings.split_units (field_units rest) cur
    end.
Proof.
  intros (rs & Hrs & ->). unfold field_units at 1.
  rewrite (runes_white_space rs rest Hrs), map_app.
  rewrite (split_units_blank rs _ cur Hrs).
  destruct Hrs as [|r rs Hr Hrs]; [reflexivity|].
  cbn [flat_map].
  destruct (white_space_decode r [] Hr) as (Hne & _).
  destruct (utf8.encode_rune r) as [|b e]; [congruence | reflexivity].
Qed.

(** [strings.Fields] of a text of words and runs of white space, of
    any of the white-space characters of Unicode: the words. *)
Lemma Fields_words (lead : list byte) (l : list (list byte * list byte)) (last : list byte) :
  is_blank lead ->
  Forall (fun '(w, sep) => is_word w /\ sep <> [] /\ is_blank sep) l ->
  last = [] \/ is_word last ->
  strings.Fields (spaced lead l last)
  = map fst l ++ (match last with [] => [] | _ => [last] end).
Proof.
  intros Hlead Hl Hlast. rewrite Fields_units. unfold spaced.
  rewrite (field_units_blank lead _ None Hlead).
  replace (match lead with
           | [] | _ => strings.split_units
                         (field_units (flat_map (fun '(w, sep) => w ++ sep) l ++ last)) None
           end)
    with (strings.split_units
            (field_units (flat_map (fun '(w, sep) => w ++ sep) l ++ last)) None)
    by (destruct lead; reflexivity).
  clear lead Hlead.
  induction Hl as [|[w sep] l (Hw & Hsne & Hsep) _ IH].
  - cbn [flat_map app map].
    destruct Hlast as [-> | Hw]; [reflexivity|].
    rewrite <- (app_nil_r (field_units last)).
    rewrite (split_units_word_units last [] None Hw).
    destruct last; [destruct Hw; contradiction | reflexivity].
  - cbn [flat_map map fst]. rewrite <- !app_assoc.
    rewrite field_units_app by (apply blank_starts; assumption).
    rewrite (split_units_word_units w _ None Hw).
    rewrite (field_units_blank sep _ _ Hsep).
    destruct sep as [|s sep]; [contradiction|].
    cbn [app default]. f_equal. exact IH.
Qed.

(** The tokens and the spaces of ASCII are words and runs of white
    space. *)
Lemma is_token_word (w : list byte) : is_token w -> is_word w.
Proof.
  intros [Hne Hw]. split; [exact Hne|].
  assert (Ha : forallb (fun c => byte_val c <? utf8.RuneSelf) w = true).
  { apply forallb_forall. intros c Hc. rewrite Forall_forall in Hw.
    apply list_elem_of_In, Hw in Hc. destruct Hc as [Hc _]. lia. }
  rewrite (runes_ascii w Ha). apply Forall_forall. intros re Hre.
  apply list_elem_of_In, in_map_iff in Hre. destruct Hre as (c & <- & Hc).
  rewrite Forall_forall in Hw. apply list_elem_of_In, Hw in Hc.
  destruct Hc as [Hc1 Hc2]. cbn [fst]. intros Hin.
  apply IsSpace_white_space in Hin.
  rewrite (asciiSpace_IsSpace c Hc1) in Hin. congruence.
Qed.

Lemma is_space_blank (sep : list byte) : Forall is_space sep -> is_blank sep.
Proof.
  intros Hs. exists (map byte_val sep). split.
  - apply Forall_forall. intros r Hr.
    apply list_elem_of_In, in_map_iff in Hr. destruct Hr as (c & <- & Hc).
    rewrite Forall_forall in Hs. apply list_elem_of_In, Hs in Hc.
    apply IsSpace_white_space. rewrite asciiSpace_IsSpace; [exact Hc|].
    apply is_space_ascii in Hc. unfold utf8.RuneSelf in Hc. lia.
  - induction Hs as [|c sep Hc _ IH]; [reflexivity|].
    cbn [map flat_map]. rewrite <- IH.
    revert Hc. unfold is_space. destruct c; try discriminate; reflexivity.
Qed.

Lemma decoded_white_space (s : list byte) (r : Z) (n : nat) :
  decoded s r n -> In r white_space -> take n s = utf8.encode_rune r.
Proof.
  intros Hd Hr. destruct Hd as [c rest -> Hc | c rest -> Hc | r n Hn Hl Hr128 Hv He].
  - cbn [take]. rewrite take_0. unfold utf8.encode_rune. cbv zeta.
    pose proof (byte_val_range c) as Rc.
    unfold u32. rewrite (Z.mod_small (byte_val c)) by lia.
    unfold utf8.rune1Max. destruct (Z.leb_spec (byte_val c) 127) as [_|?]; [|lia].
    rewrite byte_of_val. reflexivity.
  - exfalso. unfold white_space, utf8.RuneError in Hr. cbn [In] in Hr.
    repeat (destruct Hr as [Hr | Hr]; [discriminate Hr|]). exact Hr.
  - symmetry. exact He.
Qed.

(** Every text is made of words and runs of white space. *)
Lemma spaced_any (src : list byte) :
  exists lead l last,
    src = spaced lead l last
    /\ is_blank lead
    /\ Forall (fun '(w, sep) => is_word w /\ sep <> [] /\ is_blank sep) l
    /\ (last = [] \/ is_word last).
Proof.
  induction src as [src IH] using list_length_ind.
  destruct src as [|c src'].
  { exists [], [], []. repeat split; [exists []; split; [constructor | reflexivity]
                                   | constructor | left; reflexivity]. }
  pose proof (DecodeRune_decoded (c :: src') ltac:(discriminate)) as Hd.
  pose proof (runes_step (c :: src') ltac:(discriminate)) as Hstep.
  destruct (utf8.DecodeRune (c :: src')) as [r n] eqn:Edec. cbn [fst snd] in *.
  pose proof (decoded_size _ _ _ Hd) as Hn.
  set (enc := take n (c :: src')) in *.
  set (rest := drop n (c :: src')) in *.
  assert (Esrc : c :: src' = enc ++ rest) by (symmetry; apply take_drop).
  assert (Henc : enc <> []).
  { intros E. apply (f_equal length) in E. unfold enc in E.
    rewrite length_take in E. simpl in *. lia. }
  destruct (IH rest) as (lead & l & last & Er & Hlead & Hl & Hlast).
  { unfold rest. rewrite length_drop. simpl in *. lia. }
  rewrite Esrc in Edec, Hstep |- *. clear Esrc.
  assert (Hone : forall tail, starts tail ->
                   forall w, rest = w ++ tail ->
                     utf8.runes (enc ++ w) = (r, enc) :: utf8.runes w).
  { intros tail Ht w Ew.
    assert (Ed : utf8.DecodeRune (enc ++ w) = (r, n)).
    { rewrite <- (DecodeRune_app (enc ++ w) tail); [|destruct enc; [congruence | discriminate] | exact Ht].
      rewrite <- app_assoc, <- Ew. exact Edec. }
    rewrite runes_step by (destruct enc; [congruence | discriminate]).
    rewrite Ed. cbn [fst snd].
    assert (En : n = length enc).
    { unfold enc. rewrite length_take. simpl in *. lia. }
    rewrite En, take_app_length, drop_app_length. reflexivity. }
  destruct (in_dec Z.eq_dec r white_space) as [Hw | Hw].
  - (* one more white space before the rest *)
    exists (enc ++ lead), l, last. split; [|split; [|split; assumption]].
    + rewrite Er. unfold spaced. rewrite <- app_assoc. reflexivity.
    + destruct Hlead as (rs & Hrs & ->). exists (r :: rs). split; [constructor; assumption|].
      cbn [flat_map]. f_equal. apply (decoded_white_space _ _ _ Hd Hw).
  - destruct lead as [|b lead'].
    + destruct l as [|[w sep] l'].
      * (* the last word grows, or begins *)
        exists [], [], (enc ++ last). split; [|split; [exact Hlead | split; [constructor|]]].
        { rewrite Er. unfold spaced. reflexivity. }
        right. split; [destruct enc; [congruence | discriminate]|].
        unfold spaced in Er. cbn [flat_map app] in Er.
        rewrite (Hone [] I last) by (rewrite app_nil_r; exact Er).
        constructor; [exact Hw|].
        destruct Hlast as [-> | [_ Hlast]]; [constructor | exact Hlast].
      * (* the first word grows *)
        apply Forall_cons in Hl. destruct Hl as [(Hword & Hsne & Hsep) Hl].
        exists [], ((enc ++ w, sep) :: l'), last.
        split; [|split; [exact Hlead | split; [|exact Hlast]]].
        { rewrite Er. unfold spaced. cbn [flat_map app]. rewrite <- !app_assoc. reflexivity. }
        constructor; [|exact Hl]. split; [|split; assumption].
        split; [destruct enc; [congruence | discriminate]|].
        unfold spaced in Er. cbn [flat_map app] in Er. rewrite <- !app_assoc in Er.
        rewrite (Hone (sep ++ flat_map (fun '(w, sep) => w ++ sep) l' ++ last)
                   (blank_starts sep _ Hsep Hsne) w Er).
        constructor; [exact Hw | apply Hword].
    + (* a word of one character before the white space *)
      exists [], ((enc, b :: lead') :: l), last.
      split; [|split; [exists []; split; [constructor | reflexivity] | split; [|exact Hlast]]].
      { rewrite Er. unfold spaced. cbn [flat_map app]. rewrite <- !app_assoc. reflexivity. }
      constructor; [|exact Hl]. split; [|split; [discriminate | exact Hlead]].
      split; [exact Henc|].
      unfold spaced in Er.
      pose proof (Hone ((b :: lead') ++ flat_map (fun '(w, sep) => w ++ sep) l ++ last)
                    (blank_starts (b :: lead') _ Hlead ltac:(discriminate)) [] Er) as H1.
      rewrite app_nil_r in H1. rewrite H1. constructor; [exact Hw | constructor].
Qed.

(** ** net/url: escaping and unescaping *)

Lemma url_escape_cons (c : byte) (s : list byte) (mode : url.encoding) :
  url.escape (c :: s) mode = url_escape_byte mode c ++ url.escape s mode.
Proof.
  unfold url_escape_byte, url.escape. cbn [flat_map]. rewrite app_nil_r. reflexivity.
Qed.

(** An escaped byte is well formed, and is read back as the byte. *)
Lemma url_escape_byte_spec (mode : url.encoding) (c : byte) (rest : list byte) :
  url.check (url_escape_byte mode c ++ rest) = url.check rest
  /\ url.decode (url_escape_byte mode c ++ rest) mode = c :: url.decode rest mode.
Proof.
  destruct mode; destruct c; split; reflexivity.
Qed.

Lemma url_unescape_escape (mode : url.encoding) (s : list byte) :
  url.unescape (url.escape s mode) mode = (s, None).
Proof.
  unfold url.unescape.
  assert (H : url.check (url.escape s mode) = None
              /\ url.decode (url.escape s mode) mode = s).
  { induction s as [|c s [IHc IHd]]; [split; reflexivity|].
    rewrite url_escape_cons.
    destruct (url_escape_byte_spec mode c (url.escape s mode)) as [-> ->].
    rewrite IHc, IHd. split; reflexivity. }
  destruct H as [-> ->]. reflexivity.
Qed.

Lemma url_escape_safe (mode : url.encoding) (s : list byte) :
  forallb (url_safe mode) (url.escape s mode) = true.
Proof.
  induction s as [|c s IH]; [reflexivity|].
  rewrite url_escape_cons, forallb_app, IH, andb_true_r.
  destruct mode; destruct c; reflexivity.
Qed.

(** A text of safe bytes with no percent sign (and no plus sign, for a
    query component) is not changed by the escaping. *)
Lemma url_escape_plain (mode : url.encoding) (s : list byte) :
  forallb (fun c => negb (url.shouldEscape c mode)) s = true ->
  url.escape s mode = s.
Proof.
  induction s as [|c s IH]; [reflexivity|]. cbn [forallb]. intros H.
  apply andb_true_iff in H. destruct H as [Hc Hs].
  rewrite url_escape_cons, (IH Hs). clear IH Hs.
  destruct mode; destruct c; try discriminate Hc; reflexivity.
Qed.

Lemma url_check_app (pre t : list byte) :
  url.check pre = None -> url.check (pre ++ t) = url.check t.
Proof.
  induction pre as [pre IH] using list_length_ind. intros Hpre.
  destruct pre as [|c pre]; [reflexivity|].
  cbn [app url.check] in *.
  destruct (byte_eqb c "%"%byte).
  - destruct pre as [|h1 [|h2 pre]]; try discriminate Hpre.
    cbn [app]. destruct (url.ishex h1 && url.ishex h2); [|discriminate Hpre].
    apply IH; [cbn [length]; lia | exact Hpre].
  - apply IH; [cbn [length]; lia | exact Hpre].
Qed.

(** A percent sign that two hexadecimal digits do not follow, after a
    well-formed text, is the error returned, with at most two bytes after
    it. *)
Lemma url_check_malformed (pre rest : list byte) :
  url.check pre = None ->
  match rest with
  | h1 :: h2 :: _ => url.ishex h1 && url.ishex h2 = false
  | _ => True
  end ->
  url.check (pre ++ "%"%byte :: rest)
  = Some (url_EscapeError (take 3 ("%"%byte :: rest))).
Proof.
  intros Hpre Hrest. rewrite (url_check_app pre _ Hpre).
  cbn [url.check]. change (byte_eqb "%" "%") with true. cbv iota.
  destruct rest as [|h1 [|h2 rest]]; try reflexivity.
  rewrite Hrest. reflexivity.
Qed.

(** ** encoding/hex: what the decoder accepts *)

Lemma hex_digit_spec (p : byte) :
  hex_digit p = true ->
  (15 <? hex.reverseHexTable p) = false
  /\ 0 <= hex.reverseHexTable p <= 15
  /\ index_tbl hex.hextable (hex.reverseHexTable p) = hex_lower p.
Proof.
  destruct p; try discriminate; intros _; (split; [reflexivity|]);
    (split; [split; discriminate | reflexivity]).
Qed.

Lemma hex_digit_invalid (p : byte) :
  hex_digit p = false -> (15 <? hex.reverseHexTable p) = true.
Proof. unfold hex_digit. intros H. lia. Qed.

Lemma hex_pack_nibbles (a b : Z) :
  0 <= a <= 15 -> 0 <= b <= 15 ->
  byte_val (byte_of (u8 (a .<< 4) .| b)) .>> 4 = a
  /\ byte_val (byte_of (u8 (a .<< 4) .| b)) .& 15 = b.
Proof.
  intros Ha Hb. unfold u8. rewrite Z.shiftl_mul_pow2 by lia.
  change (2 ^ 4) with 16. change (2 ^ 8) with 256.
  rewrite (Z.mod_small (a * 16)) by lia.
  rewrite (lor_add 4) by (change (2 ^ 4) with 16; try lia; apply Z_mod_mult).
  rewrite byte_val_of. rewrite (Z.mod_small (a * 16 + b)) by lia.
  rewrite Z.shiftr_div_pow2 by lia. rewrite (land_ones_lit _ 4 15) by (lia || reflexivity).
  change (2 ^ 4) with 16. split; Z.div_mod_to_equations; lia.
Qed.

(** The decoder stores at most one byte for two of the input. *)
Lemma hex_decode_bytes_length (src : list byte) :
  (2 * length (fst (hex.decode_bytes src)) <= length src)%nat.
Proof.
  induction src as [src IH] using list_length_ind.
  destruct src as [|p [|q src]].
  - cbn. lia.
  - cbn [hex.decode_bytes]. destruct (15 <? hex.reverseHexTable p); cbn; lia.
  - cbn [hex.decode_bytes]. cbv zeta.
    destruct (15 <? hex.reverseHexTable p); [cbn; lia|].
    destruct (15 <? hex.reverseHexTable q); [cbn; lia|].
    specialize (IH src ltac:(cbn [length]; lia)).
    destruct (hex.decode_bytes src) as [out err]. cbn [fst length] in *. lia.
Qed.

(** [hexDec] never runs out of its buffer: it returns what the loop of
    [hex.Decode] stored, and its error. *)
Lemma hexDec_decode_bytes (src : list byte) :
  hexDec src = Ret (fst (hex.decode_bytes src)) (snd (hex.decode_bytes src)).
Proof.
  unfold hexDec, hex.Decode, hex.DecodedLen.
  pose proof (hex_decode_bytes_length src) as Hlen.
  destruct (hex.decode_bytes src) as [out err]. cbn [fst snd] in *.
  destruct (fill_make out (length src / 2)) as (dst & Hf & Ht & _).
  { apply Nat.div_le_lower_bound; lia. }
  rewrite Hf. cbn. rewrite Ht. reflexivity.
Qed.

Lemma hex_decode_valid (src : list byte) :
  forallb hex_digit src = true -> Nat.even (length src) = true ->
  exists out,
    hex.decode_bytes src = (out, None)
    /\ (2 * length out = length src)%nat
    /\ hex.encode_bytes out = map hex_lower src.
Proof.
  induction src as [src IH] using list_length_ind. intros Hd He.
  destruct src as [|p [|q src]].
  - exists []. repeat split.
  - discriminate He.
  - cbn [forallb] in Hd. apply andb_true_iff in Hd. destruct Hd as [Hp Hd].
    apply andb_true_iff in Hd. destruct Hd as [Hq Hd].
    destruct (IH src ltac:(cbn [length]; lia) Hd He) as (out & E & Hl & Henc).
    destruct (hex_digit_spec p Hp) as (Hp1 & Hp2 & Hp3).
    destruct (hex_digit_spec q Hq) as (Hq1 & Hq2 & Hq3).
    cbn [hex.decode_bytes]. cbv zeta. rewrite Hp1, Hq1, E.
    eexists. split; [reflexivity|]. split; [cbn [length]; lia|].
    cbn [hex.encode_bytes map].
    destruct (hex_pack_nibbles _ _ Hp2 Hq2) as [-> ->].
    rewrite Hp3, Hq3, Henc. reflexivity.
Qed.

Lemma hex_decode_odd (src : list byte) :
  forallb hex_digit src = true -> Nat.even (length src) = false ->
  snd (hex.decode_bytes src) = Some hex_ErrLength.
Proof.
  induction src as [src IH] using list_length_ind. intros Hd He.
  destruct src as [|p [|q src]].
  - discriminate He.
  - cbn [forallb] in Hd. apply andb_true_iff in Hd. destruct Hd as [Hp _].
    destruct (hex_digit_spec p Hp) as (Hp1 & _).
    cbn [hex.decode_bytes]. rewrite Hp1. reflexivity.
  - cbn [forallb] in Hd. apply andb_true_iff in Hd. destruct Hd as [Hp Hd].
    apply andb_true_iff in Hd. destruct Hd as [Hq Hd].
    destruct (hex_digit_spec p Hp) as (Hp1 & _).
    destruct (hex_digit_spec q Hq) as (Hq1 & _).
    cbn [hex.decode_bytes]. cbv zeta. rewrite Hp1, Hq1.
    specialize (IH src ltac:(cbn [length]; lia) Hd He).
    destruct (hex.decode_bytes src) as [out err]. cbn [snd] in *. exact IH.
Qed.

Lemma hex_decode_invalid (pre : list byte) (c : byte) (post : list byte) :
  forallb hex_digit pre = true -> hex_digit c = false ->
  snd (hex.decode_bytes (pre ++ c :: post)) = Some (hex_InvalidByteError c).
Proof.
  induction pre as [pre IH] using list_length_ind. intros Hd Hc.
  apply hex_digit_invalid in Hc.
  destruct pre as [|p [|q pre]].
  - cbn [app]. destruct post as [|q post]; cbn [hex.decode_bytes]; cbv zeta;
      rewrite Hc; reflexivity.
  - cbn [forallb] in Hd. apply andb_true_iff in Hd. destruct Hd as [Hp _].
    destruct (hex_digit_spec p Hp) as (Hp1 & _).
    cbn [app hex.decode_bytes]. cbv zeta. rewrite Hp1, Hc. reflexivity.
  - cbn [forallb] in Hd. apply andb_true_iff in Hd. destruct Hd as [Hp Hd].
    apply andb_true_iff in Hd. destruct Hd as [Hq Hd].
    destruct (hex_digit_spec p Hp) as (Hp1 & _).
    destruct (hex_digit_spec q Hq) as (Hq1 & _).
    cbn [app hex.decode_bytes]. cbv zeta. rewrite Hp1, Hq1.
    assert (Hc' : hex_digit c = false) by (unfold hex_digit; lia).
    specialize (IH pre ltac:(cbn [length]; lia) Hd Hc').
    destruct (hex.decode_bytes (pre ++ c :: post)) as [out err]. cbn [snd] in *. exact IH.
Qed.

(** ** html: the escaped text *)

Lemma html_escape_cons (c : byte) (s : list byte) :
  html.EscapeString (c :: s) = html_escape_byte c ++ html.EscapeString s.
Proof.
  unfold html_escape_byte, html.EscapeString. cbn [flat_map]. rewrite app_nil_r.
  reflexivity.
Qed.

Lemma html_escape_byte_spec (c : byte) :
  if html_special c
  then In (html_escape_byte c) html_entities
  else html_escape_byte c = [c].
Proof. destruct c; cbn; tauto. Qed.

Lemma html_escape_no_markup (s : list byte) :
  forallb (fun c => negb (existsb (byte_eqb c) [x27; x3c; x3e; x22]))
    (html.EscapeString s) = true.
Proof.
  induction s as [|c s IH]; [reflexivity|].
  rewrite html_escape_cons, forallb_app, IH, andb_true_r.
  destruct c; reflexivity.
Qed.

Lemma html_escape_plain (s : list byte) :
  forallb (fun c => negb (html_special c)) s = true -> html.EscapeString s = s.
Proof.
  induction s as [|c s IH]; [reflexivity|]. cbn [forallb]. intros H.
  apply andb_true_iff in H. destruct H as [Hc Hs].
  rewrite html_escape_cons, (IH Hs).
  pose proof (html_escape_byte_spec c) as Hb.
  destruct (html_special c); [discriminate Hc|]. rewrite Hb. reflexivity.
Qed.

Lemma html_escape_length (s : list byte) :
  (length s <= length (html.EscapeString s))%nat.
Proof.
  induction s as [|c s IH]; [reflexivity|].
  rewrite html_escape_cons, length_app. cbn [length].
  assert (1 <= length (html_escape_byte c))%nat by (destruct c; cbn; lia). lia.
Qed.

Lemma html_escape_changed (s : list byte) :
  html.EscapeString s = s -> forallb (fun c => negb (html_special c)) s = true.
Proof.
  induction s as [|c s IH]; [reflexivity|]. rewrite html_escape_cons. intros E.
  pose proof (html_escape_byte_spec c) as Hb.
  pose proof (html_escape_length s) as Hl.
  destruct (html_special c) eqn:Hc.
  - exfalso. apply (f_equal (@length byte)) in E. rewrite length_app in E.
    cbn [length] in E.
    assert (4 <= length (html_escape_byte c))%nat.
    { cbn [html_entities In] in Hb. decompose [or] Hb; try contradiction;
        match goal with H : _ = html_escape_byte c |- _ => rewrite <- H end; cbn; lia. }
    lia.
  - rewrite Hb in E. cbn [app] in E. injection E as E.
    cbn [forallb]. rewrite Hc. cbn [negb andb]. apply IH, E.
Qed.

(** ** The wrapper [exec] *)

Lemma last_snoc_byte (b : list byte) (c : byte) : last (b ++ [c]) = Some c.
Proof. apply last_snoc. Qed.

(** With [stripNewline], one newline at the end of the input is
    dropped, and no more than one. *)
Lemma exec_strip_newline (f : modeFunc) (emitNewline : bool) (b : list byte) :
  exec f true emitNewline (b ++ [x0a]) = exec f false emitNewline b.
Proof.
  unfold exec. rewrite last_snoc_byte. change (byte_eqb x0a x0a) with true. cbv iota.
  rewrite length_app. cbn [length]. replace (length b + 1 - 1)%nat with (length b) by lia.
  rewrite take_app_length. reflexivity.
Qed.

(** An input that does not end with a newline is passed as it is. *)
Lemma exec_strip_nothing (f : modeFunc) (emitNewline : bool) (b : list byte) :
  last b <> Some x0a ->
  exec f true emitNewline b = exec f false emitNewline b.
Proof.
  intros Hl. unfold exec. destruct (last b) as [c|]; [|reflexivity].
  destruct (byte_eqb c x0a) eqn:E; [|reflexivity].
  apply byte_eqb_eq in E. subst c. contradiction.
Qed.

(** Encoding a line and decoding what was written gives the line
    again, when the decoder undoes the encoder. *)
Lemma exec_pipeline (enc dec : modeFunc) (x : list byte) :
  round_trips enc dec x ->
  exists mid,
    exec enc true true (x ++ [x0a]) = Ret mid None
    /\ exec dec true true mid = Ret (x ++ [x0a]) None.
Proof.
  intros (y & He & Hd). exists (y ++ [x0a]).
  rewrite !exec_strip_newline. unfold exec. rewrite He, Hd. split; reflexivity.
Qed.

(** ** The decoders stay inside their buffers *)

Lemma base64_skip_newlines_length (rest : list byte) :
  forall si, (length (fst (base64.skip_newlines rest si)) <= length rest)%nat.
Proof.
  induction rest as [|c rest IH]; intros si; cbn [base64.skip_newlines].
  - reflexivity.
  - destruct (is_newline c); [|reflexivity].
    specialize (IH (si + 1)). cbn [length]. lia.
Qed.

(** A quantum that gives bytes has read four bytes of the input or
    more, when the encoding pads. *)
Lemma base64_scan_loop_consumes (enc : base64.Encoding) (srclen : Z) (rest : list byte) :
  is_Some (base64.padChar enc) ->
  forall si j dbuf, (j <= 3)%nat ->
    match base64.scan_loop enc srclen rest si j dbuf with
    | (base64.Convert _ d _ _, rest') =>
        (length rest' + (4 - j) <= length rest)%nat /\ (d <= 4)%nat
    | (base64.Return _ _, rest') => (length rest' <= length rest)%nat
    end.
Proof.
  intros Hpad. induction rest as [|inb rest IH]; intros si j dbuf Hj.
  - cbn [base64.scan_loop]. destruct (j =? 0)%nat; [reflexivity|].
    rewrite (bool_decide_eq_true_2 _ Hpad), orb_true_r. reflexivity.
  - cbn [base64.scan_loop]. cbv zeta.
    destruct (negb (base64.decodeMap enc inb =? 255)).
    + destruct (Nat.eqb_spec (S j) 4) as [E4|N4].
      * cbn [length]. lia.
      * specialize (IH (si + 1) (S j) (<[j:=base64.decodeMap enc inb]> dbuf) ltac:(lia)).
        destruct (base64.scan_loop _ _ _ _ _ _) as [[? ?|? d ? ?] r];
          cbn [length]; lia.
    + destruct (is_newline inb).
      * specialize (IH (si + 1) j dbuf Hj).
        destruct (base64.scan_loop _ _ _ _ _ _) as [[? ?|? d ? ?] r];
          cbn [length]; lia.
      * destruct (negb (base64.is_pad enc inb)); [cbn [length]; lia|].
        destruct j as [|[|[|j]]]; try (cbn [length]; lia).
        -- pose proof (base64_skip_newlines_length rest (si + 1)) as H2.
           destruct (base64.skip_newlines rest (si + 1)) as [rest2 si2].
           cbn [fst] in H2. destruct rest2 as [|c rest3]; [cbn [length] in *; lia|].
           destruct (negb (base64.is_pad enc c)); [cbn [length] in *; lia|].
           pose proof (base64_skip_newlines_length rest3 (si2 + 1)) as H4.
           destruct (base64.skip_newlines rest3 (si2 + 1)) as [rest4 si4].
           cbn [fst length] in *. lia.
        -- pose proof (base64_skip_newlines_length rest (si + 1)) as H4.
           destruct (base64.skip_newlines rest (si + 1)) as [rest4 si4].
           cbn [fst length] in *. lia.
Qed.

Lemma base64_convert_length (enc : base64.Encoding) (si : Z) (dlen : nat)
    (dbuf : list Z) (err : option error) :
  (length (base64.convert enc si dlen dbuf err).1.2 <= 3)%nat.
Proof.
  unfold base64.convert. cbv zeta.
  destruct dlen as [|[|[|[|[|dlen]]]]]; cbn [fst snd length]; try lia.
  - destruct (_ && _); cbn [fst snd length]; lia.
  - destruct (_ && _); cbn [fst snd length]; lia.
Qed.

Lemma base64_decode_loop_length (enc : base64.Encoding) (srclen : Z) :
  is_Some (base64.padChar enc) ->
  forall fuel rest si,
    (length (fst (base64.decode_loop enc fuel srclen rest si)) <= length rest / 4 * 3)%nat.
Proof.
  intros Hpad. induction fuel as [|fuel IH]; intros rest si; [cbn; lia|].
  cbn [base64.decode_loop]. destruct rest as [|c rest]; [cbn; lia|].
  unfold base64.decodeQuantum.
  pose proof (base64_scan_loop_consumes enc srclen (c :: rest) Hpad si 0 [0; 0; 0; 0]
                ltac:(lia)) as Hscan.
  destruct (base64.scan_loop enc srclen (c :: rest) si 0 [0; 0; 0; 0])
    as [[nsi err|nsi d dbuf err] rest'].
  - destruct err as [e|]; [cbn; lia|].
    specialize (IH rest' nsi).
    destruct (base64.decode_loop enc fuel srclen rest' nsi) as [out' err'].
    cbn [fst app] in *.
    assert (length rest' / 4 <= length (c :: rest) / 4)%nat
      by (apply Nat.Div0.div_le_mono; lia).
    lia.
  - pose proof (base64_convert_length enc nsi d dbuf err) as Hc.
    destruct (base64.convert enc nsi d dbuf err) as [[nsi' out] err'].
    cbn [fst snd] in Hc. destruct Hscan as [Hcons _].
    assert (Hq : (length rest' / 4 + 1 <= length (c :: rest) / 4)%nat).
    { replace (length rest' / 4 + 1)%nat with ((length rest' + 1 * 4) / 4)%nat
        by (rewrite Nat.div_add by lia; reflexivity).
      apply Nat.Div0.div_le_mono. lia. }
    destruct err' as [e|]; [cbn [fst]; lia|].
    specialize (IH rest' nsi').
    destruct (base64.decode_loop enc fuel srclen rest' nsi') as [out' err''].
    cbn [fst] in *. rewrite length_app. lia.
Qed.

(** The two base64 decoders return what the loop of [Decode] stored,
    and its error, for every input. *)
Lemma base64_Decode_total (enc : base64.Encoding) (src : list byte) :
  is_Some (base64.padChar enc) ->
  let r := base64.decode_loop enc (length src) (Z.of_nat (length src)) src 0 in
  exists dst,
    base64.Decode enc (make (base64.DecodedLen enc (length src))) src
    = Some (dst, length (fst r), snd r)
    /\ take (length (fst r)) dst = fst r.
Proof.
  intros Hpad. cbv zeta. unfold base64.Decode, base64.DecodedLen.
  pose proof (base64_decode_loop_length enc (Z.of_nat (length src)) Hpad
                (length src) src 0) as Hlen.
  destruct (base64.decode_loop _ _ _ _ _) as [out err]. cbn [fst snd] in *.
  destruct Hpad as [p Hp]. rewrite Hp.
  destruct (fill_make out (length src / 4 * 3) Hlen) as (dst & Hf & Ht & _).
  exists dst. rewrite Hf. split; [reflexivity | exact Ht].
Qed.

Lemma base32_pack_length (dlen : nat) (dbuf : list Z) :
  (length (base32.pack dlen dbuf) <= 5)%nat
  /\ ((dlen <= 7)%nat -> (length (base32.pack dlen dbuf) <= 4)%nat).
Proof.
  unfold base32.pack. cbv zeta.
  destruct dlen as [|[|[|[|[|[|[|[|[|dlen]]]]]]]]]; cbn [length]; lia.
Qed.

(** A quantum has read eight bytes of the input when it is full, and
    is one of eight bytes or more when the padding ends it. *)
Lemma base32_scan_loop_consumes (enc : base32.Encoding) (olen : Z) (src : list byte) :
  base32.padded enc = true ->
  forall j dbuf, (j <= 7)%nat ->
    match base32.scan_loop enc olen src j dbuf with
    | (base32.Quantum d _ true, _) => (8 - j <= length src)%nat /\ (d <= 7)%nat
    | (base32.Quantum d _ false, src') => (length src' + (8 - j) <= length src)%nat
    | (base32.Fail _, _) => True
    end.
Proof.
  intros Hpad. induction src as [|inb src IH]; intros j dbuf Hj.
  - cbn [base32.scan_loop]. rewrite Hpad. exact I.
  - cbn [base32.scan_loop]. cbv zeta.
    destruct (base32.is_pad enc inb && (2 <=? j)%nat && (Z.of_nat (length src) <? 8)) eqn:Ep.
    + destruct (Z.ltb_spec (Z.of_nat (length src) + Z.of_nat j) (8 - 1)); [exact I|].
      destruct (base32.check_padding _ _ _ _ _ _); [exact I|].
      destruct ((j =? 1)%nat || (j =? 3)%nat || (j =? 6)%nat); [exact I|].
      cbn [length]. lia.
    + destruct (base32.decodeMap enc inb =? 255); [exact I|].
      destruct (Nat.eqb_spec (S j) 8) as [E8|N8].
      * cbn [length]. lia.
      * specialize (IH (S j) (<[j:=base32.decodeMap enc inb]> dbuf) ltac:(lia)).
        destruct (base32.scan_loop _ _ _ _ _) as [[?|d ? [|]] r]; cbn [length]; lia.
Qed.

Lemma base32_decode_length (enc : base32.Encoding) (olen : Z) :
  base32.padded enc = true ->
  forall fuel src,
    (length (fst (base32.decode enc fuel olen src)) <= length src / 8 * 5)%nat.
Proof.
  intros Hpad. induction fuel as [|fuel IH]; intros src; [cbn; lia|].
  cbn [base32.decode]. destruct src as [|c src]; [cbn; lia|].
  pose proof (base32_scan_loop_consumes enc olen (c :: src) Hpad 0 [0; 0; 0; 0; 0; 0; 0; 0]
                ltac:(lia)) as Hscan.
  destruct (base32.scan_loop enc olen (c :: src) 0 [0; 0; 0; 0; 0; 0; 0; 0])
    as [[err|d dbuf [|]] src'].
  - cbn; lia.
  - destruct Hscan as [Hlen Hd]. cbn [fst].
    destruct (base32_pack_length d dbuf) as [_ H4]. specialize (H4 Hd).
    assert (1 <= length (c :: src) / 8)%nat by (apply Nat.div_le_lower_bound; lia).
    lia.
  - destruct (base32_pack_length d dbuf) as [H5 _].
    assert (Hq : (length src' / 8 + 1 <= length (c :: src) / 8)%nat).
    { replace (length src' / 8 + 1)%nat with ((length src' + 1 * 8) / 8)%nat
        by (rewrite Nat.div_add by lia; reflexivity).
      apply Nat.Div0.div_le_mono. lia. }
    specialize (IH src').
    destruct (base32.decode enc fuel olen src') as [out' err].
    cbn [fst] in *. rewrite length_app. lia.
Qed.

Lemma base32_stripNewlines_length (src : list byte) :
  (length (base32.stripNewlines src) <= length src)%nat.
Proof. unfold base32.stripNewlines. apply length_filter. Qed.

(** The base32 decoders return what [decode] stored, and its error,
    for every input. *)
Lemma base32_Decode_total (enc : base32.Encoding) (src : list byte) (n : nat) :
  base32.padded enc = true -> (length src <= n)%nat ->
  let buf := base32.stripNewlines src in
  let r := base32.decode enc (length buf) (Z.of_nat (length buf)) buf in
  exists dst,
    base32.Decode enc (make (base32.DecodedLen enc n)) src
    = Some (dst, length (fst r), snd r)
    /\ take (length (fst r)) dst = fst r.
Proof.
  intros Hpad Hn. cbv zeta. unfold base32.Decode, base32.DecodedLen.
  set (buf := base32.stripNewlines src).
  pose proof (base32_decode_length enc (Z.of_nat (length buf)) Hpad (length buf) buf) as Hlen.
  pose proof (base32_stripNewlines_length src) as Hs. fold buf in Hs.
  destruct (base32.decode _ _ _ _) as [out err]. cbn [fst snd] in *.
  unfold base32.padded in Hpad. destruct (base32.padChar enc); [|discriminate].
  destruct (fill_make out (n / 8 * 5)) as (dst & Hf & Ht & _).
  { assert (length buf / 8 <= n / 8)%nat by (apply Nat.Div0.div_le_mono; lia). lia. }
  exists dst. rewrite Hf. split; [reflexivity | exact Ht].
Qed.

(** ** strconv.Unquote on a plain text *)

Lemma Index_first_byte (o : byte) (s post : list byte) :
  strconv.contains s o = false ->
  bytes.Index (s ++ o :: post) [o] = Some (length s).
Proof.
  induction s as [|c s IH]; intros Hc.
  - cbn [app bytes.Index bytes.HasPrefix]. rewrite byte_eqb_refl. reflexivity.
  - unfold strconv.contains in Hc. cbn [existsb] in Hc.
    apply orb_false_iff in Hc. destruct Hc as [Hco Hs].
    cbn [app bytes.Index bytes.HasPrefix]. rewrite Hco. cbn [andb].
    rewrite (IH Hs). reflexivity.
Qed.

Lemma contains_app (s t : list byte) (c : byte) :
  strconv.contains (s ++ t) c = strconv.contains s c || strconv.contains t c.
Proof. unfold strconv.contains. apply existsb_app. Qed.

(** [Unquote] of a text between double quotes that has no quote, no
    backslash and no newline and is valid UTF-8: the text. *)
Lemma Unquote_plain (s : list byte) :
  strconv.contains s x22 = false -> strconv.contains s x5c = false ->
  strconv.contains s x0a = false -> utf8.ValidString s = true ->
  strconv.Unquote ([x22] ++ s ++ [x22]) = (s, None).
Proof.
  intros Hq Hb Hn Hv. unfold strconv.Unquote, strconv.unquote.
  replace (length ([x22] ++ s ++ [x22]) <? 2)%nat with false
    by (symmetry; apply Nat.ltb_ge; rewrite !length_app; cbn [length]; lia).
  cbn [app]. rewrite (Index_first_byte x22 s [] Hq).
  change (byte_eqb x22 x60) with false. change (byte_eqb x22 x22) with true.
  cbn [orb]. cbv zeta.
  assert (Ewhole : take (length s + 2) (x22 :: s ++ [x22]) = x22 :: s ++ [x22]).
  { apply take_ge. cbn [length]. rewrite length_app. cbn [length]. lia. }
  rewrite Ewhole.
  change (x22 :: s ++ [x22]) with ([x22] ++ s ++ [x22]).
  rewrite !contains_app, Hb, Hn. cbn [negb andb orb strconv.contains existsb].
  change (byte_eqb x22 x5c) with false. change (byte_eqb x22 x0a) with false.
  cbn [orb negb andb].
  rewrite take_app_length, Hv.
  rewrite drop_ge by (rewrite !length_app; cbn [length]; lia). reflexivity.
Qed.

(** ** The registry *)

Lemma modes_lookup_Some `{Externs} (name : string) (m : mode) :
  modes !! name = Some m ->
  In name mode_names
  /\ is_Some (encoder m)
  /\ (decoder m = None <-> name = "codepoint"%string \/ name = "hex-extended"%string).
Proof.
  unfold modes. rewrite !list_to_map_cons, list_to_map_nil. intros Hl.
  repeat (apply lookup_insert_Some in Hl;
          destruct Hl as [[<- <-] | [_ Hl]];
          [split; [cbn; tauto|];
           split; [eexists; reflexivity|];
           cbn [decoder];
           split; [try discriminate; intros _; tauto
                  | intros [E|E]; first [discriminate E | reflexivity]]
          |]).
  rewrite lookup_empty in Hl. discriminate.
Qed.

Lemma modes_lookup_None `{Externs} (name : string) :
  modes !! name = None -> ~ In name mode_names.
Proof.
  unfold modes. rewrite !list_to_map_cons, list_to_map_nil. intros Hl.
  repeat (apply lookup_insert_None in Hl; destruct Hl as [Hl ?]).
  cbn [In mode_names]. intros Hin. decompose [or] Hin; try congruence.
Qed.

(** ** Decimals too large for a float32 *)

Lemma floor_log2_ge (n0 den k : Z) :
  0 < n0 -> 0 < den -> 0 <= k -> den * 2 ^ k <= n0 -> k <= strconv.floor_log2 n0 den.
Proof.
  intros Hn Hd Hk Hge.
  destruct (floor_log2_spec n0 den Hn Hd) as [H1 H2].
  set (e := strconv.floor_log2 n0 den) in *.
  destruct (Z_lt_ge_dec e k) as [Hlt|]; [exfalso | lia].
  assert (HP : 0 < 2 ^ k) by (apply Z.pow_pos_nonneg; lia).
  destruct (Z_lt_ge_dec e 0) as [Hneg|Hpos].
  - specialize (H2 Hneg). nia.
  - specialize (H1 ltac:(lia)).
    assert (2 ^ (e + 1) <= 2 ^ k) by (apply Z.pow_le_mono_r; lia). nia.
Qed.

Lemma round_float_overflow (num den : Z) :
  0 < num -> 0 < den -> float32_overflow * den <= num ->
  strconv.round_float strconv.float32info num den = (255 .<< 23, true).
Proof.
  intros Hnum Hden Hov. unfold strconv.round_float.
  cbn [strconv.mantbits strconv.bias strconv.expbits strconv.float32info].
  change (23 - (-127 + 1)) with 149.
  set (n0 := num * 2 ^ 149).
  assert (Hn0 : 0 < n0) by (unfold n0; lia).
  assert (Hthr : (2 ^ 25 - 1) * (den * 2 ^ 253) <= 2 * n0).
  { unfold n0, float32_overflow in *.
    change (2 ^ 128 - 2 ^ 103) with ((2 ^ 25 - 1) * 2 ^ 103) in Hov.
    change (2 ^ 253) with (2 ^ 103 * 2 ^ 150). change (2 ^ 149) with (2 ^ 149).
    replace (2 * (num * 2 ^ 149)) with (num * 2 ^ 150) by (change (2 ^ 150) with (2 * 2 ^ 149); ring).
    replace ((2 ^ 25 - 1) * (den * (2 ^ 103 * 2 ^ 150)))
      with ((2 ^ 25 - 1) * 2 ^ 103 * den * 2 ^ 150) by ring.
    apply Z.mul_le_mono_nonneg_r; lia. }
  destruct (floor_log2_spec n0 den Hn0 Hden) as [Hpos _].
  assert (He : 276 <= strconv.floor_log2 n0 den).
  { apply floor_log2_ge; lia. }
  set (e := strconv.floor_log2 n0 den) in *.
  specialize (Hpos ltac:(lia)).
  rewrite Z.max_l by lia.
  set (j0 := e - 23) in *.
  assert (HP : 0 < 2 ^ j0) by (apply Z.pow_pos_nonneg; lia).
  assert (HD : 0 < den * 2 ^ j0) by (apply Z.mul_pos_pos; assumption).
  assert (Ee : 2 ^ e = 8388608 * 2 ^ j0).
  { unfold j0. change 8388608 with (2 ^ 23). rewrite <- Z.pow_add_r by lia. f_equal. lia. }
  assert (Ee1 : 2 ^ (e + 1) = 16777216 * 2 ^ j0).
  { rewrite Z.pow_add_r, Ee by lia. change (2 ^ 1) with 2. ring. }
  rewrite Ee, Ee1 in Hpos.
  destruct (rne_sound n0 (den * 2 ^ j0) HD ltac:(lia)) as (Hq0 & Hup & Hlo).
  cbv zeta in Hq0, Hup, Hlo.
  set (q := strconv.rne n0 (den * 2 ^ j0)) in *.
  set (D := den * 2 ^ j0) in *.
  change (2 ^ (23 + 1)) with 16777216. change (2 ^ 23) with 8388608.
  change (2 ^ 8 - 1) with 255.
  assert (Hq24 : q <= 16777216) by nia.
  assert (Hq23 : 8388608 <= q) by nia.
  destruct (Z.eqb_spec q 16777216) as [Hc|Hnc].
  - change (8388608 <? 8388608) with false. cbv iota.
    replace (255 <=? j0 + 1 + 1) with true by lia. reflexivity.
  - replace (q <? 8388608) with false by lia.
    destruct (Z.eq_dec j0 253) as [E253|N253].
    + exfalso.
      assert (ED : D = den * 2 ^ 253) by (unfold D; rewrite E253; reflexivity).
      rewrite <- ED in Hthr. change (2 ^ 25 - 1) with 33554431 in Hthr.
      clear ED Ee Ee1 Hov He. clearbody D q n0.
      assert (Hq : q = 16777215) by nia. rewrite Hq in Hup.
      destruct Hup as [Hup | [Hev _]]; [lia | discriminate Hev].
    + replace (255 <=? j0 + 1) with true by lia. reflexivity.
Qed.

Lemma round_float_overflow_inv (num den b : Z) :
  0 < num -> 0 < den ->
  strconv.round_float strconv.float32info num den = (b, true) ->
  float32_overflow * den <= num /\ b = 255 .<< 23.
Proof.
  intros Hnum Hden. unfold strconv.round_float.
  cbn [strconv.mantbits strconv.bias strconv.expbits strconv.float32info].
  change (23 - (-127 + 1)) with 149.
  set (n0 := num * 2 ^ 149).
  assert (Hn0 : 0 < n0) by (unfold n0; lia).
  destruct (floor_log2_spec n0 den Hn0 Hden) as [Hpos _].
  set (e := strconv.floor_log2 n0 den) in *.
  set (j0 := Z.max (e - 23) 0).
  assert (Hj0 : 0 <= j0) by (unfold j0; lia).
  assert (HP : 0 < 2 ^ j0) by (apply Z.pow_pos_nonneg; lia).
  assert (HD : 0 < den * 2 ^ j0) by (apply Z.mul_pos_pos; assumption).
  destruct (rne_sound n0 (den * 2 ^ j0) HD ltac:(lia)) as (Hq0 & Hup & Hlo).
  cbv zeta in Hq0, Hup, Hlo.
  set (q := strconv.rne n0 (den * 2 ^ j0)) in *.
  change (2 ^ (23 + 1)) with 16777216. change (2 ^ 23) with 8388608.
  change (2 ^ 8 - 1) with 255.
  (* in units: [2 * n0 >= (2^25 - 1) * den * 2^253] *)
  assert (Hunits : (2 ^ 25 - 1) * (den * 2 ^ 253) <= 2 * n0 -> float32_overflow * den <= num).
  { intros H. unfold n0, float32_overflow in *.
    change (2 ^ 128 - 2 ^ 103) with ((2 ^ 25 - 1) * 2 ^ 103).
    change (2 ^ 253) with (2 ^ 103 * 2 ^ 150) in H.
    replace (2 * (num * 2 ^ 149)) with (num * 2 ^ 150) in H
      by (change (2 ^ 150) with (2 * 2 ^ 149); ring).
    replace ((2 ^ 25 - 1) * (den * (2 ^ 103 * 2 ^ 150)))
      with ((2 ^ 25 - 1) * 2 ^ 103 * den * 2 ^ 150) in H by ring.
    apply Z.mul_le_mono_pos_r in H; lia. }
  destruct (Z.eqb_spec q 16777216) as [Hc|Hnc].
  - change (8388608 <? 8388608) with false. cbv iota.
    destruct (Z.leb_spec 255 (j0 + 1 + 1)) as [Hov|]; [|discriminate].
    intros [= <-]. split; [|reflexivity]. apply Hunits.
    assert (Hle : 2 ^ 253 <= 2 ^ j0) by (apply Z.pow_le_mono_r; lia).
    rewrite Hc in Hlo.
    assert (H1 : (2 ^ 25 - 1) * (den * 2 ^ j0) <= 2 * n0)
      by (change (2 ^ 25 - 1) with (2 * 16777216 - 1); destruct Hlo as [?|[_ ?]]; lia).
    assert (H2 : den * 2 ^ 253 <= den * 2 ^ j0) by (apply Z.mul_le_mono_nonneg_l; lia).
    assert (H3 : (2 ^ 25 - 1) * (den * 2 ^ 253) <= (2 ^ 25 - 1) * (den * 2 ^ j0))
      by (apply Z.mul_le_mono_nonneg_l; [reflexivity || discriminate | exact H2]).
    eapply Z.le_trans; [exact H3 | exact H1].
  - destruct (q <? 8388608); [discriminate|].
    destruct (Z.leb_spec 255 (j0 + 1)) as [Hov|]; [|discriminate].
    intros [= <-]. split; [|reflexivity]. apply Hunits.
    assert (He : 277 <= e) by (unfold j0 in Hov; lia).
    destruct (Hpos ltac:(lia)) as [Hge _].
    assert (Hle : 2 ^ 277 <= 2 ^ e) by (apply Z.pow_le_mono_r; lia).
    assert (H2 : den * 2 ^ 277 <= den * 2 ^ e) by (apply Z.mul_le_mono_nonneg_l; lia).
    change (2 ^ 277) with (2 ^ 24 * 2 ^ 253) in H2.
    set (T := den * 2 ^ 253).
    replace (den * (2 ^ 24 * 2 ^ 253)) with (2 ^ 24 * T) in H2 by (unfold T; ring).
    assert (0 < T) by (unfold T; lia).
    change (2 ^ 25 - 1) with 33554431. change (2 ^ 24) with 16777216 in H2.
    clearbody T. lia.
Qed.

(** ** Inputs with no field *)

(** An input of white space only has no field. *)
Lemma Fields_blank (src : list byte) :
  Forall is_space src -> strings.Fields src = [].
Proof.
  intros Hs. pose proof (Fields_spaced src [] [] Hs (Forall_nil_2 _) (or_introl eq_refl)) as H.
  unfold spaced in H. cbn [flat_map app] in H. rewrite app_nil_r in H. exact H.
Qed.

(** ** main.go: what the decoders return *)

(** What the base64 decoders return: the bytes that the loop of
    [Decode] stored, at most three for four of the input, and its error. *)
Lemma base64_dec_total (enc : base64.Encoding) (src : list byte) :
  is_Some (base64.padChar enc) ->
  exists out err,
    match base64.Decode enc (make (base64.DecodedLen enc (length src))) src with
    | Some (dst, n, e) => Ret (take n dst) e
    | None => Panic
    end = Ret out err
    /\ (length out <= length src / 4 * 3)%nat.
Proof.
  intros Hpad. destruct (base64_Decode_total enc src Hpad) as (dst & E & Ht).
  cbv zeta in E, Ht. rewrite E, Ht. eexists _, _. split; [reflexivity|].
  apply base64_decode_loop_length, Hpad.
Qed.

(** What the base32 decoders return: the bytes that [decode] stored
    from the input without its newlines, at most five for eight of them,
    and its error. *)
Lemma base32_dec_total (enc : base32.Encoding) (src : list byte) :
  base32.padded enc = true ->
  let buf := base32.stripNewlines src in
  let r := base32.decode enc (length buf) (Z.of_nat (length buf)) buf in
  match base32.Decode enc (make (base32.DecodedLen enc (length src))) src with
  | Some (dst, n, e) => Ret (take n dst) e
  | None => Panic
  end = Ret (fst r) (snd r)
  /\ (length (fst r) <= length src / 8 * 5)%nat.
Proof.
  intros Hpad. cbv zeta.
  destruct (base32_Decode_total enc src (length src) Hpad (Nat.le_refl _)) as (dst & E & Ht).
  cbv zeta in E, Ht. rewrite E, Ht. split; [reflexivity|].
  pose proof (base32_decode_length enc (Z.of_nat (length (base32.stripNewlines src))) Hpad
                (length (base32.stripNewlines src)) (base32.stripNewlines src)) as H1.
  pose proof (base32_stripNewlines_length src) as H2.
  assert (length (base32.stripNewlines src) / 8 <= length src / 8)%nat
    by (apply Nat.Div0.div_le_mono; exact H2).
  lia.
Qed.

Lemma base32_stripNewlines_idem (src : list byte) :
  base32.stripNewlines (base32.stripNewlines src) = base32.stripNewlines src.
Proof.
  unfold base32.stripNewlines. induction src as [|c src IH]; [reflexivity|].
  rewrite filter_cons. destruct (decide (is_newline c = false)) as [Hc|Hc].
  - rewrite filter_cons. destruct (decide (is_newline c = false)); [|contradiction].
    f_equal. exact IH.
  - exact IH.
Qed.

(** The base32 decoders do not see the newlines of the input. *)
Lemma base32_dec_newlines (enc : base32.Encoding) (src : list byte) :
  base32.padded enc = true ->
  match base32.Decode enc (make (base32.DecodedLen enc (length src))) src with
  | Some (dst, n, e) => Ret (take n dst) e
  | None => Panic
  end
  = match base32.Decode enc
            (make (base32.DecodedLen enc (length (base32.stripNewlines src))))
            (base32.stripNewlines src) with
    | Some (dst, n, e) => Ret (take n dst) e
    | None => Panic
    end.
Proof.
  intros Hpad.
  destruct (base32_dec_total enc src Hpad) as [-> _].
  destruct (base32_dec_total enc (base32.stripNewlines src) Hpad) as [-> _].
  rewrite base32_stripNewlines_idem. reflexivity.
Qed.

(** [goDec] of a plain text. *)
Lemma goDec_plain (src : list byte) :
  src <> [] ->
  strconv.contains src x22 = false -> strconv.contains src x5c = false ->
  strconv.contains src x0a = false ->
  match src with c :: _ => negb (byte_eqb c x60) && negb (byte_eqb c x27) | [] => true end
  = true ->
  utf8.ValidString src = true ->
  goDec src = Ret src None.
Proof.
  intros Hne Hq Hb Hn Hfirst Hv. unfold goDec.
  destruct src as [|c src]; [contradiction|].
  assert (Hc : byte_eqb c x22 = false).
  { unfold strconv.contains in Hq. cbn [existsb] in Hq.
    apply orb_false_iff in Hq. apply Hq. }
  apply andb_true_iff in Hfirst. destruct Hfirst as [H1 H2].
  rewrite Hc, H1, H2. cbn [negb andb].
  rewrite (Unquote_plain (c :: src) Hq Hb Hn Hv). reflexivity.
Qed.

(** [ParseFloat] of a decimal literal fails with a range error when
    the value is [float32_overflow] or more, and only then. *)
Lemma ParseFloat32_range `{Externs} (w : list byte) (neg : bool) (mant exp10 : Z) :
  strconv.special strconv.float32info w = None ->
  strconv.hex_or_underscore w = false ->
  strconv.readFloat w = Some (neg, mant, exp10) ->
  0 < mant ->
  (decimal_ge mant exp10 float32_overflow ->
   strconv.ParseFloat32 w
   = (strconv.sign_bit strconv.float32info neg .| 255 .<< 23,
      Some (strconv_NumError "ParseFloat" w ErrRange)))
  /\ (is_error (snd (strconv.ParseFloat32 w)) = true ->
      decimal_ge mant exp10 float32_overflow).
Proof.
  intros Hs Hh Hr Hmant. unfold strconv.ParseFloat32. rewrite Hs, Hh, Hr.
  unfold strconv.decimal_to_bits, decimal_ge.
  replace (mant =? 0) with false by lia.
  destruct (Z.leb_spec 0 exp10) as [He|He].
  - pose proof (pow10_pos exp10 He) as HP.
    assert (Hnum : 0 < mant * strconv.pow10 exp10) by (apply Z.mul_pos_pos; assumption).
    split.
    + intros Hge. rewrite round_float_overflow; [reflexivity | exact Hnum | lia | lia].
    + destruct (strconv.round_float _ _ _) as [b [|]] eqn:E; [|discriminate].
      intros _. apply round_float_overflow_inv in E; [|exact Hnum | lia]. lia.
  - pose proof (pow10_pos (- exp10) ltac:(lia)) as HP.
    split.
    + intros Hge. rewrite round_float_overflow; [reflexivity | exact Hmant | exact HP | lia].
    + destruct (strconv.round_float _ _ _) as [b [|]] eqn:E; [|discriminate].
      intros _. apply round_float_overflow_inv in E; [|exact Hmant | exact HP]. lia.
Qed.

(** ** main.go: the run of main *)

Lemma base32CrockfordDec_base32CrockfordEnc `{Externs} (x : list byte) :
  round_trips base32CrockfordEnc base32CrockfordDec x.
Proof.
  exists (base32.encode_bytes crockfordEnc x).
  split; [apply base32CrockfordEnc_spec | apply base32CrockfordDec_encoded].
Qed.

Lemma hexDec_hexEnc_round_trips (x : list byte) : round_trips hexEnc hexDec x.
Proof.
  exists (hex.encode_bytes x). split; [apply hexEnc_spec | apply hexDec_hexEnc].
Qed.

Lemma rot13_round_trips (x : list byte) : round_trips rot13 rot13 x.
Proof.
  exists (map rot13_byte x). split; [apply rot13_map|].
  rewrite rot13_map, map_map. f_equal.
  rewrite <- (map_id x) at 2. apply map_ext. apply rot13_byte_involutive.
Qed.

Lemma urlPath_round_trips (x : list byte) : round_trips urlPathEnc urlPathDec x.
Proof.
  exists (url.PathEscape x). split; [reflexivity|].
  unfold urlPathDec, url.PathUnescape, url.PathEscape.
  rewrite url_unescape_escape. reflexivity.
Qed.

Lemma urlQuery_round_trips (x : list byte) : round_trips urlQueryEnc urlQueryDec x.
Proof.
  exists (url.QueryEscape x). split; [reflexivity|].
  unfold urlQueryDec, url.QueryUnescape, url.QueryEscape.
  rewrite url_unescape_escape. reflexivity.
Qed.

(** The entries of the registry under the names of [reversible_modes]. *)
Lemma reversible_modes_round_trip `{Externs} (name : string) :
  In name reversible_modes ->
  exists enc dec,
    modes_at name = {| decoder := Some dec; encoder := Some enc |}
    /\ forall x, round_trips enc dec x.
Proof.
  intros Hin. unfold reversible_modes in Hin. cbn [In] in Hin.
  repeat (destruct Hin as [<- | Hin]); [..|contradiction].
  - exists base32Enc, base32Dec. split; [reflexivity | apply base32Dec_base32Enc].
  - exists base32CrockfordEnc, base32CrockfordDec.
    split; [reflexivity | apply base32CrockfordDec_base32CrockfordEnc].
  - exists base32HexEnc, base32HexDec. split; [reflexivity | apply base32HexDec_base32HexEnc].
  - exists base64Enc, base64Dec. split; [reflexivity | apply base64Dec_base64Enc].
  - exists base64URLEnc, base64URLDec. split; [reflexivity | apply base64URLDec_base64URLEnc].
  - exists goEnc, goDec. split; [reflexivity | apply goDec_goEnc].
  - exists hexEnc, hexDec. split; [reflexivity | apply hexDec_hexEnc_round_trips].
  - exists rot13, rot13. split; [reflexivity | apply rot13_round_trips].
  - exists urlPathEnc, urlPathDec. split; [reflexivity | apply urlPath_round_trips].
  - exists urlQueryEnc, urlQueryDec. split; [reflexivity | apply urlQuery_round_trips].
Qed.

Lemma main_run_pipeline `{Externs} (iana iana' : string -> iana_result)
    (name : string) (x : list byte) :
  In name reversible_modes ->
  exists mid,
    main_run iana true true true [name] (x ++ [x0a]) = Done mid
    /\ main_run iana' false true true [name] mid = Done (x ++ [x0a]).
Proof.
  intros Hin.
  assert (Hne : String.eqb name "hex-extended" = false).
  { unfold reversible_modes in Hin. cbn [In] in Hin.
    repeat (destruct Hin as [<- | Hin]); [..|contradiction]; reflexivity. }
  destruct (reversible_modes_round_trip name Hin) as (enc & dec & Em & Hrt).
  destruct (exec_pipeline enc dec x (Hrt x)) as (mid & E1 & E2).
  exists mid. unfold main_run, flag_Arg0. rewrite Em. cbn [encoder decoder length Nat.eqb negb].
  rewrite Hne, E1, E2. split; reflexivity.
Qed.

Lemma main_run_usage_args `{Externs} (iana : string -> iana_result)
    (encode strip emit : bool) (args : list string) (stdin : list byte) :
  length args <> 1%nat ->
  main_run iana encode strip emit args stdin = Usage
  \/ (main_run iana encode strip emit args stdin = Crashed
      /\ iana (flag_Arg0 args) = iana_nil).
Proof.
  intros Hlen. unfold main_run.
  assert (Hn : negb (length args =? 1)%nat = true)
    by (apply negb_true_iff, Nat.eqb_neq, Hlen).
  rewrite Hn.
  destruct (if encode then _ else _) as [f|]; [left; reflexivity|].
  destruct (iana (flag_Arg0 args)); [left | right | left]; auto.
Qed.

Lemma main_run_unknown `{Externs} (iana : string -> iana_result)
    (encode strip emit : bool) (name : string) (stdin : list byte) :
  (if encode then ~ In name mode_names
   else ~ In name mode_names \/ name = "codepoint"%string \/ name = "hex-extended"%string) ->
  iana name = iana_err ->
  main_run iana encode strip emit [name] stdin = Usage.
Proof.
  intros Hname Hi. unfold main_run, flag_Arg0.
  assert (Hm : (if encode then encoder (modes_at name) else decoder (modes_at name)) = None).
  { unfold modes_at. destruct (modes !! name) as [m|] eqn:E.
    - apply modes_lookup_Some in E. destruct E as (Hin & _ & Hd).
      destruct encode; [contradiction|].
      destruct Hname as [Hn | Hn]; [contradiction|]. cbn. apply Hd, Hn.
    - destruct encode; reflexivity. }
  rewrite Hm, Hi. reflexivity.
Qed.

Lemma main_run_registry `{Externs} (iana iana' : string -> iana_result)
    (encode strip emit : bool) (name : string) (stdin : list byte) :
  In name mode_names ->
  encode = true \/ (name <> "codepoint"%string /\ name <> "hex-extended"%string) ->
  main_run iana encode strip emit [name] stdin
  = main_run iana' encode strip emit [name] stdin.
Proof.
  intros Hin Hd. unfold main_run, flag_Arg0.
  destruct (modes !! name) as [m|] eqn:E.
  - assert (Em : modes_at name = m) by (unfold modes_at; rewrite E; reflexivity).
    rewrite Em.
    apply modes_lookup_Some in E. destruct E as (_ & [f Hf] & Hdec).
    destruct encode.
    + rewrite Hf. reflexivity.
    + destruct Hd as [Hd | Hd]; [discriminate|].
      destruct (decoder m) as [g|] eqn:Eg; [reflexivity|].
      destruct (proj1 Hdec eq_refl); tauto.
  - apply modes_lookup_None in E. contradiction.
Qed.

Lemma main_run_hex_extended `{Externs} (iana : string -> iana_result)
    (strip emit : bool) (stdin : list byte) :
  main_run iana true strip emit ["hex-extended"%string] stdin
  = match exec hexExtEnc strip false stdin with
    | Ret out _ => Done out
    | Panic => Crashed
    end.
Proof.
  unfold main_run, flag_Arg0.
  change (modes_at "hex-extended")
    with {| decoder := None; encoder := Some hexExtEnc |}.
  cbn [encoder decoder length Nat.eqb negb String.eqb Ascii.eqb].
  unfold exec, hexExtEnc. destruct strip; reflexivity.
Qed.

(** ** main.go: the list of the modes *)

Lemma ascii_compare_N (a b : Ascii.ascii) :
  Ascii.compare a b = N.compare (Ascii.N_of_ascii a) (Ascii.N_of_ascii b).
Proof. reflexivity. Qed.

Lemma string_compare_trans (c : comparison) (s1 : string) :
  forall s2 s3, String.compare s1 s2 = c -> String.compare s2 s3 = c ->
    String.compare s1 s3 = c.
Proof.
  induction s1 as [|a s1 IH]; intros [|b s2] [|d s3]; cbn [String.compare];
    try congruence.
  rewrite !ascii_compare_N.
  destruct (N.compare_spec (Ascii.N_of_ascii a) (Ascii.N_of_ascii b)) as [E1|E1|E1];
    destruct (N.compare_spec (Ascii.N_of_ascii b) (Ascii.N_of_ascii d)) as [E2|E2|E2];
    intros H1 H2; try congruence.
  - rewrite <- E2, E1, N.compare_refl. eapply IH; eauto.
  - rewrite E1, (proj2 (N.compare_lt_iff _ _) E2). exact H2.
  - rewrite E1, (proj2 (N.compare_gt_iff _ _) E2). exact H2.
  - rewrite <- E2, (proj2 (N.compare_lt_iff _ _) E1). exact H1.
  - rewrite (proj2 (N.compare_lt_iff _ _) (N.lt_trans _ _ _ E1 E2)). exact H1.
  - rewrite <- E2, (proj2 (N.compare_gt_iff _ _) E1). exact H1.
  - rewrite (proj2 (N.compare_gt_iff _ _) (N.lt_trans _ _ _ E2 E1)). exact H1.
Qed.

#[global] Instance string_le_trans : Transitive string_le.
Proof.
  intros a b c. unfold string_le, String.leb.
  destruct (String.compare a b) eqn:E1; [| |discriminate];
    destruct (String.compare b c) eqn:E2; try discriminate; intros _ _.
  - rewrite (string_compare_trans Eq a b c E1 E2). reflexivity.
  - apply String.compare_eq_iff in E1. subst b. rewrite E2. reflexivity.
  - apply String.compare_eq_iff in E2. subst c. rewrite E1. reflexivity.
  - rewrite (string_compare_trans Lt a b c E1 E2). reflexivity.
Qed.

#[global] Instance string_le_total : Total string_le.
Proof. intros a b. apply String.leb_total. Qed.

#[global] Instance string_le_antisym : AntiSymm eq string_le.
Proof. intros a b. apply String.leb_antisym. Qed.

Lemma sort_Strings_Permutation (l1 l2 : list string) :
  l1 ≡ₚ l2 -> sort_Strings l1 = sort_Strings l2.
Proof.
  intros Hp. unfold sort_Strings.
  apply (StronglySorted_unique string_le).
  - apply StronglySorted_merge_sort; apply _.
  - apply StronglySorted_merge_sort; apply _.
  - rewrite !merge_sort_Permutation. exact Hp.
Qed.

Lemma getModes_from_Permutation (o1 o2 : list (string * mode)) :
  o1 ≡ₚ o2 -> getModes_from o1 = getModes_from o2.
Proof.
  intros Hp. unfold getModes_from. cbv zeta. f_equal.
  apply sort_Strings_Permutation. apply fmap_Permutation, Hp.
Qed.

Lemma getModes_listing `{Externs} (order : list (string * mode)) :
  order ≡ₚ map_to_list modes ->
  getModes_from order
  = ("base32, base32-crockford, base32-hex, base64, base64-url, codepoint*, "
     ++ "float16-hex, float32-hex, go, hex, hex-extended*, html, json, qp, rot13, "
     ++ "url-path, url-query")%string.
Proof.
  intros Hp. rewrite (getModes_from_Permutation _ _ Hp).
  unfold modes.
  match goal with
  | |- getModes_from (map_to_list (list_to_map ?l)) = _ =>
      assert (Hnd : NoDup (l.*1))
        by (apply (bool_decide_unpack _); vm_compute; exact I);
      rewrite (getModes_from_Permutation _ _ (map_to_list_to_map l Hnd))
  end.
  reflexivity.
Qed.

(** ** main.go: the alphabets of the encoded texts *)

Lemma index_tbl_In (tbl : list byte) (i : Z) :
  0 <= i < Z.of_nat (length tbl) -> In (index_tbl tbl i) tbl.
Proof. intros Hi. unfold index_tbl. apply nth_In. lia. Qed.

Lemma base64_encode_bytes_chars (enc : base64.Encoding) (p : byte) :
  base64.padChar enc = Some p -> length (base64.encode enc) = 64%nat ->
  forall src,
    Forall (fun c => In c (base64.encode enc) \/ c = p) (base64.encode_bytes enc src).
Proof.
  intros Hp Hlen.
  assert (Hs : forall x, In (index_tbl (base64.encode enc) (x .& 63)) (base64.encode enc)).
  { intros x. apply index_tbl_In. rewrite Hlen. pose proof (sextet_range x). lia. }
  assert (Hpad : forall n, Forall (fun c => In c (base64.encode enc) \/ c = p)
                             (base64.pads enc n)).
  { intros n. unfold base64.pads. rewrite Hp. apply Forall_forall.
    intros c Hc. apply elem_of_replicate in Hc. right. apply Hc. }
  intros src. induction src as [src IH] using list_length_ind.
  destruct src as [|s0 [|s1 [|s2 src]]]; cbn [base64.encode_bytes]; cbv zeta.
  - constructor.
  - repeat (apply Forall_cons_2; [left; apply Hs|]). apply Hpad.
  - repeat (apply Forall_cons_2; [left; apply Hs|]). apply Hpad.
  - repeat (apply Forall_cons_2; [left; apply Hs|]). apply IH. cbn [length]. lia.
Qed.

Lemma Forall_chars_forallb (tbl : list byte) (p : byte) (f : byte -> bool) (l : list byte) :
  forallb f (p :: tbl) = true ->
  Forall (fun c => In c tbl \/ c = p) l -> forallb f l = true.
Proof.
  intros Hf Hl. apply forallb_forall. intros c Hc.
  rewrite Forall_forall in Hl. apply list_elem_of_In, Hl in Hc.
  rewrite forallb_forall in Hf. apply Hf. cbn [In]. destruct Hc as [Hc | ->]; auto.
Qed.

Lemma base64Enc_chars (src : list byte) :
  exists y, base64Enc src = Ret y None
    /\ forallb base64std_char y = true
    /\ length y = ((length src + 2) / 3 * 4)%nat.
Proof.
  exists (base64.encode_bytes base64.StdEncoding src). split; [|split].
  - unfold base64Enc.
    rewrite (base64_Encode_make base64.StdEncoding x3d) by reflexivity. reflexivity.
  - apply (Forall_chars_forallb (base64.encode base64.StdEncoding) x3d); [reflexivity|].
    apply base64_encode_bytes_chars; reflexivity.
  - apply (base64_encode_bytes_length base64.StdEncoding x3d). reflexivity.
Qed.

Lemma base64url_char_path (c : byte) :
  base64url_char c = true -> url.shouldEscape c url.encodePathSegment = false.
Proof. destruct c; try discriminate; reflexivity. Qed.

Lemma base64URLEnc_chars (src : list byte) :
  exists y, base64URLEnc src = Ret y None
    /\ forallb base64url_char y = true
    /\ length y = ((length src + 2) / 3 * 4)%nat
    /\ urlPathEnc y = Ret y None.
Proof.
  exists (base64.encode_bytes base64.URLEncoding src).
  assert (Hc : forallb base64url_char (base64.encode_bytes base64.URLEncoding src) = true).
  { apply (Forall_chars_forallb (base64.encode base64.URLEncoding) x3d); [reflexivity|].
    apply base64_encode_bytes_chars; reflexivity. }
  split; [|split; [exact Hc|split]].
  - unfold base64URLEnc.
    rewrite (base64_Encode_make base64.URLEncoding x3d) by reflexivity. reflexivity.
  - apply (base64_encode_bytes_length base64.URLEncoding x3d). reflexivity.
  - unfold urlPathEnc, url.PathEscape. rewrite url_escape_plain; [reflexivity|].
    apply forallb_forall. intros c Hin. rewrite forallb_forall in Hc.
    rewrite (base64url_char_path c (Hc c Hin)). reflexivity.
Qed.

Lemma base32_chars_forallb (enc : base32.Encoding) (p : byte) (f : byte -> bool)
    (l : list byte) :
  length (base32.encode enc) = 32%nat ->
  forallb f (p :: base32.encode enc) = true ->
  Forall (fun c => (exists x, c = index_tbl (base32.encode enc) (x .& 31)) \/ c = p) l ->
  forallb f l = true.
Proof.
  intros Hlen Hf Hl. apply forallb_forall. intros c Hc.
  rewrite Forall_forall in Hl. apply list_elem_of_In, Hl in Hc.
  rewrite forallb_forall in Hf. apply Hf. cbn [In].
  destruct Hc as [[x ->] | ->]; [right | left; reflexivity].
  apply index_tbl_In. rewrite Hlen. pose proof (quintet_range x). lia.
Qed.

Lemma base32Enc_chars (src : list byte) :
  exists y, base32Enc src = Ret y None
    /\ forallb base32std_char y = true
    /\ length y = ((length src + 4) / 5 * 8)%nat.
Proof.
  exists (base32.encode_bytes base32.StdEncoding src). split; [|split].
  - unfold base32Enc.
    rewrite (base32_Encode_make base32.StdEncoding x3d) by reflexivity. reflexivity.
  - apply (base32_chars_forallb base32.StdEncoding x3d); [reflexivity..|].
    apply base32_encode_bytes_chars; reflexivity.
  - apply (base32_encode_bytes_length base32.StdEncoding x3d); reflexivity.
Qed.

Lemma base32HexEnc_chars (src : list byte) :
  exists y, base32HexEnc src = Ret y None
    /\ forallb base32hex_char y = true
    /\ length y = ((length src + 4) / 5 * 8)%nat.
Proof.
  exists (base32.encode_bytes base32.HexEncoding src). split; [|split].
  - unfold base32HexEnc.
    rewrite (base32_Encode_make base32.HexEncoding x3d) by reflexivity. reflexivity.
  - apply (base32_chars_forallb base32.HexEncoding x3d); [reflexivity..|].
    apply base32_encode_bytes_chars; reflexivity.
  - apply (base32_encode_bytes_length base32.HexEncoding x3d); reflexivity.
Qed.

Lemma hex_encode_byte_chars (v : byte) :
  hex_lower_char (index_tbl hex.hextable (byte_val v .>> 4))
  && hex_lower_char (index_tbl hex.hextable (byte_val v .& 15)) = true.
Proof. destruct v; reflexivity. Qed.

Lemma hexEnc_chars (src : list byte) :
  exists y, hexEnc src = Ret y None
    /\ forallb hex_lower_char y = true
    /\ length y = (2 * length src)%nat.
Proof.
  exists (hex.encode_bytes src). split; [apply hexEnc_spec|].
  split.
  - induction src as [|v src IH]; [reflexivity|].
    cbn [hex.encode_bytes forallb]. rewrite IH, andb_true_r.
    apply hex_encode_byte_chars.
  - rewrite hex_encode_bytes_length. lia.
Qed.

(** ** main.go: the hexadecimal and the float transforms *)

Lemma ParseUint_range (w : list byte) (bitSize s : Z) :
  0 < bitSize <= 64 ->
  strconv.ParseUint w 16 bitSize = (s, None) -> 0 <= s < 2 ^ bitSize.
Proof.
  intros Hb. unfold strconv.ParseUint. destruct w as [|c w]; [discriminate|].
  cbv zeta.
  assert (Hmax : u64 (u64 (1 .<< bitSize) - 1) = 2 ^ bitSize - 1).
  { rewrite Z.shiftl_1_l. unfold u64.
    assert (0 < 2 ^ bitSize <= 2 ^ 64)
      by (split; [apply Z.pow_pos_nonneg; lia | apply Z.pow_le_mono_r; lia]).
    destruct (Z.eq_dec bitSize 64) as [->|Hne].
    - reflexivity.
    - assert (2 ^ bitSize < 2 ^ 64) by (apply Z.pow_lt_mono_r; lia).
      rewrite (Z.mod_small (2 ^ bitSize)) by lia. apply Z.mod_small. lia. }
  rewrite Hmax.
  destruct (strconv.parse_uint_loop _ _ _ _ _) as [n [e|]] eqn:E; [discriminate|].
  intros [= <-]. apply parse_uint_loop_range in E; [lia|].
  assert (0 < 2 ^ bitSize) by (apply Z.pow_pos_nonneg; lia). lia.
Qed.

Lemma float_blank `{Externs} (src : list byte) :
  Forall is_space src ->
  float32hexDec src = Ret [] None /\ float32hexEnc src = Ret [] None
  /\ float16hexDec src = Ret [] None /\ float16hexEnc src = Ret [] None.
Proof.
  intros Hs. unfold float32hexDec, float32hexEnc, float16hexDec, float16hexEnc.
  rewrite (Fields_blank src Hs). repeat split.
Qed.

Lemma Fields_token (w : list byte) : is_token w -> strings.Fields w = [w].
Proof.
  intros Hw.
  pose proof (Fields_spaced [] [] w (Forall_nil_2 _) (Forall_nil_2 _) (or_intror Hw)) as E.
  unfold spaced in E. cbn [flat_map app map] in E. rewrite E.
  destruct w; [destruct Hw as [Hw _]; contradiction | reflexivity].
Qed.

Lemma float32hexEnc_range `{Externs} (w : list byte) (neg : bool) (mant exp10 : Z) :
  is_token w ->
  strconv.special strconv.float32info w = None ->
  strconv.hex_or_underscore w = false ->
  strconv.readFloat w = Some (neg, mant, exp10) ->
  0 < mant ->
  (decimal_ge mant exp10 float32_overflow ->
   float32hexEnc w = Ret [] (Some (strconv_NumError "ParseFloat" w ErrRange)))
  /\ (~ decimal_ge mant exp10 float32_overflow ->
      exists b, 0 <= b < 2 ^ 32 /\ float32hexEnc w = Ret (fmt.fmt_X 8 b ++ bs " ") None).
Proof.
  intros Hw Hs Hh Hr Hmant.
  destruct (ParseFloat32_range w neg mant exp10 Hs Hh Hr Hmant) as [H1 H2].
  unfold float32hexEnc. cbv zeta. rewrite (Fields_token w Hw).
  cbn [float32hexEnc_loop]. split.
  - intros Hge. rewrite (H1 Hge). reflexivity.
  - intros Hlt. destruct (strconv.ParseFloat32 w) as [b [e|]] eqn:E.
    + exfalso. apply Hlt, H2. reflexivity.
    + exists b. split; [|reflexivity].
      destruct (ParseFloat32_decimal_sound w neg mant exp10 b Hs Hh Hr Hmant E)
        as (m & j & Hfl & -> & _).
      apply float_bits_range, Hfl.
Qed.

Lemma float16hexEnc_range `{Externs} (w : list byte) (neg : bool) (mant exp10 : Z) :
  is_token w ->
  strconv.special strconv.float32info w = None ->
  strconv.hex_or_underscore w = false ->
  strconv.readFloat w = Some (neg, mant, exp10) ->
  0 < mant ->
  decimal_ge mant exp10 float32_overflow ->
  float16hexEnc w = Ret [] (Some (strconv_NumError "ParseFloat" w ErrRange)).
Proof.
  intros Hw Hs Hh Hr Hmant Hge.
  destruct (ParseFloat32_range w neg mant exp10 Hs Hh Hr Hmant) as [H1 _].
  unfold float16hexEnc. cbv zeta. rewrite (Fields_token w Hw).
  cbn [float16hexEnc_loop]. rewrite (H1 Hge). reflexivity.
Qed.

Lemma hexDec_valid (src : list byte) :
  forallb hex_digit src = true -> Nat.even (length src) = true ->
  exists out,
    hexDec src = Ret out None
    /\ (2 * length out = length src)%nat
    /\ hexEnc out = Ret (map hex_lower src) None.
Proof.
  intros Hd He. destruct (hex_decode_valid src Hd He) as (out & E & Hl & Hb).
  exists out. rewrite hexDec_decode_bytes, E, hexEnc_spec, Hb. auto.
Qed.

Lemma hexDec_odd (src : list byte) :
  forallb hex_digit src = true -> Nat.even (length src) = false ->
  exists out, hexDec src = Ret out (Some hex_ErrLength).
Proof.
  intros Hd He. rewrite hexDec_decode_bytes, (hex_decode_odd src Hd He). eauto.
Qed.

Lemma hexDec_invalid (pre : list byte) (c : byte) (post : list byte) :
  forallb hex_digit pre = true -> hex_digit c = false ->
  exists out, hexDec (pre ++ c :: post) = Ret out (Some (hex_InvalidByteError c)).
Proof.
  intros Hd Hc. rewrite hexDec_decode_bytes, (hex_decode_invalid pre c post Hd Hc). eauto.
Qed.

(** ** encoding/json: the text of a string *)

Lemma byte_of_high (z : Z) : Z.testbit z 7 = true -> 128 <= byte_val (byte_of z).
Proof.
  intros Hb. rewrite byte_val_of.
  assert (Hv : Z.testbit (z mod 256) 7 = true).
  { change 256 with (2 ^ 8). rewrite Z.mod_pow2_bits_low by lia. exact Hb. }
  apply Z.testbit_true in Hv; [|lia]. change (2 ^ 7) with 128 in Hv.
  Z.div_mod_to_equations. lia.
Qed.

Lemma encode_rune_high (r : Z) :
  128 <= r < 2 ^ 32 -> Forall (fun c => 128 <= byte_val c) (utf8.encode_rune r).
Proof.
  intros Hr. unfold utf8.encode_rune. cbv zeta.
  unfold u32 at 1. rewrite (Z.mod_small r) by lia.
  unfold utf8.rune1Max. destruct (Z.leb_spec r 127) as [?|_]; [lia|].
  repeat match goal with
         | |- context [if ?b then _ else _] => destruct b
         end;
    repeat (apply Forall_cons_2; [apply byte_of_high; rewrite Z.lor_spec; reflexivity|]);
    apply Forall_nil_2.
Qed.

Lemma json_safe_high (c : byte) : 128 <= byte_val c -> json_safe c = true.
Proof. destruct c; intros Hc; try reflexivity; vm_compute in Hc; exfalso; apply Hc; reflexivity. Qed.

Lemma json_string_body_safe (src : list byte) :
  forallb json_safe (json.string_body src) = true.
Proof.
  unfold json.string_body.
  destruct (runes_spec src) as [_ Hr]. revert Hr.
  generalize (utf8.runes src). intros rs Hr.
  induction Hr as [|[r enc] rs [Hne [rest Hd]] _ IH]; [reflexivity|].
  cbn [flat_map]. rewrite forallb_app, IH, andb_true_r. clear IH.
  cbn [fst snd] in *.
  destruct enc as [|c [|c2 enc]]; [contradiction | |].
  - clear. destruct c; reflexivity.
  - assert (Hm : 128 <= r /\ utf8.ValidRune r = true
                 /\ utf8.encode_rune r = c :: c2 :: enc).
    { inversion Hd as [c' rest' E1 E2 E3 Hl | c' rest' E1 E2 E3 Hl
                       | r' n Hn Hlen Hr128 Hv He Hr' Hl];
        try discriminate Hl.
      rewrite take_app_length in He. auto. }
    destruct Hm as (Hr128 & Hv & He).
    destruct ((r =? 8232) || (r =? 8233)) eqn:Eu.
    + apply orb_true_iff in Eu. destruct Eu as [Eu | Eu]; apply Z.eqb_eq in Eu;
        rewrite Eu; reflexivity.
    + rewrite <- He.
      apply forallb_forall. intros b Hb. apply json_safe_high.
      assert (Hr32 : 128 <= r < 2 ^ 32).
      { split; [exact Hr128|]. unfold utf8.ValidRune, utf8.MaxRune in Hv.
        apply orb_true_iff in Hv. unfold utf8.surrogateMin in Hv. lia. }
      pose proof (encode_rune_high r Hr32) as Hh.
      rewrite Forall_forall in Hh. apply Hh, list_elem_of_In, Hb.
Qed.

Lemma jsonEnc_safe (src : list byte) :
  exists body,
    jsonEnc src = Ret ([x22] ++ body ++ [x22]) None
    /\ forallb json_safe body = true.
Proof.
  exists (json.string_body src). split; [reflexivity | apply json_string_body_safe].
Qed.

(** ** base32: the Crockford text, newlines *)

Lemma base32CrockfordEnc_chars (src : list byte) :
  exists y, base32CrockfordEnc src = Ret y None
    /\ forallb crockford_char y = true
    /\ length y = ((length src + 4) / 5 * 8)%nat.
Proof.
  exists (base32.encode_bytes crockfordEnc src). split; [|split].
  - apply base32CrockfordEnc_spec.
  - apply (base32_chars_forallb crockfordEnc x3d); [reflexivity..|].
    apply base32_encode_bytes_chars; reflexivity.
  - apply (base32_encode_bytes_length crockfordEnc x3d); reflexivity.
Qed.

Lemma base32_stripNewlines_insert (a b : list byte) (c : byte) :
  is_newline c = true ->
  base32.stripNewlines (a ++ c :: b) = base32.stripNewlines (a ++ b).
Proof.
  intros Hc. unfold base32.stripNewlines. rewrite !filter_app, filter_cons.
  destruct (decide (is_newline c = false)) as [Hf|_]; [congruence | reflexivity].
Qed.

Lemma base32_dec_insert (enc : base32.Encoding) (a b : list byte) (c : byte) :
  base32.padded enc = true -> is_newline c = true ->
  match base32.Decode enc (make (base32.DecodedLen enc (length (a ++ c :: b))))
          (a ++ c :: b) with
  | Some (dst, n, e) => Ret (take n dst) e
  | None => Panic
  end
  = match base32.Decode enc (make (base32.DecodedLen enc (length (a ++ b)))) (a ++ b) with
    | Some (dst, n, e) => Ret (take n dst) e
    | None => Panic
    end.
Proof.
  intros Hpad Hc.
  destruct (base32_dec_total enc (a ++ c :: b) Hpad) as [-> _].
  destruct (base32_dec_total enc (a ++ b) Hpad) as [-> _].
  rewrite (base32_stripNewlines_insert a b c Hc). reflexivity.
Qed.

Lemma base32CrockfordDec_total `{Externs} (src : list byte) :
  exists out err, base32CrockfordDec src = Ret out err.
Proof.
  unfold base32CrockfordDec. cbv zeta.
  match goal with
  | |- context [base32.Decode crockfordEnc (make (base32.DecodedLen crockfordEnc (length ?t))) ?t] =>
      destruct (base32_dec_total crockfordEnc t eq_refl) as [E _]; cbv zeta in E; rewrite E
  end.
  eauto.
Qed.

(** ** The properties of the alphabet transforms *)

Lemma modes_at_unfold `{Externs} (name : string) (m : mode) :
  modes !! name = Some m -> modes_at name = m.
Proof. intros E. unfold modes_at. rewrite E. reflexivity. Qed.

(** C1: for every byte sequence [x], the encoder and then the decoder
    of each of the modes base64, base32, base32-hex and hex, as the
    registry holds them, returns exactly [x], with no error on either
    side. *)
Theorem C1_decode_encode `{Externs} :
  Forall (fun name =>
            exists enc dec,
              encoder (modes_at name) = Some enc
              /\ decoder (modes_at name) = Some dec
              /\ forall x, round_trips enc dec x)
    ["base64"; "base32"; "base32-hex"; "hex"]%string.
Proof.
  repeat apply Forall_cons_2; try apply Forall_nil_2.
  - exists base64Enc, base64Dec. repeat split. apply base64Dec_base64Enc.
  - exists base32Enc, base32Dec. repeat split. apply base32Dec_base32Enc.
  - exists base32HexEnc, base32HexDec. repeat split. apply base32HexDec_base32HexEnc.
  - exists hexEnc, hexDec. repeat split. intros x.
    exists (hex.encode_bytes x). split; [apply hexEnc_spec | apply hexDec_hexEnc].
Qed.

(** C2: base32-crockford decoding of the encoding of [x] returns [x],
    and so does the decoding of every text got from the encoded text by
    changing the case of letters, writing I or L for 1 and O for 0 (or the
    reverse), and inserting hyphens anywhere. *)
Theorem C2_crockford_round_trip `{Externs} (x : list byte) :
  exists y,
    base32CrockfordEnc x = Ret y None
    /\ base32CrockfordDec y = Ret x None
    /\ forall y', crockford_variant y y' -> base32CrockfordDec y' = Ret x None.
Proof.
  exists (base32.encode_bytes crockfordEnc x).
  split; [apply base32CrockfordEnc_spec|].
  split; [apply base32CrockfordDec_encoded|].
  intros y' Hv.
  rewrite (crockford_variant_decode _ y' (proj1 (crockford_encode_fixed x)) Hv).
  apply base32CrockfordDec_encoded.
Qed.

Lemma C2_crockford_round_trip_witness :
  crockford_variant (bs "64======") (bs "6-4======")
  /\ crockford_variant (bs "6-4======") (bs "6-4======")
  /\ @base32CrockfordDec plain_externs (bs "6-4======") = Ret [x31] None.
Proof.
  assert (Hv : crockford_variant (bs "64======") (bs "6-4======")).
  { apply rtsc_lr. exact (edit_hyphen [x36] (bs "4======")). }
  split; [exact Hv|]. split; [apply rtc_refl|].
  destruct (@C2_crockford_round_trip plain_externs [x31]) as (y & Hy & _ & Hall).
  injection Hy as <-. apply Hall. exact Hv.
Defined.

(** C3: rot13 maps every byte at its position, rotating the ASCII
    letters by 13 within their case and keeping every other byte, so that
    rot13 of rot13 of [x] is [x]; the registry has the one function as the
    decoder and as the encoder of the mode rot13. *)
Theorem C3_rot13 `{Externs} (x : list byte) :
  rot13 x = Ret (map caesar13 x) None
  /\ rot13 (map caesar13 x) = Ret x None
  /\ modes_at "rot13" = {| decoder := Some rot13; encoder := Some rot13 |}.
Proof.
  assert (Hb : forall b, rot13_byte b = caesar13 b) by (intros b; destruct b; reflexivity).
  assert (Hm : map rot13_byte x = map caesar13 x) by (apply map_ext; exact Hb).
  split; [rewrite rot13_map, Hm; reflexivity|].
  split; [|reflexivity].
  rewrite rot13_map, <- Hm, map_map.
  rewrite (map_ext _ id) by (intros b; apply rot13_byte_involutive).
  rewrite map_id. reflexivity.
Qed.

(** C8, as the program behaves: encoding the byte 0xFF with
    base32-crockford gives [ZW======], two characters of the Crockford
    alphabet followed by six padding characters ['='], with no I, L, O or
    U; and decoding [zz-] gives what decoding [ZZ] gives. *)
Theorem C8_crockford_examples `{Externs} :
  base32CrockfordEnc [xff] = Ret (bs "ZW======") None
  /\ Forall (fun c => In c (base32.encode crockfordEnc)) (bs "ZW")
  /\ Forall (fun c => ~ In c (bs "ILOU")) (bs "ZW======")
  /\ base32CrockfordDec (bs "zz-") = base32CrockfordDec (bs "ZZ").
Proof.
  split; [reflexivity|].
  split; [repeat constructor; unfold crockfordEnc; cbn; tauto|].
  split.
  - repeat constructor; cbn; intros Hin; decompose [or] Hin; try discriminate; tauto.
  - apply crockford_variant_decode.
    + repeat constructor.
    + eapply rtc_l; [left; exact (edit_case [] "Z"%byte (bs "Z"))|].
      eapply rtc_l; [left; exact (edit_case (bs "z") "Z"%byte [])|].
      apply rtsc_lr. exact (edit_hyphen (bs "zz") []).
Qed.

(** C8, as stated, fails: the encoding of the byte 0xFF does not
    consist of characters of the Crockford alphabet only. *)
Lemma C8_counterexample :
  ~ (forall out, base32CrockfordEnc [xff] = Ret out None ->
       Forall (fun c => In c (base32.encode crockfordEnc)) out).
Proof.
  intros Hall. specialize (Hall (bs "ZW======") eq_refl).
  rewrite Forall_forall in Hall.
  assert (Hin : In "="%byte (base32.encode crockfordEnc)).
  { apply Hall. apply list_elem_of_In. cbn. tauto. }
  cbn in Hin. decompose [or] Hin; try discriminate; tauto.
Qed.


(** ** The encoders that cannot fail *)

Lemma base64URLEnc_spec (src : list byte) :
  base64URLEnc src = Ret (base64.encode_bytes base64.URLEncoding src) None.
Proof.
  unfold base64URLEnc.
  rewrite (base64_Encode_make base64.URLEncoding x3d) by reflexivity. reflexivity.
Qed.

(** C9: each of the encoders that the registry holds for the modes
    hex, hex-extended, base32, base32-crockford, base32-hex, base64,
    base64-url, rot13, go, json, html, url-path, url-query and codepoint
    returns, for every input, some bytes and a nil error. *)
Theorem C9_encoders_never_fail `{Externs} :
  Forall (fun name =>
            exists enc,
              encoder (modes_at name) = Some enc
              /\ forall src, exists out, enc src = Ret out None)
    ["hex"; "hex-extended"; "base32"; "base32-crockford"; "base32-hex"; "base64";
     "base64-url"; "rot13"; "go"; "json"; "html"; "url-path"; "url-query";
     "codepoint"]%string.
Proof.
  repeat apply Forall_cons_2; try apply Forall_nil_2;
    (eexists; split; [reflexivity|]); intros src.
  - eexists. apply hexEnc_spec.
  - eexists. reflexivity.
  - destruct (base32Dec_base32Enc src) as (y & Hy & _). eauto.
  - eexists. apply base32CrockfordEnc_spec.
  - destruct (base32HexDec_base32HexEnc src) as (y & Hy & _). eauto.
  - destruct (base64Dec_base64Enc src) as (y & Hy & _). eauto.
  - eexists. apply base64URLEnc_spec.
  - eexists. apply rot13_map.
  - eexists. reflexivity.
  - eexists. reflexivity.
  - eexists. reflexivity.
  - eexists. reflexivity.
  - eexists. reflexivity.
  - eexists. reflexivity.
Qed.

(** C6: when a whitespace-separated token of the input does not parse
    (as a hexadecimal integer of 32 or 16 bits when decoding, as a
    floating-point literal when encoding), float32-hex and float16-hex
    return an error and no byte at all, whatever the tokens before it; and
    [exec] then writes nothing. *)
Theorem C6_abort_no_output `{Externs} (src : list byte) :
  (existsb (fun w => is_error (snd (strconv.ParseUint w 16 32))) (strings.Fields src) = true ->
   fails_with_no_output (float32hexDec src))
  /\ (existsb (fun w => is_error (snd (strconv.ParseFloat32 w))) (strings.Fields src) = true ->
      fails_with_no_output (float32hexEnc src)
      /\ fails_with_no_output (float16hexEnc src))
  /\ (existsb (fun w => is_error (snd (strconv.ParseUint w 16 16))) (strings.Fields src) = true ->
      fails_with_no_output (float16hexDec src))
  /\ (forall (f : modeFunc) (emitNewline : bool),
        fails_with_no_output (f src) ->
        fails_with_no_output (exec f false emitNewline src)).
Proof.
  split; [apply float32hexDec_loop_abort|].
  split; [intros Hex; split;
          [apply float32hexEnc_loop_abort | apply float16hexEnc_loop_abort]; exact Hex|].
  split; [apply float16hexDec_loop_abort|].
  intros f emitNewline [err Hf]. unfold exec. rewrite Hf. exists err. reflexivity.
Qed.

Lemma C6_abort_no_output_witness :
  existsb (fun w => is_error (snd (strconv.ParseUint w 16 32)))
    (strings.Fields (bs "3FC00000 3fc0000g 40000000")) = true
  /\ fails_with_no_output (float32hexDec (bs "3FC00000 3fc0000g 40000000")).
Proof.
  split; [reflexivity|].
  apply (proj1 (@C6_abort_no_output plain_externs (bs "3FC00000 3fc0000g 40000000"))).
  reflexivity.
Defined.

(** C7: for every string [s], the go encoder returns a double-quoted
    literal made of printable ASCII characters only, and the go decoder
    returns exactly [s] from it, with no error on either side. *)
Theorem C7_go_round_trip `{Externs} (s : list byte) :
  exists q body,
    goEnc s = Ret q None
    /\ q = x22 :: body ++ [x22]
    /\ Forall printable q
    /\ goDec q = Ret s None.
Proof.
  exists (strconv.QuoteToASCII s), (strconv.quoted_body s x22 true).
  split; [reflexivity|]. split; [reflexivity|].
  split; [apply QuoteToASCII_printable|].
  destruct (goDec_goEnc s) as (y & Hy & Hd). injection Hy as <-. exact Hd.
Qed.



(** C5, as stated, fails: a token whose value is a NaN other than
    7FC00000 does not come back. *)
Lemma C5_counterexample :
  ~ (forall src out,
       forallb (fun w => negb (is_error (snd (strconv.ParseUint w 16 32))))
         (strings.Fields src) = true ->
       float32hexDec src = Ret out None ->
       @float32hexEnc plain_externs out
       = Ret (flat_map (fun w => fmt.fmt_X 8 (fst (strconv.ParseUint w 16 32)) ++ bs " ")
                (strings.Fields src)) None).
Proof.
  intros Hall.
  specialize (Hall (bs "7FC00001") (bs "NaN ") eq_refl eq_refl).
  vm_compute in Hall. discriminate Hall.
Qed.

(** C5, amended: when every field of the input is a hexadecimal word
    of 32 bits, decoding and then encoding gives, field by field, the eight
    upper-case digits of the word, followed by a space; but a word that is
    a NaN comes back as 7FC00000, whatever its sign and payload. *)
Theorem C5_float32_hex_round_trip `{Externs} (src : list byte) :
  forallb (fun w => negb (is_error (snd (strconv.ParseUint w 16 32)))) (strings.Fields src)
  = true ->
  exists out,
    float32hexDec src = Ret out None
    /\ float32hexEnc out
       = Ret (flat_map (fun w => fmt.fmt_X 8 (canonical_nan (fst (strconv.ParseUint w 16 32)))
                                  ++ bs " ")
                (strings.Fields src)) None
    /\ Forall (fun w =>
                 let b := fst (strconv.ParseUint w 16 32) in
                 (is_nan b = false -> canonical_nan b = b)
                 /\ (is_nan b = true -> canonical_nan b = 2143289344)
                 /\ length (fmt.fmt_X 8 (canonical_nan b)) = 8%nat
                 /\ Forall is_upper_hex (fmt.fmt_X 8 (canonical_nan b))
                 /\ strconv.ParseUint (fmt.fmt_X 8 (canonical_nan b)) 16 32
                    = (canonical_nan b, None))
         (strings.Fields src).
Proof.
  intros Hok. apply forallb_no_error in Hok.
  destruct (float32hex_decode_encode src Hok) as (out & Hdec & Henc).
  exists out. split; [exact Hdec|]. split; [exact Henc|].
  eapply Forall_impl; [exact Hok|]. intros w Hw. cbn beta in Hw. cbv zeta.
  destruct (strconv.ParseUint w 16 32) as [b err] eqn:E. cbn [fst snd] in *. subst err.
  apply ParseUint_32_range in E.
  assert (Hc : 0 <= canonical_nan b < 2 ^ 32).
  { unfold canonical_nan. destruct (is_nan b); [split; reflexivity || discriminate | exact E]. }
  unfold canonical_nan at 1 2.
  split; [intros ->; reflexivity|]. split; [intros ->; reflexivity|].
  apply ParseUint_fmt_X_8, Hc.
Qed.

Lemma C5_float32_hex_round_trip_witness :
  forallb (fun w => negb (is_error (snd (strconv.ParseUint w 16 32))))
    (strings.Fields (bs "3fc00000  80000001 7F800000")) = true
  /\ exists out,
       float32hexDec (bs "3fc00000  80000001 7F800000") = Ret out None
       /\ @float32hexEnc plain_externs out = Ret (bs "3FC00000 80000001 7F800000 ") None.
Proof.
  split; [reflexivity|].
  destruct (@C5_float32_hex_round_trip plain_externs (bs "3fc00000  80000001 7F800000")
              eq_refl) as (out & Hdec & Henc & _).
  exists out. split; [exact Hdec|]. rewrite Henc. reflexivity.
Defined.

(** ** Further properties of the transforms and of [main] *)

(** X1: the decoder of each of the modes base64-url, url-path and
    url-query, as the registry holds them, undoes the encoder: for every
    byte sequence [x], decoding the encoded [x] returns [x], with no error
    on either side. *)
Theorem X1_more_round_trips `{Externs} :
  Forall (fun name =>
            exists enc dec,
              encoder (modes_at name) = Some enc
              /\ decoder (modes_at name) = Some dec
              /\ forall x, round_trips enc dec x)
    ["base64-url"; "url-path"; "url-query"]%string.
Proof.
  repeat apply Forall_cons_2; try apply Forall_nil_2.
  - exists base64URLEnc, base64URLDec. repeat split. apply base64URLDec_base64URLEnc.
  - exists urlPathEnc, urlPathDec. repeat split. apply urlPath_round_trips.
  - exists urlQueryEnc, urlQueryDec. repeat split. apply urlQuery_round_trips.
Qed.

(** X2: the base64 encoders write four characters for every three
    bytes of the input, the last group padded: letters, digits, [+], [/]
    and [=] for base64; letters, digits, [-], [_] and [=] for base64-url,
    whose text the url-path encoder then leaves as it is. *)
Theorem X2_base64_text (src : list byte) :
  (exists y, base64Enc src = Ret y None
     /\ forallb base64std_char y = true
     /\ length y = ((length src + 2) / 3 * 4)%nat)
  /\ (exists y, base64URLEnc src = Ret y None
        /\ forallb base64url_char y = true
        /\ length y = ((length src + 2) / 3 * 4)%nat
        /\ urlPathEnc y = Ret y None).
Proof. split; [apply base64Enc_chars | apply base64URLEnc_chars]. Qed.

(** X3: the base32 encoders write eight characters for every five
    bytes of the input, the last group padded with [=]: upper-case letters
    and the digits 2 to 7 for base32, digits and the letters A to V for
    base32-hex, digits and the upper-case letters other than I, L, O and U
    for base32-crockford. *)
Theorem X3_base32_text (src : list byte) :
  (exists y, base32Enc src = Ret y None
     /\ forallb base32std_char y = true
     /\ length y = ((length src + 4) / 5 * 8)%nat)
  /\ (exists y, base32HexEnc src = Ret y None
        /\ forallb base32hex_char y = true
        /\ length y = ((length src + 4) / 5 * 8)%nat)
  /\ (exists y, base32CrockfordEnc src = Ret y None
        /\ forallb crockford_char y = true
        /\ length y = ((length src + 4) / 5 * 8)%nat).
Proof.
  split; [apply base32Enc_chars|].
  split; [apply base32HexEnc_chars | apply base32CrockfordEnc_chars].
Qed.

(** X4: the text that the url-path and the url-query encoders write
    holds only letters, digits, the marks [-_.~], the percent sign of the
    escapes and, for url-path, the characters [$&+:=@], for url-query, the
    plus sign written for a space. *)
Theorem X4_url_escaped_text (src : list byte) :
  (exists y, urlPathEnc src = Ret y None
     /\ forallb (url_safe url.encodePathSegment) y = true)
  /\ (exists y, urlQueryEnc src = Ret y None
        /\ forallb (url_safe url.encodeQueryComponent) y = true).
Proof.
  split; eexists; (split; [reflexivity | apply url_escape_safe]).
Qed.

(** X5: after a well-formed text, a percent sign that is not followed
    by two hexadecimal digits makes the url-path and the url-query decoders
    fail with the escape error that quotes the percent sign and the two
    bytes after it, or what there is of them, and return no byte. *)
Theorem X5_url_malformed_escape (pre rest : list byte) :
  url.check pre = None ->
  match rest with
  | h1 :: h2 :: _ => url.ishex h1 && url.ishex h2 = false
  | _ => True
  end ->
  urlPathDec (pre ++ "%"%byte :: rest)
  = Ret [] (Some (url_EscapeError (take 3 ("%"%byte :: rest))))
  /\ urlQueryDec (pre ++ "%"%byte :: rest)
     = Ret [] (Some (url_EscapeError (take 3 ("%"%byte :: rest)))).
Proof.
  intros Hpre Hrest.
  unfold urlPathDec, urlQueryDec, url.PathUnescape, url.QueryUnescape, url.unescape.
  rewrite (url_check_malformed pre rest Hpre Hrest). split; reflexivity.
Qed.

Lemma X5_url_malformed_escape_witness :
  urlPathDec (bs "a%20b%4") = Ret [] (Some (url_EscapeError (bs "%4")))
  /\ urlQueryDec (bs "a%20b%4") = Ret [] (Some (url_EscapeError (bs "%4"))).
Proof.
  exact (X5_url_malformed_escape (bs "a%20b") (bs "4") eq_refl I).
Defined.

(** X6: the hex decoder accepts an even number of hexadecimal digits
    of either case, returns one byte for every two digits, and the hex
    encoder gives the digits back in lower case. *)
Theorem X6_hex_decode_valid (src : list byte) :
  forallb hex_digit src = true -> Nat.even (length src) = true ->
  exists out,
    hexDec src = Ret out None
    /\ (2 * length out = length src)%nat
    /\ hexEnc out = Ret (map hex_lower src) None.
Proof. apply hexDec_valid. Qed.

Lemma X6_hex_decode_valid_witness :
  exists out,
    hexDec (bs "4a4B") = Ret out None
    /\ (2 * length out = length (bs "4a4B"))%nat
    /\ hexEnc out = Ret (bs "4a4b") None.
Proof.
  exact (X6_hex_decode_valid (bs "4a4B") eq_refl eq_refl).
Defined.

(** X7: the hex decoder fails with the length error on an odd
    number of hexadecimal digits, and with the error that names the byte
    on the first byte that is not a hexadecimal digit. *)
Theorem X7_hex_decode_errors (pre : list byte) :
  forallb hex_digit pre = true ->
  (Nat.even (length pre) = false ->
   exists out, hexDec pre = Ret out (Some hex_ErrLength))
  /\ (forall c post,
        hex_digit c = false ->
        exists out, hexDec (pre ++ c :: post) = Ret out (Some (hex_InvalidByteError c))).
Proof.
  intros Hd. split.
  - apply hexDec_odd, Hd.
  - intros c post Hc. apply hexDec_invalid; assumption.
Qed.

Lemma X7_hex_decode_errors_witness :
  (exists out, hexDec (bs "4a4") = Ret out (Some hex_ErrLength))
  /\ (exists out, hexDec (bs "4a4g4") = Ret out (Some (hex_InvalidByteError "g"%byte))).
Proof.
  split.
  - exact (proj1 (X7_hex_decode_errors (bs "4a4") eq_refl) eq_refl).
  - exact (proj2 (X7_hex_decode_errors (bs "4a4") eq_refl) "g"%byte (bs "4") eq_refl).
Defined.

(** X8: the html encoder never fails; its text holds no quote of
    either kind and no angle bracket, is at least as long as the input, and
    is the input itself exactly when the input holds none of the five
    characters [&], ['], [<], [>] and the double quote. *)
Theorem X8_html_escape (src : list byte) :
  exists y,
    htmlEnc src = Ret y None
    /\ forallb (fun c => negb (existsb (byte_eqb c) [x27; x3c; x3e; x22])) y = true
    /\ (length src <= length y)%nat
    /\ (y = src <-> forallb (fun c => negb (html_special c)) src = true).
Proof.
  exists (html.EscapeString src). split; [reflexivity|].
  split; [apply html_escape_no_markup|].
  split; [apply html_escape_length|].
  split; [apply html_escape_changed | apply html_escape_plain].
Qed.

(** X9: with [stripNewline], [exec] drops one newline at the end of
    the input, and only one, before it calls the transform; an input that
    does not end in a newline is passed as it is. *)
Theorem X9_exec_strip (f : modeFunc) (emitNewline : bool) (b : list byte) :
  exec f true emitNewline (b ++ [x0a]) = exec f false emitNewline b
  /\ (last b <> Some x0a -> exec f true emitNewline b = exec f false emitNewline b).
Proof. split; [apply exec_strip_newline | apply exec_strip_nothing]. Qed.

Lemma X9_exec_strip_witness :
  exec hexEnc true true ((bs "A" ++ [x0a]) ++ [x0a]) = exec hexEnc false true (bs "A" ++ [x0a])
  /\ exec hexEnc true true (bs "A") = exec hexEnc false true (bs "A").
Proof.
  split.
  - exact (proj1 (X9_exec_strip hexEnc true (bs "A" ++ [x0a]))).
  - apply (proj2 (X9_exec_strip hexEnc true (bs "A"))). discriminate.
Defined.

(** X10: for each of the modes base32, base32-crockford, base32-hex,
    base64, base64-url, go, hex, rot13, url-path and url-query, a run of
    [main] that encodes, with the flags as they default, followed by a run
    that decodes what the first wrote, writes the input again: the line [x]
    with its newline.  The index of the IANA names plays no part. *)
Theorem X10_encode_decode_pipeline `{Externs} :
  Forall (fun name =>
            forall (iana iana' : string -> iana_result) (x : list byte),
              exists mid,
                main_run iana true true true [name] (x ++ [x0a]) = Done mid
                /\ main_run iana' false true true [name] mid = Done (x ++ [x0a]))
    reversible_modes.
Proof.
  apply Forall_forall. intros name Hin iana iana' x.
  apply main_run_pipeline, list_elem_of_In, Hin.
Qed.

(** X11: a run of [main] with no argument, or with more than one,
    after the flags ends with the usage and status 2 whatever the flags and
    the input are, unless the first argument is a name of the IANA index
    with no encoding, which makes it panic. *)
Theorem X11_main_argument_count `{Externs} (iana : string -> iana_result)
    (encode strip emit : bool) (args : list string) (stdin : list byte) :
  length args <> 1%nat ->
  main_run iana encode strip emit args stdin = Usage
  \/ (main_run iana encode strip emit args stdin = Crashed
      /\ iana (flag_Arg0 args) = iana_nil).
Proof. apply main_run_usage_args. Qed.

Lemma X11_main_argument_count_witness :
  @main_run plain_externs (fun _ => iana_err) true true true
    ["hex"; "base64"]%string (bs "A") = Usage
  \/ (@main_run plain_externs (fun _ => iana_err) true true true
        ["hex"; "base64"]%string (bs "A") = Crashed
      /\ iana_err = iana_nil).
Proof.
  exact (@X11_main_argument_count plain_externs (fun _ => iana_err) true true true
           ["hex"; "base64"]%string (bs "A") ltac:(discriminate)).
Defined.

(** X12: a run of [main] ends with the usage and status 2 when the
    name is neither in the registry nor in the IANA index; so does a run
    that decodes when the name is [codepoint] or [hex-extended], the two
    modes without a decoder, and the index does not know the name. *)
Theorem X12_main_unknown_mode `{Externs} (iana : string -> iana_result)
    (encode strip emit : bool) (name : string) (stdin : list byte) :
  (if encode then ~ In name mode_names
   else ~ In name mode_names \/ name = "codepoint"%string \/ name = "hex-extended"%string) ->
  iana name = iana_err ->
  main_run iana encode strip emit [name] stdin = Usage.
Proof. apply main_run_unknown. Qed.

Lemma X12_main_unknown_mode_witness :
  @main_run plain_externs (fun _ => iana_err) false true true ["codepoint"%string] (bs "A")
  = Usage.
Proof.
  exact (@X12_main_unknown_mode plain_externs (fun _ => iana_err) false true true
           "codepoint"%string (bs "A") (or_intror (or_introl eq_refl)) eq_refl).
Defined.

(** X13: a name of the registry hides the IANA encoding of the same
    name: when the run encodes, or when the mode has a decoder, the outcome
    of [main] does not depend on the index. *)
Theorem X13_registry_first `{Externs} (iana iana' : string -> iana_result)
    (encode strip emit : bool) (name : string) (stdin : list byte) :
  In name mode_names ->
  encode = true \/ (name <> "codepoint"%string /\ name <> "hex-extended"%string) ->
  main_run iana encode strip emit [name] stdin
  = main_run iana' encode strip emit [name] stdin.
Proof. apply main_run_registry. Qed.

Lemma X13_registry_first_witness :
  @main_run plain_externs (fun _ => iana_nil) true true true ["hex"%string] (bs "A")
  = @main_run plain_externs (fun _ => iana_err) true true true ["hex"%string] (bs "A").
Proof.
  apply (@X13_registry_first plain_externs).
  - cbn. tauto.
  - left. reflexivity.
Defined.

(** X14: the hex-extended mode writes the dump with no newline after
    it, whatever the emit flag is. *)
Theorem X14_hex_extended_no_newline `{Externs} (iana : string -> iana_result)
    (strip emit : bool) (stdin : list byte) :
  main_run iana true strip emit ["hex-extended"%string] stdin
  = main_run iana true strip false ["hex-extended"%string] stdin
  /\ main_run iana true false emit ["hex-extended"%string] stdin = Done (hex_Dump stdin).
Proof.
  rewrite !main_run_hex_extended. split; [reflexivity|].
  unfold exec, hexExtEnc. rewrite app_nil_r. reflexivity.
Qed.

(** X15: whatever the order in which the map [modes] hands out its
    entries, [getModes] returns the seventeen names in the order of their
    bytes, separated by a comma and a space, with a star after [codepoint]
    and after [hex-extended], the two modes without a decoder. *)
Theorem X15_getModes `{Externs} (order : list (string * mode)) :
  order ≡ₚ map_to_list modes ->
  getModes_from order
  = ("base32, base32-crockford, base32-hex, base64, base64-url, codepoint*, "
     ++ "float16-hex, float32-hex, go, hex, hex-extended*, html, json, qp, rot13, "
     ++ "url-path, url-query")%string.
Proof. apply getModes_listing. Qed.

Lemma X15_getModes_witness :
  getModes_from (reverse (map_to_list (@modes plain_externs)))
  = ("base32, base32-crockford, base32-hex, base64, base64-url, codepoint*, "
     ++ "float16-hex, float32-hex, go, hex, hex-extended*, html, json, qp, rot13, "
     ++ "url-path, url-query")%string.
Proof.
  apply (@X15_getModes plain_externs). apply reverse_Permutation.
Defined.

(** X16: the hex, base64 and base32 decoders never index outside the
    buffer they allocate: on every input they return, with at most one byte
    for two of the input (hex), three for four (base64, base64-url), five
    for eight (base32, base32-hex). *)
Theorem X16_decoders_return `{Externs} (src : list byte) :
  (exists out err, hexDec src = Ret out err /\ (2 * length out <= length src)%nat)
  /\ (exists out err, base64Dec src = Ret out err
        /\ (length out <= length src / 4 * 3)%nat)
  /\ (exists out err, base64URLDec src = Ret out err
        /\ (length out <= length src / 4 * 3)%nat)
  /\ (exists out err, base32Dec src = Ret out err
        /\ (length out <= length src / 8 * 5)%nat)
  /\ (exists out err, base32HexDec src = Ret out err
        /\ (length out <= length src / 8 * 5)%nat)
  /\ (exists out err, base32CrockfordDec src = Ret out err).
Proof.
  split.
  { rewrite hexDec_decode_bytes. eexists _, _. split; [reflexivity|].
    apply hex_decode_bytes_length. }
  split; [apply (base64_dec_total base64.StdEncoding src); eexists; reflexivity|].
  split; [apply (base64_dec_total base64.URLEncoding src); eexists; reflexivity|].
  split.
  { destruct (base32_dec_total base32.StdEncoding src eq_refl) as [E Hl].
    eexists _, _. split; [exact E | exact Hl]. }
  split.
  { destruct (base32_dec_total base32.HexEncoding src eq_refl) as [E Hl].
    eexists _, _. split; [exact E | exact Hl]. }
  apply base32CrockfordDec_total.
Qed.

(** X17: the base32 and base32-hex decoders do not see the line
    feeds and the carriage returns of their input: the text with one more
    of them, anywhere, decodes to the same bytes or to the same error. *)
Theorem X17_base32_newlines (a b : list byte) :
  base32Dec (a ++ x0a :: b) = base32Dec (a ++ b)
  /\ base32Dec (a ++ x0d :: b) = base32Dec (a ++ b)
  /\ base32HexDec (a ++ x0a :: b) = base32HexDec (a ++ b)
  /\ base32HexDec (a ++ x0d :: b) = base32HexDec (a ++ b).
Proof.
  repeat split;
    first [ apply (base32_dec_insert base32.StdEncoding a b); reflexivity
          | apply (base32_dec_insert base32.HexEncoding a b); reflexivity ].
Qed.

(** X18: the go decoder returns as it is a valid UTF-8 text that
    does not start with a quote of any of the three kinds and holds no
    double quote, no backslash and no newline: it puts it between double
    quotes before it unquotes it.  The empty input is a syntax error; a
    byte that is not valid UTF-8 is no error, it comes back as the
    replacement character U+FFFD. *)
Theorem X18_go_decode_plain (src : list byte) :
  goDec [] = Ret [] (Some strconv_ErrSyntax)
  /\ goDec [xff] = Ret [xef; xbf; xbd] None
  /\ (src <> [] ->
      strconv.contains src x22 = false -> strconv.contains src x5c = false ->
      strconv.contains src x0a = false ->
      match src with
      | c :: _ => negb (byte_eqb c x60) && negb (byte_eqb c x27)
      | [] => true
      end = true ->
      utf8.ValidString src = true ->
      goDec src = Ret src None).
Proof. split; [reflexivity | split; [reflexivity | apply goDec_plain]]. Qed.

Lemma X18_go_decode_plain_witness :
  goDec (bs "it's 5%") = Ret (bs "it's 5%") None.
Proof.
  apply (proj2 (proj2 (X18_go_decode_plain (bs "it's 5%")))); [discriminate | reflexivity..].
Defined.

(** X19: the float32-hex encoder fails with the range error on a
    decimal literal of [2^128 - 2^103] or more, the value halfway between
    the largest [float32] and [2^128], and writes eight digits for every
    literal below it; the float16-hex encoder fails on the same literals
    with the same error. *)
Theorem X19_float32_range `{Externs} (w : list byte) (neg : bool) (mant exp10 : Z) :
  is_token w ->
  strconv.special strconv.float32info w = None ->
  strconv.hex_or_underscore w = false ->
  strconv.readFloat w = Some (neg, mant, exp10) ->
  0 < mant ->
  (decimal_ge mant exp10 float32_overflow ->
   float32hexEnc w = Ret [] (Some (strconv_NumError "ParseFloat" w ErrRange))
   /\ float16hexEnc w = Ret [] (Some (strconv_NumError "ParseFloat" w ErrRange)))
  /\ (~ decimal_ge mant exp10 float32_overflow ->
      exists b, 0 <= b < 2 ^ 32 /\ float32hexEnc w = Ret (fmt.fmt_X 8 b ++ bs " ") None).
Proof.
  intros Hw Hs Hh Hr Hmant.
  destruct (float32hexEnc_range w neg mant exp10 Hw Hs Hh Hr Hmant) as [H1 H2].
  split; [|exact H2].
  intros Hge. split; [apply H1, Hge|].
  apply (float16hexEnc_range w neg mant exp10); assumption.
Qed.

Lemma X19_float32_range_witness :
  (@float32hexEnc plain_externs (bs "-3.5e38")
   = Ret [] (Some (strconv_NumError "ParseFloat" (bs "-3.5e38") ErrRange))
   /\ @float16hexEnc plain_externs (bs "-3.5e38")
      = Ret [] (Some (strconv_NumError "ParseFloat" (bs "-3.5e38") ErrRange)))
  /\ exists b, 0 <= b < 2 ^ 32
       /\ @float32hexEnc plain_externs (bs "3.4e38") = Ret (fmt.fmt_X 8 b ++ bs " ") None.
Proof.
  split.
  - apply (proj1 (@X19_float32_range plain_externs (bs "-3.5e38") true 35 37
                    ltac:(split; [discriminate | repeat constructor])
                    eq_refl eq_refl eq_refl ltac:(lia))).
    vm_compute. discriminate.
  - apply (proj2 (@X19_float32_range plain_externs (bs "3.4e38") false 34 37
                    ltac:(split; [discriminate | repeat constructor])
                    eq_refl eq_refl eq_refl ltac:(lia))).
    vm_compute. intros Hle. apply Hle. reflexivity.
Defined.

(** X20: on an input of white space only, the empty input among
    them, the four float transforms write nothing and do not fail. *)
Theorem X20_float_blank `{Externs} (src : list byte) :
  Forall is_space src ->
  float32hexDec src = Ret [] None /\ float32hexEnc src = Ret [] None
  /\ float16hexDec src = Ret [] None /\ float16hexEnc src = Ret [] None.
Proof. apply float_blank. Qed.

Lemma X20_float_blank_witness :
  @float32hexDec (bs "  ") = Ret [] None
  /\ @float32hexEnc plain_externs (bs "  ") = Ret [] None
  /\ @float16hexDec plain_externs (bs "  ") = Ret [] None
  /\ @float16hexEnc plain_externs (bs "  ") = Ret [] None.
Proof.
  apply (@X20_float_blank plain_externs (bs "  ")). repeat constructor.
Defined.

(** X21: the word that the float32-hex decoder accepts has a value
    below [2^32], the one that the float16-hex decoder accepts a value
    below [2^16]: the conversions to [uint32] and to [uint16] that follow
    lose nothing. *)
Theorem X21_float_word_range (w : list byte) (s : Z) :
  (strconv.ParseUint w 16 32 = (s, None) -> 0 <= s < 2 ^ 32 /\ u32 s = s)
  /\ (strconv.ParseUint w 16 16 = (s, None) -> 0 <= s < 2 ^ 16 /\ u16 s = s).
Proof.
  split; intros E; apply ParseUint_range in E; try lia;
    (split; [exact E | apply Z.mod_small; exact E]).
Qed.

Lemma X21_float_word_range_witness :
  (0 <= 1069547520 < 2 ^ 32 /\ u32 1069547520 = 1069547520)
  /\ (0 <= 15360 < 2 ^ 16 /\ u16 15360 = 15360).
Proof.
  split.
  - exact (proj1 (X21_float_word_range (bs "3FC00000") 1069547520) eq_refl).
  - exact (proj2 (X21_float_word_range (bs "3c00") 15360) eq_refl).
Defined.


(** X23: the registry holds the seventeen names of [mode_names] and
    no other; every entry has an encoder, and the entries without a decoder
    are those of [codepoint] and of [hex-extended]. *)
Theorem X23_registry `{Externs} (name : string) :
  (In name mode_names <-> is_Some (modes !! name))
  /\ (forall m, modes !! name = Some m ->
        is_Some (encoder m)
        /\ (decoder m = None <-> name = "codepoint"%string \/ name = "hex-extended"%string)).
Proof.
  split.
  - split.
    + intros Hin. destruct (modes !! name) as [m|] eqn:E; [eauto|].
      apply modes_lookup_None in E. contradiction.
    + intros [m E]. apply (modes_lookup_Some name m E).
  - intros m E. apply (modes_lookup_Some name m E).
Qed.

(** X24: the hex encoder writes two characters for every byte of the
    input, digits and the letters a to f. *)
Theorem X24_hex_text (src : list byte) :
  exists y, hexEnc src = Ret y None
    /\ forallb hex_lower_char y = true
    /\ length y = (2 * length src)%nat.
Proof. apply hexEnc_chars. Qed.
